(** * The client connection core of MPD (src/client.c)

    A shallow embedding of the per-client I/O state machine: the line
    buffer and the read path, the line processor with command-list
    batching, the output path (coalescing send buffer, direct write,
    deferred queue) and the idle subscription protocol; and of the
    manager of the registry of clients: admission, the descriptor sets
    for [select], the I/O round over the clients, expiry, shutdown and
    the configuration.

    Conventions.
    - [size_t] values are [Z] with the wrap-around modulo [2^64] written
      at every addition and subtraction the source performs (LP64).
    - [char] is [ascii]; a [char] array is a [list ascii]; a C string
      handed to a function is the [string] of the bytes before its
      terminator.
    - The operating system is a [world]: scripted outcomes for the
      [read] and [write] system calls, [errno], a clock, and the log of
      the bytes every descriptor has accepted.
    - A function that mutates [struct client *client] takes the world
      and the client and returns both.
    - [assert]s are not executed (they compile away under NDEBUG); the
      conditions they state appear as hypotheses or as invariants. *)

From Stdlib Require Import ZArith List Lia Bool String Ascii.
Import ListNotations.
Local Open Scope Z_scope.

(** ** Machine integers and memory blocks *)

Definition SIZE_WIDTH : Z := 64.
Definition size_t (z : Z) : Z := z mod 2 ^ SIZE_WIDTH.

Definition sizeof_long : Z := 8.
Definition sizeof_size_t : Z := 8.

(** [mem_write dst off src]: the block [dst] after [length src] bytes
    have been stored at offset [off] ([memcpy], [memmove]). *)
Definition mem_write (dst : list ascii) (off : Z) (src : list ascii)
  : list ascii :=
  firstn (Z.to_nat off) dst ++ src
    ++ skipn (Z.to_nat off + List.length src) dst.

Definition take (n : Z) (l : list ascii) : list ascii :=
  firstn (Z.to_nat n) l.
Definition drop (n : Z) (l : list ascii) : list ascii :=
  skipn (Z.to_nat n) l.
Definition len (l : list ascii) : Z := Z.of_nat (List.length l).

(** ** The operating system *)

Inductive errno_t := ENONE | EAGAIN | EINTR | EBADF | EPIPE | ECONNRESET.

Definition errno_eqb (a b : errno_t) : bool :=
  match a, b with
  | ENONE, ENONE | EAGAIN, EAGAIN | EINTR, EINTR | EBADF, EBADF
  | EPIPE, EPIPE | ECONNRESET, ECONNRESET => true
  | _, _ => false
  end.

(** What the next [write] call does: accept up to [n] bytes, or fail. *)
Inductive write_result := WBytes (n : Z) | WErr (e : errno_t).

(** What the next [read] call does: deliver bytes (none: end of file),
    or fail. *)
Inductive read_result := RBytes (bs : list ascii) | RErr (e : errno_t).

Record world := mkWorld {
  writes : list write_result;      (* outcomes of the coming write calls *)
  reads : list read_result;        (* outcomes of the coming read calls *)
  wire : list (Z * list ascii);    (* bytes accepted, per call: (fd, bytes) *)
  closed : list Z;                 (* descriptors passed to xclose *)
  errno : errno_t;
  now : Z                          (* what time(NULL) returns *)
}.

Definition set_errno (w : world) (e : errno_t) : world :=
  mkWorld (writes w) (reads w) (wire w) (closed w) e (now w).

(** [write(fd, data, count)]: a closed descriptor fails with EBADF; an
    exhausted script accepts everything. The count returned never exceeds
    [count]. *)
Definition sys_write (w : world) (fd : Z) (data : list ascii) (count : Z)
  : Z * world :=
  if fd <? 0 then (-1, set_errno w EBADF)
  else
    match writes w with
    | [] =>
        (count,
         mkWorld [] (reads w) (wire w ++ [(fd, take count data)])
                 (closed w) (errno w) (now w))
    | WBytes n :: rest =>
        let r := Z.max 0 (Z.min n count) in
        (r,
         mkWorld rest (reads w) (wire w ++ [(fd, take r data)])
                 (closed w) (errno w) (now w))
    | WErr e :: rest =>
        (-1, mkWorld rest (reads w) (wire w) (closed w) e (now w))
    end.

(** [read(fd, buf, count)]: returns the count and the bytes stored at
    [buf]. Bytes of a script entry that do not fit stay for the next
    call; an exhausted script is end of file. *)
Definition sys_read (w : world) (fd : Z) (count : Z)
  : Z * list ascii * world :=
  if fd <? 0 then (-1, [], set_errno w EBADF)
  else
    match reads w with
    | [] => (0, [], w)
    | RBytes bs :: rest =>
        let got := take count bs in
        let left := drop count bs in
        (len got, got,
         mkWorld (writes w)
                 (match left with [] => rest | _ => RBytes left :: rest end)
                 (wire w) (closed w) (errno w) (now w))
    | RErr e :: rest =>
        (-1, [], mkWorld (writes w) rest (wire w) (closed w) e (now w))
    end.

Definition xclose (w : world) (fd : Z) : world :=
  mkWorld (writes w) (reads w) (wire w) (closed w ++ [fd]) (errno w) (now w).

(** The bytes descriptor [fd] has accepted so far, in order. *)
Definition delivered (fd : Z) (w : world) : list ascii :=
  flat_map (fun e => if fst e =? fd then snd e else []) (wire w).

(** ** Data model *)

Definition CLIENT_LIST_MODE_BEGIN : string := "command_list_begin".
Definition CLIENT_LIST_OK_MODE_BEGIN : string := "command_list_ok_begin".
Definition CLIENT_LIST_MODE_END : string := "command_list_end".
Definition CLIENT_TIMEOUT_DEFAULT : Z := 60.
Definition CLIENT_MAX_CONNECTIONS_DEFAULT : Z := 10.
Definition CLIENT_MAX_COMMAND_LIST_DEFAULT : Z := 2048 * 1024.
Definition CLIENT_MAX_OUTPUT_BUFFER_SIZE_DEFAULT : Z := 8192 * 1024.

Definition COMMAND_RETURN_KILL : Z := 10.
Definition COMMAND_RETURN_CLOSE : Z := 20.

(** [sizeof(client->buffer)] and [sizeof(client->send_buf)]. *)
Definition sizeof_buffer : Z := 4096.
Definition sizeof_send_buf : Z := 4096.

Record deferred_buffer := mkDeferred {
  size : Z;
  data : list ascii
}.

(** [sizeof( *buf)] and the per-chunk overhead
    [sizeof( *buf) - sizeof(buf->data)]. *)
Definition sizeof_deferred_buffer : Z := sizeof_size_t + sizeof_long.
Definition deferred_overhead : Z := sizeof_deferred_buffer - sizeof_long.

Record client := mkClient {
  buffer : list ascii;
  bufferLength : Z;
  bufferPos : Z;
  fd : Z;                          (* file descriptor; -1 if expired *)
  permission : Z;
  uid : Z;
  lastTime : Z;
  cmd_list : list string;          (* for when in list mode *)
  cmd_list_OK : Z;                 (* print OK after each command execution *)
  cmd_list_size : Z;               (* mem cmd_list consumes *)
  deferred_send : list deferred_buffer;
  deferred_bytes : Z;              (* mem deferred_send consumes *)
  num : Z;
  send_buf : list ascii;
  send_buf_used : Z;               (* bytes used this instance *)
  idle_waiting : bool;
  idle_flags : Z;
  idle_subscriptions : Z
}.

Definition set_buffer (c : client) (v : list ascii) : client :=
  mkClient v (bufferLength c) (bufferPos c) (fd c) (permission c) (uid c)
    (lastTime c) (cmd_list c) (cmd_list_OK c) (cmd_list_size c)
    (deferred_send c) (deferred_bytes c) (num c) (send_buf c)
    (send_buf_used c) (idle_waiting c) (idle_flags c) (idle_subscriptions c).
Definition set_bufferLength (c : client) (v : Z) : client :=
  mkClient (buffer c) v (bufferPos c) (fd c) (permission c) (uid c)
    (lastTime c) (cmd_list c) (cmd_list_OK c) (cmd_list_size c)
    (deferred_send c) (deferred_bytes c) (num c) (send_buf c)
    (send_buf_used c) (idle_waiting c) (idle_flags c) (idle_subscriptions c).
Definition set_bufferPos (c : client) (v : Z) : client :=
  mkClient (buffer c) (bufferLength c) v (fd c) (permission c) (uid c)
    (lastTime c) (cmd_list c) (cmd_list_OK c) (cmd_list_size c)
    (deferred_send c) (deferred_bytes c) (num c) (send_buf c)
    (send_buf_used c) (idle_waiting c) (idle_flags c) (idle_subscriptions c).
Definition set_fd (c : client) (v : Z) : client :=
  mkClient (buffer c) (bufferLength c) (bufferPos c) v (permission c) (uid c)
    (lastTime c) (cmd_list c) (cmd_list_OK c) (cmd_list_size c)
    (deferred_send c) (deferred_bytes c) (num c) (send_buf c)
    (send_buf_used c) (idle_waiting c) (idle_flags c) (idle_subscriptions c).
Definition set_lastTime (c : client) (v : Z) : client :=
  mkClient (buffer c) (bufferLength c) (bufferPos c) (fd c) (permission c)
    (uid c) v (cmd_list c) (cmd_list_OK c) (cmd_list_size c)
    (deferred_send c) (deferred_bytes c) (num c) (send_buf c)
    (send_buf_used c) (idle_waiting c) (idle_flags c) (idle_subscriptions c).
Definition set_cmd_list (c : client) (v : list string) : client :=
  mkClient (buffer c) (bufferLength c) (bufferPos c) (fd c) (permission c)
    (uid c) (lastTime c) v (cmd_list_OK c) (cmd_list_size c)
    (deferred_send c) (deferred_bytes c) (num c) (send_buf c)
    (send_buf_used c) (idle_waiting c) (idle_flags c) (idle_subscriptions c).
Definition set_cmd_list_OK (c : client) (v : Z) : client :=
  mkClient (buffer c) (bufferLength c) (bufferPos c) (fd c) (permission c)
    (uid c) (lastTime c) (cmd_list c) v (cmd_list_size c)
    (deferred_send c) (deferred_bytes c) (num c) (send_buf c)
    (send_buf_used c) (idle_waiting c) (idle_flags c) (idle_subscriptions c).
Definition set_cmd_list_size (c : client) (v : Z) : client :=
  mkClient (buffer c) (bufferLength c) (bufferPos c) (fd c) (permission c)
    (uid c) (lastTime c) (cmd_list c) (cmd_list_OK c) v
    (deferred_send c) (deferred_bytes c) (num c) (send_buf c)
    (send_buf_used c) (idle_waiting c) (idle_flags c) (idle_subscriptions c).
Definition set_deferred_send (c : client) (v : list deferred_buffer)
  : client :=
  mkClient (buffer c) (bufferLength c) (bufferPos c) (fd c) (permission c)
    (uid c) (lastTime c) (cmd_list c) (cmd_list_OK c) (cmd_list_size c)
    v (deferred_bytes c) (num c) (send_buf c)
    (send_buf_used c) (idle_waiting c) (idle_flags c) (idle_subscriptions c).
Definition set_deferred_bytes (c : client) (v : Z) : client :=
  mkClient (buffer c) (bufferLength c) (bufferPos c) (fd c) (permission c)
    (uid c) (lastTime c) (cmd_list c) (cmd_list_OK c) (cmd_list_size c)
    (deferred_send c) v (num c) (send_buf c)
    (send_buf_used c) (idle_waiting c) (idle_flags c) (idle_subscriptions c).
Definition set_send_buf (c : client) (v : list ascii) : client :=
  mkClient (buffer c) (bufferLength c) (bufferPos c) (fd c) (permission c)
    (uid c) (lastTime c) (cmd_list c) (cmd_list_OK c) (cmd_list_size c)
    (deferred_send c) (deferred_bytes c) (num c) v
    (send_buf_used c) (idle_waiting c) (idle_flags c) (idle_subscriptions c).
Definition set_send_buf_used (c : client) (v : Z) : client :=
  mkClient (buffer c) (bufferLength c) (bufferPos c) (fd c) (permission c)
    (uid c) (lastTime c) (cmd_list c) (cmd_list_OK c) (cmd_list_size c)
    (deferred_send c) (deferred_bytes c) (num c) (send_buf c)
    v (idle_waiting c) (idle_flags c) (idle_subscriptions c).
Definition set_idle_waiting (c : client) (v : bool) : client :=
  mkClient (buffer c) (bufferLength c) (bufferPos c) (fd c) (permission c)
    (uid c) (lastTime c) (cmd_list c) (cmd_list_OK c) (cmd_list_size c)
    (deferred_send c) (deferred_bytes c) (num c) (send_buf c)
    (send_buf_used c) v (idle_flags c) (idle_subscriptions c).
Definition set_idle_flags (c : client) (v : Z) : client :=
  mkClient (buffer c) (bufferLength c) (bufferPos c) (fd c) (permission c)
    (uid c) (lastTime c) (cmd_list c) (cmd_list_OK c) (cmd_list_size c)
    (deferred_send c) (deferred_bytes c) (num c) (send_buf c)
    (send_buf_used c) (idle_waiting c) v (idle_subscriptions c).
Definition set_idle_subscriptions (c : client) (v : Z) : client :=
  mkClient (buffer c) (bufferLength c) (bufferPos c) (fd c) (permission c)
    (uid c) (lastTime c) (cmd_list c) (cmd_list_OK c) (cmd_list_size c)
    (deferred_send c) (deferred_bytes c) (num c) (send_buf c)
    (send_buf_used c) (idle_waiting c) (idle_flags c) v.

Definition set_num (c : client) (v : Z) : client :=
  mkClient (buffer c) (bufferLength c) (bufferPos c) (fd c) (permission c)
    (uid c) (lastTime c) (cmd_list c) (cmd_list_OK c) (cmd_list_size c)
    (deferred_send c) (deferred_bytes c) v (send_buf c)
    (send_buf_used c) (idle_waiting c) (idle_flags c) (idle_subscriptions c).

Definition client_get_uid (c : client) : Z := uid c.
Definition client_get_permission (c : client) : Z := permission c.
Definition client_set_permission (c : client) (v : Z) : client :=
  mkClient (buffer c) (bufferLength c) (bufferPos c) (fd c) v
    (uid c) (lastTime c) (cmd_list c) (cmd_list_OK c) (cmd_list_size c)
    (deferred_send c) (deferred_bytes c) (num c) (send_buf c)
    (send_buf_used c) (idle_waiting c) (idle_flags c) (idle_subscriptions c).

(** ** Expiry *)

Definition client_is_expired (c : client) : bool := fd c <? 0.

Definition client_set_expired (w : world) (c : client) : world * client :=
  if 0 <=? fd c then (xclose w (fd c), set_fd c (-1)) else (w, c).

(** ** Output path *)

Section Output.

(** The tunable [client_max_output_buffer_size], fixed after init. *)
Variable client_max_output_buffer_size : Z.

(** The body of the [while] loop of [client_write_deferred]; [q] is the
    queue [client->deferred_send] and [ret] the last value [write]
    returned. *)
Fixpoint client_write_deferred_loop (q : list deferred_buffer) (ret : Z)
    (w : world) (c : client) : Z * world * client :=
  match q with
  | [] => (ret, w, c)
  | buf :: rest =>
      let '(ret, w) := sys_write w (fd c) (data buf) (size buf) in
      if ret <? 0 then (ret, w, c)
      else if ret <? size buf then
        let c := set_deferred_bytes c (size_t (deferred_bytes c - ret)) in
        let n := size_t (size buf - ret) in
        let buf := mkDeferred n (mem_write (data buf) 0
                                   (take n (drop ret (data buf)))) in
        (ret, w, set_deferred_send c (buf :: rest))
      else
        let decr := size_t (sizeof_deferred_buffer - sizeof_long
                            + size buf) in
        let c := set_deferred_bytes c (size_t (deferred_bytes c - decr)) in
        let c := set_deferred_send c rest in
        let c := set_lastTime c (now w) in
        client_write_deferred_loop rest ret w c
  end.

Definition client_write_deferred (w : world) (c : client)
  : world * client :=
  let '(ret, w, c) := client_write_deferred_loop (deferred_send c) 0 w c in
  match deferred_send c with
  | [] => (w, c)
  | _ :: _ =>
      if (ret <? 0) && negb (errno_eqb (errno w) EAGAIN)
         && negb (errno_eqb (errno w) EINTR)
      then client_set_expired w c
      else (w, c)
  end.

(** [client_defer_output(client, data, length)]: [src] is the memory at
    [data], of which the first [length] bytes are copied. *)
Definition client_defer_output (w : world) (c : client)
    (src : list ascii) (length : Z) : world * client :=
  let alloc := size_t (sizeof_deferred_buffer - sizeof_long + length) in
  let c := set_deferred_bytes c (size_t (deferred_bytes c + alloc)) in
  if deferred_bytes c >? client_max_output_buffer_size then
    client_set_expired w c
  else
    let buf := mkDeferred length (take length src) in
    (w, set_deferred_send c (deferred_send c ++ [buf])).

Definition client_write_direct (w : world) (c : client)
    (src : list ascii) (length : Z) : world * client :=
  let '(ret, w) := sys_write w (fd c) src length in
  if ret <? 0 then
    if errno_eqb (errno w) EAGAIN || errno_eqb (errno w) EINTR then
      client_defer_output w c src length
    else
      client_set_expired w c
  else if ret <? send_buf_used c then
    client_defer_output w c (drop ret src) (size_t (length - ret))
  else (w, c).

Definition client_write_output (w : world) (c : client) : world * client :=
  if client_is_expired c || (send_buf_used c =? 0) then (w, c)
  else
    let '(w, c) :=
      match deferred_send c with
      | _ :: _ =>
          let '(w, c) :=
            client_defer_output w c (send_buf c) (send_buf_used c) in
          client_write_deferred w c
      | [] => client_write_direct w c (send_buf c) (send_buf_used c)
      end in
    (w, set_send_buf_used c 0).

(** The [while] loop of [client_write]; [buffer] is the list of the
    [buflen] bytes still to copy. Every round with room in [send_buf]
    consumes at least one byte, so [fuel] rounds are enough when [fuel]
    exceeds the number of bytes. *)
Fixpoint client_write_loop (fuel : nat) (w : world) (c : client)
    (buffer : list ascii) : world * client :=
  match fuel with
  | O => (w, c)
  | S fuel =>
      let buflen := len buffer in
      if (0 <? buflen) && negb (client_is_expired c) then
        let copylen := size_t (sizeof_send_buf - send_buf_used c) in
        let copylen := if copylen >? buflen then buflen else copylen in
        let c := set_send_buf c (mem_write (send_buf c) (send_buf_used c)
                                   (take copylen buffer)) in
        let c := set_send_buf_used c (size_t (send_buf_used c + copylen)) in
        let buffer := drop copylen buffer in
        let '(w, c) :=
          if send_buf_used c >=? sizeof_send_buf
          then client_write_output w c else (w, c) in
        client_write_loop fuel w c buffer
      else (w, c)
  end.

Definition client_write (w : world) (c : client) (buffer : list ascii)
  : world * client :=
  if client_is_expired c then (w, c)
  else client_write_loop (S (List.length buffer)) w c buffer.

Definition client_puts (w : world) (c : client) (s : string)
  : world * client :=
  client_write w c (list_ascii_of_string s).

End Output.

(** ** The printf facade *)

(** The one-character string of the line terminator. *)
Definition newline_string : string := String "010" "".

(** One call of [vsnprintf] on a format and its arguments: [vs_length] is
    what the sizing pass [vsnprintf(NULL, 0, fmt, tmp)] returns and
    [vs_text] the characters the formatting pass stores. *)
Record format_call := mkFormat {
  vs_length : Z;
  vs_text : list ascii
}.

(** [vsnprintf] on ["changed: %s\n"] and a name. *)
Definition format_changed (name : string) : format_call :=
  let text := list_ascii_of_string ("changed: " ++ name ++ newline_string) in
  mkFormat (len text) text.

Section Printf.

Variable client_max_output_buffer_size : Z.

Definition client_vprintf (w : world) (c : client) (f : format_call)
  : world * client :=
  let length := vs_length f in
  if length <=? 0 then (w, c)
  else
    let buffer := take length (vs_text f) in
    client_write client_max_output_buffer_size w c buffer.

Definition client_printf (w : world) (c : client) (f : format_call)
  : world * client :=
  client_vprintf w c f.

End Printf.

(** ** Idle subscription protocol *)

Section Idle.

Variable client_max_output_buffer_size : Z.

(** The table [idle_get_names()] returns, without its NULL terminator. *)
Variable idle_names : list string.

Local Abbreviation client_puts :=
  (client_puts client_max_output_buffer_size).
Local Abbreviation client_printf :=
  (client_printf client_max_output_buffer_size).
Local Abbreviation client_write_output :=
  (client_write_output client_max_output_buffer_size).

(** The [for] loop of [client_idle_notify] from index [i] on; [names] is
    the rest of the table. *)
Fixpoint client_idle_notify_loop (names : list string) (i : Z) (flags : Z)
    (w : world) (c : client) : world * client :=
  match names with
  | [] => (w, c)
  | name :: rest =>
      let '(w, c) :=
        if negb (Z.land (Z.land flags (Z.shiftl 1 i))
                        (idle_subscriptions c) =? 0)
        then client_printf w c (format_changed name)
        else (w, c) in
      client_idle_notify_loop rest (i + 1) flags w c
  end.

Definition client_idle_notify (w : world) (c : client) : world * client :=
  let flags := idle_flags c in
  let c := set_idle_flags c 0 in
  let c := set_idle_waiting c false in
  let '(w, c) := client_idle_notify_loop idle_names 0 flags w c in
  let '(w, c) := client_puts w c ("OK" ++ newline_string) in
  (w, set_lastTime c (now w)).

(** [client_manager_idle_add] walks the registry [clients]. *)
Fixpoint client_manager_idle_add (w : world) (clients : list client)
    (flags : Z) : world * list client :=
  match clients with
  | [] => (w, [])
  | c :: rest =>
      let '(w, c) :=
        if client_is_expired c then (w, c)
        else
          let c := set_idle_flags c (Z.lor (idle_flags c) flags) in
          if idle_waiting c
             && negb (Z.land (idle_flags c) (idle_subscriptions c) =? 0)
          then
            let '(w, c) := client_idle_notify w c in
            client_write_output w c
          else (w, c) in
      let '(w, rest) := client_manager_idle_add w rest flags in
      (w, c :: rest)
  end.

Definition client_idle_wait (w : world) (c : client) (flags : Z)
  : bool * world * client :=
  let c := set_idle_waiting c true in
  let c := set_idle_subscriptions c flags in
  if negb (Z.land (idle_flags c) (idle_subscriptions c) =? 0) then
    let '(w, c) := client_idle_notify w c in
    (true, w, c)
  else (false, w, c).

End Idle.

(** ** Line processor and read path *)

(** The C string that starts at offset [start] of [mem]: the characters
    before the first NUL. *)
Fixpoint c_string (l : list ascii) : string :=
  match l with
  | [] => EmptyString
  | ch :: rest => if Ascii.eqb ch zero then EmptyString
                  else String ch (c_string rest)
  end.

Definition c_string_at (mem : list ascii) (start : Z) : string :=
  c_string (drop start mem).

Definition strlen (s : string) : Z := Z.of_nat (String.length s).

(** [memchr(mem + start, ch, n)]: the offset in [mem] of the first [ch]
    among the [n] bytes from [start], if any. *)
Fixpoint find_char (ch : ascii) (l : list ascii) (at_ : Z) : option Z :=
  match l with
  | [] => None
  | x :: rest => if Ascii.eqb x ch then Some at_
                 else find_char ch rest (at_ + 1)
  end.

Definition memchr (mem : list ascii) (start : Z) (ch : ascii) (n : Z)
  : option Z :=
  find_char ch (take n (drop start mem)) start.

Definition char_at (mem : list ascii) (i : Z) : ascii :=
  nth (Z.to_nat i) mem zero.

Definition newline_char : ascii := "010".
Definition return_char : ascii := "013".

Section Lines.

Variable client_max_output_buffer_size : Z.
Variable client_max_command_list_size : Z.

(** Collaborators of command.c: they receive the client and may emit
    output and change it. *)
Variable command_process : world -> client -> string -> Z * world * client.
Variable command_process_list :
  world -> client -> Z -> list string -> Z * world * client.

Local Abbreviation client_puts :=
  (client_puts client_max_output_buffer_size).
Local Abbreviation client_write_output :=
  (client_write_output client_max_output_buffer_size).

(** Modelled from the spec: [command_success] of command.c is not part of
    the sources at hand; on a success code the trailing OK line is
    emitted. *)
Definition command_success (w : world) (c : client) : world * client :=
  client_puts w c ("OK" ++ newline_string).

Definition new_cmd_list_ptr (c : client) (s : string) : client :=
  set_cmd_list c (s :: cmd_list c).

Definition client_process_line (w : world) (c : client) (line : string)
  : Z * world * client :=
  if String.eqb line "noidle" then
    if idle_waiting c then
      let c := set_idle_waiting c false in
      let '(w, c) := command_success w c in
      let '(w, c) := client_write_output w c in
      (0, w, c)
    else (0, w, c)
  else if idle_waiting c then (COMMAND_RETURN_CLOSE, w, c)
  else if cmd_list_OK c >=? 0 then
    if String.eqb line CLIENT_LIST_MODE_END then
      let c := set_cmd_list c (rev (cmd_list c)) in
      let '(ret, w, c) :=
        command_process_list w c (cmd_list_OK c) (cmd_list c) in
      if (ret =? COMMAND_RETURN_CLOSE) || client_is_expired c then
        (COMMAND_RETURN_CLOSE, w, c)
      else
        let '(w, c) := if ret =? 0 then command_success w c else (w, c) in
        let '(w, c) := client_write_output w c in
        let c := set_cmd_list c [] in
        let c := set_cmd_list_OK c (-1) in
        (ret, w, c)
    else
      let len := size_t (strlen line + 1) in
      let c := set_cmd_list_size c (size_t (cmd_list_size c + len)) in
      if cmd_list_size c >? client_max_command_list_size then
        (COMMAND_RETURN_CLOSE, w, c)
      else (1, w, new_cmd_list_ptr c line)
  else if String.eqb line CLIENT_LIST_MODE_BEGIN then
    (1, w, set_cmd_list_OK c 0)
  else if String.eqb line CLIENT_LIST_OK_MODE_BEGIN then
    (1, w, set_cmd_list_OK c 1)
  else
    let '(ret, w, c) := command_process w c line in
    if (ret =? COMMAND_RETURN_CLOSE) || client_is_expired c then
      (COMMAND_RETURN_CLOSE, w, c)
    else
      let '(w, c) := if ret =? 0 then command_success w c else (w, c) in
      let '(w, c) := client_write_output w c in
      (ret, w, c).

(** The [while] loop of [client_input_received]: [start] and [end_] are
    the offsets of the pointers of these names in [client->buffer]. The
    result is [inl ret] when the loop returns [ret] and [inr start] when
    it runs to its end. Every round moves [start] forward, so [fuel]
    rounds are enough when [fuel] exceeds [end_ - start]. *)
Fixpoint client_input_loop (fuel : nat) (w : world) (c : client)
    (start end_ : Z) : (Z + Z) * world * client :=
  match fuel with
  | O => (inr start, w, c)
  | S fuel =>
      match memchr (buffer c) start newline_char (end_ - start) with
      | None => (inr start, w, c)
      | Some newline =>
          let next := newline + 1 in
          let newline :=
            if (newline >? start)
               && Ascii.eqb (char_at (buffer c) (newline - 1)) return_char
            then newline - 1 else newline in
          let c := set_buffer c (mem_write (buffer c) newline [zero]) in
          let '(ret, w, c) :=
            client_process_line w c (c_string_at (buffer c) start) in
          if (ret =? COMMAND_RETURN_KILL) || (ret =? COMMAND_RETURN_CLOSE)
          then (inl ret, w, c)
          else if client_is_expired c then (inl COMMAND_RETURN_CLOSE, w, c)
          else client_input_loop fuel w c next end_
      end
  end.

Definition client_input_received (w : world) (c : client) (bytesRead : Z)
  : Z * world * client :=
  let start := bufferPos c in
  let c := set_bufferLength c (size_t (bufferLength c + bytesRead)) in
  let end_ := bufferLength c in
  match client_input_loop (S (Z.to_nat (end_ - start))) w c start end_ with
  | (inl ret, w, c) => (ret, w, c)
  | (inr start, w, c) =>
      let c := set_bufferPos c start in
      if bufferLength c =? sizeof_buffer then
        if bufferPos c =? 0 then (COMMAND_RETURN_CLOSE, w, c)
        else
          let c := set_bufferLength c
                     (size_t (bufferLength c - bufferPos c)) in
          let c := set_buffer c
                     (mem_write (buffer c) 0
                        (take (bufferLength c)
                           (drop (bufferPos c) (buffer c)))) in
          (0, w, set_bufferPos c 0)
      else (0, w, c)
  end.

Definition client_read (w : world) (c : client) : Z * world * client :=
  let '(bytesRead, bytes, w) :=
    sys_read w (fd c) (size_t (sizeof_buffer - bufferLength c)) in
  let c := set_buffer c (mem_write (buffer c) (bufferLength c) bytes) in
  if bytesRead >? 0 then client_input_received w c bytesRead
  else if (bytesRead <? 0) && errno_eqb (errno w) EINTR then (0, w, c)
  else (COMMAND_RETURN_CLOSE, w, c).

End Lines.

(** ** Construction *)

(** What [xcalloc(1, sizeof( *client))] returns. *)
Definition client_zero : client :=
  mkClient (repeat zero (Z.to_nat sizeof_buffer)) 0 0 0 0 0 0 [] 0 0 [] 0 0
    (repeat zero (Z.to_nat sizeof_send_buf)) 0 false 0 0.

Section Init.

(** The macro PROTOCOL_VERSION and the value of [getDefaultPermissions()]
    come from other files. *)
Variable PROTOCOL_VERSION : string.
Variable default_permissions : Z.

Definition GREETING : string :=
  "OK MPD " ++ PROTOCOL_VERSION ++ newline_string.

(** Modelled from the spec: [xwrite] of utils.c is not part of the
    sources at hand; the greeting is written in full with a blocking
    write. *)
Definition xwrite (w : world) (fd : Z) (src : list ascii) : world :=
  mkWorld (writes w) (reads w) (wire w ++ [(fd, src)]) (closed w)
    (errno w) (now w).

(** [client_init(client, fd)]; [sock] is the argument [fd] and
    [next_client_num] the value of the static counter, which the caller
    advances. *)
Definition client_init (w : world) (c : client) (sock : Z)
    (next_client_num : Z) : world * client :=
  let c := set_cmd_list_size c 0 in
  let c := set_cmd_list_OK c (-1) in
  let c := set_bufferLength c 0 in
  let c := set_bufferPos c 0 in
  let c := set_fd c sock in
  let c := set_lastTime c (now w) in
  let c := set_cmd_list c [] in
  let c := set_deferred_send c [] in
  let c := set_deferred_bytes c 0 in
  let c := set_num c next_client_num in
  let c := set_send_buf_used c 0 in
  let c := client_set_permission c default_permissions in
  (xwrite w sock (list_ascii_of_string GREETING), c).

End Init.


(** ** The client manager *)

(** [unsigned int] is 32 bits wide; [int_of_long] is the conversion of a
    [long] to [int] (the value modulo [2^32], read as signed). *)
Definition UINT_WIDTH : Z := 32.
Definition uint (z : Z) : Z := z mod 2 ^ UINT_WIDTH.
Definition int_of_long (z : Z) : Z := (z + 2 ^ 31) mod 2 ^ UINT_WIDTH - 2 ^ 31.

Definition set_uid (c : client) (v : Z) : client :=
  mkClient (buffer c) (bufferLength c) (bufferPos c) (fd c) (permission c)
    v (lastTime c) (cmd_list c) (cmd_list_OK c) (cmd_list_size c)
    (deferred_send c) (deferred_bytes c) (num c) (send_buf c)
    (send_buf_used c) (idle_waiting c) (idle_flags c) (idle_subscriptions c).

(** The file-scope variables of client.c: the list [clients] (its first
    element is the one [list_add] inserted last), [num_clients], the
    counter [next_client_num] of [client_init], and the four tunables. *)
Record manager := mkManager {
  clients : list client;
  num_clients : Z;
  next_client_num : Z;
  client_max_connections : Z;
  client_timeout : Z;
  client_max_command_list_size : Z;
  client_max_output_buffer_size : Z
}.

Definition set_clients (m : manager) (v : list client) : manager :=
  mkManager v (num_clients m) (next_client_num m) (client_max_connections m)
    (client_timeout m) (client_max_command_list_size m)
    (client_max_output_buffer_size m).
Definition set_num_clients (m : manager) (v : Z) : manager :=
  mkManager (clients m) v (next_client_num m) (client_max_connections m)
    (client_timeout m) (client_max_command_list_size m)
    (client_max_output_buffer_size m).
Definition set_next_client_num (m : manager) (v : Z) : manager :=
  mkManager (clients m) (num_clients m) v (client_max_connections m)
    (client_timeout m) (client_max_command_list_size m)
    (client_max_output_buffer_size m).
Definition set_client_max_connections (m : manager) (v : Z) : manager :=
  mkManager (clients m) (num_clients m) (next_client_num m) v
    (client_timeout m) (client_max_command_list_size m)
    (client_max_output_buffer_size m).
Definition set_client_timeout (m : manager) (v : Z) : manager :=
  mkManager (clients m) (num_clients m) (next_client_num m)
    (client_max_connections m) v (client_max_command_list_size m)
    (client_max_output_buffer_size m).
Definition set_client_max_command_list_size (m : manager) (v : Z)
  : manager :=
  mkManager (clients m) (num_clients m) (next_client_num m)
    (client_max_connections m) (client_timeout m) v
    (client_max_output_buffer_size m).
Definition set_client_max_output_buffer_size (m : manager) (v : Z)
  : manager :=
  mkManager (clients m) (num_clients m) (next_client_num m)
    (client_max_connections m) (client_timeout m)
    (client_max_command_list_size m) v.

(** The variables as the program starts: the initialisers of the file,
    zero where there is none. *)
Definition manager_start : manager :=
  mkManager [] 0 0 0 CLIENT_TIMEOUT_DEFAULT CLIENT_MAX_COMMAND_LIST_DEFAULT
    CLIENT_MAX_OUTPUT_BUFFER_SIZE_DEFAULT.

(** [client_close(client)]. [list_del] unlinks the client from the list:
    the traversals below leave a closed client out of the list they
    return. The command list, the deferred queue and the client itself
    are freed, so what remains of the call is the counter and the
    descriptor. *)
Definition client_close (w : world) (num_clients : Z) (c : client)
  : world * Z :=
  let num_clients := uint (num_clients - 1) in
  let '(w, _) := client_set_expired w c in
  (w, num_clients).

Section New.

Variable PROTOCOL_VERSION : string.
Variable default_permissions : Z.

(** [client_new(fd, addr, uid)]; [sock] is the argument [fd]. The
    address is only logged. *)
Definition client_new (w : world) (m : manager) (sock uid : Z)
  : world * manager :=
  if num_clients m >=? client_max_connections m then (xclose w sock, m)
  else
    let m := set_num_clients m (uint (num_clients m + 1)) in
    let '(w, c) :=
      client_init PROTOCOL_VERSION default_permissions w client_zero sock
        (next_client_num m) in
    let m := set_next_client_num m (uint (next_client_num m + 1)) in
    let c := set_uid c uid in
    (w, set_clients m (c :: clients m)).

End New.

(** The loop of [client_close_all]. *)
Fixpoint client_close_all_loop (w : world) (num_clients : Z)
    (cs : list client) : world * Z :=
  match cs with
  | [] => (w, num_clients)
  | c :: rest =>
      let '(w, num_clients) := client_close w num_clients c in
      client_close_all_loop w num_clients rest
  end.

Definition client_close_all (w : world) (m : manager) : world * manager :=
  let '(w, _) := client_close_all_loop w (num_clients m) (clients m) in
  (w, set_num_clients (set_clients m []) 0).

Definition client_manager_deinit (w : world) (m : manager)
  : world * manager :=
  let '(w, m) := client_close_all w m in
  (w, set_client_max_connections m 0).

(** The loop of [client_manager_expire] over the clients [cs]; the
    result lists the clients that stay. [time_t] is a signed 64-bit
    integer and the clock is far from its bounds. *)
Fixpoint client_manager_expire_loop (client_timeout : Z) (w : world)
    (num_clients : Z) (cs : list client) : world * Z * list client :=
  match cs with
  | [] => (w, num_clients, [])
  | c :: rest =>
      if client_is_expired c then
        let '(w, num_clients) := client_close w num_clients c in
        client_manager_expire_loop client_timeout w num_clients rest
      else if negb (idle_waiting c)
              && (now w - lastTime c >? client_timeout) then
        let '(w, num_clients) := client_close w num_clients c in
        client_manager_expire_loop client_timeout w num_clients rest
      else
        let '(w, num_clients, rest) :=
          client_manager_expire_loop client_timeout w num_clients rest in
        (w, num_clients, c :: rest)
  end.

Definition client_manager_expire (w : world) (m : manager)
  : world * manager :=
  let '(w, n, cs) :=
    client_manager_expire_loop (client_timeout m) w (num_clients m)
      (clients m) in
  (w, set_clients (set_num_clients m n) cs).

(** *** Descriptor sets *)

(** An [fd_set] as the list of the descriptors that are set. *)
Definition fd_set := list Z.

Definition FD_ZERO : fd_set := [].
Definition FD_SET (fd : Z) (fds : fd_set) : fd_set := fd :: fds.

(** [FD_ISSET(fd, set)] tells whether a valid descriptor is set.
    [client_manager_io] evaluates it on the descriptor of every client,
    which is -1 once the client is expired; a negative descriptor is
    outside what the macro is specified for, and what it yields there
    depends on the C library. The model takes it as an input:
    [invalid fd fds]. *)
Definition FD_ISSET (invalid : Z -> fd_set -> bool) (fd : Z) (fds : fd_set)
  : bool :=
  if fd <? 0 then invalid fd fds else existsb (Z.eqb fd) fds.

Definition g_queue_is_empty (q : list deferred_buffer) : bool :=
  match q with [] => true | _ :: _ => false end.

(** The loops of [client_manager_register_read_fd] and
    [client_manager_register_write_fd]. *)
Fixpoint register_read_loop (cs : list client) (fds : fd_set) (fdmax : Z)
  : fd_set * Z :=
  match cs with
  | [] => (fds, fdmax)
  | c :: rest =>
      let '(fds, fdmax) :=
        if negb (client_is_expired c) && g_queue_is_empty (deferred_send c)
        then (FD_SET (fd c) fds, if fdmax <? fd c then fd c else fdmax)
        else (fds, fdmax) in
      register_read_loop rest fds fdmax
  end.

Fixpoint register_write_loop (cs : list client) (fds : fd_set) (fdmax : Z)
  : fd_set * Z :=
  match cs with
  | [] => (fds, fdmax)
  | c :: rest =>
      let '(fds, fdmax) :=
        if (fd c >=? 0) && negb (client_is_expired c)
           && negb (g_queue_is_empty (deferred_send c))
        then (FD_SET (fd c) fds, if fdmax <? fd c then fd c else fdmax)
        else (fds, fdmax) in
      register_write_loop rest fds fdmax
  end.

Section Register.

(** [addListenSocketsToFdSet] of listen.c sets the listening sockets and
    raises [fdmax]. *)
Variable addListenSocketsToFdSet : fd_set -> Z -> fd_set * Z.

Definition client_manager_register_read_fd (m : manager) (fdmax : Z)
  : fd_set * Z :=
  let fds := FD_ZERO in
  let '(fds, fdmax) := addListenSocketsToFdSet fds fdmax in
  register_read_loop (clients m) fds fdmax.

Definition client_manager_register_write_fd (m : manager) (fdmax : Z)
  : fd_set * Z :=
  let fds := FD_ZERO in
  register_write_loop (clients m) fds fdmax.

End Register.

Section ManagerIO.

(** What [FD_ISSET] yields on a negative descriptor. *)
Variable invalid : Z -> fd_set -> bool.
Variable client_max_output_buffer_size : Z.
Variable client_max_command_list_size : Z.
Variable command_process : world -> client -> string -> Z * world * client.
Variable command_process_list :
  world -> client -> Z -> list string -> Z * world * client.

(** The loop of [client_manager_io] over the clients [cs], after
    [select] has left the ready descriptors in [rfds] and [wfds]. The
    result is the value the function returns (KILL from inside the loop,
    0 at its end), the counter and the clients that stay. *)
Fixpoint client_manager_io_loop (rfds wfds : fd_set) (w : world)
    (num_clients : Z) (cs : list client) : Z * world * Z * list client :=
  match cs with
  | [] => (0, w, num_clients, [])
  | c :: rest =>
      let served (w : world) (c : client) :=
        let '(w, c) :=
          if negb (client_is_expired c) && FD_ISSET invalid (fd c) wfds
          then
            let '(w, c) := client_write_deferred w c in
            (w, set_lastTime c (now w))
          else (w, c) in
        let '(ret, w, num_clients, rest) :=
          client_manager_io_loop rfds wfds w num_clients rest in
        (ret, w, num_clients, c :: rest) in
      if FD_ISSET invalid (fd c) rfds then
        let '(ret, w, c) :=
          client_read client_max_output_buffer_size
            client_max_command_list_size command_process
            command_process_list w c in
        if ret =? COMMAND_RETURN_KILL then
          (COMMAND_RETURN_KILL, w, num_clients, c :: rest)
        else if ret =? COMMAND_RETURN_CLOSE then
          let '(w, num_clients) := client_close w num_clients c in
          client_manager_io_loop rfds wfds w num_clients rest
        else served w (set_lastTime c (now w))
      else served w c
  end.

End ManagerIO.

(** *** Configuration *)

(** A parameter [getConfigParam] found, as [strtol(param->value, &test,
    10)] reads it: the [long] it returns and the string it leaves at
    [test]. *)
Record config_param := mkParam {
  strtol_value : Z;
  strtol_rest : string
}.

Inductive conf :=
| CONF_CONN_TIMEOUT
| CONF_MAX_CONN
| CONF_MAX_COMMAND_LIST_SIZE
| CONF_MAX_OUTPUT_BUFFER_SIZE.

Definition is_empty_string (s : string) : bool :=
  match s with EmptyString => true | String _ _ => false end.

(** [client_manager_init]: [inl m] when the function returns, [inr p]
    when FATAL ends the program on parameter [p]. The four arguments are
    what [getConfigParam] returns for each name. The product of a
    [long] by 1024 is taken modulo [2^64] when it is stored in a
    [size_t]. *)
Definition client_manager_init (m : manager)
    (conn_timeout max_conn max_command_list_size max_output_buffer_size
       : option config_param)
  : manager + conf :=
  let r :=
    match conn_timeout with
    | Some param =>
        let m := set_client_timeout m (int_of_long (strtol_value param)) in
        if negb (is_empty_string (strtol_rest param))
           || (client_timeout m <=? 0)
        then inr CONF_CONN_TIMEOUT else inl m
    | None => inl m
    end in
  match r with
  | inr p => inr p
  | inl m =>
  let r :=
    match max_conn with
    | Some param =>
        let m := set_client_max_connections m (uint (strtol_value param)) in
        if negb (is_empty_string (strtol_rest param))
           || (client_max_connections m <=? 0)
        then inr CONF_MAX_CONN else inl m
    | None => inl (set_client_max_connections m CLIENT_MAX_CONNECTIONS_DEFAULT)
    end in
  match r with
  | inr p => inr p
  | inl m =>
  let r :=
    match max_command_list_size with
    | Some param =>
        let tmp := strtol_value param in
        if negb (is_empty_string (strtol_rest param)) || (tmp <=? 0)
        then inr CONF_MAX_COMMAND_LIST_SIZE
        else inl (set_client_max_command_list_size m (size_t (tmp * 1024)))
    | None => inl m
    end in
  match r with
  | inr p => inr p
  | inl m =>
    match max_output_buffer_size with
    | Some param =>
        let tmp := strtol_value param in
        if negb (is_empty_string (strtol_rest param)) || (tmp <=? 0)
        then inr CONF_MAX_OUTPUT_BUFFER_SIZE
        else inl (set_client_max_output_buffer_size m (size_t (tmp * 1024)))
    | None => inl m
    end
  end end end.

(** * Vocabulary of the statements *)

(** ** Output: what the peer is sent, and what the queue accounts for *)

(** The bytes a queued chunk still has to deliver. *)
Definition payload (b : deferred_buffer) : list ascii :=
  take (size b) (data b).

(** All bytes waiting in a deferred queue, in order. *)
Definition queued (q : list deferred_buffer) : list ascii :=
  flat_map payload q.

(** The accounted size of a queue: per chunk, the header and the
    payload. *)
Definition accounted (q : list deferred_buffer) : Z :=
  fold_right (fun b acc => deferred_overhead + size b + acc) 0 q.

(** The bytes the descriptor of [c] accepted, then its deferred queue. *)
Definition sent (w : world) (c : client) : list ascii :=
  delivered (fd c) w ++ queued (deferred_send c).

(** Everything the peer of [c] has been sent or will be sent: the bytes
    its descriptor accepted, then the deferred queue, then the pending
    part of the send buffer. *)
Definition out_stream (w : world) (c : client) : list ascii :=
  delivered (fd c) w ++ queued (deferred_send c)
    ++ take (send_buf_used c) (send_buf c).

(** What a format call hands to [client_write]. *)
Definition printed (f : format_call) : list ascii :=
  if vs_length f <=? 0 then [] else take (vs_length f) (vs_text f).

(** ** Invariants *)

Definition chunk_ok (b : deferred_buffer) : Prop :=
  0 < size b <= sizeof_send_buf /\ size b <= len (data b).

Definition buf_ok (c : client) : Prop :=
  len (send_buf c) = sizeof_send_buf /\
  0 <= send_buf_used c <= sizeof_send_buf /\
  Forall chunk_ok (deferred_send c).

(** The accounting of the deferred queue: exact and within the cap,
    unless the client was expired for exceeding the cap. *)
Definition acct_ok (cap : Z) (c : client) : Prop :=
  (deferred_bytes c = accounted (deferred_send c) /\ deferred_bytes c <= cap)
  \/ (fd c < 0 /\ cap < deferred_bytes c).

(** What holds of a client between two operations on it. *)
Definition client_ok (cap : Z) (c : client) : Prop :=
  buf_ok c /\ send_buf_used c < sizeof_send_buf /\ acct_ok cap c.

(** An output cap under which the accounting of one more chunk cannot
    wrap around. The default of 8 MiB is one. *)
Definition output_cap_ok (cap : Z) : Prop :=
  0 <= cap /\ cap + deferred_overhead + sizeof_send_buf < 2 ^ SIZE_WIDTH.

(** The fields the output path leaves alone. *)
Definition same_session (c c' : client) : Prop :=
  buffer c' = buffer c /\ bufferLength c' = bufferLength c /\
  bufferPos c' = bufferPos c /\ permission c' = permission c /\
  uid c' = uid c /\ cmd_list c' = cmd_list c /\
  cmd_list_OK c' = cmd_list_OK c /\ cmd_list_size c' = cmd_list_size c /\
  num c' = num c /\ idle_waiting c' = idle_waiting c /\
  idle_flags c' = idle_flags c /\
  idle_subscriptions c' = idle_subscriptions c.

(** One step of the output path that hands [emitted] to the peer: the
    session fields stay, the invariants stay, the descriptor stays or
    the client expires, and unless it expires its output stream grows
    by exactly [emitted]. *)
Definition out_step (cap : Z) (emitted : list ascii) (w : world)
    (c : client) (w' : world) (c' : client) : Prop :=
  same_session c c' /\ client_ok cap c' /\ now w' = now w /\
  (fd c' = fd c \/ fd c' < 0) /\
  (0 <= fd c' -> out_stream w' c' = out_stream w c ++ emitted).

(** ** Idle notifications *)

(** The lines of a notification: for every index of the name table from
    [i] on whose bit is set in [mask], ["changed: <name>"]. *)
Fixpoint changed_lines (names : list string) (i : Z) (mask : Z)
  : list ascii :=
  match names with
  | [] => []
  | name :: rest =>
      (if Z.testbit mask i
       then list_ascii_of_string ("changed: " ++ name ++ newline_string)
       else [])
      ++ changed_lines rest (i + 1) mask
  end.

(** The full response to a client whose pending events are [flags] and
    whose subscriptions are [subs]. *)
Definition idle_response (names : list string) (flags subs : Z)
  : list ascii :=
  changed_lines names 0 (Z.land flags subs)
    ++ list_ascii_of_string ("OK" ++ newline_string).

(** ** Emitting output *)

(** Handing the chunks to [client_write] one after the other, which is
    what a sequence of [client_puts] and [client_printf] calls does. *)
Fixpoint client_write_all (cap : Z) (w : world) (c : client)
    (chunks : list (list ascii)) : world * client :=
  match chunks with
  | [] => (w, c)
  | chunk :: rest =>
      let '(w, c) := client_write cap w c chunk in
      client_write_all cap w c rest
  end.

(** The lines of a notification, one per call: for every index of the
    name table from [i] on whose bit is set in [mask], the line
    ["changed: <name>"]. *)
Fixpoint changed_line_list (names : list string) (i : Z) (mask : Z)
  : list (list ascii) :=
  match names with
  | [] => []
  | name :: rest =>
      (if Z.testbit mask i
       then [list_ascii_of_string ("changed: " ++ name ++ newline_string)]
       else [])
      ++ changed_line_list rest (i + 1) mask
  end.

(** The line ["OK"]. *)
Definition ok_line : list ascii :=
  list_ascii_of_string ("OK" ++ newline_string).

(** The response to a client whose pending events are [flags] and whose
    subscriptions are [subs], line by line; [idle_response] is the
    concatenation of these lines. *)
Definition idle_response_lines (names : list string) (flags subs : Z)
  : list (list ascii) :=
  changed_line_list names 0 (Z.land flags subs) ++ [ok_line].

(** Emitting the notification of the events [pending] to the client
    [c]: the pending mask and the waiting flag are cleared, the lines
    of the response are written one after the other, and the time of
    the last activity is set. *)
Definition emit_notification (cap : Z) (names : list string)
    (pending : Z) (w : world) (c : client) : world * client :=
  let c := set_idle_waiting (set_idle_flags c 0) false in
  let '(w, c) :=
    client_write_all cap w c
      (idle_response_lines names pending (idle_subscriptions c)) in
  (w, set_lastTime c (now w)).

(** A client that is not expired and has nothing queued, with a peer
    that accepts every write in full. *)
Definition flowing (w : world) (c : client) : Prop :=
  0 <= fd c /\ deferred_send c = [] /\ writes w = [].

(** ** Why a client expires *)

(** A write outcome that expires the client: an error other than EAGAIN
    and EINTR. *)
Definition fatal (r : write_result) : bool :=
  match r with
  | WBytes _ => false
  | WErr e => negb (errno_eqb e EAGAIN || errno_eqb e EINTR)
  end.

(** Why the client [c'] that an output operation leaves can be expired,
    when the operation took [c] in the world [w] to [c'] in [w']: the
    client was expired before, or its deferred queue went over the cap,
    or one of the writes of the operation (the outcomes it consumed
    from the script) failed for good. *)
Definition expiry_cause (cap : Z) (w : world) (c : client) (w' : world)
    (c' : client) : Prop :=
  fd c < 0 \/ cap < deferred_bytes c' \/
  exists pre, writes w = pre ++ writes w' /\ existsb fatal pre = true.

(** One step of the output path: it consumes outcomes from the front of
    the script, it expires the client only for a cause, and it leaves
    the counter of an expired client alone. *)
Definition caused (cap : Z) (w : world) (c : client) (w' : world)
    (c' : client) : Prop :=
  (exists pre, writes w = pre ++ writes w') /\
  (fd c' < 0 -> expiry_cause cap w c w' c') /\
  (fd c < 0 -> fd c' < 0 /\ deferred_bytes c' = deferred_bytes c).

(** ** Broadcasts *)

(** What [client_manager_idle_add] does to one client of the registry,
    between the worlds before and after its turn. An expired client is
    skipped. A parked client whose subscriptions meet the pending
    events is sent the notification and flushed: the calls are exactly
    these; on a client that satisfies the invariants the output stream
    grows by the notification unless the writes expire the client,
    which they do only for a cause; and with nothing queued and a peer
    that accepts every write the client stays live and its descriptor
    has accepted everything. Any other client only records the
    events. *)
Definition idle_add_client (cap : Z) (idle_names : list string)
    (flags : Z) (w : world) (c : client) (w' : world) (c' : client)
  : Prop :=
  (fd c < 0 -> c' = c /\ w' = w) /\
  (0 <= fd c ->
   let pending := Z.lor (idle_flags c) flags in
   if idle_waiting c
      && negb (Z.land pending (idle_subscriptions c) =? 0)
   then
     idle_flags c' = 0 /\ idle_waiting c' = false /\
     idle_subscriptions c' = idle_subscriptions c /\
     (w', c') =
       (let '(w1, c1) := emit_notification cap idle_names pending w c in
        client_write_output cap w1 c1) /\
     (output_cap_ok cap -> client_ok cap c ->
      (0 <= fd c' ->
       send_buf_used c' = 0 /\
       out_stream w' c' =
       out_stream w c
         ++ idle_response idle_names pending (idle_subscriptions c)) /\
      (fd c' < 0 -> expiry_cause cap w c w' c') /\
      (deferred_send c = [] -> writes w = [] ->
       fd c' = fd c /\ deferred_send c' = [] /\ writes w' = [] /\
       send_buf_used c' = 0 /\
       delivered (fd c) w' =
       out_stream w c
         ++ idle_response idle_names pending (idle_subscriptions c)))
   else c' = set_idle_flags c pending /\ w' = w).

(** The registry after a broadcast: every client took its turn, in
    order, each starting in the world the previous one left. *)
Fixpoint idle_add_registry (cap : Z) (idle_names : list string)
    (flags : Z) (w : world) (cs cs' : list client) (w' : world) : Prop :=
  match cs, cs' with
  | [], [] => w' = w
  | c :: rest, c' :: rest' =>
      exists w1,
        idle_add_client cap idle_names flags w c w1 c' /\
        idle_add_registry cap idle_names flags w1 rest rest' w'
  | _, _ => False
  end.

(** ** The line processor *)

(** The states of the protocol state machine. *)
Inductive line_state := Normal | InList (verbose : bool) | Idle.

Definition client_state (c : client) : line_state :=
  if idle_waiting c then Idle
  else if cmd_list_OK c >=? 0 then InList (negb (cmd_list_OK c =? 0))
  else Normal.

(** What a queued line adds to [cmd_list_size]: its characters and the
    terminator. *)
Definition line_size (line : string) : Z := strlen line + 1.

Definition list_size (lines : list string) : Z :=
  fold_right (fun l acc => line_size l + acc) 0 lines.

(** A line that is queued when it arrives in list mode. *)
Definition queueable (line : string) : Prop :=
  line <> "noidle"%string /\ line <> CLIENT_LIST_MODE_END.

(** The lines of one read, fed to the line processor the way the loop of
    [client_input_received] does: one after the other, stopping when a
    line returns KILL or CLOSE or leaves the client expired. [ret] is the
    value the last line returned. *)
Fixpoint client_process_lines
    (cap list_cap : Z)
    (command_process : world -> client -> string -> Z * world * client)
    (command_process_list :
       world -> client -> Z -> list string -> Z * world * client)
    (ret : Z) (w : world) (c : client) (lines : list string)
  : Z * world * client :=
  match lines with
  | [] => (ret, w, c)
  | line :: rest =>
      let '(ret, w, c) :=
        client_process_line cap list_cap command_process
          command_process_list w c line in
      if (ret =? COMMAND_RETURN_KILL) || (ret =? COMMAND_RETURN_CLOSE)
      then (ret, w, c)
      else if client_is_expired c then (COMMAND_RETURN_CLOSE, w, c)
      else client_process_lines cap list_cap command_process
             command_process_list ret w c rest
  end.

(** ** The read path *)

(** The input buffer holds [held] and nothing of it is consumed. *)
Definition holding (c : client) (held : list ascii) : Prop :=
  0 <= fd c /\ bufferPos c = 0 /\ bufferLength c = len held /\
  len (buffer c) = sizeof_buffer /\ take (len held) (buffer c) = held.

(** The client after [bytes] have been stored behind what it holds. *)
Definition stored (c : client) (bytes : list ascii) : client :=
  set_bufferLength
    (set_buffer c (mem_write (buffer c) (bufferLength c) bytes))
    (bufferLength c + len bytes).

Definition after_read (w : world) (rest : list read_result) : world :=
  mkWorld (writes w) rest (wire w) (closed w) (errno w) (now w).

(** What [client_input_received] does once the line processor has
    returned on a line that ended at the end of the full buffer. *)
Definition after_last_line (r : Z * world * client) : Z * world * client :=
  let '(ret, w, c) := r in
  if (ret =? COMMAND_RETURN_KILL) || (ret =? COMMAND_RETURN_CLOSE)
  then (ret, w, c)
  else if client_is_expired c then (COMMAND_RETURN_CLOSE, w, c)
  else if bufferLength c =? sizeof_buffer
       then (0, w, set_bufferPos (set_bufferLength c 0) 0)
       else (0, w, set_bufferPos c sizeof_buffer).

(** Where the terminator of a full-buffer line is stored: over the
    carriage return if the line ends in one, else over the newline. *)
Definition line_end (line : list ascii) : Z :=
  if Ascii.eqb (char_at line (sizeof_buffer - 2)) return_char
  then sizeof_buffer - 2 else sizeof_buffer - 1.

(** [n] reads in a row, the way the event loop issues them on a client
    that select reports readable: the next one only if the previous one
    returned 0. *)
Fixpoint client_reads
    (cap list_cap : Z)
    (command_process : world -> client -> string -> Z * world * client)
    (command_process_list :
       world -> client -> Z -> list string -> Z * world * client)
    (n : nat) (w : world) (c : client) : Z * world * client :=
  match n with
  | O => (0, w, c)
  | S n =>
      let '(ret, w, c) :=
        client_read cap list_cap command_process command_process_list w c in
      if ret =? 0
      then client_reads cap list_cap command_process command_process_list
             n w c
      else (ret, w, c)
  end.

(** ** The operations on one client *)

(** The operations that collaborators and the event loop invoke on a
    client. *)
Inductive client_op :=
| op_write (buffer : list ascii)
| op_puts (s : string)
| op_printf (f : format_call)
| op_write_deferred
| op_idle_wait (flags : Z).

Definition run_client_op (cap : Z) (idle_names : list string)
    (op : client_op) (w : world) (c : client) : world * client :=
  match op with
  | op_write buffer => client_write cap w c buffer
  | op_puts s => client_puts cap w c s
  | op_printf f => client_printf cap w c f
  | op_write_deferred => client_write_deferred w c
  | op_idle_wait flags =>
      let '(_, w, c) := client_idle_wait cap idle_names w c flags in (w, c)
  end.

(** ** Concrete configurations *)

Definition default_cap : Z := CLIENT_MAX_OUTPUT_BUFFER_SIZE_DEFAULT.
Definition default_list_cap : Z := CLIENT_MAX_COMMAND_LIST_DEFAULT.

(** The event classes of idle.c, in the order of their bits. *)
Definition mpd_idle_names : list string :=
  ["database"; "stored_playlist"; "playlist"; "player"; "mixer"; "output";
   "options"]%string.

Definition quiet_world : world := mkWorld [] [] [] [] ENONE 1000.

(** A client as [client_new] leaves it, on descriptor 7. *)
Definition fresh_client : client :=
  Eval vm_compute in
    snd (client_init "0.14.0" 31 quiet_world client_zero 7 0).

(** Three clients: one parked on the player and mixer events, one that
    is not idle, one expired. *)
Definition parked_client : client :=
  Eval vm_compute in
    set_idle_subscriptions (set_idle_waiting fresh_client true) 24.
Definition busy_client : client :=
  Eval vm_compute in set_fd (set_idle_flags fresh_client 1) 8.
Definition expired_client : client :=
  Eval vm_compute in set_fd fresh_client (-1).
Definition sample_registry : list client :=
  [parked_client; busy_client; expired_client].

(** A client parked on the database event, a client in list mode, and a
    client with 8 pending. *)
Definition idle_client : client :=
  Eval vm_compute in
    set_idle_subscriptions (set_idle_waiting fresh_client true) 1.
Definition list_client : client :=
  Eval vm_compute in set_cmd_list_OK fresh_client 0.
Definition pending_client : client :=
  Eval vm_compute in set_idle_flags fresh_client 8.

(** Collaborators for concrete runs: every command succeeds silently;
    [echo_list] answers every command of a list with the command itself
    and, in verbose mode, ["list_OK"]. *)
Definition accept_command (w : world) (c : client) (line : string)
  : Z * world * client := (0, w, c).

Definition accept_list (w : world) (c : client) (mode : Z)
    (lines : list string) : Z * world * client := (0, w, c).

Fixpoint echo_list (cap : Z) (w : world) (c : client) (mode : Z)
    (lines : list string) : Z * world * client :=
  match lines with
  | [] => (0, w, c)
  | line :: rest =>
      let '(w, c) := client_puts cap w c (line ++ newline_string) in
      let '(w, c) :=
        if mode =? 0 then (w, c)
        else client_puts cap w c ("list_OK" ++ newline_string) in
      echo_list cap w c mode rest
  end.

(** A slow peer under a 5 KiB output cap: direct writes would block. *)
Definition small_cap : Z := 5 * 1024.
Definition blocked_world : world :=
  mkWorld [WErr EAGAIN; WErr EAGAIN] [] [] [] ENONE 1000.
Definition block_of_a : list ascii :=
  Eval vm_compute in repeat "a"%char 4096.

(** A client whose send buffer is full, as [client_write] leaves it
    before it calls [client_write_output], and a peer that accepts 100
    bytes. *)
Definition full_client : client :=
  Eval vm_compute in
    set_send_buf_used (set_send_buf fresh_client block_of_a) 4096.
Definition partial_world : world :=
  mkWorld [WBytes 100] [] [] [] ENONE 1000.

(** The longest line the input buffer takes: 4095 letters. *)
Definition long_line : list ascii :=
  Eval vm_compute in repeat "a"%char 4095.

(** The 4096 letters, and the 4095 letters with their newline, in two
    pieces each. *)
Definition flood_chunks : list (list ascii) :=
  Eval vm_compute in [repeat "a"%char 1000; repeat "a"%char 3096].
Definition flood_world : world :=
  Eval vm_compute in mkWorld [] (map RBytes flood_chunks) [] [] ENONE 1000.
Definition line_chunks : list (list ascii) :=
  Eval vm_compute in
    [repeat "a"%char 4000; repeat "a"%char 95 ++ [newline_char]].
Definition line_world : world :=
  Eval vm_compute in mkWorld [] (map RBytes line_chunks) [] [] ENONE 1000.

(** ** What an operation may do to the world *)

(** An operation that took the client [c] in the world [w] to [c'] in
    [w'] kept to the client's own descriptor: it left the descriptor as
    it was or expired the client, it added no bytes to what any other
    descriptor has accepted (none at all if the client was expired), it
    closed the client's descriptor if it expired the client and no
    descriptor otherwise, and it consumed no input. *)
Definition own_io (w : world) (c : client) (w' : world) (c' : client)
  : Prop :=
  (fd c' = fd c \/ (0 <= fd c /\ fd c' < 0)) /\
  (forall fd0, fd0 <> fd c \/ fd c < 0 ->
     delivered fd0 w' = delivered fd0 w) /\
  closed w' =
    closed w ++ (if (0 <=? fd c) && (fd c' <? 0) then [fd c] else []) /\
  reads w' = reads w /\ now w' = now w.
(** ** More concrete configurations *)

(** A client with one byte queued, and a peer that is gone. *)
Definition one_chunk_client : client :=
  Eval vm_compute in
    set_deferred_bytes
      (set_deferred_send fresh_client [mkDeferred 1 ["a"%char]]) 9.
Definition broken_pipe_world : world :=
  mkWorld [WErr EPIPE] [] [] [] ENONE 1000.

(** A client with three bytes queued, and a peer that accepts two
    bytes. *)
Definition three_byte_client : client :=
  Eval vm_compute in
    set_deferred_bytes
      (set_deferred_send fresh_client
         [mkDeferred 3 (list_ascii_of_string "abc")]) 11.
Definition two_byte_world : world :=
  mkWorld [WBytes 2] [] [] [] ENONE 1000.
(** ** Collaborators and the input buffer *)

(** [struct client] is private to client.c: command.c reaches a client
    through the functions of client.h only, none of which touches the
    input buffer, and all of which keep the invariants of the output
    path. *)
Definition keeps_input (c c' : client) : Prop :=
  buffer c' = buffer c /\ bufferLength c' = bufferLength c /\
  bufferPos c' = bufferPos c.

Definition command_respects (cap : Z)
    (command_process : world -> client -> string -> Z * world * client)
  : Prop :=
  forall w c line,
    client_ok cap c ->
    let '(_, _, c') := command_process w c line in
    client_ok cap c' /\ keeps_input c c'.

Definition command_list_respects (cap : Z)
    (command_process_list :
       world -> client -> Z -> list string -> Z * world * client)
  : Prop :=
  forall w c mode lines,
    client_ok cap c ->
    let '(_, _, c') := command_process_list w c mode lines in
    client_ok cap c' /\ keeps_input c c'.

(** The input buffer between two reads: the consumed part and the
    unconsumed part lie inside the buffer, which has room left. *)
Definition input_ok (c : client) : Prop :=
  len (buffer c) = sizeof_buffer /\
  0 <= bufferPos c <= bufferLength c /\ bufferLength c < sizeof_buffer.
(** A peer that has sent one command. *)
Definition ping_world : world :=
  Eval vm_compute in
    mkWorld [] [RBytes (list_ascii_of_string ("ping" ++ newline_string))]
      [] [] ENONE 1000.
(** ** The registry *)

(** Whether [client_manager_expire] keeps a client, at the time [clock]
    under the timeout [timeout]: it is not expired, and it is
    idle-waiting or was active no longer than [timeout] seconds ago. *)
Definition stays (timeout clock : Z) (c : client) : bool :=
  negb (client_is_expired c)
  && (idle_waiting c || (clock - lastTime c <=? timeout)).

(** The descriptors that closing the clients [cs] closes: those of the
    clients that are not expired yet, in the order of the list. *)
Definition descriptors (cs : list client) : list Z :=
  map fd (filter (fun c => negb (client_is_expired c)) cs).

(** The registry between two calls of the manager: the counter is the
    length of the list and within the connection limit, and every
    client satisfies the invariants of the output path and of the input
    buffer. *)
Definition manager_ok (m : manager) : Prop :=
  num_clients m = Z.of_nat (List.length (clients m)) /\
  num_clients m <= client_max_connections m < 2 ^ UINT_WIDTH /\
  Forall (fun c => client_ok (client_max_output_buffer_size m) c
                   /\ input_ok c) (clients m).

(** The calls the main loop makes on the manager. *)
Inductive manager_op :=
| op_new (sock uid : Z)
| op_io (rfds wfds : fd_set)
| op_expire
| op_idle_add (flags : Z).

(** One call; for [op_io] the clients' part of [client_manager_io], the
    loop over the registry, under the C library's [FD_ISSET] on an
    invalid descriptor. The first component is what the call returns (0
    for the void functions). *)
Definition run_manager_op
    (invalid : Z -> fd_set -> bool)
    (PROTOCOL_VERSION : string) (default_permissions : Z)
    (idle_names : list string)
    (command_process : world -> client -> string -> Z * world * client)
    (command_process_list :
       world -> client -> Z -> list string -> Z * world * client)
    (op : manager_op) (w : world) (m : manager) : Z * world * manager :=
  match op with
  | op_new sock uid =>
      let '(w, m) :=
        client_new PROTOCOL_VERSION default_permissions w m sock uid in
      (0, w, m)
  | op_io rfds wfds =>
      let '(ret, w, n, cs) :=
        client_manager_io_loop invalid (client_max_output_buffer_size m)
          (client_max_command_list_size m) command_process
          command_process_list rfds wfds w (num_clients m) (clients m) in
      (ret, w, set_clients (set_num_clients m n) cs)
  | op_expire =>
      let '(w, m) := client_manager_expire w m in (0, w, m)
  | op_idle_add flags =>
      let '(w, cs) :=
        client_manager_idle_add (client_max_output_buffer_size m)
          idle_names w (clients m) flags in
      (0, w, set_clients m cs)
  end.

(** A registry of three clients under the default tunables: the parked
    one and the busy one were last active at time 1000, the third is
    expired. *)
Definition sample_manager : manager :=
  Eval vm_compute in
    mkManager sample_registry 3 3 CLIENT_MAX_CONNECTIONS_DEFAULT
      CLIENT_TIMEOUT_DEFAULT CLIENT_MAX_COMMAND_LIST_DEFAULT
      CLIENT_MAX_OUTPUT_BUFFER_SIZE_DEFAULT.

(** Two minutes later. *)
Definition later_world : world := mkWorld [] [] [] [] ENONE 1120.
(** A configuration file that sets a timeout of two minutes and a
    command list limit of 4096 KiB, and the manager it gives. *)
Definition two_minutes : config_param := mkParam 120 "".
Definition four_mebibytes : config_param := mkParam 4096 "".
Definition configured_manager : manager :=
  Eval vm_compute in
    mkManager [] 0 0 CLIENT_MAX_CONNECTIONS_DEFAULT 120 (4096 * 1024)
      CLIENT_MAX_OUTPUT_BUFFER_SIZE_DEFAULT.
(** ** Lines on the wire *)

(** The client [c] with another input buffer. *)
Definition with_input (c : client) (b : list ascii) (l p : Z) : client :=
  set_bufferPos (set_bufferLength (set_buffer c b) l) p.

(** A command processor that does not look at the input buffer: on a
    client with another input buffer it does the same and leaves that
    buffer in place. This is what the privacy of [struct client]
    guarantees of command.c. *)
Definition command_blind
    (command_process : world -> client -> string -> Z * world * client)
  : Prop :=
  forall w c line b l p,
    command_process w (with_input c b l p) line =
    let '(ret, w', c') := command_process w c line in
    (ret, w', with_input c' b l p).

Definition command_list_blind
    (command_process_list :
       world -> client -> Z -> list string -> Z * world * client)
  : Prop :=
  forall w c mode lines b l p,
    command_process_list w (with_input c b l p) mode lines =
    let '(ret, w', c') := command_process_list w c mode lines in
    (ret, w', with_input c' b l p).

(** A line as the peer sends it: its text, a carriage return if [crlf],
    and the newline. *)
Definition wire_line (l : list ascii * bool) : list ascii :=
  fst l ++ (if snd l then [return_char] else []) ++ [newline_char].

(** A text that can be sent as one line: it holds neither a newline nor
    a NUL, and when it is sent with a bare newline it does not end in a
    carriage return. *)
Definition plain_line (l : list ascii * bool) : Prop :=
  ~ In newline_char (fst l) /\ ~ In zero (fst l) /\
  (snd l = false -> forall pre, fst l <> pre ++ [return_char]).

(** The unconsumed part of the input buffer. *)
Definition unconsumed (c : client) : list ascii :=
  take (bufferLength c - bufferPos c) (drop (bufferPos c) (buffer c)).
(** A peer that sends a command with a carriage return and the start of
    the next command in one segment. *)
Definition ping_and_more : list ascii :=
  Eval vm_compute in
    list_ascii_of_string "ping" ++ [return_char; newline_char]
      ++ list_ascii_of_string "sta".
Definition ping_and_more_world : world :=
  Eval vm_compute in mkWorld [] [RBytes ping_and_more] [] [] ENONE 1000.

(** A peer whose command arrives in two segments. *)
Definition split_ping_world : world :=
  Eval vm_compute in
    mkWorld []
      [RBytes (list_ascii_of_string "pi");
       RBytes (list_ascii_of_string ("ng" ++ newline_string))]
      [] [] ENONE 1000.
(** ** One round of I/O *)

(** Whether the loop of [client_manager_io] finds the descriptor of [c]
    set in [fds]: for a client that is not expired, whether [select]
    reported its descriptor; for an expired client, what [FD_ISSET]
    yields on the descriptor -1. *)
Definition reported (invalid : Z -> fd_set -> bool) (fds : fd_set)
    (c : client) : Prop :=
  if client_is_expired c then invalid (fd c) fds = true
  else In (fd c) fds.

(** How the registry [cs'] after a round of I/O comes from the registry
    [cs] before it, given the descriptors [rfds] and [wfds] that
    [select] reported: a client is removed only if it was found
    readable; an expired client that stays was not found readable and
    is as it was; and a client found neither readable nor writable
    stays as it is, in its place. *)
Inductive io_round (invalid : Z -> fd_set -> bool) (rfds wfds : fd_set)
  : list client -> list client -> Prop :=
| io_round_nil : io_round invalid rfds wfds [] []
| io_round_closed (c : client) (rest rest' : list client) :
    reported invalid rfds c ->
    io_round invalid rfds wfds rest rest' ->
    io_round invalid rfds wfds (c :: rest) rest'
| io_round_kept (c c' : client) (rest rest' : list client) :
    (client_is_expired c = true ->
     ~ reported invalid rfds c /\ c' = c) ->
    (~ reported invalid rfds c -> ~ reported invalid wfds c -> c' = c) ->
    io_round invalid rfds wfds rest rest' ->
    io_round invalid rfds wfds (c :: rest) (c' :: rest').

(** Two C libraries: one whose [FD_ISSET] finds an invalid descriptor
    never set, and one that reads the bit of descriptor 63 for it. *)
Definition never_set : Z -> fd_set -> bool := fun _ _ => false.
Definition bit_63 : Z -> fd_set -> bool :=
  fun _ fds => existsb (Z.eqb 63) fds.

(** * Verification *)

(** ** Blocks of memory *)

Lemma size_t_small (z : Z) : 0 <= z < 2 ^ SIZE_WIDTH -> size_t z = z.
Proof. intros H. unfold size_t. now apply Z.mod_small. Qed.

Lemma len_nonneg (l : list ascii) : 0 <= len l.
Proof. unfold len. lia. Qed.

Lemma len_app (l1 l2 : list ascii) : len (l1 ++ l2) = len l1 + len l2.
Proof. unfold len. rewrite length_app. lia. Qed.

Lemma len_take (n : Z) (l : list ascii) :
  0 <= n <= len l -> len (take n l) = n.
Proof. unfold len, take. intros H. rewrite length_firstn. lia. Qed.

Lemma len_drop (n : Z) (l : list ascii) :
  0 <= n <= len l -> len (drop n l) = len l - n.
Proof. unfold len, drop. intros H. rewrite length_skipn. lia. Qed.

Lemma take_drop (n : Z) (l : list ascii) : take n l ++ drop n l = l.
Proof. apply firstn_skipn. Qed.

Lemma take_all (n : Z) (l : list ascii) : len l <= n -> take n l = l.
Proof. unfold len, take. intros H. apply firstn_all2. lia. Qed.

Lemma take_0 (l : list ascii) : take 0 l = [].
Proof. reflexivity. Qed.

Lemma drop_0 (l : list ascii) : drop 0 l = l.
Proof. reflexivity. Qed.

Lemma take_app_exact (n : Z) (l1 l2 : list ascii) :
  n = len l1 -> take n (l1 ++ l2) = l1.
Proof.
  unfold len, take. intros ->. rewrite Nat2Z.id.
  rewrite firstn_app, Nat.sub_diag, firstn_all. simpl. apply app_nil_r.
Qed.

Lemma take_take (n m : Z) (l : list ascii) :
  0 <= n <= m -> take n (take m l) = take n l.
Proof.
  unfold take. intros H. rewrite firstn_firstn. f_equal. lia.
Qed.

Lemma drop_take (n m : Z) (l : list ascii) :
  0 <= n <= m -> drop n (take m l) = take (m - n) (drop n l).
Proof.
  unfold take, drop. intros H. rewrite skipn_firstn_comm. f_equal. lia.
Qed.

Lemma drop_drop (n m : Z) (l : list ascii) :
  0 <= n -> 0 <= m -> drop n (drop m l) = drop (m + n) l.
Proof.
  unfold drop. intros Hn Hm. rewrite skipn_skipn. f_equal. lia.
Qed.

Lemma take_split (n m : Z) (l : list ascii) :
  0 <= n <= m -> take m l = take n l ++ take (m - n) (drop n l).
Proof.
  intros H. rewrite <- (take_drop n (take m l)).
  now rewrite take_take, drop_take.
Qed.

Lemma len_mem_write (dst : list ascii) (off : Z) (src : list ascii) :
  0 <= off -> off + len src <= len dst ->
  len (mem_write dst off src) = len dst.
Proof.
  unfold len, mem_write. intros H0 H.
  rewrite !length_app, length_firstn, length_skipn. lia.
Qed.

Lemma take_mem_write (dst : list ascii) (off : Z) (src : list ascii) :
  0 <= off <= len dst ->
  take (off + len src) (mem_write dst off src) = take off dst ++ src.
Proof.
  intros H. unfold mem_write. rewrite app_assoc.
  apply take_app_exact. rewrite len_app. fold (take off dst).
  rewrite len_take; lia.
Qed.

Lemma mem_write_at (pre post : list ascii) (x y : ascii) (k : Z) :
  k = len pre ->
  mem_write (pre ++ x :: post) k [y] = pre ++ y :: post.
Proof.
  intros ->. unfold mem_write, len. rewrite Nat2Z.id. cbn [List.length].
  rewrite firstn_app, Nat.sub_diag, firstn_all. simpl.
  rewrite app_nil_r. f_equal. f_equal.
  rewrite skipn_app, skipn_all2 by lia. simpl.
  replace (List.length pre + 1 - List.length pre)%nat with 1%nat by lia.
  reflexivity.
Qed.

Lemma mem_write_full (dst src : list ascii) :
  len src = len dst -> mem_write dst 0 src = src.
Proof.
  unfold mem_write, len. intros H. simpl.
  rewrite skipn_all2 by lia. apply app_nil_r.
Qed.

#[local] Arguments Z.add _ _ : simpl never.
#[local] Arguments Z.sub _ _ : simpl never.
#[local] Arguments Z.mul _ _ : simpl never.
#[local] Arguments Z.pow _ _ : simpl never.
#[local] Arguments Z.modulo _ _ : simpl never.
#[local] Arguments Z.to_nat _ : simpl never.
#[local] Arguments Z.of_nat _ : simpl never.

Lemma deferred_overhead_eq : deferred_overhead = 8.
Proof. reflexivity. Qed.

(** ** The system calls *)

Lemma delivered_app (fd0 : Z) (w : world) (e : Z * list ascii) (w' : world) :
  wire w' = wire w ++ [e] ->
  delivered fd0 w' =
  delivered fd0 w ++ (if fst e =? fd0 then snd e else []).
Proof.
  unfold delivered. intros ->. rewrite flat_map_app. simpl.
  now rewrite app_nil_r.
Qed.

Lemma delivered_xclose (fd0 fd1 : Z) (w : world) :
  delivered fd0 (xclose w fd1) = delivered fd0 w.
Proof. reflexivity. Qed.

(** What one [write] call does to the world. *)
Lemma sys_write_spec (w : world) (fd0 : Z) (src : list ascii) (count : Z) :
  0 <= count ->
  forall ret w', sys_write w fd0 src count = (ret, w') ->
  now w' = now w /\ closed w' = closed w /\ reads w' = reads w /\
  ((ret = -1 /\ wire w' = wire w /\ (fd0 < 0 -> errno w' = EBADF)) \/
   (0 <= ret <= count /\ 0 <= fd0 /\ errno w' = errno w /\
    wire w' = wire w ++ [(fd0, take ret src)])).
Proof.
  intros Hc ret w'. unfold sys_write.
  destruct (fd0 <? 0) eqn:Hfd.
  - intros [= <- <-]. simpl. apply Z.ltb_lt in Hfd. intuition.
  - apply Z.ltb_ge in Hfd.
    destruct (writes w) as [|[n|e] rest]; intros [= <- <-]; simpl.
    + repeat split; auto. right. repeat split; auto; lia.
    + repeat split; auto. right. repeat split; auto; lia.
    + repeat split; auto. left. repeat split; auto. lia.
Qed.

Lemma sys_write_delivered (w : world) (fd0 : Z) (src : list ascii)
    (count ret : Z) (w' : world) :
  0 <= count -> sys_write w fd0 src count = (ret, w') ->
  delivered fd0 w' =
  delivered fd0 w ++ (if ret <? 0 then [] else take ret src).
Proof.
  intros Hc H. destruct (sys_write_spec _ _ _ _ Hc _ _ H)
    as (_ & _ & _ & [(-> & Hw & _)|(Hr & Hfd & _ & Hw)]).
  - simpl. unfold delivered. now rewrite Hw, app_nil_r.
  - rewrite (delivered_app _ _ _ _ Hw). simpl. rewrite Z.eqb_refl.
    destruct (ret <? 0) eqn:E; [apply Z.ltb_lt in E; lia | reflexivity].
Qed.

(** One [read] that delivers [bytes], all of which fit. *)
Lemma sys_read_all (w : world) (sock : Z) (bytes : list ascii)
    (rest : list read_result) (count : Z) :
  0 <= sock -> reads w = RBytes bytes :: rest -> len bytes <= count ->
  sys_read w sock count =
  (len bytes, bytes,
   mkWorld (writes w) rest (wire w) (closed w) (errno w) (now w)).
Proof.
  intros Hfd Hr Hfit. unfold sys_read.
  destruct (Z.ltb_spec sock 0); [lia|]. rewrite Hr.
  rewrite take_all by assumption.
  unfold drop. rewrite skipn_all2 by (unfold len in Hfit; lia).
  reflexivity.
Qed.

(** ** The deferred queue *)

Lemma same_session_refl (c : client) : same_session c c.
Proof. unfold same_session. intuition. Qed.

Lemma same_session_trans (c1 c2 c3 : client) :
  same_session c1 c2 -> same_session c2 c3 -> same_session c1 c3.
Proof. unfold same_session. intuition congruence. Qed.

Ltac splits := repeat match goal with |- _ /\ _ => split end.
Ltac frame :=
  solve [ apply same_session_refl
        | unfold same_session; simpl; repeat split; reflexivity ].

Lemma accounted_app (q1 q2 : list deferred_buffer) :
  accounted (q1 ++ q2) = accounted q1 + accounted q2.
Proof. induction q1 as [|b q1 IH]; simpl; [reflexivity | lia]. Qed.

Lemma accounted_nonneg (q : list deferred_buffer) :
  Forall chunk_ok q -> 0 <= accounted q.
Proof.
  induction 1 as [|b q [Hb _] _ IH]; simpl; [lia|].
  rewrite deferred_overhead_eq. lia.
Qed.

Lemma queued_app (q1 q2 : list deferred_buffer) :
  queued (q1 ++ q2) = queued q1 ++ queued q2.
Proof. apply flat_map_app. Qed.

Lemma client_set_expired_spec (w : world) (c : client) :
  forall w' c', client_set_expired w c = (w', c') ->
  fd c' < 0 /\ same_session c c' /\
  deferred_send c' = deferred_send c /\
  deferred_bytes c' = deferred_bytes c /\
  send_buf c' = send_buf c /\ send_buf_used c' = send_buf_used c /\
  lastTime c' = lastTime c /\
  wire w' = wire w /\ now w' = now w /\ errno w' = errno w /\
  writes w' = writes w /\ reads w' = reads w.
Proof.
  intros w' c'. unfold client_set_expired.
  destruct (0 <=? fd c) eqn:E; intros [= <- <-]; simpl.
  - unfold same_session; simpl. repeat split; auto; try lia.
  - apply Z.leb_gt in E. repeat split; auto.
Qed.

Lemma payload_shrunk (b : deferred_buffer) (ret : Z) :
  chunk_ok b -> 0 <= ret < size b ->
  let n := size_t (size b - ret) in
  let b' := mkDeferred n (mem_write (data b) 0 (take n (drop ret (data b)))) in
  n = size b - ret /\ chunk_ok b' /\ take ret (data b) ++ payload b' = payload b.
Proof.
  intros [[Hs1 Hs2] Hs3] Hr n b'.
  assert (Hn : n = size b - ret).
  { unfold n. apply size_t_small. unfold sizeof_send_buf, SIZE_WIDTH in *. lia. }
  assert (Hl : len (take n (drop ret (data b))) = n).
  { rewrite len_take; [reflexivity|]. rewrite len_drop; lia. }
  split; [exact Hn|]. split.
  - unfold chunk_ok, b'. simpl. rewrite len_mem_write; lia.
  - unfold payload, b'. simpl.
    rewrite <- Hl at 1. replace (len (take n (drop ret (data b))))
      with (0 + len (take n (drop ret (data b)))) by lia.
    rewrite take_mem_write by (pose proof (len_nonneg (data b)); lia).
    rewrite take_0. simpl. rewrite Hn.
    symmetry. apply take_split. lia.
Qed.

Lemma client_write_deferred_loop_spec (q : list deferred_buffer) :
  forall ret w c ret' w' c',
  deferred_send c = q -> Forall chunk_ok q ->
  accounted q <= deferred_bytes c < 2 ^ SIZE_WIDTH ->
  client_write_deferred_loop q ret w c = (ret', w', c') ->
  fd c' = fd c /\ same_session c c' /\
  send_buf c' = send_buf c /\ send_buf_used c' = send_buf_used c /\
  now w' = now w /\
  Forall chunk_ok (deferred_send c') /\
  sent w' c' = sent w c /\
  deferred_bytes c' - accounted (deferred_send c') =
    deferred_bytes c - accounted q /\
  deferred_bytes c' <= deferred_bytes c.
Proof.
  induction q as [|b rest IH]; intros ret w c ret' w' c' Hq Hok Hacc.
  - simpl. intros [= <- <- <-]. unfold sent. rewrite Hq. simpl.
    splits; auto; try lia; try frame.
  - cbn [client_write_deferred_loop].
    inversion Hok as [|b0 q0 Hb Hrest]; subst b0 q0.
    pose proof Hb as [[Hs1 Hs2] Hs3].
    destruct (sys_write w (fd c) (data b) (size b)) as [r w1] eqn:Hw.
    assert (Hsz : 0 <= size b) by lia.
    pose proof (sys_write_delivered _ _ _ _ _ _ Hsz Hw) as Hdel.
    destruct (sys_write_spec _ _ _ _ Hsz _ _ Hw)
      as (Hnow & _ & _ & Hcase).
    cbn [accounted fold_right] in Hacc. fold (accounted rest) in Hacc.
    pose proof (accounted_nonneg rest Hrest) as Hnn.
    rewrite deferred_overhead_eq in Hacc.
    destruct (r <? 0) eqn:Hr0.
    + intros [= <- <- <-]. apply Z.ltb_lt in Hr0.
      unfold sent. rewrite Hdel, app_nil_r, Hq.
      splits; auto; try lia; try frame.
    + apply Z.ltb_ge in Hr0.
      destruct Hcase as [(-> & _)|(Hr & Hfd & _ & _)]; [lia|].
      destruct (r <? size b) eqn:Hr1.
      * apply Z.ltb_lt in Hr1. intros [= <- <- <-]. simpl.
        destruct (payload_shrunk b r Hb (conj Hr0 Hr1)) as (Hn & Hb' & Hp).
        assert (Hdb : size_t (deferred_bytes c - r) = deferred_bytes c - r).
        { apply size_t_small. lia. }
        unfold sent. simpl. rewrite Hdel, Hq. simpl.
        splits; auto; try lia; try frame.
        fold (queued rest). rewrite <- Hp, <- !app_assoc. reflexivity.
      * apply Z.ltb_ge in Hr1. assert (r = size b) by lia. subst r.
        set (decr := size_t (sizeof_deferred_buffer - sizeof_long + size b)).
        assert (Hdecr : decr = 8 + size b).
        { unfold decr. fold deferred_overhead. rewrite deferred_overhead_eq.
          apply size_t_small. unfold sizeof_send_buf, SIZE_WIDTH in *. lia. }
        assert (Hdb : size_t (deferred_bytes c - decr)
                      = deferred_bytes c - decr).
        { apply size_t_small. lia. }
        intros Hloop.
        apply IH in Hloop; [|reflexivity|assumption|simpl; lia].
        simpl in Hloop.
        destruct Hloop as (Hfd' & Hss & Hsb & Hsu & Hnow' & Hch & Hsent
                           & Hd & Hle).
        splits; auto; try lia.
        all: try solve [eapply same_session_trans; [|exact Hss]; frame].
        -- rewrite Hsent. unfold sent. simpl. rewrite Hdel, Hq.
           destruct (size b <? 0) eqn:E; [apply Z.ltb_lt in E; lia|].
           cbn [queued flat_map]. fold (queued rest). unfold payload.
           now rewrite <- app_assoc.
        -- rewrite Hd, Hdb, Hdecr. cbn [accounted fold_right].
           fold (accounted rest). rewrite deferred_overhead_eq. lia.
Qed.

(** On an expired client the drain changes nothing. *)
Lemma client_write_deferred_expired (w : world) (c : client) :
  fd c < 0 ->
  exists w', client_write_deferred w c = (w', c) /\
             wire w' = wire w /\ now w' = now w.
Proof.
  intros Hfd. unfold client_write_deferred.
  destruct (deferred_send c) as [|b rest] eqn:Hq.
  - simpl. rewrite Hq. eauto.
  - cbn [client_write_deferred_loop]. unfold sys_write.
    destruct (fd c <? 0) eqn:E; [|apply Z.ltb_ge in E; lia].
    simpl. rewrite Hq. unfold client_set_expired.
    destruct (0 <=? fd c) eqn:E'; [apply Z.leb_le in E'; lia|].
    eauto.
Qed.

(** ** The session fields are out of reach of the output path *)

Lemma client_set_expired_frame (w : world) (c : client) :
  forall w' c', client_set_expired w c = (w', c') -> same_session c c'.
Proof. intros w' c' H. now apply client_set_expired_spec in H. Qed.

Lemma client_write_deferred_loop_frame (q : list deferred_buffer) :
  forall ret w c ret' w' c',
  client_write_deferred_loop q ret w c = (ret', w', c') ->
  same_session c c'.
Proof.
  induction q as [|b rest IH]; intros ret w c ret' w' c'.
  - simpl. intros [= <- <- <-]. frame.
  - cbn [client_write_deferred_loop].
    destruct (sys_write w (fd c) (data b) (size b)) as [r w1].
    destruct (r <? 0); [intros [= <- <- <-]; frame|].
    destruct (r <? size b); [intros [= <- <- <-]; frame|].
    intros H. apply IH in H.
    eapply same_session_trans; [|exact H]. frame.
Qed.

Lemma client_write_deferred_frame (w : world) (c : client) :
  forall w' c', client_write_deferred w c = (w', c') -> same_session c c'.
Proof.
  intros w' c'. unfold client_write_deferred.
  destruct (client_write_deferred_loop (deferred_send c) 0 w c)
    as [[ret w1] c1] eqn:Hloop.
  apply client_write_deferred_loop_frame in Hloop.
  destruct (deferred_send c1); [now intros [= <- <-]|].
  destruct (_ && _ && _).
  - intros H. apply client_set_expired_frame in H.
    eapply same_session_trans; eauto.
  - now intros [= <- <-].
Qed.

Lemma client_defer_output_frame (cap : Z) (w : world) (c : client)
    (src : list ascii) (length : Z) :
  forall w' c',
  client_defer_output cap w c src length = (w', c') -> same_session c c'.
Proof.
  intros w' c'. unfold client_defer_output.
  destruct (_ >? _).
  - intros H. apply client_set_expired_frame in H.
    eapply same_session_trans; [|exact H]. frame.
  - intros [= <- <-]. frame.
Qed.

Lemma client_write_direct_frame (cap : Z) (w : world) (c : client)
    (src : list ascii) (length : Z) :
  forall w' c',
  client_write_direct cap w c src length = (w', c') -> same_session c c'.
Proof.
  intros w' c'. unfold client_write_direct.
  destruct (sys_write w (fd c) src length) as [ret w1].
  destruct (ret <? 0).
  - destruct (_ || _).
    + apply client_defer_output_frame.
    + apply client_set_expired_frame.
  - destruct (ret <? send_buf_used c).
    + apply client_defer_output_frame.
    + intros [= <- <-]. frame.
Qed.

Lemma client_write_output_frame (cap : Z) (w : world) (c : client) :
  forall w' c',
  client_write_output cap w c = (w', c') -> same_session c c'.
Proof.
  intros w' c'. unfold client_write_output.
  destruct (_ || _); [intros [= <- <-]; frame|].
  destruct (deferred_send c).
  - destruct (client_write_direct cap w c (send_buf c) (send_buf_used c))
      as [w1 c1] eqn:H.
    apply client_write_direct_frame in H. intros [= <- <-].
    eapply same_session_trans; [exact H|]. frame.
  - destruct (client_defer_output cap w c (send_buf c) (send_buf_used c))
      as [w1 c1] eqn:H1.
    destruct (client_write_deferred w1 c1) as [w2 c2] eqn:H2.
    apply client_defer_output_frame in H1.
    apply client_write_deferred_frame in H2. intros [= <- <-].
    eapply same_session_trans; [exact H1|].
    eapply same_session_trans; [exact H2|]. frame.
Qed.

Lemma client_write_loop_frame (cap : Z) (fuel : nat) :
  forall w c buffer w' c',
  client_write_loop cap fuel w c buffer = (w', c') -> same_session c c'.
Proof.
  induction fuel as [|fuel IH]; intros w c buffer w' c'.
  - simpl. intros [= <- <-]. frame.
  - cbn [client_write_loop].
    destruct (_ && _); [|intros [= <- <-]; frame].
    match goal with
    | |- context [if ?b then client_write_output cap w ?c1 else _] =>
        destruct b;
        [destruct (client_write_output cap w c1) as [w2 c2] eqn:Hout;
         apply client_write_output_frame in Hout|]
    end.
    + intros H. apply IH in H.
      eapply same_session_trans; [|exact H].
      eapply same_session_trans; [|exact Hout]. frame.
    + intros H. apply IH in H.
      eapply same_session_trans; [|exact H]. frame.
Qed.

Lemma client_write_frame (cap : Z) (w : world) (c : client)
    (buffer : list ascii) :
  forall w' c', client_write cap w c buffer = (w', c') -> same_session c c'.
Proof.
  intros w' c'. unfold client_write.
  destruct (client_is_expired c); [intros [= <- <-]; frame|].
  apply client_write_loop_frame.
Qed.

Lemma client_printf_frame (cap : Z) (w : world) (c : client)
    (f : format_call) :
  forall w' c', client_printf cap w c f = (w', c') -> same_session c c'.
Proof.
  intros w' c'. unfold client_printf, client_vprintf.
  destruct (_ <=? _); [intros [= <- <-]; frame|].
  apply client_write_frame.
Qed.

Lemma client_idle_notify_loop_frame (cap : Z) (names : list string) :
  forall i flags w c w' c',
  client_idle_notify_loop cap names i flags w c = (w', c') ->
  same_session c c'.
Proof.
  induction names as [|name rest IH]; intros i flags w c w' c'.
  - simpl. intros [= <- <-]. frame.
  - cbn [client_idle_notify_loop].
    destruct (negb _).
    + destruct (client_printf cap w c (format_changed name))
        as [w1 c1] eqn:Hp.
      apply client_printf_frame in Hp. intros H. apply IH in H.
      eapply same_session_trans; eauto.
    + apply IH.
Qed.

(** After a notification the pending mask is empty and the client has
    left idle mode, whatever became of the output. *)
Lemma client_idle_notify_fields (cap : Z) (idle_names : list string)
    (w : world) (c : client) :
  forall w' c',
  client_idle_notify cap idle_names w c = (w', c') ->
  idle_flags c' = 0 /\ idle_waiting c' = false /\
  idle_subscriptions c' = idle_subscriptions c /\
  cmd_list c' = cmd_list c /\ cmd_list_OK c' = cmd_list_OK c /\
  cmd_list_size c' = cmd_list_size c.
Proof.
  intros w' c'. unfold client_idle_notify.
  destruct (client_idle_notify_loop cap idle_names 0 (idle_flags c) w
              (set_idle_waiting (set_idle_flags c 0) false))
    as [w1 c1] eqn:Hloop.
  destruct (client_puts cap w1 c1 ("OK" ++ newline_string))
    as [w2 c2] eqn:Hputs.
  intros [= <- <-].
  apply client_idle_notify_loop_frame in Hloop.
  apply client_write_frame in Hputs.
  pose proof (same_session_trans _ _ _ Hloop Hputs) as Hss.
  unfold same_session in Hss. simpl in Hss. simpl. intuition.
Qed.

(** ** The output path keeps the invariants and the stream *)

Section OutputFacts.

Variable cap : Z.
Hypothesis cap_range :
  0 <= cap /\ cap + deferred_overhead + sizeof_send_buf < 2 ^ SIZE_WIDTH.

Lemma client_write_deferred_spec (w : world) (c : client) :
  forall w' c',
  Forall chunk_ok (deferred_send c) -> acct_ok cap c ->
  client_write_deferred w c = (w', c') ->
  same_session c c' /\
  send_buf c' = send_buf c /\ send_buf_used c' = send_buf_used c /\
  now w' = now w /\
  Forall chunk_ok (deferred_send c') /\ acct_ok cap c' /\
  (fd c' = fd c \/ fd c' < 0) /\
  (0 <= fd c' -> sent w' c' = sent w c).
Proof.
  intros w' c' Hok Hacct.
  destruct (Z.lt_ge_cases (fd c) 0) as [Hfd|Hfd].
  - destruct (client_write_deferred_expired w c Hfd) as (w1 & -> & _ & Hn).
    intros [= <- <-]. splits; auto; try lia; frame.
  - destruct Hacct as [[Heq Hle]|[? _]]; [|lia].
    unfold client_write_deferred.
    destruct (client_write_deferred_loop (deferred_send c) 0 w c)
      as [[ret w1] c1] eqn:Hloop.
    pose proof (accounted_nonneg _ Hok) as Hnn.
    apply client_write_deferred_loop_spec in Hloop; auto;
      [|rewrite deferred_overhead_eq in cap_range;
        unfold sizeof_send_buf in cap_range; lia].
    destruct Hloop as (Hfd1 & Hss & Hsb & Hsu & Hnow & Hch & Hsent & Hd & Hdle).
    assert (Hacct1 : acct_ok cap c1) by (left; split; lia).
    destruct (deferred_send c1) as [|b1 q1] eqn:Hq1.
    + intros [= <- <-]. rewrite Hq1. splits; auto.
    + destruct ((ret <? 0) && negb (errno_eqb (errno w1) EAGAIN)
                && negb (errno_eqb (errno w1) EINTR)).
      * intros Hexp. apply client_set_expired_spec in Hexp.
        destruct Hexp as (Hfd2 & Hss2 & Hq2 & Hb2 & Hsb2 & Hsu2 & _
                          & _ & Hn2 & _).
        splits; try congruence; try lia.
        -- eapply same_session_trans; eauto.
        -- left. rewrite Hq2, Hb2. destruct Hacct1 as [?|[? ?]]; [auto|lia].
      * intros [= <- <-]. rewrite Hq1. splits; auto.
Qed.

Lemma client_defer_output_spec (w : world) (c : client) (src : list ascii)
    (length : Z) :
  forall w' c',
  0 <= fd c -> 0 < length <= sizeof_send_buf -> length <= len src ->
  Forall chunk_ok (deferred_send c) -> acct_ok cap c ->
  client_defer_output cap w c src length = (w', c') ->
  same_session c c' /\
  send_buf c' = send_buf c /\ send_buf_used c' = send_buf_used c /\
  now w' = now w /\ wire w' = wire w /\ writes w' = writes w /\
  errno w' = errno w /\
  Forall chunk_ok (deferred_send c') /\ acct_ok cap c' /\
  deferred_bytes c' = deferred_bytes c + deferred_overhead + length /\
  ((deferred_bytes c' <= cap /\ fd c' = fd c /\
    deferred_send c' =
      deferred_send c ++ [mkDeferred length (take length src)])
   \/ (cap < deferred_bytes c' /\ fd c' < 0 /\
       deferred_send c' = deferred_send c)).
Proof.
  intros w' c' Hfd Hlen Hsrc Hok Hacct.
  destruct Hacct as [[Heq Hle]|[? _]]; [|lia].
  pose proof (accounted_nonneg _ Hok) as Hnn.
  rewrite deferred_overhead_eq in *. unfold sizeof_send_buf in *.
  unfold client_defer_output. fold deferred_overhead.
  rewrite deferred_overhead_eq.
  assert (Ha : size_t (8 + length) = 8 + length)
    by (apply size_t_small; unfold SIZE_WIDTH in *; lia).
  rewrite Ha.
  assert (Hb : size_t (deferred_bytes c + (8 + length))
               = deferred_bytes c + 8 + length).
  { rewrite size_t_small; unfold SIZE_WIDTH in *; lia. }
  cbn [deferred_bytes set_deferred_bytes]. rewrite Hb.
  destruct (deferred_bytes c + 8 + length >? cap) eqn:Hov.
  - apply Z.gtb_lt in Hov. intros Hexp.
    apply client_set_expired_spec in Hexp. simpl in Hexp.
    destruct Hexp as (Hfd2 & Hss2 & Hq2 & Hb2 & Hsb2 & Hsu2 & _
                      & Hw & Hn2 & He & Hwr & _).
    splits; auto; try congruence.
    all: lazymatch goal with
         | |- same_session _ _ =>
             eapply same_session_trans; [|exact Hss2]; frame
         | |- acct_ok _ _ => right; split; [assumption | lia]
         | |- _ => right; splits; auto; lia
         end.
  - assert (deferred_bytes c + 8 + length <= cap).
    { destruct (Z.gtb_spec (deferred_bytes c + 8 + length) cap); [discriminate | lia]. }
    intros [= <- <-]. simpl. splits; auto; try frame.
    all: lazymatch goal with
         | |- Forall _ _ =>
             apply Forall_app; split; [assumption|];
             apply Forall_cons; [|apply Forall_nil];
             unfold chunk_ok, sizeof_send_buf; simpl;
             rewrite len_take; lia
         | |- acct_ok _ _ =>
             left; simpl; rewrite accounted_app; simpl;
             rewrite deferred_overhead_eq; lia
         | |- _ => left; auto
         end.
Qed.

Lemma client_write_direct_spec (w : world) (c : client) (src : list ascii)
    (length : Z) :
  forall w' c',
  0 <= fd c -> deferred_send c = [] ->
  0 < length <= sizeof_send_buf -> length <= len src ->
  length = send_buf_used c -> acct_ok cap c ->
  client_write_direct cap w c src length = (w', c') ->
  same_session c c' /\
  send_buf c' = send_buf c /\ send_buf_used c' = send_buf_used c /\
  now w' = now w /\
  Forall chunk_ok (deferred_send c') /\ acct_ok cap c' /\
  (fd c' = fd c \/ fd c' < 0) /\
  (0 <= fd c' -> sent w' c' = sent w c ++ take length src).
Proof.
  intros w' c' Hfd Hq Hlen Hsrc Hused Hacct. unfold client_write_direct.
  destruct (sys_write w (fd c) src length) as [ret w1] eqn:Hw.
  assert (Hl0 : 0 <= length) by lia.
  pose proof (sys_write_delivered _ _ _ _ _ _ Hl0 Hw) as Hdel.
  destruct (sys_write_spec _ _ _ _ Hl0 _ _ Hw) as (Hnow & _ & _ & Hcase).
  assert (Hnil : Forall chunk_ok (deferred_send c))
    by (rewrite Hq; constructor).
  destruct (ret <? 0) eqn:Hr0.
  - destruct (errno_eqb (errno w1) EAGAIN || errno_eqb (errno w1) EINTR).
    + intros Hd. apply client_defer_output_spec in Hd; auto.
      destruct Hd as (Hss & Hsb & Hsu & Hn & Hwi & _ & _ & Hch & Hac & _
                      & [(_ & Hfd' & Hq')|(_ & Hfd' & _)]).
      * splits; auto; try congruence. intros _. unfold sent.
        rewrite Hq', Hq, Hfd'. unfold delivered at 1. rewrite Hwi.
        fold (delivered (fd c) w1). rewrite Hdel. simpl.
        unfold payload. simpl. rewrite !app_nil_r.
        rewrite take_take by lia. reflexivity.
      * splits; auto; try congruence. lia.
    + intros Hexp. apply client_set_expired_spec in Hexp.
      destruct Hexp as (Hfd2 & Hss2 & Hq2 & Hb2 & Hsb2 & Hsu2 & _
                        & _ & Hn2 & _).
      splits; auto; try congruence; try lia.
      destruct Hacct as [[? ?]|[? ?]]; [left | lia].
      rewrite Hq2, Hb2. auto.
  - apply Z.ltb_ge in Hr0.
    destruct Hcase as [(-> & _)|(Hr & _ & _ & _)]; [lia|].
    destruct (ret <? send_buf_used c) eqn:Hr1.
    + apply Z.ltb_lt in Hr1.
      assert (Hrem : size_t (length - ret) = length - ret).
      { apply size_t_small. unfold sizeof_send_buf, SIZE_WIDTH in *. lia. }
      rewrite Hrem. intros Hd.
      apply client_defer_output_spec in Hd; auto; try lia;
        [|rewrite len_drop; lia].
      destruct Hd as (Hss & Hsb & Hsu & Hn & Hwi & _ & _ & Hch & Hac & _
                      & [(_ & Hfd' & Hq')|(_ & Hfd' & _)]).
      * splits; auto; try congruence. intros _. unfold sent.
        rewrite Hq', Hq, Hfd'. unfold delivered at 1. rewrite Hwi.
        fold (delivered (fd c) w1). rewrite Hdel. simpl.
        unfold payload. simpl. rewrite !app_nil_r.
        rewrite take_take by lia. rewrite <- app_assoc. f_equal.
        symmetry. apply take_split. lia.
      * splits; auto; try congruence. lia.
    + apply Z.ltb_ge in Hr1. assert (ret = length) by lia. subst ret.
      intros [= <- <-]. splits; auto; try frame.
      intros _. unfold sent. rewrite Hdel, Hq. simpl.
      now rewrite !app_nil_r.
Qed.

Lemma client_write_output_spec (w : world) (c : client) :
  forall w' c',
  buf_ok c -> acct_ok cap c ->
  client_write_output cap w c = (w', c') ->
  same_session c c' /\ buf_ok c' /\ acct_ok cap c' /\ now w' = now w /\
  (fd c' = fd c \/ fd c' < 0) /\
  (0 <= fd c -> send_buf_used c' = 0) /\
  send_buf_used c' <= send_buf_used c /\
  (0 <= fd c' -> out_stream w' c' = out_stream w c).
Proof.
  intros w' c' (Hsb & Hused & Hch) Hacct. unfold client_write_output.
  unfold client_is_expired.
  destruct (fd c <? 0) eqn:Hfd; simpl.
  { intros [= <- <-]. apply Z.ltb_lt in Hfd.
    splits; auto; try lia; try frame. unfold buf_ok. auto. }
  apply Z.ltb_ge in Hfd.
  destruct (send_buf_used c =? 0) eqn:Hz.
  { intros [= <- <-]. apply Z.eqb_eq in Hz.
    splits; auto; try lia; try frame. unfold buf_ok. auto. }
  apply Z.eqb_neq in Hz.
  assert (Hlen : 0 < send_buf_used c <= sizeof_send_buf) by lia.
  assert (Hsrc : send_buf_used c <= len (send_buf c)) by lia.
  destruct (deferred_send c) as [|b q] eqn:Hq.
  - destruct (client_write_direct cap w c (send_buf c) (send_buf_used c))
      as [w1 c1] eqn:Hd.
    intros [= <- <-].
    apply client_write_direct_spec in Hd; auto.
    destruct Hd as (Hss & Hsb1 & Hsu1 & Hn & Hch1 & Hac1 & Hfd1 & Hsent).
    splits; simpl; auto; try lia.
    all: try solve [eapply same_session_trans; [exact Hss|]; frame].
    all: try solve [unfold buf_ok; simpl; splits; auto; try lia; congruence].
    + intros Hfd'. unfold out_stream. simpl. rewrite take_0, app_nil_r.
      fold (sent w1 c1). rewrite (Hsent Hfd'). unfold sent, out_stream.
      rewrite <- app_assoc. reflexivity.
  - destruct (client_defer_output cap w c (send_buf c) (send_buf_used c))
      as [w1 c1] eqn:Hd.
    destruct (client_write_deferred w1 c1) as [w2 c2] eqn:Hwd.
    intros [= <- <-].
    apply client_defer_output_spec in Hd; auto; [|rewrite Hq; exact Hch].
    destruct Hd as (Hss & Hsb1 & Hsu1 & Hn & Hwi & _ & _ & Hch1 & Hac1 & _
                    & Hcase).
    apply client_write_deferred_spec in Hwd; auto.
    destruct Hwd as (Hss2 & Hsb2 & Hsu2 & Hn2 & Hch2 & Hac2 & Hfd2 & Hsent2).
    splits; simpl; auto; try lia.
    all: try solve [eapply same_session_trans; [exact Hss|];
                    eapply same_session_trans; [exact Hss2|]; frame].
    all: try solve [unfold buf_ok; simpl; splits; auto; try lia; congruence].
    all: try solve [destruct Hcase as [(_ & Hfd1 & _)|(_ & Hfd1 & _)]; lia].
    + intros Hfd'. unfold out_stream. simpl. rewrite take_0, app_nil_r.
      fold (sent w2 c2). rewrite (Hsent2 Hfd').
      destruct Hcase as [(_ & Hfd1 & Hq1)|(_ & Hfd1 & _)]; [|lia].
      unfold sent. rewrite Hq1, Hfd1, queued_app. unfold delivered.
      rewrite Hwi. simpl. unfold payload. simpl.
      rewrite app_nil_r, take_take by lia. reflexivity.
Qed.

Lemma out_step_intro (emitted : list ascii) (w : world) (c : client)
    (w' : world) (c' : client) :
  same_session c c' -> client_ok cap c' -> now w' = now w ->
  (fd c' = fd c \/ fd c' < 0) ->
  (0 <= fd c' -> out_stream w' c' = out_stream w c ++ emitted) ->
  out_step cap emitted w c w' c'.
Proof. unfold out_step. auto. Qed.

Lemma out_step_refl (w : world) (c : client) :
  client_ok cap c -> out_step cap [] w c w c.
Proof.
  intros H. unfold out_step. splits; auto using same_session_refl.
  intros _. now rewrite app_nil_r.
Qed.

Lemma out_step_trans (e1 e2 : list ascii) (w w1 w2 : world)
    (c c1 c2 : client) :
  out_step cap e1 w c w1 c1 -> out_step cap e2 w1 c1 w2 c2 ->
  out_step cap (e1 ++ e2) w c w2 c2.
Proof.
  intros (Hs1 & Hok1 & Hn1 & Hf1 & Ho1) (Hs2 & Hok2 & Hn2 & Hf2 & Ho2).
  unfold out_step. splits; auto; try lia; try congruence.
  all: lazymatch goal with
       | |- same_session _ _ => eapply same_session_trans; eauto
       | |- _ => intros Hfd; rewrite Ho2, Ho1 by lia; now rewrite app_assoc
       end.
Qed.

Lemma client_write_loop_spec (fuel : nat) :
  forall buffer w c w' c',
  (List.length buffer < fuel)%nat -> client_ok cap c ->
  client_write_loop cap fuel w c buffer = (w', c') ->
  out_step cap buffer w c w' c'.
Proof.
  induction fuel as [|fuel IH]; intros buffer w c w' c' Hfuel Hok;
    [lia|].
  cbn [client_write_loop].
  destruct ((0 <? len buffer) && negb (client_is_expired c)) eqn:Hgo.
  2:{ intros [= <- <-]. apply andb_false_iff in Hgo.
      destruct Hgo as [Hgo|Hgo].
      - apply Z.ltb_ge in Hgo. unfold len in Hgo.
        destruct buffer; [|simpl in Hgo; lia]. now apply out_step_refl.
      - apply negb_false_iff in Hgo. unfold client_is_expired in Hgo.
        apply Z.ltb_lt in Hgo. unfold out_step.
        splits; auto using same_session_refl. lia. }
  apply andb_true_iff in Hgo. destruct Hgo as [Hpos Hlive].
  apply Z.ltb_lt in Hpos. apply negb_true_iff in Hlive.
  unfold client_is_expired in Hlive. apply Z.ltb_ge in Hlive.
  destruct Hok as ((Hsb & Hused & Hch) & Hlt & Hacct).
  set (room := size_t (sizeof_send_buf - send_buf_used c)).
  assert (Hroom : room = sizeof_send_buf - send_buf_used c).
  { apply size_t_small. unfold sizeof_send_buf, SIZE_WIDTH in *. lia. }
  set (copylen := if room >? len buffer then len buffer else room).
  assert (Hcopy : 0 < copylen <= len buffer
                  /\ copylen <= sizeof_send_buf - send_buf_used c).
  { unfold copylen. destruct (Z.gtb_spec room (len buffer)); lia. }
  destruct Hcopy as [Hc1 Hc2].
  assert (Hnew : size_t (send_buf_used c + copylen)
                 = send_buf_used c + copylen).
  { apply size_t_small. unfold sizeof_send_buf, SIZE_WIDTH in *. lia. }
  cbn [send_buf send_buf_used set_send_buf set_send_buf_used].
  rewrite Hnew.
  set (c1 := set_send_buf_used
               (set_send_buf c (mem_write (send_buf c) (send_buf_used c)
                                  (take copylen buffer)))
               (send_buf_used c + copylen)).
  assert (Hlt1 : len (take copylen buffer) = copylen)
    by (apply len_take; lia).
  assert (Hbuf1 : buf_ok c1).
  { unfold buf_ok, c1. simpl. splits; auto; try lia.
    rewrite len_mem_write; lia. }
  assert (Hacct1 : acct_ok cap c1) by exact Hacct.
  assert (Hstream1 : out_stream w c1
                     = out_stream w c ++ take copylen buffer).
  { unfold out_stream, c1. simpl. rewrite <- Hlt1 at 1.
    rewrite take_mem_write by lia. now rewrite <- !app_assoc. }
  assert (Hss1 : same_session c c1) by (unfold c1; frame).
  assert (Hdrop : (List.length (drop copylen buffer) < fuel)%nat).
  { pose proof (len_drop copylen buffer ltac:(lia)) as Hd.
    unfold len in Hd, Hc1. lia. }
  assert (Hused1 : send_buf_used c1 = send_buf_used c + copylen)
    by reflexivity.
  assert (Hfd1 : fd c1 = fd c) by reflexivity.
  destruct (send_buf_used c + copylen >=? sizeof_send_buf) eqn:Hfull.
  - destruct (client_write_output cap w c1) as [w2 c2] eqn:Hout.
    apply client_write_output_spec in Hout; auto.
    destruct Hout as (Hss2 & Hbuf2 & Hacct2 & Hn2 & Hfd2 & Hz2 & _ & Hst2).
    assert (Hz2' : send_buf_used c2 = 0) by (apply Hz2; lia).
    assert (Hok2 : client_ok cap c2).
    { unfold client_ok, sizeof_send_buf. splits; auto. lia. }
    intros Hloop. apply IH in Hloop; [|exact Hdrop|exact Hok2].
    replace buffer with (take copylen buffer ++ drop copylen buffer)
      at 1 by apply take_drop.
    eapply out_step_trans; [|exact Hloop].
    apply out_step_intro.
    + eapply same_session_trans; [exact Hss1 | exact Hss2].
    + exact Hok2.
    + exact Hn2.
    + lia.
    + intros Hfd. rewrite Hst2 by assumption. exact Hstream1.
  - assert (Hok1 : client_ok cap c1).
    { unfold client_ok. splits; auto.
      destruct (Z.geb_spec (send_buf_used c + copylen) sizeof_send_buf);
        [discriminate | lia]. }
    intros Hloop. apply IH in Hloop; [|exact Hdrop|exact Hok1].
    replace buffer with (take copylen buffer ++ drop copylen buffer)
      at 1 by apply take_drop.
    eapply out_step_trans; [|exact Hloop].
    apply out_step_intro; auto.
Qed.

Lemma client_write_spec (w : world) (c : client) (buffer : list ascii) :
  forall w' c',
  client_ok cap c -> client_write cap w c buffer = (w', c') ->
  out_step cap buffer w c w' c'.
Proof.
  intros w' c' Hok. unfold client_write, client_is_expired.
  destruct (fd c <? 0) eqn:Hfd.
  - intros [= <- <-]. apply Z.ltb_lt in Hfd. unfold out_step.
    splits; auto using same_session_refl. lia.
  - apply client_write_loop_spec; auto.
Qed.

Lemma client_puts_spec (w : world) (c : client) (s : string) :
  forall w' c',
  client_ok cap c -> client_puts cap w c s = (w', c') ->
  out_step cap (list_ascii_of_string s) w c w' c'.
Proof. intros w' c'. apply client_write_spec. Qed.

Lemma client_printf_spec (w : world) (c : client) (f : format_call) :
  forall w' c',
  client_ok cap c -> client_printf cap w c f = (w', c') ->
  out_step cap (printed f) w c w' c'.
Proof.
  intros w' c' Hok. unfold client_printf, client_vprintf, printed.
  destruct (vs_length f <=? 0).
  - intros [= <- <-]. now apply out_step_refl.
  - now apply client_write_spec.
Qed.

Lemma client_flush_spec (w : world) (c : client) :
  forall w' c',
  client_ok cap c -> client_write_output cap w c = (w', c') ->
  out_step cap [] w c w' c' /\ (0 <= fd c -> send_buf_used c' = 0).
Proof.
  intros w' c' (Hb & Hlt & Ha) H.
  apply client_write_output_spec in H; auto.
  destruct H as (Hss & Hb' & Ha' & Hn & Hfd & Hz & Hle & Hst).
  split; [|assumption]. unfold out_step, client_ok. splits; auto; try lia.
  intros Hfd'. rewrite Hst by assumption. now rewrite app_nil_r.
Qed.

End OutputFacts.

(** ** Idle notifications *)

Lemma land_bit (a i : Z) :
  0 <= i -> (Z.land a (Z.shiftl 1 i) =? 0) = negb (Z.testbit a i).
Proof.
  intros Hi. rewrite Z.shiftl_1_l.
  destruct (Z.testbit a i) eqn:Hb; simpl.
  - apply Z.eqb_neq. intros H.
    assert (Z.testbit (Z.land a (2 ^ i)) i = false)
      by (rewrite H; apply Z.bits_0).
    rewrite Z.land_spec, Hb, Z.pow2_bits_true in *; auto. discriminate.
  - apply Z.eqb_eq. apply Z.bits_inj'. intros n Hn.
    rewrite Z.land_spec, Z.bits_0, Z.pow2_bits_eqb by assumption.
    destruct (Z.eqb_spec i n) as [->|]; [rewrite Hb|]; auto using andb_false_r.
Qed.

Lemma idle_bit_test (flags subs i : Z) :
  0 <= i ->
  negb (Z.land (Z.land flags (Z.shiftl 1 i)) subs =? 0)
  = Z.testbit (Z.land flags subs) i.
Proof.
  intros Hi.
  replace (Z.land (Z.land flags (Z.shiftl 1 i)) subs)
    with (Z.land (Z.land flags subs) (Z.shiftl 1 i)).
  - rewrite land_bit by assumption. apply negb_involutive.
  - rewrite <- !Z.land_assoc. f_equal. apply Z.land_comm.
Qed.

Lemma format_changed_printed (name : string) :
  printed (format_changed name)
  = list_ascii_of_string ("changed: " ++ name ++ newline_string).
Proof.
  unfold printed, format_changed. cbn [vs_length vs_text].
  set (text := list_ascii_of_string _).
  destruct (len text <=? 0) eqn:E.
  - apply Z.leb_le in E. unfold len in E. destruct text; [reflexivity|].
    simpl in E. lia.
  - apply take_all. lia.
Qed.

Section IdleFacts.

Variable cap : Z.
Hypothesis cap_range :
  0 <= cap /\ cap + deferred_overhead + sizeof_send_buf < 2 ^ SIZE_WIDTH.
Variable idle_names : list string.

Lemma client_idle_notify_loop_spec (names : list string) :
  forall i flags w c w' c',
  0 <= i -> client_ok cap c ->
  client_idle_notify_loop cap names i flags w c = (w', c') ->
  out_step cap
    (changed_lines names i (Z.land flags (idle_subscriptions c))) w c w' c'.
Proof.
  induction names as [|name rest IH]; intros i flags w c w' c' Hi Hok.
  - simpl. intros [= <- <-]. now apply out_step_refl.
  - cbn [client_idle_notify_loop changed_lines].
    rewrite idle_bit_test by assumption.
    destruct (Z.testbit (Z.land flags (idle_subscriptions c)) i).
    + destruct (client_printf cap w c (format_changed name))
        as [w1 c1] eqn:Hp.
      apply client_printf_spec in Hp; auto.
      rewrite format_changed_printed in Hp.
      intros Hloop. apply IH in Hloop; [|lia|apply Hp].
      replace (idle_subscriptions c1) with (idle_subscriptions c) in Hloop
        by (symmetry; apply Hp).
      eapply out_step_trans; eauto.
    + intros Hloop. apply IH in Hloop; [|lia|assumption]. exact Hloop.
Qed.

Lemma client_idle_notify_spec (w : world) (c : client) :
  forall w' c',
  client_ok cap c -> client_idle_notify cap idle_names w c = (w', c') ->
  idle_flags c' = 0 /\ idle_waiting c' = false /\
  idle_subscriptions c' = idle_subscriptions c /\
  cmd_list c' = cmd_list c /\ cmd_list_OK c' = cmd_list_OK c /\
  cmd_list_size c' = cmd_list_size c /\
  client_ok cap c' /\ (fd c' = fd c \/ fd c' < 0) /\ now w' = now w /\
  (0 <= fd c' ->
   out_stream w' c' =
   out_stream w c
     ++ idle_response idle_names (idle_flags c) (idle_subscriptions c)).
Proof.
  intros w' c' Hok. unfold client_idle_notify.
  set (c0 := set_idle_waiting (set_idle_flags c 0) false).
  destruct (client_idle_notify_loop cap idle_names 0 (idle_flags c) w c0)
    as [w1 c1] eqn:Hloop.
  destruct (client_puts cap w1 c1 ("OK" ++ newline_string))
    as [w2 c2] eqn:Hputs.
  intros [= <- <-].
  apply client_idle_notify_loop_spec in Hloop; [|lia|exact Hok].
  apply client_puts_spec in Hputs; [|assumption|apply Hloop].
  pose proof (out_step_trans _ _ _ _ _ _ _ _ _ Hloop Hputs)
    as (Hss & Hok2 & Hn & Hfd & Hst).
  unfold same_session in Hss. simpl in Hss.
  destruct Hss as (_ & _ & _ & _ & _ & Hc1 & Hc2 & Hc3 & _ & Hw & Hf & Hs).
  splits; simpl; auto.
Qed.

(** One turn of the broadcast on a client that is parked on an event
    that is now pending. *)
Lemma client_idle_add_hit (w : world) (c : client) :
  forall w1 c1 w2 c2,
  client_ok cap c ->
  client_idle_notify cap idle_names w c = (w1, c1) ->
  client_write_output cap w1 c1 = (w2, c2) ->
  client_ok cap c2 /\
  (0 <= fd c2 ->
   send_buf_used c2 = 0 /\
   out_stream w2 c2 =
   out_stream w c
     ++ idle_response idle_names (idle_flags c) (idle_subscriptions c)).
Proof.
  intros w1 c1 w2 c2 Hok Hnot Hout.
  apply client_idle_notify_spec in Hnot; auto.
  destruct Hnot as (_ & _ & _ & _ & _ & _ & Hok1 & Hfd1 & _ & Hst1).
  apply client_flush_spec in Hout; auto.
  destruct Hout as ((_ & Hok2 & _ & Hfd2 & Hst2) & Hz).
  split; [exact Hok2|]. intros Hlive.
  split; [apply Hz; lia|].
  rewrite Hst2, app_nil_r by assumption. apply Hst1. lia.
Qed.

End IdleFacts.

(** ** The line processor *)

Section LineFacts.

Variable cap : Z.
Variable list_cap : Z.
Variable command_process : world -> client -> string -> Z * world * client.
Variable command_process_list :
  world -> client -> Z -> list string -> Z * world * client.

Local Abbreviation process_line :=
  (client_process_line cap list_cap command_process command_process_list).

Local Abbreviation process_lines :=
  (client_process_lines cap list_cap command_process command_process_list).

Lemma list_size_app (l1 l2 : list string) :
  list_size (l1 ++ l2) = list_size l1 + list_size l2.
Proof. induction l1 as [|l l1 IH]; simpl; [reflexivity | lia]. Qed.

Lemma line_size_pos (line : string) : 0 < line_size line.
Proof. unfold line_size, strlen. lia. Qed.

Lemma list_size_nonneg (lines : list string) : 0 <= list_size lines.
Proof.
  induction lines as [|l lines IH]; simpl; [lia|].
  pose proof (line_size_pos l). lia.
Qed.

(** One queueable line in list mode: accepted while the new size is
    within the cap, else the client is to be closed. *)
Lemma client_process_line_queue (w : world) (c : client) (line : string) :
  idle_waiting c = false -> 0 <= cmd_list_OK c -> queueable line ->
  0 <= cmd_list_size c ->
  cmd_list_size c + line_size line < 2 ^ SIZE_WIDTH ->
  process_line w c line =
  if cmd_list_size c + line_size line >? list_cap
  then (COMMAND_RETURN_CLOSE, w,
        set_cmd_list_size c (cmd_list_size c + line_size line))
  else (1, w,
        new_cmd_list_ptr
          (set_cmd_list_size c (cmd_list_size c + line_size line)) line).
Proof.
  intros Hidle Hmode [Hno Hend] Hsz Hwrap.
  unfold client_process_line.
  destruct (String.eqb_spec line "noidle"); [contradiction|].
  rewrite Hidle.
  destruct (Z.geb_spec (cmd_list_OK c) 0); [|lia].
  destruct (String.eqb_spec line CLIENT_LIST_MODE_END); [contradiction|].
  pose proof (line_size_pos line) as Hpos. unfold line_size in *.
  rewrite (size_t_small (strlen line + 1)) by lia.
  rewrite (size_t_small (cmd_list_size c + (strlen line + 1))) by lia.
  reflexivity.
Qed.

(** A run of queueable lines within the cap: all are queued, newest
    first, and the loop goes on with the lines that follow. *)
Lemma client_process_lines_queue (lines : list string) :
  forall more ret w c,
  0 <= fd c -> idle_waiting c = false -> 0 <= cmd_list_OK c ->
  Forall queueable lines -> 0 <= cmd_list_size c ->
  cmd_list_size c + list_size lines <= list_cap ->
  list_cap < 2 ^ SIZE_WIDTH ->
  process_lines ret w c (lines ++ more) =
  process_lines
    (match lines with [] => ret | _ :: _ => 1 end) w
    (set_cmd_list
       (set_cmd_list_size c (cmd_list_size c + list_size lines))
       (rev lines ++ cmd_list c))
    more.
Proof.
  induction lines as [|line rest IH];
    intros more ret w c Hfd Hidle Hmode Hall Hsz Hfit Hcap.
  - simpl. rewrite Z.add_0_r. destruct c; reflexivity.
  - inversion Hall as [|l0 r0 Hq Hrest]; subst l0 r0.
    cbn [client_process_lines list_size fold_right app] in *.
    fold (list_size rest) in *.
    pose proof (line_size_pos line) as Hpos.
    pose proof (list_size_nonneg rest) as Hnn.
    rewrite client_process_line_queue by (auto; lia).
    destruct (Z.gtb_spec (cmd_list_size c + line_size line) list_cap);
      [lia|].
    change ((1 =? COMMAND_RETURN_KILL) || (1 =? COMMAND_RETURN_CLOSE))
      with false. cbv iota.
    unfold client_is_expired, new_cmd_list_ptr.
    cbn [fd set_cmd_list set_cmd_list_size].
    destruct (Z.ltb_spec (fd c) 0); [lia|].
    rewrite IH; auto; cbn [fd idle_waiting cmd_list_OK cmd_list_size
                           cmd_list set_cmd_list set_cmd_list_size];
      try lia.
    replace (match rest with [] => 1 | _ :: _ => 1 end) with 1
      by (destruct rest; reflexivity).
    cbn [rev]. rewrite <- app_assoc, Z.add_assoc. reflexivity.
Qed.

Lemma client_process_lines_queue_all (lines : list string) :
  forall ret w c,
  0 <= fd c -> idle_waiting c = false -> 0 <= cmd_list_OK c ->
  Forall queueable lines -> 0 <= cmd_list_size c ->
  cmd_list_size c + list_size lines <= list_cap ->
  list_cap < 2 ^ SIZE_WIDTH ->
  process_lines ret w c lines =
  (match lines with [] => ret | _ :: _ => 1 end, w,
   set_cmd_list
     (set_cmd_list_size c (cmd_list_size c + list_size lines))
     (rev lines ++ cmd_list c)).
Proof.
  intros ret w c Hfd Hidle Hmode Hall Hsz Hfit Hcap.
  pose proof (client_process_lines_queue lines [] ret w c
                Hfd Hidle Hmode Hall Hsz Hfit Hcap) as H.
  rewrite app_nil_r in H. exact H.
Qed.

(** A list-begin marker in the Normal state opens list mode. *)
Lemma client_process_line_begin (w : world) (c : client) (verbose : bool) :
  idle_waiting c = false -> cmd_list_OK c < 0 ->
  process_line w c
    (if verbose then CLIENT_LIST_OK_MODE_BEGIN else CLIENT_LIST_MODE_BEGIN)
  = (1, w, set_cmd_list_OK c (if verbose then 1 else 0)).
Proof.
  intros Hidle Hmode. unfold client_process_line.
  destruct verbose; cbn [String.eqb Ascii.eqb Bool.eqb andb];
    rewrite Hidle; destruct (Z.geb_spec (cmd_list_OK c) 0);
    try lia; reflexivity.
Qed.

End LineFacts.

(** ** The read path *)

Lemma find_char_absent (ch : ascii) (l : list ascii) (at_ : Z) :
  ~ In ch l -> find_char ch l at_ = None.
Proof.
  revert at_. induction l as [|x l IH]; intros at_ Hin; [reflexivity|].
  simpl. destruct (Ascii.eqb_spec x ch) as [->|_].
  - exfalso. apply Hin. now left.
  - apply IH. intros H. apply Hin. now right.
Qed.

Lemma find_char_first (ch : ascii) (pre post : list ascii) (at_ : Z) :
  ~ In ch pre ->
  find_char ch (pre ++ ch :: post) at_ = Some (at_ + len pre).
Proof.
  revert at_. induction pre as [|x pre IH]; intros at_ Hin.
  - simpl. rewrite Ascii.eqb_refl. f_equal. unfold len. cbn [List.length]. lia.
  - simpl. destruct (Ascii.eqb_spec x ch) as [->|_].
    + exfalso. apply Hin. now left.
    + rewrite IH by (intros H; apply Hin; now right).
      f_equal. unfold len. cbn [List.length]. lia.
Qed.

Lemma c_string_app_zero (l rest : list ascii) :
  c_string (l ++ zero :: rest) = c_string l.
Proof.
  induction l as [|x l IH]; simpl; [reflexivity|].
  destruct (Ascii.eqb x zero); [reflexivity | now rewrite IH].
Qed.

Section ReadFacts.

Variable cap : Z.
Variable list_cap : Z.
Variable command_process : world -> client -> string -> Z * world * client.
Variable command_process_list :
  world -> client -> Z -> list string -> Z * world * client.

Local Abbreviation input_loop :=
  (client_input_loop cap list_cap command_process command_process_list).
Local Abbreviation input_received :=
  (client_input_received cap list_cap command_process command_process_list).
Local Abbreviation read :=
  (client_read cap list_cap command_process command_process_list).
Local Abbreviation reads_n :=
  (client_reads cap list_cap command_process command_process_list).

(** Without a newline among the bytes from [start] to [end_] the loop
    ends at once, whatever the fuel. *)
Lemma client_input_loop_done (fuel : nat) (w : world) (c : client)
    (start end_ : Z) :
  memchr (buffer c) start newline_char (end_ - start) = None ->
  input_loop fuel w c start end_ = (inr start, w, c).
Proof.
  intros H. destruct fuel; [reflexivity|].
  cbn [client_input_loop]. now rewrite H.
Qed.

Lemma client_input_loop_step (fuel : nat) (w : world) (c : client)
    (start end_ newline : Z) :
  memchr (buffer c) start newline_char (end_ - start) = Some newline ->
  input_loop (S fuel) w c start end_ =
  let next := newline + 1 in
  let newline :=
    if (newline >? start)
       && Ascii.eqb (char_at (buffer c) (newline - 1)) return_char
    then newline - 1 else newline in
  let c := set_buffer c (mem_write (buffer c) newline [zero]) in
  let '(ret, w, c) :=
    client_process_line cap list_cap command_process command_process_list
      w c (c_string_at (buffer c) start) in
  if (ret =? COMMAND_RETURN_KILL) || (ret =? COMMAND_RETURN_CLOSE)
  then (inl ret, w, c)
  else if client_is_expired c then (inl COMMAND_RETURN_CLOSE, w, c)
  else input_loop fuel w c next end_.
Proof. intros H. cbn [client_input_loop]. now rewrite H. Qed.

Lemma holding_stored (c : client) (held bytes : list ascii) :
  holding c held -> len held + len bytes <= sizeof_buffer ->
  holding (stored c bytes) (held ++ bytes).
Proof.
  intros (Hfd & Hpos & Hlen & Hbuf & Hheld) Hfit.
  pose proof (len_nonneg held). pose proof (len_nonneg bytes).
  unfold holding, stored. simpl. rewrite Hlen, len_app. splits; auto.
  - rewrite len_mem_write; lia.
  - rewrite take_mem_write by lia. now rewrite Hheld.
Qed.

(** A read of bytes without a newline behind held bytes without a
    newline: the bytes are stored; the read returns 0 while there is
    room left and CLOSE when the buffer is full. *)
Lemma client_read_more (w : world) (c : client) (held bytes : list ascii)
    (rest : list read_result) :
  holding c held -> reads w = RBytes bytes :: rest ->
  0 < len bytes -> len held + len bytes <= sizeof_buffer ->
  ~ In newline_char (held ++ bytes) ->
  read w c =
  (if len held + len bytes =? sizeof_buffer
   then COMMAND_RETURN_CLOSE else 0,
   after_read w rest, stored c bytes).
Proof.
  intros Hhold Hr Hpos Hfit Hnl.
  pose proof (holding_stored c held bytes Hhold Hfit)
    as (_ & _ & Hlen' & Hbuf' & Hheld').
  destruct Hhold as (Hfd & Hbp & Hlen & Hbuf & Hheld).
  pose proof (len_nonneg held) as Hh0.
  unfold client_read.
  assert (Hcount : size_t (sizeof_buffer - bufferLength c)
                   = sizeof_buffer - len held).
  { rewrite Hlen. apply size_t_small.
    unfold sizeof_buffer, SIZE_WIDTH in *. lia. }
  rewrite Hcount.
  rewrite (sys_read_all w (fd c) bytes rest) by (auto; lia).
  fold (after_read w rest).
  destruct (Z.gtb_spec (len bytes) 0); [|lia].
  unfold client_input_received.
  cbn [bufferPos bufferLength buffer set_buffer set_bufferLength].
  rewrite Hbp.
  assert (Hsum : size_t (bufferLength c + len bytes)
                 = bufferLength c + len bytes).
  { rewrite Hlen. apply size_t_small.
    unfold sizeof_buffer, SIZE_WIDTH in *. lia. }
  rewrite Hsum. fold (stored c bytes).
  rewrite client_input_loop_done.
  - cbn [bufferLength bufferPos set_bufferPos].
    change (bufferLength (stored c bytes))
      with (bufferLength c + len bytes).
    rewrite Hlen.
    assert (Heq : set_bufferPos (stored c bytes) 0 = stored c bytes).
    { unfold stored, set_bufferPos, set_bufferLength, set_buffer.
      destruct c; simpl in *. subst. reflexivity. }
    rewrite Heq.
    destruct (Z.eqb_spec (len held + len bytes) sizeof_buffer);
      reflexivity.
  - unfold memchr. rewrite drop_0, Z.sub_0_r.
    change (buffer (stored c bytes))
      with (mem_write (buffer c) (bufferLength c) bytes) in *.
    rewrite Hlen. rewrite len_app in Hheld'. rewrite Hlen in Hheld'.
    rewrite Hheld'. now apply find_char_absent.
Qed.

Lemma mem_write_tail (dst src : list ascii) (off : Z) :
  0 <= off -> off + len src = len dst ->
  mem_write dst off src = take off dst ++ src.
Proof.
  intros Hoff Hfit. unfold mem_write. fold (take off dst).
  rewrite skipn_all2 by (unfold len in *; lia). now rewrite app_nil_r.
Qed.

Lemma line_end_split (line : list ascii) :
  len line = sizeof_buffer - 1 ->
  exists x post,
    line ++ [newline_char] = take (line_end line) line ++ x :: post /\
    len (take (line_end line) line) = line_end line.
Proof.
  intros Hline. unfold line_end.
  destruct (Ascii.eqb _ _).
  - destruct (drop (sizeof_buffer - 2) line) as [|x post] eqn:Hd.
    + pose proof (len_drop (sizeof_buffer - 2) line
                    ltac:(unfold sizeof_buffer in *; lia)) as Hl.
      rewrite Hd in Hl. change (len []) with 0 in Hl.
      unfold sizeof_buffer in *. lia.
    + exists x, (post ++ [newline_char]). split.
      * rewrite <- (take_drop (sizeof_buffer - 2) line) at 1.
        rewrite Hd, <- app_assoc. reflexivity.
      * apply len_take. unfold sizeof_buffer in *. lia.
  - exists newline_char, []. split.
    + rewrite take_all by lia. reflexivity.
    + apply len_take. unfold sizeof_buffer in *. lia.
Qed.

(** The bytes that arrived completed a line of 4095 bytes: the buffer is
    full and holds the line and its newline. *)
Lemma client_input_received_full_line (w : world) (c : client)
    (line : list ascii) (n : Z) :
  bufferPos c = 0 -> buffer c = line ++ [newline_char] ->
  len line = sizeof_buffer - 1 -> ~ In newline_char line ->
  size_t (bufferLength c + n) = sizeof_buffer ->
  input_received w c n =
  after_last_line
    (client_process_line cap list_cap command_process command_process_list
       w
       (set_bufferLength
          (set_buffer c
             (mem_write (line ++ [newline_char]) (line_end line) [zero]))
          sizeof_buffer)
       (c_string (take (line_end line) line))).
Proof.
  intros Hpos Hbuf Hline Hnl Hsum. unfold client_input_received.
  cbn [bufferPos bufferLength buffer set_buffer set_bufferLength].
  rewrite Hpos, Hsum.
  assert (Hfind : memchr (buffer (set_bufferLength c sizeof_buffer)) 0
                    newline_char (sizeof_buffer - 0)
                  = Some (sizeof_buffer - 1)).
  { cbn [buffer set_bufferLength]. rewrite Hbuf. unfold memchr.
    rewrite drop_0, take_all
      by (rewrite len_app, Hline; unfold len; simpl; lia).
    rewrite find_char_first by assumption. f_equal. lia. }
  rewrite (client_input_loop_step (Z.to_nat (sizeof_buffer - 0)) w
             (set_bufferLength c sizeof_buffer)
             0 sizeof_buffer (sizeof_buffer - 1) Hfind).
  cbv zeta. cbn [buffer set_bufferLength set_buffer]. rewrite Hbuf.
  change (sizeof_buffer - 1 >? 0) with true. cbn [andb].
  replace (sizeof_buffer - 1 - 1) with (sizeof_buffer - 2) by lia.
  assert (Hch : char_at (line ++ [newline_char]) (sizeof_buffer - 2)
                = char_at line (sizeof_buffer - 2)).
  { unfold char_at. apply app_nth1. unfold len in Hline.
    unfold sizeof_buffer in *. lia. }
  rewrite Hch. fold (line_end line).
  assert (Hstr : c_string_at
                   (mem_write (line ++ [newline_char]) (line_end line)
                      [zero]) 0
                 = c_string (take (line_end line) line)).
  { unfold c_string_at. rewrite drop_0.
    destruct (line_end_split line Hline) as (x & post & Hsplit & Hk).
    rewrite Hsplit, mem_write_at by (symmetry; exact Hk).
    apply c_string_app_zero. }
  rewrite Hstr.
  replace (set_buffer (set_bufferLength c sizeof_buffer)
             (mem_write (line ++ [newline_char]) (line_end line) [zero]))
    with (set_bufferLength
            (set_buffer c
               (mem_write (line ++ [newline_char]) (line_end line) [zero]))
            sizeof_buffer) by reflexivity.
  unfold after_last_line.
  destruct (client_process_line cap list_cap command_process
              command_process_list w _ _) as [[ret w2] c2].
  destruct ((ret =? COMMAND_RETURN_KILL) || (ret =? COMMAND_RETURN_CLOSE));
    [reflexivity|].
  destruct (client_is_expired c2); [reflexivity|].
  rewrite client_input_loop_done by reflexivity.
  cbn [bufferLength set_bufferPos bufferPos].
  destruct (Z.eqb_spec (bufferLength c2) sizeof_buffer) as [He|];
    [|reflexivity].
  change (sizeof_buffer - 1 + 1 =? 0) with false. cbv iota.
  cbn [bufferLength bufferPos buffer set_bufferLength set_buffer
       set_bufferPos].
  rewrite He. reflexivity.
Qed.

(** The read that delivers the end of a line of 4095 bytes and its
    newline, behind what the buffer holds of the line. *)
Lemma client_read_line_end (w : world) (c : client)
    (held tail : list ascii) (rest : list read_result) :
  holding c held -> reads w = RBytes (tail ++ [newline_char]) :: rest ->
  len held + len tail = sizeof_buffer - 1 ->
  ~ In newline_char (held ++ tail) ->
  let line := held ++ tail in
  read w c =
  after_last_line
    (client_process_line cap list_cap command_process command_process_list
       (after_read w rest)
       (set_bufferLength
          (set_buffer c
             (mem_write (line ++ [newline_char]) (line_end line) [zero]))
          sizeof_buffer)
       (c_string (take (line_end line) line))).
Proof.
  intros (Hfd & Hbp & Hlen & Hbuf & Hheld) Hr Hfit Hnl line.
  pose proof (len_nonneg held) as Hh0. pose proof (len_nonneg tail) as Ht0.
  assert (Hbytes : len (tail ++ [newline_char]) = len tail + 1)
    by (rewrite len_app; reflexivity).
  unfold client_read.
  assert (Hcount : size_t (sizeof_buffer - bufferLength c)
                   = sizeof_buffer - len held).
  { rewrite Hlen. apply size_t_small.
    unfold sizeof_buffer, SIZE_WIDTH in *. lia. }
  rewrite Hcount.
  rewrite (sys_read_all w (fd c) (tail ++ [newline_char]) rest)
    by (auto; lia).
  fold (after_read w rest).
  destruct (Z.gtb_spec (len (tail ++ [newline_char])) 0); [|lia].
  rewrite (client_input_received_full_line _ _ line).
  - reflexivity.
  - exact Hbp.
  - cbn [buffer set_buffer]. rewrite Hlen, mem_write_tail by lia.
    rewrite Hheld. unfold line. now rewrite app_assoc.
  - unfold line. rewrite len_app. lia.
  - exact Hnl.
  - cbn [bufferLength set_buffer]. rewrite Hlen, Hbytes.
    replace (len held + (len tail + 1)) with sizeof_buffer by lia.
    reflexivity.
Qed.

Lemma client_reads_succ (n : nat) (w : world) (c : client) :
  reads_n (S n) w c =
  let '(ret, w, c) := read w c in
  if ret =? 0 then reads_n n w c else (ret, w, c).
Proof. reflexivity. Qed.

Lemma client_reads_one (w : world) (c : client) :
  reads_n 1 w c = read w c.
Proof.
  cbn [client_reads]. destruct (read w c) as [[ret w1] c1].
  destruct (Z.eqb_spec ret 0) as [->|]; reflexivity.
Qed.

Lemma concat_nonempty (chunks : list (list ascii)) :
  Forall (fun b => b <> []) chunks -> chunks <> [] -> 0 < len (List.concat chunks).
Proof.
  intros Hall Hne. destruct chunks as [|b cs]; [contradiction|].
  inversion Hall as [|b0 c0 Hb _]; subst. simpl. rewrite len_app.
  pose proof (len_nonneg (List.concat cs)).
  destruct b; [contradiction|]. unfold len at 1. cbn [List.length]. lia.
Qed.

Lemma not_in_prefix (ch : ascii) (held b t : list ascii) :
  ~ In ch (held ++ b ++ t) -> ~ In ch (held ++ b).
Proof.
  intros H Hin. apply H. rewrite !in_app_iff in *. tauto.
Qed.

(** Chunks without a newline that fill the buffer exactly: every read
    but the last returns 0, the last returns CLOSE, and the buffer holds
    all the bytes. *)
Lemma client_reads_flood (rest : list read_result)
    (chunks : list (list ascii)) :
  forall w c held,
  holding c held -> Forall (fun b => b <> []) chunks -> chunks <> [] ->
  reads w = map RBytes chunks ++ rest ->
  len held + len (List.concat chunks) = sizeof_buffer ->
  ~ In newline_char (held ++ List.concat chunks) ->
  reads_n (List.length chunks) w c =
  (COMMAND_RETURN_CLOSE, after_read w rest,
   set_bufferLength (set_buffer c (held ++ List.concat chunks)) sizeof_buffer).
Proof.
  induction chunks as [|b cs IH]; intros w c held Hhold Hall Hne Hr Hfit Hnl;
    [contradiction|].
  inversion Hall as [|b0 c0 Hb Hcs]; subst b0 c0.
  assert (Hbpos : 0 < len b).
  { destruct b; [contradiction|]. unfold len. cbn [List.length]. lia. }
  cbn [List.concat map app] in *. rewrite len_app in Hfit.
  pose proof (len_nonneg (List.concat cs)) as Hc0.
  destruct cs as [|b' cs'].
  - cbn [List.concat] in *. rewrite app_nil_r in *. change (len []) with 0 in *.
    change (List.length [b]) with 1%nat. rewrite client_reads_one.
    rewrite (client_read_more w c held b rest) by (auto; lia).
    destruct (Z.eqb_spec (len held + len b) sizeof_buffer); [|lia].
    f_equal. unfold stored.
    destruct Hhold as (_ & _ & Hlen & Hbuf & Hheld).
    pose proof (len_nonneg held).
    rewrite Hlen, mem_write_tail, Hheld by lia.
    replace (len held + len b) with sizeof_buffer by lia. reflexivity.
  - assert (Hrest : 0 < len (List.concat (b' :: cs')))
      by (apply concat_nonempty; [assumption | discriminate]).
    change (List.length (b :: b' :: cs'))
      with (S (List.length (b' :: cs'))).
    rewrite client_reads_succ.
    rewrite (client_read_more w c held b (map RBytes (b' :: cs') ++ rest));
      [|exact Hhold|exact Hr|exact Hbpos|lia
       |eapply not_in_prefix; eassumption].
    destruct (Z.eqb_spec (len held + len b) sizeof_buffer); [lia|].
    change (0 =? 0) with true. cbv iota.
    rewrite (IH (after_read w (map RBytes (b' :: cs') ++ rest))
               (stored c b) (held ++ b)).
    + rewrite <- app_assoc. reflexivity.
    + apply holding_stored; [assumption | lia].
    + assumption.
    + discriminate.
    + reflexivity.
    + rewrite len_app. lia.
    + now rewrite <- app_assoc.
Qed.

(** Chunks that make up a line of 4095 bytes and its newline: every read
    but the last returns 0 and the last hands the line to the line
    processor. *)
Lemma client_reads_line (rest : list read_result)
    (chunks : list (list ascii)) :
  forall w c held tail,
  holding c held -> Forall (fun b => b <> []) chunks -> chunks <> [] ->
  reads w = map RBytes chunks ++ rest ->
  List.concat chunks = tail ++ [newline_char] ->
  len held + len tail = sizeof_buffer - 1 ->
  ~ In newline_char (held ++ tail) ->
  let line := held ++ tail in
  reads_n (List.length chunks) w c =
  after_last_line
    (client_process_line cap list_cap command_process command_process_list
       (after_read w rest)
       (set_bufferLength
          (set_buffer c
             (mem_write (line ++ [newline_char]) (line_end line) [zero]))
          sizeof_buffer)
       (c_string (take (line_end line) line))).
Proof.
  induction chunks as [|b cs IH];
    intros w c held tail Hhold Hall Hne Hr Hcat Hfit Hnl line;
    [contradiction|].
  inversion Hall as [|b0 c0 Hb Hcs]; subst b0 c0.
  assert (Hbpos : 0 < len b).
  { destruct b; [contradiction|]. unfold len. cbn [List.length]. lia. }
  cbn [List.concat map app] in *.
  destruct cs as [|b' cs'].
  - cbn [List.concat] in *. rewrite app_nil_r in Hcat. subst b.
    change (List.length [tail ++ [newline_char]]) with 1%nat.
    rewrite client_reads_one.
    now apply client_read_line_end.
  - assert (Hrest : List.concat (b' :: cs') <> []).
    { intros He.
      pose proof (concat_nonempty (b' :: cs') Hcs ltac:(discriminate)) as Hp.
      rewrite He in Hp. change (len []) with 0 in Hp. lia. }
    destruct (exists_last Hrest) as (t' & x & Ht).
    rewrite Ht, app_assoc in Hcat.
    apply app_inj_tail in Hcat. destruct Hcat as [Htail ->].
    subst tail. rewrite len_app in Hfit.
    pose proof (len_nonneg t') as Ht0.
    change (List.length (b :: b' :: cs'))
      with (S (List.length (b' :: cs'))).
    rewrite client_reads_succ.
    rewrite (client_read_more w c held b (map RBytes (b' :: cs') ++ rest));
      [|exact Hhold|exact Hr|exact Hbpos|lia
       |eapply not_in_prefix; eassumption].
    destruct (Z.eqb_spec (len held + len b) sizeof_buffer); [lia|].
    change (0 =? 0) with true. cbv iota.
    rewrite (IH (after_read w (map RBytes (b' :: cs') ++ rest))
               (stored c b) (held ++ b) t').
    + unfold line. rewrite <- !app_assoc. reflexivity.
    + apply holding_stored; [assumption | lia].
    + assumption.
    + discriminate.
    + reflexivity.
    + exact Ht.
    + rewrite len_app. lia.
    + now rewrite <- app_assoc.
Qed.

End ReadFacts.

(** ** The fuel of the loops is enough *)

Lemma client_write_output_resets (cap : Z) (w : world) (c : client) :
  0 <= fd c -> send_buf_used c <> 0 ->
  send_buf_used (snd (client_write_output cap w c)) = 0.
Proof.
  intros Hfd Hused. unfold client_write_output, client_is_expired.
  destruct (Z.ltb_spec (fd c) 0); [lia|].
  destruct (Z.eqb_spec (send_buf_used c) 0); [contradiction|].
  cbn [orb].
  destruct (match deferred_send c with
            | [] => client_write_direct cap w c (send_buf c) (send_buf_used c)
            | _ :: _ =>
                let '(w0, c0) :=
                  client_defer_output cap w c (send_buf c) (send_buf_used c)
                in client_write_deferred w0 c0
            end) as [w1 c1].
  reflexivity.
Qed.

Lemma client_write_loop_unfold (cap : Z) (fuel : nat) (w : world)
    (c : client) (buffer : list ascii) :
  client_write_loop cap (S fuel) w c buffer =
  let buflen := len buffer in
  if (0 <? buflen) && negb (client_is_expired c) then
    let copylen := size_t (sizeof_send_buf - send_buf_used c) in
    let copylen := if copylen >? buflen then buflen else copylen in
    let c := set_send_buf c (mem_write (send_buf c) (send_buf_used c)
                               (take copylen buffer)) in
    let c := set_send_buf_used c (size_t (send_buf_used c + copylen)) in
    let buffer := drop copylen buffer in
    let '(w, c) :=
      if send_buf_used c >=? sizeof_send_buf
      then client_write_output cap w c else (w, c) in
    client_write_loop cap fuel w c buffer
  else (w, c).
Proof. reflexivity. Qed.

(** [client_write] gives its loop one round more than there are bytes;
    any further round would change nothing. *)
Lemma client_write_loop_fuel (cap : Z) (fuel : nat) :
  forall w c buffer,
  0 <= send_buf_used c < sizeof_send_buf ->
  (List.length buffer < fuel)%nat ->
  client_write_loop cap (S fuel) w c buffer
  = client_write_loop cap fuel w c buffer.
Proof.
  induction fuel as [|fuel IH]; intros w c buffer Hused Hfuel; [lia|].
  rewrite (client_write_loop_unfold cap (S fuel)),
    (client_write_loop_unfold cap fuel). cbv zeta.
  destruct ((0 <? len buffer) && negb (client_is_expired c)) eqn:Hgo;
    [|reflexivity].
  apply andb_true_iff in Hgo. destruct Hgo as [Hpos Hlive].
  apply Z.ltb_lt in Hpos. apply negb_true_iff in Hlive.
  unfold client_is_expired in Hlive. apply Z.ltb_ge in Hlive.
  set (room := size_t (sizeof_send_buf - send_buf_used c)).
  assert (Hroom : room = sizeof_send_buf - send_buf_used c).
  { apply size_t_small. unfold sizeof_send_buf, SIZE_WIDTH in *. lia. }
  set (copylen := if room >? len buffer then len buffer else room).
  assert (Hcopy : 0 < copylen <= len buffer
                  /\ copylen <= sizeof_send_buf - send_buf_used c).
  { unfold copylen. destruct (Z.gtb_spec room (len buffer)); lia. }
  destruct Hcopy as [Hc1 Hc2].
  assert (Hnew : size_t (send_buf_used c + copylen)
                 = send_buf_used c + copylen).
  { apply size_t_small. unfold sizeof_send_buf, SIZE_WIDTH in *. lia. }
  cbn [send_buf send_buf_used set_send_buf set_send_buf_used].
  rewrite Hnew.
  set (c1 := set_send_buf_used
               (set_send_buf c (mem_write (send_buf c) (send_buf_used c)
                                  (take copylen buffer)))
               (send_buf_used c + copylen)).
  assert (Hdrop : (List.length (drop copylen buffer) < fuel)%nat).
  { pose proof (len_drop copylen buffer ltac:(lia)) as Hd.
    unfold len in Hd, Hc1. lia. }
  destruct (Z.geb_spec (send_buf_used c + copylen) sizeof_send_buf)
    as [Hfull|Hfree].
  - pose proof (client_write_output_resets cap w c1) as Hz.
    destruct (client_write_output cap w c1) as [w2 c2]. simpl in Hz.
    apply IH; [|exact Hdrop].
    rewrite Hz; [unfold sizeof_send_buf; lia | exact Hlive |].
    unfold c1; simpl. lia.
  - apply IH; [|exact Hdrop].
    unfold c1; simpl. lia.
Qed.

Lemma find_char_range (ch : ascii) (l : list ascii) :
  forall at_ k, find_char ch l at_ = Some k -> at_ <= k < at_ + len l.
Proof.
  induction l as [|x l IH]; intros at_ k; simpl; [discriminate|].
  unfold len. cbn [List.length]. destruct (Ascii.eqb x ch).
  - intros [= <-]. lia.
  - intros H. apply IH in H. unfold len in H. lia.
Qed.

Lemma memchr_range (mem : list ascii) (start : Z) (ch : ascii) (n k : Z) :
  memchr mem start ch n = Some k -> start <= k < start + n.
Proof.
  unfold memchr. intros H. apply find_char_range in H.
  assert (len (take n (drop start mem)) <= Z.max 0 n).
  { unfold len, take. rewrite length_firstn. lia. }
  destruct (Z.le_gt_cases n 0) as [Hn|Hn]; [|lia].
  unfold take in H. replace (Z.to_nat n) with 0%nat in H by lia.
  simpl in H. unfold len in H. simpl in H. lia.
Qed.

(** [client_input_received] gives its loop one round more than there
    are bytes between [start] and [end_]; any further round would
    change nothing. *)
Lemma client_input_loop_fuel
    (cap list_cap : Z)
    (command_process : world -> client -> string -> Z * world * client)
    (command_process_list :
       world -> client -> Z -> list string -> Z * world * client)
    (fuel : nat) :
  forall w c start end_,
  (Z.to_nat (end_ - start) < fuel)%nat ->
  client_input_loop cap list_cap command_process command_process_list
    (S fuel) w c start end_
  = client_input_loop cap list_cap command_process command_process_list
      fuel w c start end_.
Proof.
  induction fuel as [|fuel IH]; intros w c start end_ Hfuel; [lia|].
  destruct (memchr (buffer c) start newline_char (end_ - start))
    as [newline|] eqn:Hfind;
    [|now rewrite !client_input_loop_done by assumption].
  rewrite (client_input_loop_step _ _ _ _ (S fuel) _ _ _ _ _ Hfind),
    (client_input_loop_step _ _ _ _ fuel _ _ _ _ _ Hfind). cbv zeta.
  apply memchr_range in Hfind.
  destruct (client_process_line cap list_cap command_process
              command_process_list w _ _) as [[ret w1] c1].
  destruct ((ret =? COMMAND_RETURN_KILL) || (ret =? COMMAND_RETURN_CLOSE));
    [reflexivity|].
  destruct (client_is_expired c1); [reflexivity|].
  apply IH. lia.
Qed.

(** ** The invariants are established and kept *)

Lemma client_init_ok (cap : Z) (PROTOCOL_VERSION : string) (perms : Z)
    (w : world) (sock num0 : Z) :
  0 <= cap ->
  client_ok cap
    (snd (client_init PROTOCOL_VERSION perms w client_zero sock num0)).
Proof.
  intros Hcap. unfold client_ok, buf_ok, acct_ok. simpl. splits.
  - vm_compute. reflexivity.
  - lia.
  - vm_compute. discriminate.
  - constructor.
  - vm_compute. reflexivity.
  - left. split; [reflexivity | exact Hcap].
Qed.

Lemma run_client_op_ok (cap : Z) (idle_names : list string)
    (op : client_op) (w : world) (c : client) :
  0 <= cap /\ cap + deferred_overhead + sizeof_send_buf < 2 ^ SIZE_WIDTH ->
  client_ok cap c ->
  client_ok cap (snd (run_client_op cap idle_names op w c)).
Proof.
  intros Hcap Hok. destruct op as [buffer|s|f| |flags]; simpl.
  - destruct (client_write cap w c buffer) as [w' c'] eqn:H.
    apply client_write_spec in H; auto. apply H.
  - destruct (client_puts cap w c s) as [w' c'] eqn:H.
    apply client_puts_spec in H; auto. apply H.
  - destruct (client_printf cap w c f) as [w' c'] eqn:H.
    apply client_printf_spec in H; auto. apply H.
  - destruct (client_write_deferred w c) as [w' c'] eqn:H.
    destruct Hok as ((Hsb & Hu & Hch) & Hlt & Hac).
    apply (client_write_deferred_spec cap Hcap) in H; auto.
    destruct H as (_ & Hsb' & Hu' & _ & Hch' & Hac' & _).
    simpl. unfold client_ok, buf_ok. rewrite Hsb', Hu'. auto.
  - unfold client_idle_wait.
    destruct (negb (Z.land (idle_flags (set_idle_subscriptions
                (set_idle_waiting c true) flags))
                (idle_subscriptions (set_idle_subscriptions
                   (set_idle_waiting c true) flags)) =? 0)).
    + destruct (client_idle_notify cap idle_names w
                  (set_idle_subscriptions (set_idle_waiting c true) flags))
        as [w' c'] eqn:H.
      apply client_idle_notify_spec in H; auto. apply H.
    + exact Hok.
Qed.

Lemma client_manager_idle_add_ok (cap : Z) (idle_names : list string)
    (clients : list client) :
  output_cap_ok cap ->
  forall w flags,
  Forall (client_ok cap) clients ->
  Forall (client_ok cap)
    (snd (client_manager_idle_add cap idle_names w clients flags)).
Proof.
  intros Hcap. induction clients as [|c rest IH]; intros w flags Hall.
  - constructor.
  - inversion Hall as [|c0 r0 Hok Hrest]; subst c0 r0.
    cbn [client_manager_idle_add].
    destruct (client_is_expired c).
    + specialize (IH w flags Hrest).
      destruct (client_manager_idle_add cap idle_names w rest flags).
      simpl in *. now constructor.
    + destruct (idle_waiting _ && _).
      * destruct (client_idle_notify cap idle_names w
                    (set_idle_flags c (Z.lor (idle_flags c) flags)))
          as [w1 c1] eqn:Hnot.
        destruct (client_write_output cap w1 c1) as [w2 c2] eqn:Hout.
        pose proof (client_idle_add_hit cap Hcap idle_names w
                      (set_idle_flags c (Z.lor (idle_flags c) flags))
                      w1 c1 w2 c2 Hok Hnot Hout) as [Hok2 _].
        specialize (IH w2 flags Hrest).
        destruct (client_manager_idle_add cap idle_names w2 rest flags).
        simpl in *. now constructor.
      * specialize (IH w flags Hrest).
        destruct (client_manager_idle_add cap idle_names w rest flags).
        simpl in *. now constructor.
Qed.

(** ** A peer that accepts every write *)

Lemma client_write_output_fast (cap : Z) (w : world) (c : client) :
  writes w = [] -> 0 <= fd c -> deferred_send c = [] ->
  0 <= send_buf_used c ->
  forall w' c', client_write_output cap w c = (w', c') ->
  writes w' = [] /\ fd c' = fd c /\ deferred_send c' = [] /\
  deferred_bytes c' = deferred_bytes c.
Proof.
  intros Hw Hfd Hq Hused w' c'. unfold client_write_output, client_is_expired.
  destruct (Z.ltb_spec (fd c) 0); [lia|]. cbn [orb].
  destruct (Z.eqb_spec (send_buf_used c) 0);
    [intros [= <- <-]; auto|].
  rewrite Hq. unfold client_write_direct, sys_write.
  destruct (Z.ltb_spec (fd c) 0); [lia|]. rewrite Hw.
  destruct (Z.ltb_spec (send_buf_used c) 0); [lia|].
  rewrite Z.ltb_irrefl. intros [= <- <-]. simpl. auto.
Qed.

Lemma client_write_loop_fast (cap : Z) (fuel : nat) :
  forall w c buffer w' c',
  writes w = [] -> 0 <= fd c -> deferred_send c = [] ->
  0 <= send_buf_used c < sizeof_send_buf ->
  client_write_loop cap fuel w c buffer = (w', c') ->
  writes w' = [] /\ fd c' = fd c /\ deferred_send c' = [] /\
  deferred_bytes c' = deferred_bytes c.
Proof.
  induction fuel as [|fuel IH]; intros w c buffer w' c' Hw Hfd Hq Hused.
  - simpl. intros [= <- <-]. auto.
  - rewrite client_write_loop_unfold. cbv zeta.
    destruct ((0 <? len buffer) && negb (client_is_expired c)) eqn:Hgo;
      [|intros [= <- <-]; auto].
    apply andb_true_iff in Hgo. destruct Hgo as [Hpos _].
    apply Z.ltb_lt in Hpos.
    set (room := size_t (sizeof_send_buf - send_buf_used c)).
    assert (Hroom : room = sizeof_send_buf - send_buf_used c).
    { apply size_t_small. unfold sizeof_send_buf, SIZE_WIDTH in *. lia. }
    set (copylen := if room >? len buffer then len buffer else room).
    assert (Hcopy : 0 < copylen <= sizeof_send_buf - send_buf_used c).
    { unfold copylen. destruct (Z.gtb_spec room (len buffer)); lia. }
    assert (Hnew : size_t (send_buf_used c + copylen)
                   = send_buf_used c + copylen).
    { apply size_t_small. unfold sizeof_send_buf, SIZE_WIDTH in *. lia. }
    cbn [send_buf send_buf_used set_send_buf set_send_buf_used].
    rewrite Hnew.
    set (c1 := set_send_buf_used
                 (set_send_buf c (mem_write (send_buf c) (send_buf_used c)
                                    (take copylen buffer)))
                 (send_buf_used c + copylen)).
    assert (Hc1 : fd c1 = fd c /\ deferred_send c1 = deferred_send c
                  /\ deferred_bytes c1 = deferred_bytes c)
      by (unfold c1; simpl; auto).
    destruct Hc1 as (Hfd1 & Hq1 & Hb1).
    destruct (Z.geb_spec (send_buf_used c + copylen) sizeof_send_buf)
      as [Hfull|Hfree].
    + pose proof (client_write_output_resets cap w c1) as Hz.
      destruct (client_write_output cap w c1) as [w2 c2] eqn:Hout.
      apply (client_write_output_fast cap w c1 Hw ltac:(lia)
               ltac:(congruence) ltac:(unfold c1; simpl; lia)) in Hout.
      destruct Hout as (Hw2 & Hfd2 & Hq2 & Hb2). simpl in Hz.
      assert (Hused2 : 0 <= send_buf_used c2 < sizeof_send_buf).
      { rewrite Hz; [unfold sizeof_send_buf; lia | lia |].
        unfold c1; simpl. lia. }
      intros Hloop.
      apply (IH w2 c2 _ _ _ Hw2 ltac:(lia) Hq2 Hused2) in Hloop.
      destruct Hloop as (? & ? & ? & ?). splits; auto; congruence.
    + assert (Hused1 : 0 <= send_buf_used c1 < sizeof_send_buf)
        by (unfold c1; simpl; lia).
      intros Hloop.
      apply (IH w c1 _ _ _ Hw ltac:(lia) ltac:(congruence) Hused1) in Hloop.
      destruct Hloop as (? & ? & ? & ?). splits; auto; congruence.
Qed.

(** ** Emitting a notification *)

Lemma client_write_all_app (cap : Z) (l1 l2 : list (list ascii)) :
  forall w c,
  client_write_all cap w c (l1 ++ l2) =
  let '(w1, c1) := client_write_all cap w c l1 in
  client_write_all cap w1 c1 l2.
Proof.
  induction l1 as [|b l1 IH]; intros w c; [reflexivity|].
  cbn [client_write_all app].
  destruct (client_write cap w c b) as [w1 c1]. apply IH.
Qed.

Lemma client_printf_changed (cap : Z) (w : world) (c : client)
    (name : string) :
  client_printf cap w c (format_changed name) =
  client_write cap w c
    (list_ascii_of_string ("changed: " ++ name ++ newline_string)).
Proof.
  pose proof (format_changed_printed name) as H.
  unfold client_printf, client_vprintf, printed in *.
  destruct (vs_length (format_changed name) <=? 0) eqn:E.
  - exfalso. revert E. unfold format_changed. cbn [vs_length].
    intros E. apply Z.leb_le in E. unfold len in E. simpl in E. lia.
  - now rewrite H.
Qed.

Lemma client_write_all_frame (cap : Z) (chunks : list (list ascii)) :
  forall w c w' c',
  client_write_all cap w c chunks = (w', c') -> same_session c c'.
Proof.
  induction chunks as [|b rest IH]; intros w c w' c'.
  - simpl. intros [= <- <-]. apply same_session_refl.
  - cbn [client_write_all].
    destruct (client_write cap w c b) as [w1 c1] eqn:H1.
    apply client_write_frame in H1. intros H. apply IH in H.
    eapply same_session_trans; eauto.
Qed.

Lemma client_idle_notify_loop_writes (cap : Z) (names : list string) :
  forall i flags w c,
  0 <= i ->
  client_idle_notify_loop cap names i flags w c =
  client_write_all cap w c
    (changed_line_list names i (Z.land flags (idle_subscriptions c))).
Proof.
  induction names as [|name rest IH]; intros i flags w c Hi;
    [reflexivity|].
  cbn [client_idle_notify_loop changed_line_list].
  rewrite idle_bit_test by assumption.
  destruct (Z.testbit (Z.land flags (idle_subscriptions c)) i).
  - rewrite client_printf_changed. cbn [app client_write_all].
    destruct (client_write cap w c _) as [w1 c1] eqn:H1.
    apply client_write_frame in H1.
    replace (idle_subscriptions c) with (idle_subscriptions c1)
      by apply H1.
    apply IH. lia.
  - cbn [app]. apply IH. lia.
Qed.

Lemma client_idle_notify_emits (cap : Z) (names : list string) (w : world)
    (c : client) :
  client_idle_notify cap names w c =
  emit_notification cap names (idle_flags c) w c.
Proof.
  unfold client_idle_notify, emit_notification, idle_response_lines.
  rewrite client_idle_notify_loop_writes by lia.
  rewrite client_write_all_app.
  cbn [idle_subscriptions set_idle_waiting set_idle_flags].
  destruct (client_write_all cap w _ _) as [w1 c1].
  cbn [client_write_all]. unfold client_puts, ok_line.
  destruct (client_write cap w1 c1 _) as [w2 c2]. reflexivity.
Qed.

Lemma changed_line_list_concat (names : list string) :
  forall i mask,
  List.concat (changed_line_list names i mask) = changed_lines names i mask.
Proof.
  induction names as [|name rest IH]; intros i mask; [reflexivity|].
  cbn [changed_line_list changed_lines]. rewrite concat_app, IH.
  destruct (Z.testbit mask i); [|reflexivity].
  cbn [List.concat]. now rewrite app_nil_r.
Qed.

Lemma idle_response_lines_concat (names : list string) (flags subs : Z) :
  List.concat (idle_response_lines names flags subs)
  = idle_response names flags subs.
Proof.
  unfold idle_response_lines, idle_response.
  rewrite concat_app, changed_line_list_concat. cbn [List.concat].
  now rewrite app_nil_r.
Qed.

(** ** Nothing queued and a peer that accepts every write *)

Section FlowingFacts.

Variable cap : Z.
Hypothesis cap_range : output_cap_ok cap.

(** With nothing queued and a peer that accepts every write, writing
    expires nobody and defers nothing. *)
Lemma client_write_flowing (w : world) (c : client) (buffer : list ascii) :
  forall w' c',
  client_ok cap c -> flowing w c ->
  client_write cap w c buffer = (w', c') ->
  client_ok cap c' /\ flowing w' c' /\ fd c' = fd c /\
  same_session c c' /\
  out_stream w' c' = out_stream w c ++ buffer.
Proof.
  intros w' c' Hok (Hfd & Hq & Hw) H.
  pose proof H as Hs. apply (client_write_spec cap cap_range) in Hs; auto.
  destruct Hs as (Hss & Hok' & _ & _ & Hst).
  revert H. unfold client_write, client_is_expired.
  destruct (Z.ltb_spec (fd c) 0); [lia|]. intros Hloop.
  apply client_write_loop_fast in Hloop; auto;
    [|destruct Hok as ((_ & Hu0 & _) & Hu1 & _); lia].
  destruct Hloop as (Hw' & Hfd' & Hq' & _).
  unfold flowing. splits; auto; try lia. apply Hst. lia.
Qed.

Lemma client_write_all_flowing (chunks : list (list ascii)) :
  forall w c w' c',
  client_ok cap c -> flowing w c ->
  client_write_all cap w c chunks = (w', c') ->
  client_ok cap c' /\ flowing w' c' /\ fd c' = fd c /\
  out_stream w' c' = out_stream w c ++ List.concat chunks.
Proof.
  induction chunks as [|b rest IH]; intros w c w' c' Hok Hflow.
  - simpl. intros [= <- <-]. splits; auto. now rewrite app_nil_r.
  - cbn [client_write_all List.concat].
    destruct (client_write cap w c b) as [w1 c1] eqn:H1.
    apply client_write_flowing in H1; auto.
    destruct H1 as (Hok1 & Hflow1 & Hfd1 & _ & Hst1).
    intros H. apply IH in H; auto.
    destruct H as (Hok2 & Hflow2 & Hfd2 & Hst2).
    splits; auto; try congruence.
    rewrite Hst2, Hst1, <- app_assoc. reflexivity.
Qed.

(** The flush then hands the pending bytes to the descriptor. *)
Lemma client_write_output_flowing (w : world) (c : client) :
  forall w' c',
  client_ok cap c -> flowing w c ->
  client_write_output cap w c = (w', c') ->
  client_ok cap c' /\ flowing w' c' /\ fd c' = fd c /\
  same_session c c' /\ send_buf_used c' = 0 /\
  delivered (fd c) w' = out_stream w c.
Proof.
  intros w' c' Hok (Hfd & Hq & Hw) H.
  pose proof H as Hs. apply (client_flush_spec cap cap_range) in Hs; auto.
  destruct Hs as ((Hss & Hok' & _ & _ & Hst) & Hz).
  apply client_write_output_fast in H; auto;
    [|destruct Hok as ((_ & Hu0 & _) & _); lia].
  destruct H as (Hw' & Hfd' & Hq' & _).
  assert (Hlive : 0 <= fd c') by lia.
  specialize (Hst Hlive). specialize (Hz Hfd).
  unfold flowing. splits; auto.
  rewrite app_nil_r in Hst. rewrite <- Hst.
  unfold out_stream. rewrite Hq', Hz, take_0, Hfd'. simpl.
  now rewrite app_nil_r.
Qed.

Lemma emit_notification_flowing (names : list string) (pending : Z)
    (w : world) (c : client) :
  forall w' c',
  client_ok cap c -> flowing w c ->
  emit_notification cap names pending w c = (w', c') ->
  client_ok cap c' /\ flowing w' c' /\ fd c' = fd c /\
  out_stream w' c' =
  out_stream w c ++ idle_response names pending (idle_subscriptions c).
Proof.
  intros w' c' Hok Hflow. unfold emit_notification.
  cbn [idle_subscriptions set_idle_waiting set_idle_flags].
  set (c0 := set_idle_waiting (set_idle_flags c 0) false).
  destruct (client_write_all cap w c0 _) as [w1 c1] eqn:H1.
  intros [= <- <-].
  apply client_write_all_flowing in H1; [|exact Hok|exact Hflow].
  destruct H1 as (Hok1 & Hflow1 & Hfd1 & Hst1).
  rewrite idle_response_lines_concat in Hst1.
  splits; auto.
Qed.

End FlowingFacts.

(** ** Why a client expires *)

Lemma caused_refl (cap : Z) (w : world) (c : client) : caused cap w c w c.
Proof.
  unfold caused, expiry_cause. splits; auto. now exists [].
Qed.

Lemma existsb_fatal_suffix (pre post : list write_result) :
  existsb fatal post = true -> existsb fatal (pre ++ post) = true.
Proof. intros H. rewrite existsb_app, H. apply orb_true_r. Qed.

Lemma existsb_fatal_prefix (pre post : list write_result) :
  existsb fatal pre = true -> existsb fatal (pre ++ post) = true.
Proof. intros H. rewrite existsb_app, H. reflexivity. Qed.

Lemma caused_trans (cap : Z) (w w1 w2 : world) (c c1 c2 : client) :
  caused cap w c w1 c1 -> caused cap w1 c1 w2 c2 -> caused cap w c w2 c2.
Proof.
  intros ((p1 & Hp1) & Hc1 & Hf1) ((p2 & Hp2) & Hc2 & Hf2).
  unfold caused, expiry_cause in *. splits.
  - exists (p1 ++ p2). rewrite Hp1, Hp2. now rewrite app_assoc.
  - intros Hfd2.
    destruct (Hc2 Hfd2) as [Hdead1|[Hcap|(q2 & Hq2 & Hfatal)]].
    + destruct (Hf2 Hdead1) as [_ Hb].
      destruct (Hc1 Hdead1) as [H|[H|(q1 & Hq1 & Hfatal)]]; auto.
      * right; left. lia.
      * right; right. exists (q1 ++ p2). rewrite Hq1, Hp2, app_assoc.
        split; [reflexivity | now apply existsb_fatal_prefix].
    + auto.
    + right; right. exists (p1 ++ q2). rewrite Hp1, Hq2, app_assoc.
      split; [reflexivity | now apply existsb_fatal_suffix].
  - intros Hfd. destruct (Hf1 Hfd) as [Hd1 Hb1].
    destruct (Hf2 Hd1) as [Hd2 Hb2]. split; [exact Hd2 | lia].
Qed.

(** A field update that touches neither the descriptor nor the
    counter. *)
Lemma caused_same (cap : Z) (w : world) (c c' : client) :
  fd c' = fd c -> deferred_bytes c' = deferred_bytes c ->
  caused cap w c w c'.
Proof.
  intros Hfd Hb. unfold caused, expiry_cause. splits.
  - now exists [].
  - intros H. left. lia.
  - intros H. split; [lia | exact Hb].
Qed.

Lemma sys_write_script (w : world) (fd0 : Z) (src : list ascii)
    (count ret : Z) (w' : world) :
  0 <= count -> sys_write w fd0 src count = (ret, w') ->
  exists pre,
    writes w = pre ++ writes w' /\
    (fd0 < 0 -> pre = [] /\ ret < 0) /\
    (0 <= fd0 -> ret < 0 -> pre = [WErr (errno w')]).
Proof.
  intros Hcount. unfold sys_write.
  destruct (Z.ltb_spec fd0 0) as [Hfd|Hfd].
  - intros [= <- <-]. exists []. simpl.
    splits; intros; try split; try reflexivity; lia.
  - destruct (writes w) as [|[n|e] rest] eqn:Hw; intros [= <- <-];
      [exists [] | exists [WBytes n] | exists [WErr e]]; simpl;
      splits; intros; try split; try reflexivity; lia.
Qed.

Lemma client_write_deferred_loop_caused (q : list deferred_buffer) :
  forall ret w c ret' w' c',
  Forall chunk_ok q -> 0 <= ret ->
  client_write_deferred_loop q ret w c = (ret', w', c') ->
  fd c' = fd c /\
  (fd c < 0 -> deferred_bytes c' = deferred_bytes c) /\
  exists pre,
    writes w = pre ++ writes w' /\
    (0 <= fd c -> ret' < 0 -> In (WErr (errno w')) pre).
Proof.
  induction q as [|b rest IH]; intros ret w c ret' w' c' Hq Hret.
  - simpl. intros [= <- <- <-]. splits; auto. exists []. split; [auto|lia].
  - inversion Hq as [|b0 q0 [[Hs1 Hs2] Hs3] Hrest]; subst b0 q0.
    cbn [client_write_deferred_loop].
    destruct (sys_write w (fd c) (data b) (size b)) as [r w1] eqn:Hw.
    apply sys_write_script in Hw; [|lia].
    destruct Hw as (pre & Hpre & Hdead & Hlive).
    destruct (Z.ltb_spec r 0) as [Hr|Hr].
    + intros [= <- <- <-]. splits; auto. exists pre. split; [exact Hpre|].
      intros Hfd _. rewrite (Hlive Hfd Hr). simpl. auto.
    + destruct (Z.ltb_spec r (size b)) as [Hr1|Hr1].
      * intros [= <- <- <-]. simpl. splits; auto.
        -- intros Hfd. destruct (Hdead Hfd). lia.
        -- exists pre. split; [exact Hpre | lia].
      * intros Hloop. apply IH in Hloop; [|exact Hrest|exact Hr].
        simpl in Hloop. destruct Hloop as (Hfd' & Hb' & pre2 & Hpre2 & Hl2).
        splits; auto.
        -- intros Hfd. destruct (Hdead Hfd). lia.
        -- exists (pre ++ pre2). rewrite Hpre, Hpre2, app_assoc.
           split; [reflexivity|]. intros Hfd Hneg.
           apply in_or_app. right. auto.
Qed.

Lemma fatal_errno (e : errno_t) :
  negb (errno_eqb e EAGAIN) && negb (errno_eqb e EINTR) = fatal (WErr e).
Proof. destruct e; reflexivity. Qed.

Lemma existsb_fatal_In (e : errno_t) (script : list write_result) :
  In (WErr e) script -> fatal (WErr e) = true ->
  existsb fatal script = true.
Proof.
  intros Hin Hf. apply existsb_exists. exists (WErr e). auto.
Qed.

Lemma client_write_deferred_caused (cap : Z) (w : world) (c : client) :
  forall w' c',
  Forall chunk_ok (deferred_send c) ->
  client_write_deferred w c = (w', c') -> caused cap w c w' c'.
Proof.
  intros w' c' Hq. unfold client_write_deferred.
  destruct (client_write_deferred_loop (deferred_send c) 0 w c)
    as [[ret w1] c1] eqn:Hloop.
  apply client_write_deferred_loop_caused in Hloop; [|exact Hq|lia].
  destruct Hloop as (Hfd1 & Hb1 & pre & Hpre & Hlast).
  assert (Hkeep : caused cap w c w1 c1).
  { unfold caused, expiry_cause. splits.
    - now exists pre.
    - intros H. left. lia.
    - intros H. split; [lia | auto]. }
  destruct (deferred_send c1) as [|b1 q1]; [now intros [= <- <-]|].
  rewrite <- andb_assoc, fatal_errno.
  destruct ((ret <? 0) && fatal (WErr (errno w1))) eqn:Hexp;
    [|now intros [= <- <-]].
  apply andb_true_iff in Hexp. destruct Hexp as [Hneg Hfatal].
  apply Z.ltb_lt in Hneg.
  intros Hset. apply client_set_expired_spec in Hset.
  destruct Hset as (Hfd2 & _ & _ & Hb2 & _ & _ & _ & _ & _ & _ & Hwr2 & _).
  unfold caused, expiry_cause. splits.
  - exists pre. now rewrite Hwr2.
  - intros _. destruct (Z.lt_ge_cases (fd c) 0) as [Hdead|Hlive]; [auto|].
    right; right. exists pre. rewrite Hwr2. split; [exact Hpre|].
    exact (existsb_fatal_In _ _ (Hlast Hlive Hneg) Hfatal).
  - intros Hdead. split; [exact Hfd2|]. rewrite Hb2. auto.
Qed.

Lemma client_defer_output_caused (cap : Z) (w : world) (c : client)
    (src : list ascii) (length : Z) :
  forall w' c',
  0 <= fd c ->
  client_defer_output cap w c src length = (w', c') ->
  writes w' = writes w /\ (fd c' < 0 -> cap < deferred_bytes c') /\
  (0 <= fd c' -> fd c' = fd c).
Proof.
  intros w' c' Hfd. unfold client_defer_output.
  cbn [deferred_bytes set_deferred_bytes].
  set (b := size_t (deferred_bytes c + _)).
  destruct (Z.gtb_spec b cap) as [Hgt|Hle].
  - unfold client_set_expired. cbn [fd set_deferred_bytes].
    destruct (Z.leb_spec 0 (fd c)); [|lia].
    intros [= <- <-]. simpl. splits; auto; lia.
  - intros [= <- <-]. simpl. splits; auto; lia.
Qed.

Lemma client_write_direct_caused (cap : Z) (w : world) (c : client)
    (src : list ascii) (length : Z) :
  forall w' c',
  0 <= fd c -> 0 <= length ->
  client_write_direct cap w c src length = (w', c') ->
  caused cap w c w' c'.
Proof.
  intros w' c' Hfd Hlen. unfold client_write_direct.
  destruct (sys_write w (fd c) src length) as [ret w1] eqn:Hw.
  apply sys_write_script in Hw; [|exact Hlen].
  destruct Hw as (pre & Hpre & _ & Hlive).
  assert (Hdefer :
    forall src' n w2 c2,
      client_defer_output cap w1 c src' n = (w2, c2) ->
      caused cap w c w2 c2).
  { intros src' n w2 c2 Hd.
    apply client_defer_output_caused in Hd; [|exact Hfd].
    destruct Hd as (Hw2 & Hcap & _).
    unfold caused, expiry_cause. splits.
    - exists pre. now rewrite Hw2.
    - intros H. right; left. auto.
    - lia. }
  destruct (Z.ltb_spec ret 0) as [Hneg|Hpos].
  - destruct (errno_eqb (errno w1) EAGAIN || errno_eqb (errno w1) EINTR)
      eqn:Hagain; [apply Hdefer|].
    intros Hset. apply client_set_expired_spec in Hset.
    destruct Hset as (Hfd2 & _ & _ & Hb2 & _ & _ & _ & _ & _ & _ & Hwr2 & _).
    unfold caused, expiry_cause. splits.
    + exists pre. now rewrite Hwr2.
    + intros _. right; right. exists pre. rewrite Hwr2.
      split; [exact Hpre|]. rewrite (Hlive Hfd Hneg).
      cbn [existsb fatal]. rewrite Hagain. reflexivity.
    + lia.
  - destruct (ret <? send_buf_used c); [apply Hdefer|].
    intros [= <- <-]. unfold caused, expiry_cause. splits.
    + now exists pre.
    + lia.
    + lia.
Qed.

Section CauseFacts.

Variable cap : Z.
Hypothesis cap_range : output_cap_ok cap.

Lemma client_write_output_caused (w : world) (c : client) :
  forall w' c',
  buf_ok c -> acct_ok cap c -> client_write_output cap w c = (w', c') ->
  caused cap w c w' c'.
Proof.
  intros w' c' (Hsb & Hused & Hch) Hacct. unfold client_write_output.
  unfold client_is_expired.
  destruct (Z.ltb_spec (fd c) 0) as [Hdead|Hlive];
    [intros [= <- <-]; apply caused_refl|].
  cbn [orb].
  destruct (Z.eqb_spec (send_buf_used c) 0) as [Hz|Hnz];
    [intros [= <- <-]; apply caused_refl|].
  destruct (deferred_send c) as [|b q] eqn:Hq.
  - destruct (client_write_direct cap w c (send_buf c) (send_buf_used c))
      as [w1 c1] eqn:Hd.
    intros [= <- <-].
    apply client_write_direct_caused in Hd; [|exact Hlive|lia].
    eapply caused_trans; [exact Hd|]. now apply caused_same.
  - destruct (client_defer_output cap w c (send_buf c) (send_buf_used c))
      as [w1 c1] eqn:Hd.
    destruct (client_write_deferred w1 c1) as [w2 c2] eqn:Hdrain.
    intros [= <- <-].
    pose proof Hd as Hspec.
    apply (client_defer_output_spec cap cap_range) in Hspec;
      [|exact Hlive|lia|lia|rewrite Hq; exact Hch|exact Hacct].
    destruct Hspec as (_ & _ & _ & _ & _ & _ & _ & Hch1 & _).
    apply client_defer_output_caused in Hd; [|exact Hlive].
    destruct Hd as (Hw1 & Hcap1 & Hfd1).
    apply (client_write_deferred_caused cap) in Hdrain; [|exact Hch1].
    destruct Hdrain as ((pre & Hpre) & Hc2 & Hf2).
    apply (caused_trans cap w w2 w2 c c2); [|now apply caused_same].
    unfold caused, expiry_cause in *. splits.
    + exists pre. now rewrite <- Hw1.
    + intros Hdead2. destruct (Z.lt_ge_cases (fd c1) 0) as [Hdead1|Hlive1].
      * destruct (Hf2 Hdead1) as [_ Hb]. right; left.
        specialize (Hcap1 Hdead1). lia.
      * destruct (Hc2 Hdead2) as [H|[H|(q2 & Hq2 & Hfatal)]];
          [lia | auto |].
        right; right. exists q2. now rewrite <- Hw1.
    + lia.
Qed.

Lemma client_write_loop_caused (fuel : nat) :
  forall buffer w c w' c',
  client_ok cap c ->
  client_write_loop cap fuel w c buffer = (w', c') ->
  caused cap w c w' c'.
Proof.
  induction fuel as [|fuel IH]; intros buffer w c w' c' Hok.
  - simpl. intros [= <- <-]. apply caused_refl.
  - rewrite client_write_loop_unfold. cbv zeta.
    destruct ((0 <? len buffer) && negb (client_is_expired c)) eqn:Hgo;
      [|intros [= <- <-]; apply caused_refl].
    apply andb_true_iff in Hgo. destruct Hgo as [Hpos Hlive].
    apply Z.ltb_lt in Hpos. apply negb_true_iff in Hlive.
    unfold client_is_expired in Hlive. apply Z.ltb_ge in Hlive.
    destruct Hok as ((Hsb & Hused & Hch) & Hlt & Hacct).
    set (room := size_t (sizeof_send_buf - send_buf_used c)).
    assert (Hroom : room = sizeof_send_buf - send_buf_used c).
    { apply size_t_small. unfold sizeof_send_buf, SIZE_WIDTH in *. lia. }
    set (copylen := if room >? len buffer then len buffer else room).
    assert (Hcopy : 0 < copylen <= len buffer
                    /\ copylen <= sizeof_send_buf - send_buf_used c).
    { unfold copylen. destruct (Z.gtb_spec room (len buffer)); lia. }
    destruct Hcopy as [Hc1 Hc2].
    assert (Hnew : size_t (send_buf_used c + copylen)
                   = send_buf_used c + copylen).
    { apply size_t_small. unfold sizeof_send_buf, SIZE_WIDTH in *. lia. }
    cbn [send_buf send_buf_used set_send_buf set_send_buf_used].
    rewrite Hnew.
    set (c1 := set_send_buf_used
                 (set_send_buf c (mem_write (send_buf c) (send_buf_used c)
                                    (take copylen buffer)))
                 (send_buf_used c + copylen)).
    assert (Hlt1 : len (take copylen buffer) = copylen)
      by (apply len_take; lia).
    assert (Hbuf1 : buf_ok c1).
    { unfold buf_ok, c1. simpl. splits; auto; try lia.
      rewrite len_mem_write; lia. }
    assert (Hacct1 : acct_ok cap c1) by exact Hacct.
    assert (Hstep1 : caused cap w c w c1)
      by (apply caused_same; reflexivity).
    destruct (Z.geb_spec (send_buf_used c + copylen) sizeof_send_buf)
      as [Hfull|Hfree].
    + destruct (client_write_output cap w c1) as [w2 c2] eqn:Hout.
      pose proof Hout as Hspec.
      apply (client_write_output_spec cap cap_range) in Hspec; auto.
      destruct Hspec as (_ & Hbuf2 & Hacct2 & _ & _ & Hz2 & _).
      assert (Hz2' : send_buf_used c2 = 0) by (apply Hz2; exact Hlive).
      assert (Hok2 : client_ok cap c2).
      { unfold client_ok, sizeof_send_buf. splits; auto. lia. }
      apply client_write_output_caused in Hout; auto.
      intros Hloop. apply IH in Hloop; [|exact Hok2].
      eapply caused_trans; [exact Hstep1|].
      eapply caused_trans; [exact Hout | exact Hloop].
    + assert (Hok1 : client_ok cap c1).
      { unfold client_ok. splits; auto; unfold c1; simpl; lia. }
      intros Hloop. apply IH in Hloop; [|exact Hok1].
      eapply caused_trans; [exact Hstep1 | exact Hloop].
Qed.

Lemma client_write_caused (w : world) (c : client) (buffer : list ascii) :
  forall w' c',
  client_ok cap c -> client_write cap w c buffer = (w', c') ->
  caused cap w c w' c'.
Proof.
  intros w' c' Hok. unfold client_write.
  destruct (client_is_expired c); [intros [= <- <-]; apply caused_refl|].
  now apply client_write_loop_caused.
Qed.

Lemma client_write_all_caused (chunks : list (list ascii)) :
  forall w c w' c',
  client_ok cap c -> client_write_all cap w c chunks = (w', c') ->
  caused cap w c w' c'.
Proof.
  induction chunks as [|b rest IH]; intros w c w' c' Hok.
  - simpl. intros [= <- <-]. apply caused_refl.
  - cbn [client_write_all].
    destruct (client_write cap w c b) as [w1 c1] eqn:H1.
    pose proof H1 as Hs. apply (client_write_spec cap cap_range) in Hs; auto.
    destruct Hs as (_ & Hok1 & _).
    apply client_write_caused in H1; auto.
    intros H. apply IH in H; auto.
    eapply caused_trans; eauto.
Qed.

(** A notification expires the client only for a cause. *)
Lemma client_idle_notify_caused (names : list string) (w : world)
    (c : client) :
  forall w' c',
  client_ok cap c -> client_idle_notify cap names w c = (w', c') ->
  caused cap w c w' c'.
Proof.
  intros w' c' Hok. rewrite client_idle_notify_emits.
  unfold emit_notification.
  set (c0 := set_idle_waiting (set_idle_flags c 0) false).
  destruct (client_write_all cap w c0 _) as [w1 c1] eqn:H1.
  intros [= <- <-].
  apply client_write_all_caused in H1; [|exact Hok].
  apply (caused_trans cap w w w1 c c0);
    [apply caused_same; reflexivity|].
  eapply caused_trans; [exact H1|]. apply caused_same; reflexivity.
Qed.

End CauseFacts.

(** ** The broadcast, client by client *)

Lemma client_idle_notify_flowing (cap : Z) (names : list string)
    (w : world) (c : client) :
  forall w' c',
  output_cap_ok cap -> client_ok cap c -> flowing w c ->
  client_idle_notify cap names w c = (w', c') ->
  client_ok cap c' /\ flowing w' c' /\ fd c' = fd c /\
  out_stream w' c' =
  out_stream w c ++ idle_response names (idle_flags c) (idle_subscriptions c).
Proof.
  intros w' c' Hcap Hok Hflow. rewrite client_idle_notify_emits.
  now apply emit_notification_flowing.
Qed.

Lemma client_manager_idle_add_spec (cap : Z) (idle_names : list string)
    (clients : list client) :
  forall w flags w' clients',
  client_manager_idle_add cap idle_names w clients flags = (w', clients') ->
  idle_add_registry cap idle_names flags w clients clients' w'.
Proof.
  induction clients as [|c rest IH]; intros w flags w' clients'.
  - simpl. now intros [= <- <-].
  - cbn [client_manager_idle_add]. unfold client_is_expired.
    destruct (Z.ltb_spec (fd c) 0) as [Hfd|Hfd].
    + destruct (client_manager_idle_add cap idle_names w rest flags)
        as [w2 rest'] eqn:Hrec.
      intros [= <- <-]. apply IH in Hrec.
      exists w. split; [|exact Hrec].
      unfold idle_add_client. split; [auto | lia].
    + cbn [idle_waiting idle_flags idle_subscriptions set_idle_flags].
      destruct (idle_waiting c
                && negb (Z.land (Z.lor (idle_flags c) flags)
                           (idle_subscriptions c) =? 0)) eqn:Hhit.
      * set (c0 := set_idle_flags c (Z.lor (idle_flags c) flags)).
        destruct (client_idle_notify cap idle_names w c0)
          as [w1 c1] eqn:Hnot.
        destruct (client_write_output cap w1 c1) as [w2 c2] eqn:Hout.
        destruct (client_manager_idle_add cap idle_names w2 rest flags)
          as [w3 rest'] eqn:Hrec.
        intros [= <- <-]. apply IH in Hrec.
        exists w2. split; [|exact Hrec].
        unfold idle_add_client. split; [lia|]. intros _.
        cbv zeta. rewrite Hhit.
        pose proof (client_idle_notify_fields _ _ _ _ _ _ Hnot)
          as (Hf & Hw & Hs & _).
        pose proof (client_write_output_frame _ _ _ _ _ Hout)
          as (_ & _ & _ & _ & _ & _ & _ & _ & _ & Hw2 & Hf2 & Hs2).
        simpl in Hs.
        split; [congruence|]. split; [congruence|]. split; [congruence|].
        split.
        { pose proof (client_idle_notify_emits cap idle_names w c0) as He.
          rewrite Hnot in He.
          change (emit_notification cap idle_names
                    (Z.lor (idle_flags c) flags) w c)
            with (emit_notification cap idle_names (idle_flags c0) w c0).
          rewrite <- He. symmetry. exact Hout. }
        intros Hcap Hok. split.
        { intros Hlive.
          exact (proj2 (client_idle_add_hit cap Hcap idle_names w c0
                          w1 c1 w2 c2 Hok Hnot Hout) Hlive). }
        split.
        { intros Hdead.
          pose proof (client_idle_notify_caused cap Hcap idle_names w c0
                        w1 c1 Hok Hnot) as Hc1.
          pose proof Hnot as Hspec.
          apply (client_idle_notify_spec cap Hcap) in Hspec; [|exact Hok].
          destruct Hspec as (_ & _ & _ & _ & _ & _ & Hok1 & _).
          pose proof (client_write_output_caused cap Hcap w1 c1 w2 c2
                        (proj1 Hok1) (proj2 (proj2 Hok1)) Hout) as Hc2.
          exact (proj1 (proj2 (caused_trans cap _ _ _ _ _ _ Hc1 Hc2))
                   Hdead). }
        intros Hq Hwr.
        assert (Hflow : flowing w c0) by (unfold flowing; auto).
        apply (client_idle_notify_flowing cap idle_names w c0 w1 c1 Hcap Hok
                 Hflow) in Hnot.
        destruct Hnot as (Hok1 & Hflow1 & Hfd1 & Hst1).
        apply (client_write_output_flowing cap Hcap w1 c1 w2 c2 Hok1 Hflow1)
          in Hout.
        destruct Hout as (_ & (_ & Hq2 & Hwr2) & Hfd2 & _ & Hz & Hdel).
        splits; auto.
        { rewrite Hfd2, Hfd1. reflexivity. }
        change (fd c) with (fd c0). rewrite <- Hfd1, Hdel. exact Hst1.
      * destruct (client_manager_idle_add cap idle_names w rest flags)
          as [w2 rest'] eqn:Hrec.
        intros [= <- <-]. apply IH in Hrec.
        exists w. split; [|exact Hrec].
        unfold idle_add_client. split; [lia|].
        intros _. cbv zeta. rewrite Hhit. auto.
Qed.

(** ** Concrete configurations *)

Lemma default_cap_range : output_cap_ok default_cap.
Proof. vm_compute. split; [discriminate | reflexivity]. Qed.

(** Decides [client_ok] on a concrete client with an empty queue. *)
Ltac client_ok_by_compute :=
  unfold client_ok, buf_ok, acct_ok; splits;
  [ vm_compute; reflexivity
  | vm_compute; discriminate
  | vm_compute; discriminate
  | vm_compute; constructor
  | vm_compute; reflexivity
  | left; split; [vm_compute; reflexivity | vm_compute; discriminate] ].

Lemma fresh_client_ok : client_ok default_cap fresh_client.
Proof. client_ok_by_compute. Qed.

(** The same on a concrete client with one chunk queued. *)
Ltac client_ok_one_chunk :=
  unfold client_ok, buf_ok, acct_ok; splits;
  [ vm_compute; reflexivity
  | vm_compute; discriminate
  | vm_compute; discriminate
  | apply Forall_cons; [|apply Forall_nil]; unfold chunk_ok;
    vm_compute; repeat split; discriminate
  | vm_compute; reflexivity
  | left; split; [vm_compute; reflexivity | vm_compute; discriminate] ].

Lemma one_chunk_client_ok : client_ok default_cap one_chunk_client.
Proof. client_ok_one_chunk. Qed.

Lemma three_byte_client_ok : client_ok default_cap three_byte_client.
Proof. client_ok_one_chunk. Qed.

Lemma pending_client_ok : client_ok default_cap pending_client.
Proof. client_ok_by_compute. Qed.

Lemma idle_client_ok : client_ok default_cap idle_client.
Proof. client_ok_by_compute. Qed.

Lemma parked_client_ok : client_ok default_cap parked_client.
Proof. client_ok_by_compute. Qed.

Lemma sample_registry_ok : Forall (client_ok default_cap) sample_registry.
Proof.
  unfold sample_registry.
  repeat (apply Forall_cons; [client_ok_by_compute|]). apply Forall_nil.
Qed.


(** * The claims *)

(** ** C1: the size of a finished command list *)

(** C1 fails on the code: [client_process_line] sets [cmd_list] to NULL
    and [cmd_list_OK] to -1 at [command_list_end] but leaves
    [cmd_list_size] as it is. After one list holding ["ping"] the client
    is back in the Normal state with [cmd_list_size = 5]; under a cap of
    8 bytes a second list with the same single command is then refused,
    although it needs 5 bytes. *)
Theorem cmd_list_size_survives_command_list_end :
  let run :=
    client_process_lines default_cap 8 accept_command accept_list 0 in
  let one_list :=
    ["command_list_begin"; "ping"; "command_list_end"]%string in
  let '(ret1, w1, c1) := run quiet_world fresh_client one_list in
  let '(ret2, w2, c2) := run w1 c1 one_list in
  cmd_list_size fresh_client = 0 /\
  ret1 = 0 /\ client_state c1 = Normal /\ cmd_list c1 = [] /\
  cmd_list_OK c1 = -1 /\ cmd_list_size c1 = 5 /\
  ret2 = COMMAND_RETURN_CLOSE.
Proof. vm_compute. repeat split; reflexivity. Qed.

(** ** C2: the accounting of the deferred queue *)

(** C2 as stated fails: after the defer attempt that exceeds the cap the
    client, still in the registry, has [deferred_bytes] 8208 while its
    queue accounts for 4104. Both calls are [client_write]; the
    invariant holds before the second one. *)
Lemma deferred_bytes_after_overflow :
  let '(w1, c1) := client_write small_cap blocked_world fresh_client
                     block_of_a in
  let '(w2, c2) := client_write small_cap w1 c1 block_of_a in
  (0 <= fd c1 /\ deferred_bytes c1 = accounted (deferred_send c1)) /\
  fd c2 < 0 /\ deferred_bytes c2 = 8208 /\
  accounted (deferred_send c2) = 4104 /\
  deferred_bytes c2 <> accounted (deferred_send c2).
Proof. vm_compute. repeat split; try reflexivity; discriminate. Qed.

(** C2, amended: the invariants [client_ok] hold for a new client and
    are kept by every operation on a client and by the broadcast over
    the registry. For every client that satisfies them,
    [deferred_bytes = sum of (overhead + size)] over the queued chunks
    whenever [deferred_bytes] is within the cap, which it is for every
    client that is not expired; the equation fails only for an expired
    client whose [deferred_bytes] exceeds the cap. A write error does
    not break it: the drain leaves [deferred_bytes] within the cap and
    equal to the sum also when it expires the client, and a direct
    write that fails for good expires the client without touching the
    queue or the counter. A defer attempt that exceeds the cap expires
    the client, queues nothing, and leaves [deferred_bytes] above the
    sum by the accounted size of the rejected chunk. *)
Theorem deferred_bytes_accounting (cap : Z) (idle_names : list string) :
  output_cap_ok cap ->
  (forall PROTOCOL_VERSION perms w sock num0,
     client_ok cap
       (snd (client_init PROTOCOL_VERSION perms w client_zero sock num0)))
  /\
  (forall op w c,
     client_ok cap c ->
     client_ok cap (snd (run_client_op cap idle_names op w c))) /\
  (forall w clients flags,
     Forall (client_ok cap) clients ->
     Forall (client_ok cap)
       (snd (client_manager_idle_add cap idle_names w clients flags))) /\
  (forall c,
     client_ok cap c ->
     (deferred_bytes c <= cap ->
      deferred_bytes c = accounted (deferred_send c)) /\
     (0 <= fd c -> deferred_bytes c <= cap) /\
     (deferred_bytes c <> accounted (deferred_send c) ->
      fd c < 0 /\ cap < deferred_bytes c)) /\
  (forall w c,
     client_ok cap c -> deferred_bytes c <= cap ->
     let '(w', c') := client_write_deferred w c in
     deferred_bytes c' <= cap /\
     deferred_bytes c' = accounted (deferred_send c')) /\
  (forall w c src length e script,
     0 <= fd c -> writes w = WErr e :: script ->
     e <> EAGAIN -> e <> EINTR ->
     let '(w', c') := client_write_direct cap w c src length in
     fd c' < 0 /\ deferred_send c' = deferred_send c /\
     deferred_bytes c' = deferred_bytes c) /\
  (forall w c src length,
     client_ok cap c -> 0 <= fd c ->
     0 < length <= sizeof_send_buf -> length <= len src ->
     cap < deferred_bytes c + deferred_overhead + length ->
     let '(w', c') := client_defer_output cap w c src length in
     fd c' < 0 /\ deferred_send c' = deferred_send c /\
     deferred_bytes c' =
       accounted (deferred_send c') + deferred_overhead + length).
Proof.
  intros Hcap. splits.
  - intros. apply client_init_ok. apply Hcap.
  - intros. now apply run_client_op_ok.
  - intros w clients flags Hall. now apply client_manager_idle_add_ok.
  - intros c (_ & _ & [[Heq Hle]|[Hneg Hgt]]); splits; intros; lia.
  - intros w c Hok Hle.
    pose proof Hok as ((_ & _ & Hch) & _ & Hac).
    assert (Heq : deferred_bytes c = accounted (deferred_send c))
      by (destruct Hac as [[? ?]|[? ?]]; [assumption | lia]).
    pose proof (accounted_nonneg _ Hch) as Hnn.
    destruct Hcap as [Hcap0 Hcap1].
    rewrite deferred_overhead_eq in Hcap1. unfold sizeof_send_buf in Hcap1.
    unfold client_write_deferred.
    destruct (client_write_deferred_loop (deferred_send c) 0 w c)
      as [[ret w1] c1] eqn:Hloop.
    apply client_write_deferred_loop_spec in Hloop; auto; [|lia].
    destruct Hloop as (_ & _ & _ & _ & _ & _ & _ & Hd & Hdle).
    assert (Hgoal : deferred_bytes c1 <= cap /\
                    deferred_bytes c1 = accounted (deferred_send c1))
      by lia.
    destruct (deferred_send c1) as [|b1 q1] eqn:Hq1;
      [rewrite Hq1; exact Hgoal|].
    destruct ((ret <? 0) && negb (errno_eqb (errno w1) EAGAIN)
              && negb (errno_eqb (errno w1) EINTR));
      [|rewrite Hq1; exact Hgoal].
    destruct (client_set_expired w1 c1) as [w2 c2] eqn:Hexp.
    apply client_set_expired_spec in Hexp.
    destruct Hexp as (_ & _ & Hq2 & Hb2 & _).
    rewrite Hq2, Hb2, Hq1. exact Hgoal.
  - intros w c src length e script Hfd Hw He1 He2.
    unfold client_write_direct, sys_write.
    destruct (Z.ltb_spec (fd c) 0); [lia|]. rewrite Hw.
    change (-1 <? 0) with true. cbv iota. cbn [errno].
    assert (Hx : errno_eqb e EAGAIN || errno_eqb e EINTR = false)
      by (destruct e; try reflexivity; contradiction).
    rewrite Hx. unfold client_set_expired.
    destruct (Z.leb_spec 0 (fd c)); [|lia].
    simpl. splits; auto. lia.
  - intros w c src length Hok Hfd Hlen Hsrc Hover.
    destruct (client_defer_output cap w c src length) as [w' c'] eqn:H.
    destruct Hok as ((_ & _ & Hch) & _ & Hac).
    pose proof Hac as [[Heq _]|[Hneg _]]; [|lia].
    apply client_defer_output_spec in H; auto.
    destruct H as (_ & _ & _ & _ & _ & _ & _ & _ & _ & Hb
                   & [(Hle & _)|(_ & Hfd' & Hq)]); [lia|].
    rewrite Hq, Hb, Heq. auto.
Qed.

(** A client that the drain expires on a write error: its descriptor is
    gone, its queue is in place, and the equation holds. *)
Lemma deferred_bytes_accounting_witness :
  output_cap_ok default_cap /\
  client_ok default_cap one_chunk_client /\
  deferred_bytes one_chunk_client <= default_cap /\
  let '(w', c') := client_write_deferred broken_pipe_world one_chunk_client in
  fd c' < 0 /\ deferred_send c' <> [] /\
  deferred_bytes c' <= default_cap /\
  deferred_bytes c' = accounted (deferred_send c').
Proof.
  assert (Hle : deferred_bytes one_chunk_client <= default_cap)
    by (vm_compute; discriminate).
  split; [exact default_cap_range|]. split; [exact one_chunk_client_ok|].
  split; [exact Hle|].
  destruct (deferred_bytes_accounting default_cap mpd_idle_names
              default_cap_range) as (_ & _ & _ & _ & Hdrain & _).
  specialize (Hdrain broken_pipe_world one_chunk_client one_chunk_client_ok
                Hle).
  assert (Hx : fd (snd (client_write_deferred broken_pipe_world
                          one_chunk_client)) < 0
               /\ deferred_send (snd (client_write_deferred broken_pipe_world
                                        one_chunk_client)) <> [])
    by (split; [vm_compute; reflexivity | vm_compute; discriminate]).
  destruct (client_write_deferred broken_pipe_world one_chunk_client)
    as [w' c'].
  cbn [snd] in Hx. destruct Hx as [Hx1 Hx2]. destruct Hdrain as [Hd1 Hd2].
  splits; auto.
Defined.

(** ** C3: partial direct writes *)

(** C3 as stated fails under a 1 KiB output cap: the descriptor accepts
    100 of the 4096 bytes, the remainder of 3996 bytes is accounted as
    4004 bytes, which exceeds the cap, so the client is expired and the
    remainder is not queued. *)
Lemma partial_write_remainder_dropped :
  let c := full_client in
  let '(w', c') :=
    client_write_direct 1024 partial_world c (send_buf c) (send_buf_used c) in
  (0 <= fd c /\ deferred_send c = [] /\ deferred_bytes c = 0) /\
  len (delivered (fd c) w') = 100 /\
  deferred_send c' = [] /\ fd c' < 0.
Proof. vm_compute. repeat split; try reflexivity; discriminate. Qed.

(** C3, amended: for a client that is not expired and whose deferred
    queue is empty, a direct write of [length] bytes issued the way
    [client_write_output] does (with [length = send_buf_used], the value
    the code compares the return of [write] with) that the descriptor
    accepts only in part ([0 <= ret < length]) delivers the first [ret]
    bytes and, when the accounted size of the remainder fits under the
    output cap, queues exactly the bytes from [ret] to [length] as one
    chunk; otherwise the client is expired and nothing is queued. *)
Theorem client_write_direct_partial
    (cap : Z) (w : world) (c : client) (src : list ascii) (length ret : Z)
    (script : list write_result) :
  output_cap_ok cap ->
  0 <= fd c -> deferred_send c = [] -> deferred_bytes c = 0 ->
  0 < length <= sizeof_send_buf -> length <= len src ->
  send_buf_used c = length ->
  writes w = WBytes ret :: script -> 0 <= ret < length ->
  let '(w', c') := client_write_direct cap w c src length in
  delivered (fd c) w' = delivered (fd c) w ++ take ret src /\
  if deferred_overhead + (length - ret) <=? cap
  then
    fd c' = fd c /\
    deferred_send c' =
      [mkDeferred (length - ret) (take (length - ret) (drop ret src))] /\
    queued (deferred_send c') = drop ret (take length src) /\
    deferred_bytes c' = deferred_overhead + (length - ret)
  else fd c' < 0 /\ deferred_send c' = [].
Proof.
  intros Hcap Hfd Hq Hb Hlen Hsrc Hused Hw Hret.
  pose proof Hcap as [Hcap0 _].
  unfold client_write_direct, sys_write.
  destruct (Z.ltb_spec (fd c) 0); [lia|]. rewrite Hw.
  replace (Z.max 0 (Z.min ret length)) with ret by lia.
  destruct (Z.ltb_spec ret 0); [lia|].
  destruct (Z.ltb_spec ret (send_buf_used c)); [|lia].
  set (w1 := mkWorld _ _ _ _ _ _).
  assert (Hrem : size_t (length - ret) = length - ret).
  { apply size_t_small. unfold sizeof_send_buf, SIZE_WIDTH in *. lia. }
  rewrite Hrem.
  destruct (client_defer_output cap w1 c (drop ret src) (length - ret))
    as [w' c'] eqn:Hd.
  assert (Hdel : delivered (fd c) w1 = delivered (fd c) w ++ take ret src).
  { unfold delivered, w1. simpl. rewrite flat_map_app. simpl.
    now rewrite Z.eqb_refl, app_nil_r. }
  apply client_defer_output_spec in Hd; auto; try lia.
  - destruct Hd as (_ & _ & _ & _ & Hwi & _ & _ & _ & _ & Hb'
                    & [(Hle & Hfd' & Hq')|(Hgt & Hfd' & Hq')]).
    + split; [unfold delivered in *; now rewrite Hwi|].
      rewrite Hb, Z.add_0_l in Hb'.
      destruct (Z.leb_spec (deferred_overhead + (length - ret)) cap);
        [|lia].
      rewrite Hq', Hq. splits; auto. simpl. unfold payload. simpl.
      rewrite app_nil_r, take_take by lia. symmetry. apply drop_take. lia.
    + split; [unfold delivered in *; now rewrite Hwi|].
      rewrite Hb, Z.add_0_l in Hb'.
      destruct (Z.leb_spec (deferred_overhead + (length - ret)) cap);
        [lia|].
      split; [assumption | congruence].
  - rewrite len_drop; lia.
  - rewrite Hq. constructor.
  - left. rewrite Hq, Hb. simpl. lia.
Qed.

Lemma client_write_direct_partial_witness :
  output_cap_ok default_cap /\
  0 <= fd full_client /\ deferred_send full_client = [] /\
  deferred_bytes full_client = 0 /\
  0 < 4096 <= sizeof_send_buf /\ 4096 <= len (send_buf full_client) /\
  send_buf_used full_client = 4096 /\
  writes partial_world = WBytes 100 :: [] /\ 0 <= 100 < 4096 /\
  let '(w', c') :=
    client_write_direct default_cap partial_world full_client
      (send_buf full_client) 4096 in
  delivered (fd full_client) w' =
    delivered (fd full_client) partial_world
      ++ take 100 (send_buf full_client) /\
  if deferred_overhead + (4096 - 100) <=? default_cap
  then
    fd c' = fd full_client /\
    deferred_send c' =
      [mkDeferred (4096 - 100)
         (take (4096 - 100) (drop 100 (send_buf full_client)))] /\
    queued (deferred_send c') = drop 100 (take 4096 (send_buf full_client))
    /\ deferred_bytes c' = deferred_overhead + (4096 - 100)
  else fd c' < 0 /\ deferred_send c' = [].
Proof.
  split; [exact default_cap_range|].
  split; [vm_compute; discriminate|]. split; [reflexivity|].
  split; [reflexivity|].
  split; [vm_compute; split; [reflexivity | discriminate]|].
  split; [vm_compute; discriminate|]. split; [reflexivity|].
  split; [reflexivity|].
  split; [vm_compute; split; [discriminate | reflexivity]|].
  apply (client_write_direct_partial default_cap partial_world full_client
           (send_buf full_client) 4096 100 []).
  - exact default_cap_range.
  - vm_compute; discriminate.
  - reflexivity.
  - reflexivity.
  - vm_compute; split; [reflexivity | discriminate].
  - vm_compute; discriminate.
  - reflexivity.
  - reflexivity.
  - vm_compute; split; [discriminate | reflexivity].
Defined.

(** ** C4: entering idle mode *)

(** C4: for a client that is not idle-waiting, [client_idle_wait] returns
    true (delivered) exactly when [idle_flags & flags] is non-zero at
    entry. Then [idle_flags] is 0 and [idle_waiting] is false
    afterwards, and the notification has been emitted within the call:
    the call is exactly [emit_notification], which writes the lines of
    the response one after the other. On a client that satisfies the
    invariants the output stream has grown by the response unless the
    writes expired the client; they expire it only for a cause (its
    queue goes over the cap, or a write fails for good), and not when
    nothing is queued and the peer accepts every write. Otherwise the
    call returns false (parked) with [idle_waiting] set and
    [idle_subscriptions = flags], and the world and the output stream
    are unchanged. *)
Theorem client_idle_wait_delivers_or_parks
    (cap : Z) (idle_names : list string) (w : world) (c : client)
    (flags : Z) :
  idle_waiting c = false ->
  let '(r, w', c') := client_idle_wait cap idle_names w c flags in
  (r = true <-> Z.land (idle_flags c) flags <> 0) /\
  (r = true ->
   idle_flags c' = 0 /\ idle_waiting c' = false /\
   idle_subscriptions c' = flags /\
   (w', c') =
     emit_notification cap idle_names (idle_flags c) w
       (set_idle_subscriptions c flags) /\
   (output_cap_ok cap -> client_ok cap c ->
    (0 <= fd c' ->
     out_stream w' c' =
     out_stream w c ++ idle_response idle_names (idle_flags c) flags) /\
    (fd c' < 0 -> expiry_cause cap w c w' c') /\
    (0 <= fd c -> deferred_send c = [] -> writes w = [] ->
     fd c' = fd c /\
     out_stream w' c' =
     out_stream w c ++ idle_response idle_names (idle_flags c) flags))) /\
  (r = false ->
   idle_waiting c' = true /\ idle_subscriptions c' = flags /\
   idle_flags c' = idle_flags c /\
   w' = w /\ out_stream w' c' = out_stream w c).
Proof.
  intros _. unfold client_idle_wait.
  cbn [idle_flags idle_subscriptions set_idle_waiting
       set_idle_subscriptions].
  destruct (Z.land (idle_flags c) flags =? 0) eqn:Hz; cbn [negb].
  - apply Z.eqb_eq in Hz. split; [|split]; try discriminate.
    + split; [discriminate | congruence].
    + intros _. simpl. auto.
  - apply Z.eqb_neq in Hz.
    set (c0 := set_idle_subscriptions (set_idle_waiting c true) flags).
    pose proof (client_idle_notify_emits cap idle_names w c0) as He.
    destruct (client_idle_notify cap idle_names w c0) as [w1 c1] eqn:Hn.
    pose proof (client_idle_notify_fields _ _ _ _ _ _ Hn)
      as (Hf & Hw & Hs & _).
    split; [|split]; try discriminate.
    + split; auto.
    + intros _. split; [exact Hf|]. split; [exact Hw|].
      split; [exact Hs|]. split; [exact He|].
      intros Hcap Hok. split.
      * intros Hlive.
        apply (client_idle_notify_spec cap Hcap) in Hn; [|exact Hok].
        destruct Hn as (_ & _ & _ & _ & _ & _ & _ & _ & _ & Hst).
        exact (Hst Hlive).
      * split.
        { intros Hdead.
          exact (proj1 (proj2 (client_idle_notify_caused cap Hcap
                                 idle_names w c0 w1 c1 Hok Hn)) Hdead). }
        intros Hfd Hq Hwr.
        assert (Hflow : flowing w c0) by (unfold flowing; auto).
        apply (client_idle_notify_flowing cap idle_names w c0 w1 c1 Hcap Hok
                 Hflow) in Hn.
        destruct Hn as (_ & _ & Hfd1 & Hst1). split; [exact Hfd1|].
        exact Hst1.
Qed.

Lemma client_idle_wait_delivers_or_parks_witness :
  idle_waiting pending_client = false /\
  Z.land (idle_flags pending_client) 9 <> 0 /\
  output_cap_ok default_cap /\ client_ok default_cap pending_client /\
  0 <= fd pending_client /\ deferred_send pending_client = [] /\
  writes quiet_world = [] /\
  let '(r, w', c') :=
    client_idle_wait default_cap mpd_idle_names quiet_world
      pending_client 9 in
  r = true /\
  idle_flags c' = 0 /\ idle_waiting c' = false /\
  idle_subscriptions c' = 9 /\
  (w', c') =
    emit_notification default_cap mpd_idle_names (idle_flags pending_client)
      quiet_world (set_idle_subscriptions pending_client 9) /\
  fd c' = fd pending_client /\
  out_stream w' c' =
  out_stream quiet_world pending_client
    ++ idle_response mpd_idle_names (idle_flags pending_client) 9.
Proof.
  assert (Hhit : Z.land (idle_flags pending_client) 9 <> 0)
    by (vm_compute; discriminate).
  assert (Hfd : 0 <= fd pending_client) by (vm_compute; discriminate).
  split; [reflexivity|]. split; [exact Hhit|].
  split; [exact default_cap_range|]. split; [exact pending_client_ok|].
  split; [exact Hfd|]. split; [reflexivity|]. split; [reflexivity|].
  pose proof (client_idle_wait_delivers_or_parks default_cap mpd_idle_names
                quiet_world pending_client 9 eq_refl) as H.
  destruct (client_idle_wait default_cap mpd_idle_names quiet_world
              pending_client 9) as [[r w'] c'].
  destruct H as (Hr & Hyes & _).
  assert (Htrue : r = true) by (apply Hr; exact Hhit).
  destruct (Hyes Htrue) as (Hf & Hw & Hs & He & Hout).
  destruct (Hout default_cap_range pending_client_ok) as (_ & _ & Hflow).
  destruct (Hflow Hfd eq_refl eq_refl) as [Hfd' Hst].
  splits; auto.
Defined.

(** The player event is pending and subscribed: delivered at once. *)
Example idle_wait_player_pending :
  client_ok default_cap pending_client /\
  let '(r, w', c') :=
    client_idle_wait default_cap mpd_idle_names quiet_world
      pending_client 9 in
  r = true /\ 0 <= fd c' /\
  string_of_list_ascii (out_stream w' c')
  = ("changed: player" ++ newline_string ++ "OK" ++ newline_string)%string.
Proof.
  split; [client_ok_by_compute|]. vm_compute.
  repeat split; try reflexivity; discriminate.
Qed.

(** ** C5: broadcasting events *)

(** C5: for non-zero [flags], [client_manager_idle_add] ORs [flags] into
    [idle_flags] of every client that is not expired; a client that is
    idle-waiting and whose resulting [idle_flags] overlap its
    subscriptions is notified at once and flushed: the calls on it are
    exactly [emit_notification] (one ["changed: <name>"] line per
    subscribed bit set, then ["OK"]) and [client_write_output], and
    afterwards its whole [idle_flags] mask is zero and [idle_waiting]
    is false. On a client that satisfies the invariants the output
    stream has grown by the response unless the writes expired the
    client; they expire it only for a cause (its queue goes over the
    cap, or a write fails for good); when nothing is queued and the
    peer accepts every write the client stays live and its descriptor
    has accepted the response. [idle_add_client] states this of one
    client and [idle_add_registry] of the clients in turn. *)
Theorem client_manager_idle_add_notifies
    (cap : Z) (idle_names : list string) (w : world)
    (clients : list client) (flags : Z) :
  flags <> 0 ->
  let '(w', clients') :=
    client_manager_idle_add cap idle_names w clients flags in
  idle_add_registry cap idle_names flags w clients clients' w'.
Proof.
  intros _.
  destruct (client_manager_idle_add cap idle_names w clients flags)
    as [w' clients'] eqn:H.
  revert H. apply client_manager_idle_add_spec.
Qed.

Lemma client_manager_idle_add_notifies_witness :
  8 <> 0 /\
  output_cap_ok default_cap /\ client_ok default_cap parked_client /\
  deferred_send parked_client = [] /\ writes quiet_world = [] /\
  let '(w', clients') :=
    client_manager_idle_add default_cap mpd_idle_names quiet_world
      sample_registry 8 in
  exists c1 c2 c3,
    clients' = [c1; c2; c3] /\
    idle_flags c1 = 0 /\ idle_waiting c1 = false /\
    fd c1 = fd parked_client /\ send_buf_used c1 = 0 /\
    delivered (fd parked_client) w' =
    out_stream quiet_world parked_client
      ++ idle_response mpd_idle_names
           (Z.lor (idle_flags parked_client) 8)
           (idle_subscriptions parked_client) /\
    c2 = set_idle_flags busy_client (Z.lor (idle_flags busy_client) 8) /\
    c3 = expired_client.
Proof.
  assert (Hflags : 8 <> 0) by discriminate.
  split; [exact Hflags|]. split; [exact default_cap_range|].
  split; [exact parked_client_ok|]. split; [reflexivity|].
  split; [reflexivity|].
  pose proof (client_manager_idle_add_notifies default_cap mpd_idle_names
                quiet_world sample_registry 8 Hflags) as H.
  destruct (client_manager_idle_add default_cap mpd_idle_names quiet_world
              sample_registry 8) as [w' clients'].
  unfold sample_registry in H.
  destruct clients' as [|c1 l1]; cbn [idle_add_registry] in H;
    [contradiction|].
  destruct H as (w1 & Hp & H).
  destruct l1 as [|c2 l2]; cbn [idle_add_registry] in H; [contradiction|].
  destruct H as (w2 & Hb & H).
  destruct l2 as [|c3 l3]; cbn [idle_add_registry] in H; [contradiction|].
  destruct H as (w3 & He & Hend).
  destruct l3 as [|c4 l4]; cbn [idle_add_registry] in Hend;
    [|contradiction].
  destruct Hp as [_ Hp]. destruct Hb as [_ Hb]. destruct He as [He _].
  specialize (Hp ltac:(vm_compute; discriminate)).
  specialize (Hb ltac:(vm_compute; discriminate)).
  specialize (He ltac:(vm_compute; reflexivity)).
  cbv zeta in Hp, Hb.
  change (idle_waiting parked_client
          && negb (Z.land (Z.lor (idle_flags parked_client) 8)
                     (idle_subscriptions parked_client) =? 0))
    with true in Hp.
  change (idle_waiting busy_client
          && negb (Z.land (Z.lor (idle_flags busy_client) 8)
                     (idle_subscriptions busy_client) =? 0))
    with false in Hb.
  cbv iota in Hp, Hb.
  destruct Hp as (Hf & Hw & _ & _ & Hout).
  destruct (Hout default_cap_range parked_client_ok) as (_ & _ & Hflow).
  destruct (Hflow eq_refl eq_refl) as (E1 & _ & _ & E4 & E5).
  destruct Hb as [Hc2 Hw2]. destruct He as [Hc3 Hw3].
  subst w' w3 w2.
  exists c1, c2, c3. splits; auto.
Defined.

(** The player event reaches the parked client on descriptor 7; the busy
    client keeps the event pending next to bit 0; the expired client is
    left alone. *)
Example idle_add_player_event :
  let '(w', clients') :=
    client_manager_idle_add default_cap mpd_idle_names quiet_world
      sample_registry 8 in
  map idle_flags clients' = [0; 9; 0] /\
  map idle_waiting clients' = [false; false; false] /\
  string_of_list_ascii (delivered 7 w')
  = ("changed: player" ++ newline_string ++ "OK" ++ newline_string)%string
  /\ delivered 8 w' = [].
Proof. vm_compute. repeat split; reflexivity. Qed.

(** ** C6: noidle *)

(** C6: the line ["noidle"] never closes the client. When the client is
    idle-waiting it clears [idle_waiting], leaves the pending events and
    the command list alone, and emits exactly the line ["OK"] (no
    ["changed:"] line) and flushes it: the call is the write of this
    line followed by [client_write_output]; a client that was in the
    Idle state is in the Normal state afterwards. On a client that
    satisfies the invariants the output stream has grown by the line
    unless the write expired the client; it expires the client only for
    a cause (its queue goes over the cap, or a write fails for good);
    when nothing is queued and the peer accepts every write the client
    stays live and its descriptor has accepted the line. When the
    client is not idle-waiting the line changes neither the client nor
    the world. *)
Theorem noidle_leaves_idle_or_does_nothing
    (cap list_cap : Z)
    (command_process : world -> client -> string -> Z * world * client)
    (command_process_list :
       world -> client -> Z -> list string -> Z * world * client)
    (w : world) (c : client) :
  let '(ret, w', c') :=
    client_process_line cap list_cap command_process command_process_list
      w c "noidle" in
  ret = 0 /\
  (idle_waiting c = true ->
   idle_waiting c' = false /\ cmd_list_OK c' = cmd_list_OK c /\
   cmd_list c' = cmd_list c /\ idle_flags c' = idle_flags c /\
   (cmd_list_OK c < 0 -> client_state c' = Normal) /\
   (w', c') =
     (let '(w1, c1) :=
        client_write cap w (set_idle_waiting c false) ok_line in
      client_write_output cap w1 c1) /\
   (output_cap_ok cap -> client_ok cap c ->
    (0 <= fd c' ->
     send_buf_used c' = 0 /\
     out_stream w' c' = out_stream w c ++ ok_line) /\
    (fd c' < 0 -> expiry_cause cap w c w' c') /\
    (0 <= fd c -> deferred_send c = [] -> writes w = [] ->
     fd c' = fd c /\ deferred_send c' = [] /\ send_buf_used c' = 0 /\
     delivered (fd c) w' = out_stream w c ++ ok_line))) /\
  (idle_waiting c = false -> w' = w /\ c' = c).
Proof.
  unfold client_process_line.
  cbn [String.eqb Ascii.eqb Bool.eqb andb].
  destruct (idle_waiting c) eqn:Hidle.
  - set (c0 := set_idle_waiting c false).
    unfold command_success, client_puts. fold ok_line.
    destruct (client_write cap w c0 ok_line) as [w1 c1] eqn:Hs.
    destruct (client_write_output cap w1 c1) as [w2 c2] eqn:Hf.
    pose proof (same_session_trans _ _ _
                  (client_write_frame _ _ _ _ _ _ Hs)
                  (client_write_output_frame _ _ _ _ _ Hf))
      as (_ & _ & _ & _ & _ & Hcl & Hco & _ & _ & Hw & Hfl & _).
    simpl in Hcl, Hco, Hw, Hfl.
    split; [reflexivity|]. split; [|discriminate]. intros _.
    split; [exact Hw|]. split; [exact Hco|]. split; [exact Hcl|].
    split; [exact Hfl|]. split.
    { intros Hneg. unfold client_state. rewrite Hw, Hco.
      destruct (Z.geb_spec (cmd_list_OK c) 0); [lia | reflexivity]. }
    split; [reflexivity|].
    intros Hcap Hok.
    assert (Hcause : caused cap w c0 w2 c2).
    { pose proof Hs as Hspec.
      apply (client_write_spec cap Hcap) in Hspec; [|exact Hok].
      destruct Hspec as (_ & Hok1 & _).
      eapply caused_trans.
      - exact (client_write_caused cap Hcap w c0 ok_line w1 c1 Hok Hs).
      - exact (client_write_output_caused cap Hcap w1 c1 w2 c2
                 (proj1 Hok1) (proj2 (proj2 Hok1)) Hf). }
    split; [|split].
    + intros Hlive.
      apply (client_write_spec cap Hcap) in Hs; [|exact Hok].
      apply (client_flush_spec cap Hcap) in Hf; [|apply Hs].
      destruct Hf as [Hf Hz].
      pose proof (out_step_trans _ _ _ _ _ _ _ _ _ Hs Hf)
        as (_ & _ & _ & _ & Hst).
      split.
      * apply Hz. destruct Hf as (_ & _ & _ & Hfd2 & _). lia.
      * rewrite Hst, app_nil_r by assumption. reflexivity.
    + intros Hdead. exact (proj1 (proj2 Hcause) Hdead).
    + intros Hfd Hq Hwr.
      assert (Hflow : flowing w c0) by (unfold flowing; auto).
      apply (client_write_flowing cap Hcap w c0 ok_line w1 c1 Hok Hflow)
        in Hs.
      destruct Hs as (Hok1 & Hflow1 & Hfd1 & _ & Hst1).
      apply (client_write_output_flowing cap Hcap w1 c1 w2 c2 Hok1 Hflow1)
        in Hf.
      destruct Hf as (_ & (_ & Hq2 & _) & Hfd2 & _ & Hz & Hdel).
      splits; auto.
      { rewrite Hfd2, Hfd1. reflexivity. }
      change (fd c) with (fd c0). rewrite <- Hfd1, Hdel. exact Hst1.
  - split; [reflexivity|]. split; [discriminate | auto].
Qed.

Lemma noidle_leaves_idle_or_does_nothing_witness :
  idle_waiting idle_client = true /\ cmd_list_OK idle_client < 0 /\
  output_cap_ok default_cap /\ client_ok default_cap idle_client /\
  0 <= fd idle_client /\ deferred_send idle_client = [] /\
  writes quiet_world = [] /\
  let '(ret, w', c') :=
    client_process_line default_cap default_list_cap accept_command
      accept_list quiet_world idle_client "noidle" in
  ret = 0 /\ idle_waiting c' = false /\ client_state c' = Normal /\
  fd c' = fd idle_client /\ deferred_send c' = [] /\
  send_buf_used c' = 0 /\
  delivered (fd idle_client) w'
  = out_stream quiet_world idle_client ++ ok_line.
Proof.
  assert (Hmode : cmd_list_OK idle_client < 0) by (vm_compute; reflexivity).
  assert (Hfd : 0 <= fd idle_client) by (vm_compute; discriminate).
  split; [reflexivity|]. split; [exact Hmode|].
  split; [exact default_cap_range|]. split; [exact idle_client_ok|].
  split; [exact Hfd|]. split; [reflexivity|]. split; [reflexivity|].
  pose proof (noidle_leaves_idle_or_does_nothing default_cap
                default_list_cap accept_command accept_list quiet_world
                idle_client) as H.
  destruct (client_process_line default_cap default_list_cap accept_command
              accept_list quiet_world idle_client "noidle") as [[ret w'] c'].
  destruct H as (Hret & Hidle & _).
  destruct (Hidle eq_refl) as (Hw & _ & _ & _ & Hnormal & _ & Hout).
  destruct (Hout default_cap_range idle_client_ok) as (_ & _ & Hflow).
  destruct (Hflow Hfd eq_refl eq_refl) as (E1 & E2 & E3 & E4).
  splits; auto.
Defined.

(** A parked client sends noidle: the answer is the OK line alone; the
    same line from a client that is not idle changes nothing. *)
Example noidle_in_idle :
  let '(ret, w', c') :=
    client_process_line default_cap default_list_cap accept_command
      accept_list quiet_world idle_client "noidle" in
  ret = 0 /\ client_state c' = Normal /\
  string_of_list_ascii (delivered 7 w') = ("OK" ++ newline_string)%string.
Proof. vm_compute. repeat split; reflexivity. Qed.

Example noidle_outside_idle :
  client_process_line default_cap default_list_cap accept_command
    accept_list quiet_world fresh_client "noidle"
  = (0, quiet_world, fresh_client).
Proof. vm_compute. reflexivity. Qed.

(** ** C7: the cap on the size of a command list *)

(** C7: in list mode with [cmd_list_size] 0, queueable lines are
    accepted as long as the running size (characters plus one terminator
    per line) is at most [client_max_command_list_size]: a line that
    brings the size to exactly the cap is queued, a line that brings it
    above the cap closes the client and is not queued. *)
Theorem cmd_list_size_cap_boundary
    (cap list_cap : Z)
    (command_process : world -> client -> string -> Z * world * client)
    (command_process_list :
       world -> client -> Z -> list string -> Z * world * client)
    (w : world) (c : client) (lines : list string) (line : string) :
  0 <= list_cap < 2 ^ SIZE_WIDTH ->
  0 <= fd c -> idle_waiting c = false -> 0 <= cmd_list_OK c ->
  cmd_list_size c = 0 ->
  Forall queueable (lines ++ [line]) ->
  list_size lines <= list_cap ->
  list_size lines + line_size line < 2 ^ SIZE_WIDTH ->
  let '(ret, w', c') :=
    client_process_lines cap list_cap command_process command_process_list
      0 w c (lines ++ [line]) in
  w' = w /\
  if list_size lines + line_size line <=? list_cap
  then ret = 1 /\ cmd_list c' = line :: rev lines ++ cmd_list c /\
       cmd_list_size c' = list_size lines + line_size line
  else ret = COMMAND_RETURN_CLOSE /\ cmd_list c' = rev lines ++ cmd_list c.
Proof.
  intros Hcap Hfd Hidle Hmode Hzero Hall Hfit Hwrap.
  apply Forall_app in Hall. destruct Hall as [Hlines Hline].
  inversion Hline as [|l0 r0 Hq _]; subst l0 r0.
  pose proof (list_size_nonneg lines) as Hnn.
  rewrite client_process_lines_queue by (auto; lia).
  cbn [client_process_lines].
  rewrite client_process_line_queue;
    cbn [idle_waiting cmd_list_OK cmd_list_size set_cmd_list
         set_cmd_list_size]; auto; try lia.
  rewrite Hzero, Z.add_0_l.
  destruct (Z.gtb_spec (list_size lines + line_size line) list_cap);
    destruct (Z.leb_spec (list_size lines + line_size line) list_cap);
    try lia.
  - change ((COMMAND_RETURN_CLOSE =? COMMAND_RETURN_KILL)
            || (COMMAND_RETURN_CLOSE =? COMMAND_RETURN_CLOSE)) with true.
    cbv iota. auto.
  - change ((1 =? COMMAND_RETURN_KILL) || (1 =? COMMAND_RETURN_CLOSE))
      with false. cbv iota. unfold client_is_expired, new_cmd_list_ptr.
    cbn [fd cmd_list cmd_list_size set_cmd_list set_cmd_list_size].
    destruct (Z.ltb_spec (fd c) 0); [lia|]. auto.
Qed.

Lemma cmd_list_size_cap_boundary_witness :
  0 <= 10 < 2 ^ SIZE_WIDTH /\
  0 <= fd list_client /\ idle_waiting list_client = false /\
  0 <= cmd_list_OK list_client /\ cmd_list_size list_client = 0 /\
  Forall queueable (["ping"%string] ++ ["play"%string])%list /\
  list_size ["ping"%string] <= 10 /\
  list_size ["ping"%string] + line_size "play" < 2 ^ SIZE_WIDTH /\
  let '(ret, w', c') :=
    client_process_lines default_cap 10 accept_command accept_list
      0 quiet_world list_client (["ping"%string] ++ ["play"%string])%list in
  w' = quiet_world /\
  if list_size ["ping"%string] + line_size "play" <=? 10
  then ret = 1 /\
       cmd_list c' = "play"%string :: rev ["ping"%string]
                       ++ cmd_list list_client /\
       cmd_list_size c' = list_size ["ping"%string] + line_size "play"
  else ret = COMMAND_RETURN_CLOSE /\
       cmd_list c' = rev ["ping"%string] ++ cmd_list list_client.
Proof.
  assert (Hq : Forall queueable (["ping"%string] ++ ["play"%string])%list).
  { repeat constructor; discriminate. }
  split; [vm_compute; split; [discriminate | reflexivity]|].
  split; [vm_compute; discriminate|].
  split; [reflexivity|]. split; [vm_compute; discriminate|].
  split; [reflexivity|]. split; [exact Hq|].
  split; [vm_compute; discriminate|]. split; [vm_compute; reflexivity|].
  apply (cmd_list_size_cap_boundary default_cap 10 accept_command
           accept_list quiet_world list_client ["ping"%string]
           "play"%string).
  - vm_compute; split; [discriminate | reflexivity].
  - vm_compute; discriminate.
  - reflexivity.
  - vm_compute; discriminate.
  - reflexivity.
  - exact Hq.
  - vm_compute; discriminate.
  - vm_compute; reflexivity.
Defined.

(** The boundary on a cap of 10 bytes: ["ping"] and ["play"] make
    exactly 10 and are both queued; one more character closes. *)
Example cmd_list_size_at_cap :
  let '(ret, _, c') :=
    client_process_lines default_cap 10 accept_command accept_list
      0 quiet_world list_client ["ping"; "play"]%string in
  ret = 1 /\ cmd_list_size c' = 10 /\ cmd_list c' = ["play"; "ping"]%string.
Proof. vm_compute. repeat split; reflexivity. Qed.

Example cmd_list_size_above_cap :
  let '(ret, _, c') :=
    client_process_lines default_cap 10 accept_command accept_list
      0 quiet_world list_client ["ping"; "pause"]%string in
  ret = COMMAND_RETURN_CLOSE /\ cmd_list c' = ["ping"]%string.
Proof. vm_compute. repeat split; reflexivity. Qed.

(** ** C8: the longest line *)

(** C8: with an empty input buffer, a line of exactly 4095 bytes followed
    by a newline, arriving in any number of reads, fills the 4096-byte
    buffer and is handed to the line processor (as a C string, without
    a trailing carriage return), after which the buffer is empty again;
    4096 bytes without a newline leave the buffer full with
    [bufferPos = 0] and the last read returns CLOSE without the line
    processor having been called. *)
Theorem input_line_length_boundary
    (cap list_cap : Z)
    (command_process : world -> client -> string -> Z * world * client)
    (command_process_list :
       world -> client -> Z -> list string -> Z * world * client)
    (w : world) (c : client) (rest : list read_result)
    (chunks : list (list ascii)) :
  0 <= fd c -> bufferLength c = 0 -> bufferPos c = 0 ->
  len (buffer c) = sizeof_buffer ->
  Forall (fun b => b <> []) chunks ->
  reads w = map RBytes chunks ++ rest ->
  let result :=
    client_reads cap list_cap command_process command_process_list
      (List.length chunks) w c in
  (forall line,
     List.concat chunks = line ++ [newline_char] ->
     len line = sizeof_buffer - 1 -> ~ In newline_char line ->
     result =
     after_last_line
       (client_process_line cap list_cap command_process
          command_process_list (after_read w rest)
          (set_bufferLength
             (set_buffer c
                (mem_write (line ++ [newline_char]) (line_end line) [zero]))
             sizeof_buffer)
          (c_string (take (line_end line) line)))) /\
  (forall bytes,
     List.concat chunks = bytes ->
     len bytes = sizeof_buffer -> ~ In newline_char bytes ->
     result =
     (COMMAND_RETURN_CLOSE, after_read w rest,
      set_bufferLength (set_buffer c bytes) sizeof_buffer)).
Proof.
  intros Hfd Hlen Hpos Hbuf Hall Hr result.
  assert (Hhold : holding c []).
  { unfold holding. rewrite Hlen, Hpos. auto. }
  assert (Hne : forall bytes,
             List.concat chunks = bytes -> 0 < len bytes -> chunks <> []).
  { intros bytes Hc Hp ->. simpl in Hc. subst bytes.
    change (len []) with 0 in Hp. lia. }
  split.
  - intros line Hcat Hline Hnl. unfold result.
    apply (client_reads_line cap list_cap command_process
             command_process_list rest chunks w c [] line);
      [exact Hhold | exact Hall
      | apply (Hne _ Hcat); rewrite len_app, Hline; reflexivity
      | exact Hr | exact Hcat
      | change (len []) with 0; lia
      | exact Hnl].
  - intros bytes Hcat Hb Hnl. unfold result.
    rewrite (client_reads_flood cap list_cap command_process
               command_process_list rest chunks w c []);
      [now rewrite Hcat | exact Hhold | exact Hall
      | apply (Hne _ Hcat); rewrite Hb; reflexivity
      | exact Hr
      | rewrite Hcat, Hb; reflexivity
      | now rewrite Hcat].
Qed.

Lemma input_line_length_boundary_witness :
  0 <= fd list_client /\ bufferLength list_client = 0 /\
  bufferPos list_client = 0 /\ len (buffer list_client) = sizeof_buffer /\
  Forall (fun b => b <> []) flood_chunks /\
  reads flood_world = map RBytes flood_chunks ++ [] /\
  (List.concat flood_chunks = block_of_a ->
   len block_of_a = sizeof_buffer -> ~ In newline_char block_of_a ->
   client_reads default_cap default_list_cap accept_command accept_list
     (List.length flood_chunks) flood_world list_client =
   (COMMAND_RETURN_CLOSE, after_read flood_world [],
    set_bufferLength (set_buffer list_client block_of_a) sizeof_buffer)).
Proof.
  assert (Hne : Forall (fun b : list ascii => b <> []) flood_chunks).
  { repeat constructor; discriminate. }
  split; [vm_compute; discriminate|]. split; [reflexivity|].
  split; [reflexivity|]. split; [vm_compute; reflexivity|].
  split; [exact Hne|]. split; [vm_compute; reflexivity|].
  apply (input_line_length_boundary default_cap default_list_cap
           accept_command accept_list flood_world list_client []
           flood_chunks).
  - vm_compute; discriminate.
  - reflexivity.
  - reflexivity.
  - vm_compute; reflexivity.
  - exact Hne.
  - vm_compute; reflexivity.
Defined.

(** In list mode the 4095-byte line is queued whole and the buffer is
    empty afterwards; the 4096 bytes without a newline close. *)
Example read_line_of_4095 :
  let '(ret, w', c') :=
    client_reads default_cap default_list_cap accept_command accept_list
      2 line_world list_client in
  ret = 0 /\ bufferLength c' = 0 /\ bufferPos c' = 0 /\
  cmd_list c' = [string_of_list_ascii long_line] /\
  cmd_list_size c' = 4096.
Proof. vm_compute. repeat split; reflexivity. Qed.

Example read_4096_without_newline :
  let '(ret, w', c') :=
    client_reads default_cap default_list_cap accept_command accept_list
      2 flood_world list_client in
  ret = COMMAND_RETURN_CLOSE /\ bufferLength c' = 4096 /\ bufferPos c' = 0 /\
  buffer c' = block_of_a /\ cmd_list c' = [].
Proof. vm_compute. repeat split; reflexivity. Qed.

(** ** C9: the order of a command list *)

(** C9: the lines queued between a list-begin marker and
    [command_list_end] reach the list dispatcher in the order they were
    sent: accumulation prepends every line, so [cmd_list] is the sent
    sequence reversed, and at [command_list_end] it is reversed once and
    [command_process_list] is called with exactly the sent sequence. *)
Theorem command_list_dispatched_in_sent_order
    (cap list_cap : Z)
    (command_process : world -> client -> string -> Z * world * client)
    (command_process_list :
       world -> client -> Z -> list string -> Z * world * client)
    (w : world) (c : client) (lines : list string) (verbose : bool) :
  0 <= list_cap < 2 ^ SIZE_WIDTH ->
  0 <= fd c -> idle_waiting c = false -> cmd_list_OK c < 0 ->
  cmd_list c = [] -> 0 <= cmd_list_size c ->
  Forall queueable lines ->
  cmd_list_size c + list_size lines <= list_cap ->
  let begin :=
    if verbose then CLIENT_LIST_OK_MODE_BEGIN else CLIENT_LIST_MODE_BEGIN in
  let mode := if verbose then 1 else 0 in
  let '(ret1, w1, c1) :=
    client_process_lines cap list_cap command_process command_process_list
      0 w c (begin :: lines) in
  ret1 = 1 /\ w1 = w /\ cmd_list_OK c1 = mode /\ cmd_list c1 = rev lines /\
  client_process_line cap list_cap command_process command_process_list
    w1 c1 CLIENT_LIST_MODE_END =
  (let '(ret, w2, c2) :=
     command_process_list w (set_cmd_list c1 lines) mode lines in
   if (ret =? COMMAND_RETURN_CLOSE) || client_is_expired c2
   then (COMMAND_RETURN_CLOSE, w2, c2)
   else
     let '(w3, c3) :=
       if ret =? 0 then command_success cap w2 c2 else (w2, c2) in
     let '(w4, c4) := client_write_output cap w3 c3 in
     (ret, w4, set_cmd_list_OK (set_cmd_list c4 []) (-1))).
Proof.
  intros Hcap Hfd Hidle Hmode Hnil Hsz Hall Hfit. cbv zeta.
  cbn [client_process_lines].
  rewrite client_process_line_begin by assumption.
  change ((1 =? COMMAND_RETURN_KILL) || (1 =? COMMAND_RETURN_CLOSE))
    with false. cbv iota. unfold client_is_expired at 1.
  cbn [fd set_cmd_list_OK]. destruct (Z.ltb_spec (fd c) 0); [lia|].
  rewrite client_process_lines_queue_all;
    cbn [fd idle_waiting cmd_list_OK cmd_list_size set_cmd_list_OK];
    auto; try lia; [|destruct verbose; lia].
  cbn [client_process_lines cmd_list set_cmd_list_OK]. rewrite Hnil, app_nil_r.
  split; [destruct lines; reflexivity|]. split; [reflexivity|].
  split; [reflexivity|]. split; [reflexivity|].
  unfold client_process_line.
  cbn [String.eqb Ascii.eqb Bool.eqb andb CLIENT_LIST_MODE_END].
  cbn [idle_waiting cmd_list_OK cmd_list set_cmd_list set_cmd_list_size
       set_cmd_list_OK].
  rewrite Hidle.
  destruct (Z.geb_spec (if verbose then 1 else 0) 0);
    [|destruct verbose; lia].
  rewrite rev_involutive. reflexivity.
Qed.

Lemma command_list_dispatched_in_sent_order_witness :
  0 <= 100 < 2 ^ SIZE_WIDTH /\
  0 <= fd fresh_client /\ idle_waiting fresh_client = false /\
  cmd_list_OK fresh_client < 0 /\ cmd_list fresh_client = [] /\
  0 <= cmd_list_size fresh_client /\
  Forall queueable ["status"; "ping"; "stats"]%string /\
  cmd_list_size fresh_client
    + list_size ["status"; "ping"; "stats"]%string <= 100 /\
  let begin := if true then CLIENT_LIST_OK_MODE_BEGIN
               else CLIENT_LIST_MODE_BEGIN in
  let mode := if true then 1 else 0 in
  let '(ret1, w1, c1) :=
    client_process_lines default_cap 100 accept_command
      (echo_list default_cap) 0 quiet_world fresh_client
      (begin :: ["status"; "ping"; "stats"]%string) in
  ret1 = 1 /\ w1 = quiet_world /\ cmd_list_OK c1 = mode /\
  cmd_list c1 = rev ["status"; "ping"; "stats"]%string /\
  client_process_line default_cap 100 accept_command
    (echo_list default_cap) w1 c1 CLIENT_LIST_MODE_END =
  (let '(ret, w2, c2) :=
     echo_list default_cap quiet_world
       (set_cmd_list c1 ["status"; "ping"; "stats"]%string) mode
       ["status"; "ping"; "stats"]%string in
   if (ret =? COMMAND_RETURN_CLOSE) || client_is_expired c2
   then (COMMAND_RETURN_CLOSE, w2, c2)
   else
     let '(w3, c3) :=
       if ret =? 0 then command_success default_cap w2 c2 else (w2, c2) in
     let '(w4, c4) := client_write_output default_cap w3 c3 in
     (ret, w4, set_cmd_list_OK (set_cmd_list c4 []) (-1))).
Proof.
  assert (Hq : Forall queueable ["status"; "ping"; "stats"]%string).
  { repeat constructor; discriminate. }
  split; [vm_compute; split; [discriminate | reflexivity]|].
  split; [vm_compute; discriminate|]. split; [reflexivity|].
  split; [reflexivity|]. split; [reflexivity|].
  split; [vm_compute; discriminate|]. split; [exact Hq|].
  split; [vm_compute; discriminate|].
  apply (command_list_dispatched_in_sent_order default_cap 100
           accept_command (echo_list default_cap) quiet_world fresh_client
           ["status"; "ping"; "stats"]%string true).
  - vm_compute; split; [discriminate | reflexivity].
  - vm_compute; discriminate.
  - reflexivity.
  - reflexivity.
  - reflexivity.
  - vm_compute; discriminate.
  - exact Hq.
  - vm_compute; discriminate.
Defined.

(** A verbose list of three commands, answered in the order sent. *)
Example command_list_echo :
  let '(ret, w', c') :=
    client_process_lines default_cap 100 accept_command
      (echo_list default_cap) 0 quiet_world fresh_client
      ["command_list_ok_begin"; "status"; "ping"; "stats";
       "command_list_end"]%string in
  ret = 0 /\ cmd_list c' = [] /\ cmd_list_OK c' = -1 /\
  string_of_list_ascii (delivered 7 w')
  = ("status" ++ newline_string ++ "list_OK" ++ newline_string
     ++ "ping" ++ newline_string ++ "list_OK" ++ newline_string
     ++ "stats" ++ newline_string ++ "list_OK" ++ newline_string
     ++ "OK" ++ newline_string)%string.
Proof. vm_compute. repeat split; reflexivity. Qed.

(** ** C10: empty format results *)

(** C10: a format call whose length is zero or negative leaves the
    world and the client as they are; only a strictly positive length
    reaches [client_write]. *)
Theorem client_vprintf_nonpositive_length
    (cap : Z) (w : world) (c : client) (f : format_call) :
  vs_length f <= 0 ->
  client_vprintf cap w c f = (w, c) /\ client_printf cap w c f = (w, c).
Proof.
  intros H. unfold client_printf, client_vprintf.
  destruct (Z.leb_spec (vs_length f) 0); [auto | lia].
Qed.

Lemma client_vprintf_nonpositive_length_witness :
  vs_length (mkFormat (-1) []) <= 0 /\
  client_vprintf default_cap quiet_world fresh_client (mkFormat (-1) [])
    = (quiet_world, fresh_client) /\
  client_printf default_cap quiet_world fresh_client (mkFormat (-1) [])
    = (quiet_world, fresh_client).
Proof.
  split; [vm_compute; discriminate|].
  apply (client_vprintf_nonpositive_length default_cap quiet_world
           fresh_client (mkFormat (-1) [])).
  vm_compute; discriminate.
Defined.

(** A format call of positive length is written: the changed line for
    the player event reaches the descriptor after a flush, and a call of
    length 0 next to it adds nothing. *)
Example client_printf_positive_length :
  let '(w1, c1) :=
    client_printf default_cap quiet_world fresh_client
      (format_changed "player") in
  let '(w2, c2) := client_printf default_cap w1 c1 (mkFormat 0 []) in
  let '(w3, c3) := client_write_output default_cap w2 c2 in
  (w2, c2) = (w1, c1) /\
  string_of_list_ascii (delivered 7 w3)
  = ("changed: player" ++ newline_string)%string.
Proof. vm_compute. split; reflexivity. Qed.


(** * Beyond the claims: supporting lemmas *)

(** ** Every operation keeps to its own descriptor *)

Lemma own_io_refl (w : world) (c : client) : own_io w c w c.
Proof.
  unfold own_io. splits; auto.
  destruct (Z.leb_spec 0 (fd c)); destruct (Z.ltb_spec (fd c) 0);
    simpl; try lia; now rewrite app_nil_r.
Qed.

Lemma own_io_trans (w w1 w2 : world) (c c1 c2 : client) :
  own_io w c w1 c1 -> own_io w1 c1 w2 c2 -> own_io w c w2 c2.
Proof.
  intros (Hf1 & Hd1 & Hc1 & Hr1 & Hn1) (Hf2 & Hd2 & Hc2 & Hr2 & Hn2).
  unfold own_io. splits; try congruence.
  - lia.
  - intros fd0 H. rewrite Hd2, Hd1; auto. lia.
  - rewrite Hc2, Hc1, <- app_assoc. f_equal.
    destruct Hf1 as [Hf1|Hf1]; [rewrite Hf1|].
    + destruct (Z.leb_spec 0 (fd c)); destruct (Z.ltb_spec (fd c) 0);
        destruct (Z.ltb_spec (fd c2) 0); simpl; try lia; reflexivity.
    + destruct (Z.leb_spec 0 (fd c)); destruct (Z.ltb_spec (fd c1) 0);
        destruct (Z.leb_spec 0 (fd c1)); destruct (Z.ltb_spec (fd c2) 0);
        simpl; try lia; reflexivity.
Qed.

(** A step that changes neither the world nor the descriptor. *)
Lemma own_io_same (w : world) (c c' : client) :
  fd c' = fd c -> own_io w c w c'.
Proof.
  intros H. unfold own_io. rewrite H. splits; auto.
  destruct (Z.leb_spec 0 (fd c)); destruct (Z.ltb_spec (fd c) 0);
    simpl; try lia; now rewrite app_nil_r.
Qed.

Lemma sys_write_own (w : world) (sock : Z) (src : list ascii) (count : Z) :
  forall ret w', sys_write w sock src count = (ret, w') ->
  (forall fd0, fd0 <> sock \/ sock < 0 ->
     delivered fd0 w' = delivered fd0 w) /\
  closed w' = closed w /\ reads w' = reads w /\ now w' = now w.
Proof.
  intros ret w'. unfold sys_write.
  destruct (Z.ltb_spec sock 0) as [Hneg|Hpos].
  - intros [= <- <-]. simpl. auto.
  - destruct (writes w) as [|[n|e] rest]; intros [= <- <-]; simpl;
      splits; auto; intros fd0 [Hne|Hneg]; try lia;
      unfold delivered; simpl; rewrite flat_map_app; simpl;
      destruct (Z.eqb_spec sock fd0); try congruence;
      now rewrite app_nil_r.
Qed.

Lemma client_set_expired_own (w : world) (c : client) :
  forall w' c', client_set_expired w c = (w', c') -> own_io w c w' c'.
Proof.
  intros w' c'. unfold client_set_expired.
  destruct (Z.leb_spec 0 (fd c)) as [Hlive|Hdead]; intros [= <- <-].
  - unfold own_io. simpl. splits; auto; try lia.
    destruct (Z.leb_spec 0 (fd c)); [reflexivity | lia].
  - apply own_io_refl.
Qed.

(** A system call on the descriptor of [c] followed by a change of the
    client that keeps the descriptor. *)
Lemma own_io_write (w : world) (c c' : client) (src : list ascii)
    (count ret : Z) (w' : world) :
  sys_write w (fd c) src count = (ret, w') -> fd c' = fd c ->
  own_io w c w' c'.
Proof.
  intros Hw Hfd. apply sys_write_own in Hw.
  destruct Hw as (Hd & Hc & Hr & Hn).
  unfold own_io. rewrite Hfd. splits; auto.
  rewrite Hc.
  destruct (Z.leb_spec 0 (fd c)); destruct (Z.ltb_spec (fd c) 0);
    simpl; try lia; now rewrite app_nil_r.
Qed.

Lemma client_write_deferred_loop_own (q : list deferred_buffer) :
  forall ret w c ret' w' c',
  client_write_deferred_loop q ret w c = (ret', w', c') ->
  own_io w c w' c'.
Proof.
  induction q as [|b rest IH]; intros ret w c ret' w' c'.
  - simpl. intros [= <- <- <-]. apply own_io_refl.
  - cbn [client_write_deferred_loop].
    destruct (sys_write w (fd c) (data b) (size b)) as [r w1] eqn:Hw.
    destruct (r <? 0);
      [intros [= <- <- <-]; eapply own_io_write; eauto|].
    destruct (r <? size b);
      [intros [= <- <- <-]; eapply own_io_write; eauto|].
    intros H. apply IH in H.
    eapply own_io_trans; [|exact H].
    eapply own_io_write; eauto.
Qed.

Lemma client_write_deferred_own (w : world) (c : client) :
  forall w' c', client_write_deferred w c = (w', c') -> own_io w c w' c'.
Proof.
  intros w' c'. unfold client_write_deferred.
  destruct (client_write_deferred_loop (deferred_send c) 0 w c)
    as [[ret w1] c1] eqn:Hloop.
  apply client_write_deferred_loop_own in Hloop.
  destruct (deferred_send c1); [now intros [= <- <-]|].
  destruct (_ && _ && _).
  - intros H. apply client_set_expired_own in H.
    eapply own_io_trans; eauto.
  - now intros [= <- <-].
Qed.

Lemma client_defer_output_own (cap : Z) (w : world) (c : client)
    (src : list ascii) (length : Z) :
  forall w' c',
  client_defer_output cap w c src length = (w', c') -> own_io w c w' c'.
Proof.
  intros w' c'. unfold client_defer_output.
  destruct (_ >? _).
  - intros H. apply client_set_expired_own in H.
    eapply own_io_trans; [|exact H]. now apply own_io_same.
  - intros [= <- <-]. now apply own_io_same.
Qed.

Lemma client_write_direct_own (cap : Z) (w : world) (c : client)
    (src : list ascii) (length : Z) :
  forall w' c',
  client_write_direct cap w c src length = (w', c') -> own_io w c w' c'.
Proof.
  intros w' c'. unfold client_write_direct.
  destruct (sys_write w (fd c) src length) as [ret w1] eqn:Hw.
  assert (H1 : own_io w c w1 c) by (eapply own_io_write; eauto).
  destruct (ret <? 0).
  - destruct (_ || _); intros H.
    + apply client_defer_output_own in H. eapply own_io_trans; eauto.
    + apply client_set_expired_own in H. eapply own_io_trans; eauto.
  - destruct (ret <? send_buf_used c).
    + intros H. apply client_defer_output_own in H.
      eapply own_io_trans; eauto.
    + now intros [= <- <-].
Qed.

Lemma client_write_output_own (cap : Z) (w : world) (c : client) :
  forall w' c',
  client_write_output cap w c = (w', c') -> own_io w c w' c'.
Proof.
  intros w' c'. unfold client_write_output.
  destruct (_ || _); [intros [= <- <-]; apply own_io_refl|].
  destruct (deferred_send c).
  - destruct (client_write_direct cap w c (send_buf c) (send_buf_used c))
      as [w1 c1] eqn:H.
    apply client_write_direct_own in H. intros [= <- <-].
    eapply own_io_trans; [exact H|]. now apply own_io_same.
  - destruct (client_defer_output cap w c (send_buf c) (send_buf_used c))
      as [w1 c1] eqn:H1.
    destruct (client_write_deferred w1 c1) as [w2 c2] eqn:H2.
    apply client_defer_output_own in H1.
    apply client_write_deferred_own in H2. intros [= <- <-].
    eapply own_io_trans; [exact H1|].
    eapply own_io_trans; [exact H2|]. now apply own_io_same.
Qed.

Lemma client_write_loop_own (cap : Z) (fuel : nat) :
  forall w c buffer w' c',
  client_write_loop cap fuel w c buffer = (w', c') -> own_io w c w' c'.
Proof.
  induction fuel as [|fuel IH]; intros w c buffer w' c'.
  - simpl. intros [= <- <-]. apply own_io_refl.
  - rewrite client_write_loop_unfold. cbv zeta.
    destruct (_ && _); [|intros [= <- <-]; apply own_io_refl].
    match goal with
    | |- context [if ?b then client_write_output cap w ?c1 else _] =>
        destruct b;
        [destruct (client_write_output cap w c1) as [w2 c2] eqn:Hout;
         apply client_write_output_own in Hout|]
    end.
    + intros H. apply IH in H.
      eapply own_io_trans; [|exact H].
      eapply own_io_trans; [|exact Hout]. now apply own_io_same.
    + intros H. apply IH in H.
      eapply own_io_trans; [|exact H]. now apply own_io_same.
Qed.

Lemma client_write_own (cap : Z) (w : world) (c : client)
    (buffer : list ascii) :
  forall w' c', client_write cap w c buffer = (w', c') -> own_io w c w' c'.
Proof.
  intros w' c'. unfold client_write.
  destruct (client_is_expired c); [intros [= <- <-]; apply own_io_refl|].
  apply client_write_loop_own.
Qed.

Lemma client_printf_own (cap : Z) (w : world) (c : client)
    (f : format_call) :
  forall w' c', client_printf cap w c f = (w', c') -> own_io w c w' c'.
Proof.
  intros w' c'. unfold client_printf, client_vprintf.
  destruct (_ <=? _); [intros [= <- <-]; apply own_io_refl|].
  apply client_write_own.
Qed.

Lemma client_idle_notify_loop_own (cap : Z) (names : list string) :
  forall i flags w c w' c',
  client_idle_notify_loop cap names i flags w c = (w', c') ->
  own_io w c w' c'.
Proof.
  induction names as [|name rest IH]; intros i flags w c w' c'.
  - simpl. intros [= <- <-]. apply own_io_refl.
  - cbn [client_idle_notify_loop].
    destruct (negb _).
    + destruct (client_printf cap w c (format_changed name))
        as [w1 c1] eqn:Hp.
      apply client_printf_own in Hp. intros H. apply IH in H.
      eapply own_io_trans; eauto.
    + apply IH.
Qed.

Lemma client_idle_notify_own (cap : Z) (idle_names : list string)
    (w : world) (c : client) :
  forall w' c',
  client_idle_notify cap idle_names w c = (w', c') -> own_io w c w' c'.
Proof.
  intros w' c'. unfold client_idle_notify.
  destruct (client_idle_notify_loop cap idle_names 0 (idle_flags c) w
              (set_idle_waiting (set_idle_flags c 0) false))
    as [w1 c1] eqn:Hloop.
  destruct (client_puts cap w1 c1 ("OK" ++ newline_string))
    as [w2 c2] eqn:Hputs.
  intros [= <- <-].
  apply client_idle_notify_loop_own in Hloop.
  apply client_write_own in Hputs.
  eapply own_io_trans; [|eapply own_io_trans; [exact Hputs|]].
  - eapply own_io_trans; [|exact Hloop]. now apply own_io_same.
  - now apply own_io_same.
Qed.

Lemma run_client_op_own (cap : Z) (idle_names : list string)
    (op : client_op) (w : world) (c : client) :
  forall w' c',
  run_client_op cap idle_names op w c = (w', c') -> own_io w c w' c'.
Proof.
  intros w' c'. destruct op as [buffer|s|f| |flags]; simpl.
  - apply client_write_own.
  - apply client_write_own.
  - apply client_printf_own.
  - apply client_write_deferred_own.
  - unfold client_idle_wait.
    destruct (negb _).
    + destruct (client_idle_notify cap idle_names w
                  (set_idle_subscriptions (set_idle_waiting c true) flags))
        as [w1 c1] eqn:H.
      intros [= <- <-]. apply client_idle_notify_own in H.
      eapply own_io_trans; [|exact H]. now apply own_io_same.
    + intros [= <- <-]. now apply own_io_same.
Qed.

(** ** The line processor keeps the invariants *)

Lemma keeps_input_refl (c : client) : keeps_input c c.
Proof. unfold keeps_input. auto. Qed.

Lemma keeps_input_trans (c1 c2 c3 : client) :
  keeps_input c1 c2 -> keeps_input c2 c3 -> keeps_input c1 c3.
Proof. unfold keeps_input. intuition congruence. Qed.

Lemma same_session_keeps_input (c c' : client) :
  same_session c c' -> keeps_input c c'.
Proof. unfold same_session, keeps_input. intuition. Qed.

Lemma accept_command_respects (cap : Z) :
  command_respects cap accept_command.
Proof.
  intros w c line Hok. simpl. split; [exact Hok | apply keeps_input_refl].
Qed.

Lemma accept_list_respects (cap : Z) :
  command_list_respects cap accept_list.
Proof.
  intros w c mode lines Hok. simpl.
  split; [exact Hok | apply keeps_input_refl].
Qed.

(** A step that leaves the invariants and the input buffer alone. *)
Ltac unchanged Hok :=
  split; [exact Hok | unfold keeps_input; simpl; auto].

Section RespectFacts.

Variable cap : Z.
Variable list_cap : Z.
Variable command_process : world -> client -> string -> Z * world * client.
Variable command_process_list :
  world -> client -> Z -> list string -> Z * world * client.
Hypothesis cap_range : output_cap_ok cap.
Hypothesis command_ok : command_respects cap command_process.
Hypothesis command_list_ok : command_list_respects cap command_process_list.

(** The end of a command: OK on success, then the flush. *)
Lemma command_end_spec (ret : Z) (w : world) (c : client) :
  forall w1 c1 w2 c2,
  client_ok cap c ->
  (if ret =? 0 then command_success cap w c else (w, c)) = (w1, c1) ->
  client_write_output cap w1 c1 = (w2, c2) ->
  out_step cap
    (if ret =? 0 then list_ascii_of_string ("OK" ++ newline_string) else [])
    w c w2 c2 /\
  (0 <= fd c2 -> send_buf_used c2 = 0).
Proof.
  intros w1 c1 w2 c2 Hok H1 H2.
  assert (Hs1 : out_step cap
            (if ret =? 0 then list_ascii_of_string ("OK" ++ newline_string)
             else []) w c w1 c1).
  { destruct (ret =? 0).
    - unfold command_success in H1.
      now apply (client_puts_spec cap cap_range) in H1.
    - injection H1 as <- <-. now apply out_step_refl. }
  apply (client_flush_spec cap cap_range) in H2; [|apply Hs1].
  destruct H2 as [Hs2 Hz]. split.
  - pose proof (out_step_trans cap _ _ _ _ _ _ _ _ Hs1 Hs2) as H.
    now rewrite app_nil_r in H.
  - intros Hfd. apply Hz.
    destruct Hs2 as (_ & _ & _ & Hfd2 & _). lia.
Qed.

Lemma client_process_line_respects (w : world) (c : client) (line : string) :
  forall ret w' c',
  client_ok cap c ->
  client_process_line cap list_cap command_process command_process_list
    w c line = (ret, w', c') ->
  client_ok cap c' /\ keeps_input c c'.
Proof.
  intros ret w' c' Hok. unfold client_process_line.
  destruct (String.eqb line "noidle").
  { destruct (idle_waiting c).
    - set (c0 := set_idle_waiting c false).
      destruct (command_success cap w c0) as [w1 c1] eqn:H1.
      destruct (client_write_output cap w1 c1) as [w2 c2] eqn:H2.
      intros [= <- <- <-].
      assert (Hok0 : client_ok cap c0) by exact Hok.
      destruct (command_end_spec 0 w c0 w1 c1 w2 c2 Hok0 H1 H2)
        as [(Hss & Hok2 & _) _].
      split; [exact Hok2|]. now apply same_session_keeps_input in Hss.
    - intros [= <- <- <-]. unchanged Hok. }
  destruct (idle_waiting c);
    [intros [= <- <- <-]; unchanged Hok|].
  destruct (cmd_list_OK c >=? 0).
  { destruct (String.eqb line CLIENT_LIST_MODE_END).
    - set (c0 := set_cmd_list c (rev (cmd_list c))).
      assert (Hok0 : client_ok cap c0) by exact Hok.
      pose proof (command_list_ok w c0 (cmd_list_OK c0) (cmd_list c0) Hok0)
        as Hc.
      destruct (command_process_list w c0 (cmd_list_OK c0) (cmd_list c0))
        as [[r w1] c1] eqn:Hcp.
      destruct Hc as [Hok1 Hk1].
      destruct ((r =? COMMAND_RETURN_CLOSE) || client_is_expired c1);
        [intros [= <- <- <-]; split; [exact Hok1 | exact Hk1]|].
      destruct (if r =? 0 then command_success cap w1 c1 else (w1, c1))
        as [w2 c2] eqn:H1.
      destruct (client_write_output cap w2 c2) as [w3 c3] eqn:H2.
      intros [= <- <- <-].
      destruct (command_end_spec r w1 c1 w2 c2 w3 c3 Hok1 H1 H2)
        as [(Hss & Hok3 & _) _].
      split; [exact Hok3|].
      apply same_session_keeps_input in Hss.
      eapply keeps_input_trans; [exact Hk1|]. exact Hss.
    - destruct (_ >? _); intros [= <- <- <-];
        unchanged Hok. }
  destruct (String.eqb line CLIENT_LIST_MODE_BEGIN);
    [intros [= <- <- <-]; unchanged Hok|].
  destruct (String.eqb line CLIENT_LIST_OK_MODE_BEGIN);
    [intros [= <- <- <-]; unchanged Hok|].
  pose proof (command_ok w c line Hok) as Hc.
  destruct (command_process w c line) as [[r w1] c1] eqn:Hcp.
  destruct Hc as [Hok1 Hk1].
  destruct ((r =? COMMAND_RETURN_CLOSE) || client_is_expired c1);
    [intros [= <- <- <-]; split; [exact Hok1 | exact Hk1]|].
  destruct (if r =? 0 then command_success cap w1 c1 else (w1, c1))
    as [w2 c2] eqn:H1.
  destruct (client_write_output cap w2 c2) as [w3 c3] eqn:H2.
  intros [= <- <- <-].
  destruct (command_end_spec r w1 c1 w2 c2 w3 c3 Hok1 H1 H2)
    as [(Hss & Hok3 & _) _].
  split; [exact Hok3|].
  apply same_session_keeps_input in Hss.
  eapply keeps_input_trans; [exact Hk1|]. exact Hss.
Qed.

End RespectFacts.

(** ** The read path keeps the invariants *)

Lemma len_take_le (n : Z) (l : list ascii) : 0 <= n -> len (take n l) <= n.
Proof. unfold len, take. intros H. rewrite length_firstn. lia. Qed.

Lemma len_zero_nil (l : list ascii) : len l <= 0 -> l = [].
Proof. destruct l; [reflexivity|]. unfold len. simpl. lia. Qed.

Lemma mem_write_nil (dst : list ascii) (off : Z) : mem_write dst off [] = dst.
Proof.
  unfold mem_write. simpl. rewrite Nat.add_0_r. apply firstn_skipn.
Qed.

(** What one [read] call returns. *)
Lemma sys_read_spec (w : world) (sock count : Z) :
  0 <= count ->
  forall n bytes w', sys_read w sock count = (n, bytes, w') ->
  (n <= 0 /\ bytes = []) \/ (0 < n <= count /\ n = len bytes).
Proof.
  intros Hc n bytes w'. unfold sys_read.
  destruct (sock <? 0); [intros [= <- <- <-]; left; split; [lia | auto]|].
  destruct (reads w) as [|[bs|e] rest]; intros [= <- <- <-].
  - left. split; [lia | auto].
  - pose proof (len_take_le count bs Hc) as Hle.
    pose proof (len_nonneg (take count bs)) as Hnn.
    destruct (Z.eq_dec (len (take count bs)) 0) as [Hz|Hz].
    + left. split; [lia|]. apply len_zero_nil. lia.
    + right. split; [lia | reflexivity].
  - left. split; [lia | auto].
Qed.

Section ReadInvariants.

Variable cap : Z.
Variable list_cap : Z.
Variable command_process : world -> client -> string -> Z * world * client.
Variable command_process_list :
  world -> client -> Z -> list string -> Z * world * client.
Hypothesis cap_range : output_cap_ok cap.
Hypothesis command_ok : command_respects cap command_process.
Hypothesis command_list_ok : command_list_respects cap command_process_list.

Lemma client_input_loop_inv (fuel : nat) :
  forall w c start end_ r w' c',
  client_ok cap c -> len (buffer c) = sizeof_buffer ->
  0 <= start <= end_ -> end_ <= sizeof_buffer -> 0 <= fd c ->
  client_input_loop cap list_cap command_process command_process_list
    fuel w c start end_ = (r, w', c') ->
  client_ok cap c' /\ len (buffer c') = sizeof_buffer /\
  bufferLength c' = bufferLength c /\ bufferPos c' = bufferPos c /\
  match r with
  | inl ret => ret = COMMAND_RETURN_KILL \/ ret = COMMAND_RETURN_CLOSE
  | inr start' => start <= start' <= end_ /\ 0 <= fd c'
  end.
Proof.
  induction fuel as [|fuel IH];
    intros w c start end_ r w' c' Hok Hbuf Hse Hend Hfd.
  - simpl. intros [= <- <- <-]. splits; auto; lia.
  - destruct (memchr (buffer c) start newline_char (end_ - start))
      as [newline|] eqn:Hfind.
    2:{ rewrite client_input_loop_done by assumption.
        intros [= <- <- <-]. splits; auto; lia. }
    rewrite (client_input_loop_step _ _ _ _ fuel w c start end_ newline Hfind).
    cbv zeta. apply memchr_range in Hfind.
    set (nl := if (newline >? start)
                  && Ascii.eqb (char_at (buffer c) (newline - 1)) return_char
               then newline - 1 else newline).
    assert (Hnl : start <= nl <= newline).
    { unfold nl. destruct (Z.gtb_spec newline start); simpl; [|lia].
      destruct (Ascii.eqb _ _); lia. }
    set (c1 := set_buffer c (mem_write (buffer c) nl [zero])).
    assert (Hbuf1 : len (buffer c1) = sizeof_buffer).
    { unfold c1. cbn [buffer set_buffer]. rewrite len_mem_write; auto.
      - lia.
      - change (len [zero]) with 1. lia. }
    assert (Hok1 : client_ok cap c1) by exact Hok.
    destruct (client_process_line cap list_cap command_process
                command_process_list w c1 (c_string_at (buffer c1) start))
      as [[ret w2] c2] eqn:Hline.
    apply (client_process_line_respects cap list_cap command_process
             command_process_list cap_range command_ok command_list_ok)
      in Hline; [|exact Hok1].
    destruct Hline as (Hok2 & Hb2 & Hl2 & Hp2).
    assert (Hbuf2 : len (buffer c2) = sizeof_buffer) by congruence.
    destruct (Z.eqb_spec ret COMMAND_RETURN_KILL) as [->|Hk];
      [intros [= <- <- <-]; splits; auto|].
    destruct (Z.eqb_spec ret COMMAND_RETURN_CLOSE) as [->|Hc];
      [intros [= <- <- <-]; splits; auto|].
    cbn [orb]. unfold client_is_expired.
    destruct (Z.ltb_spec (fd c2) 0) as [Hdead|Hlive];
      [intros [= <- <- <-]; splits; auto|].
    intros Hloop.
    apply IH in Hloop; auto; try lia.
    destruct Hloop as (Hok3 & Hb3 & Hl3 & Hp3 & Hr).
    split; [exact Hok3|]. split; [exact Hb3|].
    split; [rewrite Hl3, Hl2; reflexivity|].
    split; [rewrite Hp3, Hp2; reflexivity|].
    destruct r as [ret'|start']; [exact Hr | lia].
Qed.

Lemma client_input_received_inv (w : world) (c : client) (n : Z) :
  forall ret w' c',
  client_ok cap c -> len (buffer c) = sizeof_buffer ->
  0 <= bufferPos c <= bufferLength c -> 0 < n ->
  bufferLength c + n <= sizeof_buffer -> 0 <= fd c ->
  client_input_received cap list_cap command_process command_process_list
    w c n = (ret, w', c') ->
  (ret = 0 \/ ret = COMMAND_RETURN_KILL \/ ret = COMMAND_RETURN_CLOSE) /\
  client_ok cap c' /\ len (buffer c') = sizeof_buffer /\
  (ret = 0 -> input_ok c' /\ 0 <= fd c').
Proof.
  intros ret w' c' Hok Hbuf Hpos Hn Hfit Hfd. unfold client_input_received.
  cbn [bufferPos bufferLength set_bufferLength].
  assert (Hsum : size_t (bufferLength c + n) = bufferLength c + n).
  { apply size_t_small. unfold sizeof_buffer, SIZE_WIDTH in *. lia. }
  rewrite Hsum.
  set (c0 := set_bufferLength c (bufferLength c + n)).
  destruct (client_input_loop cap list_cap command_process
              command_process_list
              (S (Z.to_nat (bufferLength c + n - bufferPos c))) w c0
              (bufferPos c) (bufferLength c + n))
    as [[r w1] c1] eqn:Hloop.
  apply client_input_loop_inv in Hloop; auto; try lia.
  destruct Hloop as (Hok1 & Hbuf1 & Hl1 & Hp1 & Hr).
  change (bufferLength c0) with (bufferLength c + n) in Hl1.
  change (bufferPos c0) with (bufferPos c) in Hp1.
  destruct r as [r|start'].
  - intros [= <- <- <-].
    split; [destruct Hr as [->| ->]; auto|]. splits; auto.
    intros Hz. exfalso. destruct Hr as [H|H]; rewrite H in Hz;
      discriminate Hz.
  - destruct Hr as [Hs Hlive].
    cbn [bufferLength bufferPos buffer set_bufferPos set_bufferLength
         set_buffer].
    rewrite Hl1.
    destruct (Z.eqb_spec (bufferLength c + n) sizeof_buffer) as [Hfull|Hroom].
    + destruct (Z.eqb_spec start' 0) as [Hz|Hnz].
      * intros [= <- <- <-]. splits; auto. discriminate.
      * assert (Hnew : size_t (bufferLength c + n - start')
                       = sizeof_buffer - start').
        { rewrite Hfull. apply size_t_small.
          unfold sizeof_buffer, SIZE_WIDTH in *. lia. }
        rewrite Hnew.
        assert (Hlen : len (mem_write (buffer c1) 0
                              (take (sizeof_buffer - start')
                                 (drop start' (buffer c1))))
                       = sizeof_buffer).
        { rewrite len_mem_write; auto; [lia|].
          rewrite len_take; [lia|]. rewrite len_drop; lia. }
        intros [= <- <- <-]. splits; auto.
        intros _. unfold input_ok. simpl. splits; auto; lia.
    + intros [= <- <- <-]. splits; auto.
      intros _. unfold input_ok. simpl. splits; auto; lia.
Qed.

Lemma client_read_inv (w : world) (c : client) :
  forall ret w' c',
  client_ok cap c -> input_ok c -> 0 <= fd c ->
  client_read cap list_cap command_process command_process_list w c
    = (ret, w', c') ->
  (ret = 0 \/ ret = COMMAND_RETURN_KILL \/ ret = COMMAND_RETURN_CLOSE) /\
  client_ok cap c' /\ len (buffer c') = sizeof_buffer /\
  (ret = 0 -> input_ok c' /\ 0 <= fd c').
Proof.
  intros ret w' c' Hok (Hbuf & Hpos & Hroom) Hfd. unfold client_read.
  assert (Hcount : size_t (sizeof_buffer - bufferLength c)
                   = sizeof_buffer - bufferLength c).
  { apply size_t_small. unfold sizeof_buffer, SIZE_WIDTH in *. lia. }
  rewrite Hcount.
  destruct (sys_read w (fd c) (sizeof_buffer - bufferLength c))
    as [[n bytes] w1] eqn:Hread.
  apply sys_read_spec in Hread; [|lia].
  destruct Hread as [[Hn ->]|[Hn Hlen]].
  - rewrite mem_write_nil.
    assert (Hsame : set_buffer c (buffer c) = c) by (destruct c; reflexivity).
    rewrite Hsame.
    destruct (Z.gtb_spec n 0); [lia|].
    destruct ((n <? 0) && errno_eqb (errno w1) EINTR);
      intros [= <- <- <-]; splits; auto; try discriminate.
    intros _. unfold input_ok. auto.
  - destruct (Z.gtb_spec n 0); [|lia].
    apply client_input_received_inv; auto;
      cbn [buffer bufferLength set_buffer]; try lia.
    rewrite len_mem_write; lia.
Qed.

End ReadInvariants.

(** ** The registry *)

Lemma uint_small (z : Z) : 0 <= z < 2 ^ UINT_WIDTH -> uint z = z.
Proof. intros H. unfold uint. now apply Z.mod_small. Qed.

Lemma client_close_spec (w : world) (n : Z) (c : client) :
  forall w' n', client_close w n c = (w', n') ->
  n' = uint (n - 1) /\
  closed w' = closed w ++ (if client_is_expired c then [] else [fd c]) /\
  wire w' = wire w /\ now w' = now w /\ reads w' = reads w /\
  writes w' = writes w /\ errno w' = errno w.
Proof.
  intros w' n'. unfold client_close, client_set_expired, client_is_expired.
  destruct (Z.leb_spec 0 (fd c)); destruct (Z.ltb_spec (fd c) 0); try lia;
    intros [= <- <-]; simpl; splits; auto using app_nil_r.
Qed.

Lemma stays_spec (timeout clock : Z) (c : client) :
  stays timeout clock c =
  negb (client_is_expired c
        || negb (idle_waiting c) && (clock - lastTime c >? timeout)).
Proof.
  unfold stays. destruct (client_is_expired c); [reflexivity|].
  destruct (idle_waiting c); [reflexivity|]. simpl.
  destruct (Z.leb_spec (clock - lastTime c) timeout);
    destruct (Z.gtb_spec (clock - lastTime c) timeout); try lia; reflexivity.
Qed.

Lemma client_manager_expire_loop_spec (timeout : Z) (cs : list client) :
  forall w n w' n' cs',
  client_manager_expire_loop timeout w n cs = (w', n', cs') ->
  cs' = filter (stays timeout (now w)) cs /\
  closed w' =
    closed w
      ++ descriptors (filter (fun c => negb (stays timeout (now w) c)) cs) /\
  wire w' = wire w /\ now w' = now w /\ reads w' = reads w /\
  writes w' = writes w /\ errno w' = errno w /\
  (Z.of_nat (List.length cs) <= n < 2 ^ UINT_WIDTH ->
   n' = n - Z.of_nat (List.length cs) + Z.of_nat (List.length cs')).
Proof.
  induction cs as [|c rest IH]; intros w n w' n' cs'.
  - simpl. intros [= <- <- <-]. unfold descriptors. simpl.
    splits; auto using app_nil_r. intros _. cbn [List.length]. lia.
  - cbn [client_manager_expire_loop filter]. rewrite stays_spec.
    assert (Hclose :
      forall w1 n1, client_close w n c = (w1, n1) ->
      client_manager_expire_loop timeout w1 n1 rest = (w', n', cs') ->
      cs' = filter (stays timeout (now w)) rest /\
      closed w' =
        closed w
          ++ descriptors
               (c :: filter (fun c => negb (stays timeout (now w) c)) rest) /\
      wire w' = wire w /\ now w' = now w /\ reads w' = reads w /\
      writes w' = writes w /\ errno w' = errno w /\
      (Z.of_nat (List.length (c :: rest)) <= n < 2 ^ UINT_WIDTH ->
       n' = n - Z.of_nat (List.length (c :: rest))
            + Z.of_nat (List.length cs'))).
    { intros w1 n1 Hc Hloop. apply client_close_spec in Hc.
      destruct Hc as (Hn1 & Hcl & Hwi & Hnow & Hr & Hwr & He).
      apply IH in Hloop. rewrite Hnow in Hloop.
      destruct Hloop as (Hcs & Hcl' & Hwi' & Hnow' & Hr' & Hwr' & He' & Hcnt).
      splits; try congruence.
      - rewrite Hcl', Hcl, <- app_assoc. f_equal.
        unfold descriptors. cbn [filter].
        destruct (client_is_expired c); reflexivity.
      - cbn [List.length]. intros Hn.
        assert (Hu : n1 = n - 1) by (rewrite Hn1; apply uint_small; lia).
        rewrite Hcnt by lia. lia. }
    destruct (client_is_expired c) eqn:Hexp; cbn [orb negb].
    + destruct (client_close w n c) as [w1 n1] eqn:Hc.
      intros Hloop. exact (Hclose w1 n1 eq_refl Hloop).
    + destruct (negb (idle_waiting c) && (now w - lastTime c >? timeout));
        cbn [negb].
      * destruct (client_close w n c) as [w1 n1] eqn:Hc.
        intros Hloop. exact (Hclose w1 n1 eq_refl Hloop).
      * destruct (client_manager_expire_loop timeout w n rest)
          as [[w1 n1] rest'] eqn:Hloop.
        intros [= <- <- <-]. apply IH in Hloop.
        destruct Hloop as (Hcs & Hcl' & Hwi' & Hnow' & Hr' & Hwr' & He'
                           & Hcnt).
        splits; try congruence.
        cbn [List.length]. intros Hn. rewrite Hcnt by lia. lia.
Qed.

(** Where every client stays the loop changes nothing. *)
Lemma client_manager_expire_loop_fixed (timeout : Z) (cs : list client) :
  forall w n,
  Forall (fun c => stays timeout (now w) c = true) cs ->
  client_manager_expire_loop timeout w n cs = (w, n, cs).
Proof.
  induction cs as [|c rest IH]; intros w n Hall; [reflexivity|].
  inversion Hall as [|c0 r0 Hc Hrest]; subst c0 r0.
  cbn [client_manager_expire_loop]. rewrite stays_spec in Hc.
  apply negb_true_iff, orb_false_iff in Hc. destruct Hc as [-> ->].
  now rewrite IH.
Qed.

Lemma client_close_all_loop_spec (cs : list client) :
  forall w n w' n',
  client_close_all_loop w n cs = (w', n') ->
  closed w' = closed w ++ descriptors cs /\ wire w' = wire w /\
  now w' = now w /\ reads w' = reads w /\ writes w' = writes w /\
  errno w' = errno w.
Proof.
  induction cs as [|c rest IH]; intros w n w' n'.
  - simpl. intros [= <- <-]. unfold descriptors. simpl.
    splits; auto using app_nil_r.
  - cbn [client_close_all_loop].
    destruct (client_close w n c) as [w1 n1] eqn:Hc.
    apply client_close_spec in Hc.
    destruct Hc as (_ & Hcl & Hwi & Hnow & Hr & Hwr & He).
    intros Hloop. apply IH in Hloop.
    destruct Hloop as (Hcl' & Hwi' & Hnow' & Hr' & Hwr' & He').
    splits; try congruence.
    rewrite Hcl', Hcl, <- app_assoc. f_equal.
    unfold descriptors. cbn [filter].
    destruct (client_is_expired c); reflexivity.
Qed.

(** ** The registry keeps the invariants *)

Lemma input_ok_keeps (c c' : client) :
  keeps_input c c' -> input_ok c -> input_ok c'.
Proof.
  unfold keeps_input, input_ok. intros (Hb & Hl & Hp). rewrite Hb, Hl, Hp.
  auto.
Qed.

Lemma client_init_input_ok (PROTOCOL_VERSION : string) (perms : Z)
    (w : world) (sock num0 : Z) :
  input_ok (snd (client_init PROTOCOL_VERSION perms w client_zero sock num0)).
Proof.
  unfold input_ok. simpl. splits; vm_compute; try reflexivity; discriminate.
Qed.

Lemma client_idle_notify_keeps_input (cap : Z) (idle_names : list string)
    (w : world) (c : client) :
  forall w' c',
  client_idle_notify cap idle_names w c = (w', c') -> keeps_input c c'.
Proof.
  intros w' c'. unfold client_idle_notify.
  destruct (client_idle_notify_loop cap idle_names 0 (idle_flags c) w
              (set_idle_waiting (set_idle_flags c 0) false))
    as [w1 c1] eqn:Hloop.
  destruct (client_puts cap w1 c1 ("OK" ++ newline_string))
    as [w2 c2] eqn:Hputs.
  intros [= <- <-].
  apply client_idle_notify_loop_frame, same_session_keeps_input in Hloop.
  apply client_write_frame, same_session_keeps_input in Hputs.
  unfold keeps_input in *. simpl in *. intuition congruence.
Qed.

Lemma client_manager_idle_add_input (cap : Z) (idle_names : list string)
    (cs : list client) :
  forall w flags,
  Forall input_ok cs ->
  Forall input_ok (snd (client_manager_idle_add cap idle_names w cs flags))
  /\ List.length (snd (client_manager_idle_add cap idle_names w cs flags))
     = List.length cs.
Proof.
  induction cs as [|c rest IH]; intros w flags Hall.
  - simpl. split; [constructor | reflexivity].
  - inversion Hall as [|c0 r0 Hc Hrest]; subst c0 r0.
    cbn [client_manager_idle_add].
    destruct (client_is_expired c).
    + specialize (IH w flags Hrest).
      destruct (client_manager_idle_add cap idle_names w rest flags).
      simpl in *. destruct IH. split; [now constructor | lia].
    + destruct (idle_waiting _ && _).
      * destruct (client_idle_notify cap idle_names w
                    (set_idle_flags c (Z.lor (idle_flags c) flags)))
          as [w1 c1] eqn:Hnot.
        destruct (client_write_output cap w1 c1) as [w2 c2] eqn:Hout.
        apply client_idle_notify_keeps_input in Hnot.
        apply client_write_output_frame, same_session_keeps_input in Hout.
        assert (Hc2 : input_ok c2).
        { apply (input_ok_keeps c1); [exact Hout|].
          apply (input_ok_keeps _ _ Hnot). exact Hc. }
        specialize (IH w2 flags Hrest).
        destruct (client_manager_idle_add cap idle_names w2 rest flags).
        simpl in *. destruct IH. split; [now constructor | lia].
      * specialize (IH w flags Hrest).
        destruct (client_manager_idle_add cap idle_names w rest flags).
        simpl in *. destruct IH. split; [now constructor | lia].
Qed.

(** On an expired client the read fails and the client is to be
    closed. *)
Lemma client_read_expired
    (cap list_cap : Z)
    (command_process : world -> client -> string -> Z * world * client)
    (command_process_list :
       world -> client -> Z -> list string -> Z * world * client)
    (w : world) (c : client) :
  fd c < 0 ->
  fst (fst (client_read cap list_cap command_process command_process_list
              w c)) = COMMAND_RETURN_CLOSE.
Proof.
  intros Hfd. unfold client_read, sys_read.
  destruct (Z.ltb_spec (fd c) 0); [|lia]. reflexivity.
Qed.

Section ManagerInvariants.

Variable cap : Z.
Variable list_cap : Z.
Variable command_process : world -> client -> string -> Z * world * client.
Variable command_process_list :
  world -> client -> Z -> list string -> Z * world * client.
Hypothesis cap_range : output_cap_ok cap.
Hypothesis command_ok : command_respects cap command_process.
Hypothesis command_list_ok : command_list_respects cap command_process_list.
Variable invalid : Z -> fd_set -> bool.

Local Abbreviation io_loop :=
  (client_manager_io_loop invalid cap list_cap command_process
     command_process_list).

Local Abbreviation good := (fun c => client_ok cap c /\ input_ok c).

(** The drain and the time stamp that follow the read. *)
Lemma client_manager_io_write_inv (wfds : fd_set) (w : world) (c : client) :
  forall w' c',
  client_ok cap c -> input_ok c ->
  (if negb (client_is_expired c) && FD_ISSET invalid (fd c) wfds
   then let '(w, c) := client_write_deferred w c in
        (w, set_lastTime c (now w))
   else (w, c)) = (w', c') ->
  client_ok cap c' /\ input_ok c'.
Proof.
  intros w' c' Hok Hin.
  destruct (negb (client_is_expired c) && FD_ISSET invalid (fd c) wfds);
    [|intros [= <- <-]; auto].
  destruct (client_write_deferred w c) as [w1 c1] eqn:H.
  intros [= <- <-].
  destruct Hok as ((Hsb & Hu & Hch) & Hlt & Hac).
  apply (client_write_deferred_spec cap cap_range) in H; auto.
  destruct H as (Hss & Hsb' & Hu' & _ & Hch' & Hac' & _).
  split.
  - unfold client_ok, buf_ok. simpl. rewrite Hsb', Hu'. auto.
  - apply (input_ok_keeps c); [|exact Hin].
    apply same_session_keeps_input in Hss.
    unfold keeps_input in *. simpl. exact Hss.
Qed.

Lemma client_manager_io_loop_inv (rfds wfds : fd_set) (cs : list client) :
  forall w n ret w' n' cs',
  Forall good cs ->
  Z.of_nat (List.length cs) <= n < 2 ^ UINT_WIDTH ->
  io_loop rfds wfds w n cs = (ret, w', n', cs') ->
  (ret = 0 \/ ret = COMMAND_RETURN_KILL) /\
  (ret = 0 ->
   Forall good cs' /\ (List.length cs' <= List.length cs)%nat /\
   n' = n - Z.of_nat (List.length cs) + Z.of_nat (List.length cs')).
Proof.
  induction cs as [|c rest IH]; intros w n ret w' n' cs' Hall Hn.
  - simpl. intros [= <- <- <- <-]. split; [auto|]. intros _.
    splits; auto. cbn [List.length]. lia.
  - inversion Hall as [|c0 r0 [Hok Hin] Hrest]; subst c0 r0.
    cbn [List.length] in Hn.
    assert (Hserved :
      forall w1 c1, client_ok cap c1 -> input_ok c1 ->
      (let '(w, c) :=
         if negb (client_is_expired c1) && FD_ISSET invalid (fd c1) wfds
         then let '(w, c) := client_write_deferred w1 c1 in
              (w, set_lastTime c (now w))
         else (w1, c1) in
       let '(ret, w, num_clients, rest) := io_loop rfds wfds w n rest in
       (ret, w, num_clients, c :: rest)) = (ret, w', n', cs') ->
      (ret = 0 \/ ret = COMMAND_RETURN_KILL) /\
      (ret = 0 ->
       Forall good cs' /\
       (List.length cs' <= List.length (c :: rest))%nat /\
       n' = n - Z.of_nat (List.length (c :: rest))
            + Z.of_nat (List.length cs'))).
    { intros w1 c1 Hok1 Hin1.
      destruct (if negb (client_is_expired c1)
                   && FD_ISSET invalid (fd c1) wfds
                then let '(w, c) := client_write_deferred w1 c1 in
                     (w, set_lastTime c (now w))
                else (w1, c1)) as [w2 c2] eqn:Hw.
      apply client_manager_io_write_inv in Hw; auto.
      destruct (io_loop rfds wfds w2 n rest) as [[[r w3] n3] rest'] eqn:Hl.
      intros [= <- <- <- <-].
      apply IH in Hl; [|exact Hrest|lia].
      destruct Hl as [Hr Hz]. split; [exact Hr|]. intros H0.
      destruct (Hz H0) as (Hall' & Hlen & Hcnt).
      cbn [List.length]. splits; [now constructor | lia | lia]. }
    cbn [client_manager_io_loop]. cbv zeta.
    destruct (FD_ISSET invalid (fd c) rfds); [|now apply Hserved].
    destruct (client_read cap list_cap command_process command_process_list
                w c) as [[r w1] c1] eqn:Hread.
    destruct (Z.eqb_spec r COMMAND_RETURN_KILL) as [->|Hk].
    { intros [= <- <- <- <-]. split; [auto|]. discriminate. }
    destruct (Z.eqb_spec r COMMAND_RETURN_CLOSE) as [->|Hc].
    { destruct (client_close w1 n c1) as [w2 n2] eqn:Hcl.
      apply client_close_spec in Hcl. destruct Hcl as (Hn2 & _).
      assert (Hu : n2 = n - 1) by (rewrite Hn2; apply uint_small; lia).
      intros Hl. apply IH in Hl; [|exact Hrest|lia].
      destruct Hl as [Hr Hz]. split; [exact Hr|]. intros H0.
      destruct (Hz H0) as (Hall' & Hlen & Hcnt).
      cbn [List.length]. splits; [assumption | lia | lia]. }
    destruct (Z.lt_ge_cases (fd c) 0) as [Hdead|Hlive].
    { pose proof (client_read_expired cap list_cap command_process
                    command_process_list w c Hdead) as Hx.
      rewrite Hread in Hx. simpl in Hx. contradiction. }
    apply (client_read_inv cap list_cap command_process command_process_list
             cap_range command_ok command_list_ok) in Hread; auto.
    destruct Hread as (Hcodes & Hok1 & _ & Hz).
    assert (H0 : r = 0) by (destruct Hcodes as [?|[?|?]]; congruence).
    destruct (Hz H0) as [Hin1 _].
    apply Hserved; [exact Hok1 | exact Hin1].
Qed.

End ManagerInvariants.

(** ** Descriptor sets *)

Lemma existsb_eqb_In (s : Z) (fds : fd_set) :
  existsb (Z.eqb s) fds = true <-> In s fds.
Proof.
  rewrite existsb_exists. split.
  - intros (x & Hin & Heq). apply Z.eqb_eq in Heq. now subst.
  - intros Hin. exists s. split; [assumption | apply Z.eqb_refl].
Qed.

Lemma FD_ISSET_reported (invalid : Z -> fd_set -> bool) (fds : fd_set)
    (c : client) :
  FD_ISSET invalid (fd c) fds = true <-> reported invalid fds c.
Proof.
  unfold FD_ISSET, reported, client_is_expired.
  destruct (fd c <? 0); [reflexivity | apply existsb_eqb_In].
Qed.

Lemma FD_ISSET_not_reported (invalid : Z -> fd_set -> bool) (fds : fd_set)
    (c : client) :
  FD_ISSET invalid (fd c) fds = false <-> ~ reported invalid fds c.
Proof.
  rewrite <- FD_ISSET_reported.
  destruct (FD_ISSET invalid (fd c) fds); split; congruence.
Qed.

Lemma register_read_loop_spec (cs : list client) :
  forall fds fdmax fds' fdmax',
  register_read_loop cs fds fdmax = (fds', fdmax') ->
  (forall s, In s fds' <->
     In s fds \/
     exists c, In c cs /\ fd c = s /\ 0 <= fd c /\ deferred_send c = []) /\
  fdmax <= fdmax' /\
  (forall c, In c cs -> 0 <= fd c -> deferred_send c = [] ->
     fd c <= fdmax').
Proof.
  induction cs as [|c rest IH]; intros fds fdmax fds' fdmax'.
  - simpl. intros [= <- <-].
    splits; try lia; try (intros c []);
      intros s; split; [auto | intros [H|(c & [] & _)]; exact H].
  - cbn [register_read_loop]. unfold client_is_expired, FD_SET.
    destruct (Z.ltb_spec (fd c) 0) as [Hdead|Hlive]; cbn [negb andb].
    + intros H. apply IH in H. destruct H as (Hin & Hmax & Hle).
      splits; auto.
      * intros s. rewrite Hin. split.
        -- intros [H|(c' & Hc' & H)]; [auto|]. right. exists c'.
           split; [now right | exact H].
        -- intros [H|(c' & [<-|Hc'] & H)]; [auto| lia |].
           right. exists c'. auto.
      * intros c' [<-|Hc'] H1 H2; [lia | auto].
    + destruct (deferred_send c) as [|b q] eqn:Hq; cbn [g_queue_is_empty].
      * intros H. apply IH in H. destruct H as (Hin & Hmax & Hle).
        assert (Hm : fdmax <= (if fdmax <? fd c then fd c else fdmax)
                     /\ fd c <= (if fdmax <? fd c then fd c else fdmax))
          by (destruct (Z.ltb_spec fdmax (fd c)); lia).
        splits; try lia.
        -- intros s. rewrite Hin. split.
           ++ intros [[<-|H]|(c' & Hc' & H)]; [|auto|].
              ** right. exists c. split; [now left | auto].
              ** right. exists c'. split; [now right | exact H].
           ++ intros [H|(c' & [<-|Hc'] & H)].
              ** left. now right.
              ** left. left. apply H.
              ** right. exists c'. auto.
        -- intros c' [<-|Hc'] H1 H2; [lia | auto].
      * intros H. apply IH in H. destruct H as (Hin & Hmax & Hle).
        splits; auto.
        -- intros s. rewrite Hin. split.
           ++ intros [H|(c' & Hc' & H)]; [auto|]. right. exists c'.
              split; [now right | exact H].
           ++ intros [H|(c' & [<-|Hc'] & H)]; [auto| |].
              ** destruct H as (_ & _ & H). congruence.
              ** right. exists c'. auto.
        -- intros c' [<-|Hc'] H1 H2; [congruence | auto].
Qed.

Lemma register_write_loop_spec (cs : list client) :
  forall fds fdmax fds' fdmax',
  register_write_loop cs fds fdmax = (fds', fdmax') ->
  (forall s, In s fds' <->
     In s fds \/
     exists c, In c cs /\ fd c = s /\ 0 <= fd c /\ deferred_send c <> []) /\
  fdmax <= fdmax' /\
  (forall c, In c cs -> 0 <= fd c -> deferred_send c <> [] ->
     fd c <= fdmax').
Proof.
  induction cs as [|c rest IH]; intros fds fdmax fds' fdmax'.
  - simpl. intros [= <- <-].
    splits; try lia; try (intros c []);
      intros s; split; [auto | intros [H|(c & [] & _)]; exact H].
  - cbn [register_write_loop]. unfold client_is_expired, FD_SET.
    destruct (Z.geb_spec (fd c) 0) as [Hlive|Hdead];
      destruct (Z.ltb_spec (fd c) 0) as [Hdead'|Hlive']; try lia;
      cbn [negb andb].
    + destruct (deferred_send c) as [|b q] eqn:Hq; cbn [g_queue_is_empty negb].
      * intros H. apply IH in H. destruct H as (Hin & Hmax & Hle).
        splits; auto.
        -- intros s. rewrite Hin. split.
           ++ intros [H|(c' & Hc' & H)]; [auto|]. right. exists c'.
              split; [now right | exact H].
           ++ intros [H|(c' & [<-|Hc'] & H)]; [auto| |].
              ** destruct H as (_ & _ & H). congruence.
              ** right. exists c'. auto.
        -- intros c' [<-|Hc'] H1 H2; [congruence | auto].
      * intros H. apply IH in H. destruct H as (Hin & Hmax & Hle).
        assert (Hm : fdmax <= (if fdmax <? fd c then fd c else fdmax)
                     /\ fd c <= (if fdmax <? fd c then fd c else fdmax))
          by (destruct (Z.ltb_spec fdmax (fd c)); lia).
        splits; try lia.
        -- intros s. rewrite Hin. split.
           ++ intros [[<-|H]|(c' & Hc' & H)]; [|auto|].
              ** right. exists c. split; [now left|].
                 split; [reflexivity|]. split; [lia|]. rewrite Hq.
                 discriminate.
              ** right. exists c'. split; [now right | exact H].
           ++ intros [H|(c' & [<-|Hc'] & H)].
              ** left. now right.
              ** left. left. apply H.
              ** right. exists c'. auto.
        -- intros c' [<-|Hc'] H1 H2; [lia | auto].
    + intros H. apply IH in H. destruct H as (Hin & Hmax & Hle).
      splits; auto.
      * intros s. rewrite Hin. split.
        -- intros [H|(c' & Hc' & H)]; [auto|]. right. exists c'.
           split; [now right | exact H].
        -- intros [H|(c' & [<-|Hc'] & H)]; [auto| lia |].
           right. exists c'. auto.
      * intros c' [<-|Hc'] H1 H2; [lia | auto].
Qed.

(** ** The output path does not look at the input buffer *)

Section Blind.

Variables (b : list ascii) (l p : Z).

Lemma client_set_expired_blind (w : world) (c : client) :
  client_set_expired w (with_input c b l p) =
  (fst (client_set_expired w c),
   with_input (snd (client_set_expired w c)) b l p).
Proof.
  unfold client_set_expired. cbn [fd with_input set_bufferPos
    set_bufferLength set_buffer].
  destruct (0 <=? fd c); reflexivity.
Qed.

Lemma client_write_deferred_loop_blind (q : list deferred_buffer) :
  forall ret w c,
  client_write_deferred_loop q ret w (with_input c b l p) =
  let '(ret', w', c') := client_write_deferred_loop q ret w c in
  (ret', w', with_input c' b l p).
Proof.
  induction q as [|buf rest IH]; intros ret w c; [reflexivity|].
  cbn [client_write_deferred_loop].
  change (fd (with_input c b l p)) with (fd c).
  destruct (sys_write w (fd c) (data buf) (size buf)) as [r w1].
  destruct (r <? 0); [reflexivity|].
  destruct (r <? size buf); [reflexivity|].
  exact (IH r w1
           (set_lastTime
              (set_deferred_send
                 (set_deferred_bytes c
                    (size_t (deferred_bytes c
                             - size_t (sizeof_deferred_buffer - sizeof_long
                                       + size buf))))
                 rest)
              (now w1))).
Qed.

Lemma client_write_deferred_blind (w : world) (c : client) :
  client_write_deferred w (with_input c b l p) =
  let '(w', c') := client_write_deferred w c in (w', with_input c' b l p).
Proof.
  unfold client_write_deferred.
  change (deferred_send (with_input c b l p)) with (deferred_send c).
  rewrite client_write_deferred_loop_blind.
  destruct (client_write_deferred_loop (deferred_send c) 0 w c)
    as [[ret w1] c1].
  change (deferred_send (with_input c1 b l p)) with (deferred_send c1).
  destruct (deferred_send c1); [reflexivity|].
  destruct (_ && _ && _); [|reflexivity].
  rewrite client_set_expired_blind.
  destruct (client_set_expired w1 c1). reflexivity.
Qed.

Lemma client_defer_output_blind (cap : Z) (w : world) (c : client)
    (src : list ascii) (length : Z) :
  client_defer_output cap w (with_input c b l p) src length =
  let '(w', c') := client_defer_output cap w c src length in
  (w', with_input c' b l p).
Proof.
  unfold client_defer_output.
  cbn [deferred_bytes with_input set_bufferPos set_bufferLength set_buffer
       set_deferred_bytes].
  destruct (_ >? _); [|reflexivity].
  match goal with
  | |- client_set_expired w ?x = _ =>
      change x with (with_input (set_deferred_bytes c
        (size_t (deferred_bytes c
                 + size_t (sizeof_deferred_buffer - sizeof_long + length))))
        b l p)
  end.
  rewrite client_set_expired_blind.
  destruct (client_set_expired w _). reflexivity.
Qed.

Lemma client_write_direct_blind (cap : Z) (w : world) (c : client)
    (src : list ascii) (length : Z) :
  client_write_direct cap w (with_input c b l p) src length =
  let '(w', c') := client_write_direct cap w c src length in
  (w', with_input c' b l p).
Proof.
  unfold client_write_direct.
  change (fd (with_input c b l p)) with (fd c).
  change (send_buf_used (with_input c b l p)) with (send_buf_used c).
  destruct (sys_write w (fd c) src length) as [ret w1].
  destruct (ret <? 0).
  - destruct (_ || _).
    + apply client_defer_output_blind.
    + rewrite client_set_expired_blind.
      destruct (client_set_expired w1 c). reflexivity.
  - destruct (ret <? send_buf_used c); [|reflexivity].
    apply client_defer_output_blind.
Qed.

Lemma client_write_output_blind (cap : Z) (w : world) (c : client) :
  client_write_output cap w (with_input c b l p) =
  let '(w', c') := client_write_output cap w c in (w', with_input c' b l p).
Proof.
  unfold client_write_output.
  change (client_is_expired (with_input c b l p)) with (client_is_expired c).
  change (send_buf_used (with_input c b l p)) with (send_buf_used c).
  change (send_buf (with_input c b l p)) with (send_buf c).
  change (deferred_send (with_input c b l p)) with (deferred_send c).
  destruct (_ || _); [reflexivity|].
  destruct (deferred_send c).
  - rewrite client_write_direct_blind.
    destruct (client_write_direct cap w c (send_buf c) (send_buf_used c)).
    reflexivity.
  - rewrite client_defer_output_blind.
    destruct (client_defer_output cap w c (send_buf c) (send_buf_used c))
      as [w1 c1].
    rewrite client_write_deferred_blind.
    destruct (client_write_deferred w1 c1). reflexivity.
Qed.

Lemma client_write_loop_blind (cap : Z) (fuel : nat) :
  forall w c buffer,
  client_write_loop cap fuel w (with_input c b l p) buffer =
  let '(w', c') := client_write_loop cap fuel w c buffer in
  (w', with_input c' b l p).
Proof.
  induction fuel as [|fuel IH]; intros w c buffer; [reflexivity|].
  rewrite !client_write_loop_unfold. cbv zeta.
  change (client_is_expired (with_input c b l p)) with (client_is_expired c).
  change (send_buf_used (with_input c b l p)) with (send_buf_used c).
  change (send_buf (with_input c b l p)) with (send_buf c).
  destruct (_ && _); [|reflexivity].
  set (copylen := if size_t (sizeof_send_buf - send_buf_used c) >? len buffer
                  then len buffer
                  else size_t (sizeof_send_buf - send_buf_used c)).
  set (cR := set_send_buf_used (set_send_buf c _) _).
  set (cL := set_send_buf_used (set_send_buf (with_input c b l p) _) _).
  assert (E : cL = with_input cR b l p) by reflexivity.
  clearbody cL cR. subst cL.
  change (send_buf_used (with_input cR b l p)) with (send_buf_used cR).
  destruct (send_buf_used cR >=? sizeof_send_buf).
  - rewrite client_write_output_blind.
    destruct (client_write_output cap w cR) as [w2 c2].
    exact (IH w2 c2 (drop copylen buffer)).
  - exact (IH w cR (drop copylen buffer)).
Qed.

Lemma client_write_blind (cap : Z) (w : world) (c : client)
    (buffer : list ascii) :
  client_write cap w (with_input c b l p) buffer =
  let '(w', c') := client_write cap w c buffer in (w', with_input c' b l p).
Proof.
  unfold client_write.
  change (client_is_expired (with_input c b l p)) with (client_is_expired c).
  destruct (client_is_expired c); [reflexivity|].
  apply client_write_loop_blind.
Qed.

Lemma command_success_blind (cap : Z) (w : world) (c : client) :
  command_success cap w (with_input c b l p) =
  let '(w', c') := command_success cap w c in (w', with_input c' b l p).
Proof. apply client_write_blind. Qed.

End Blind.
(** ** The line processor does not look at the input buffer *)

Section LineBlind.

Variable cap : Z.
Variable list_cap : Z.
Variable command_process : world -> client -> string -> Z * world * client.
Variable command_process_list :
  world -> client -> Z -> list string -> Z * world * client.
Hypothesis command_is_blind : command_blind command_process.
Hypothesis command_list_is_blind : command_list_blind command_process_list.

Variables (b : list ascii) (l p : Z).

(** The end of a command: OK on success, then the flush. *)
Lemma command_end_blind (ret : Z) (w : world) (c : client) :
  (let '(w1, c1) :=
     if ret =? 0 then command_success cap w (with_input c b l p)
     else (w, with_input c b l p) in
   client_write_output cap w1 c1) =
  (let '(w2, c2) :=
     let '(w1, c1) :=
       if ret =? 0 then command_success cap w c else (w, c) in
     client_write_output cap w1 c1 in
   (w2, with_input c2 b l p)).
Proof.
  destruct (ret =? 0).
  - rewrite command_success_blind.
    destruct (command_success cap w c) as [w1 c1].
    apply client_write_output_blind.
  - apply client_write_output_blind.
Qed.

Lemma client_process_line_blind (w : world) (c : client) (line : string) :
  client_process_line cap list_cap command_process command_process_list
    w (with_input c b l p) line =
  let '(ret, w', c') :=
    client_process_line cap list_cap command_process command_process_list
      w c line in
  (ret, w', with_input c' b l p).
Proof.
  unfold client_process_line.
  change (idle_waiting (with_input c b l p)) with (idle_waiting c).
  change (cmd_list_OK (with_input c b l p)) with (cmd_list_OK c).
  destruct (String.eqb line "noidle").
  { destruct (idle_waiting c); [|reflexivity].
    change (set_idle_waiting (with_input c b l p) false)
      with (with_input (set_idle_waiting c false) b l p).
    pose proof (command_end_blind 0 w (set_idle_waiting c false)) as H.
    cbn [Z.eqb] in H.
    destruct (command_success cap w
                (with_input (set_idle_waiting c false) b l p)) as [w1 c1].
    rewrite H.
    destruct (command_success cap w (set_idle_waiting c false))
      as [w1' c1'].
    destruct (client_write_output cap w1' c1'). reflexivity. }
  destruct (idle_waiting c); [reflexivity|].
  destruct (cmd_list_OK c >=? 0).
  { destruct (String.eqb line CLIENT_LIST_MODE_END).
    - change (set_cmd_list (with_input c b l p)
                (rev (cmd_list (with_input c b l p))))
        with (with_input (set_cmd_list c (rev (cmd_list c))) b l p).
      set (c0 := set_cmd_list c (rev (cmd_list c))).
      change (cmd_list_OK (with_input c0 b l p)) with (cmd_list_OK c0).
      change (cmd_list (with_input c0 b l p)) with (cmd_list c0).
      rewrite command_list_is_blind.
      destruct (command_process_list w c0 (cmd_list_OK c0) (cmd_list c0))
        as [[r w1] c1].
      change (client_is_expired (with_input c1 b l p))
        with (client_is_expired c1).
      destruct ((r =? COMMAND_RETURN_CLOSE) || client_is_expired c1);
        [reflexivity|].
      pose proof (command_end_blind r w1 c1) as H.
      destruct (if r =? 0 then command_success cap w1 (with_input c1 b l p)
                else (w1, with_input c1 b l p)) as [w2 c2].
      rewrite H.
      destruct (if r =? 0 then command_success cap w1 c1 else (w1, c1))
        as [w2' c2'].
      destruct (client_write_output cap w2' c2'). reflexivity.
    - change (cmd_list_size (with_input c b l p)) with (cmd_list_size c).
      cbn [cmd_list_size set_cmd_list_size with_input set_bufferPos
           set_bufferLength set_buffer].
      destruct (_ >? _); reflexivity. }
  destruct (String.eqb line CLIENT_LIST_MODE_BEGIN); [reflexivity|].
  destruct (String.eqb line CLIENT_LIST_OK_MODE_BEGIN); [reflexivity|].
  rewrite command_is_blind.
  destruct (command_process w c line) as [[r w1] c1].
  change (client_is_expired (with_input c1 b l p))
    with (client_is_expired c1).
  destruct ((r =? COMMAND_RETURN_CLOSE) || client_is_expired c1);
    [reflexivity|].
  pose proof (command_end_blind r w1 c1) as H.
  destruct (if r =? 0 then command_success cap w1 (with_input c1 b l p)
            else (w1, with_input c1 b l p)) as [w2 c2].
  rewrite H.
  destruct (if r =? 0 then command_success cap w1 c1 else (w1, c1))
    as [w2' c2'].
  destruct (client_write_output cap w2' c2'). reflexivity.
Qed.

End LineBlind.

Lemma accept_command_blind : command_blind accept_command.
Proof. intros w c line b l p. reflexivity. Qed.

Lemma accept_list_blind : command_list_blind accept_list.
Proof. intros w c mode lines b l p. reflexivity. Qed.

(** ** Lines in the input buffer *)

Lemma c_string_plain (l rest : list ascii) :
  ~ In zero l -> c_string (l ++ zero :: rest) = string_of_list_ascii l.
Proof.
  induction l as [|x l IH]; intros Hz; simpl.
  - reflexivity.
  - destruct (Ascii.eqb_spec x zero) as [->|_].
    + exfalso. apply Hz. now left.
    + f_equal. apply IH. intros H. apply Hz. now right.
Qed.

Lemma drop_app_exact (pre l : list ascii) : drop (len pre) (pre ++ l) = l.
Proof.
  unfold drop, len. rewrite Nat2Z.id, skipn_app, Nat.sub_diag, skipn_all.
  reflexivity.
Qed.

Lemma take_app_more (n : Z) (a : list ascii) (x : ascii) (b : list ascii) :
  len a + 1 <= n ->
  take n (a ++ x :: b) = a ++ x :: take (n - len a - 1) b.
Proof.
  unfold take, len. intros H. rewrite firstn_app.
  rewrite firstn_all2 by lia. f_equal.
  replace (Z.to_nat n - List.length a)%nat
    with (S (Z.to_nat (n - Z.of_nat (List.length a) - 1))) by lia.
  reflexivity.
Qed.

Lemma char_at_app (pre : list ascii) (x : ascii) (post : list ascii) :
  char_at (pre ++ x :: post) (len pre) = x.
Proof.
  unfold char_at, len. rewrite Nat2Z.id. apply nth_middle.
Qed.

Lemma memchr_line (pre text post : list ascii) (n : Z) :
  ~ In newline_char text -> len text + 1 <= n ->
  memchr (pre ++ text ++ newline_char :: post) (len pre) newline_char n
  = Some (len pre + len text).
Proof.
  intros Hnl Hn. unfold memchr. rewrite drop_app_exact.
  rewrite take_app_more by assumption.
  now apply find_char_first.
Qed.

Lemma memchr_none (pre tail post : list ascii) :
  ~ In newline_char tail ->
  memchr (pre ++ tail ++ post) (len pre) newline_char (len tail) = None.
Proof.
  intros Hnl. unfold memchr. rewrite drop_app_exact.
  rewrite take_app_exact by reflexivity. now apply find_char_absent.
Qed.

Lemma len_wire_line (ln : list ascii * bool) :
  len (wire_line ln) = len (fst ln) + (if snd ln then 2 else 1).
Proof.
  unfold wire_line. rewrite !len_app. destruct (snd ln); reflexivity.
Qed.

(** The line as it lies in the buffer once its terminator is stored. *)
Lemma line_in_buffer (pre post : list ascii) (ln : list ascii * bool)
    (buf : list ascii) (end_ : Z) :
  buf = pre ++ wire_line ln ++ post -> plain_line ln ->
  len pre + len (wire_line ln) <= end_ ->
  exists newline,
    memchr buf (len pre) newline_char (end_ - len pre) = Some newline /\
    newline + 1 = len pre + len (wire_line ln) /\
    let nl := if (newline >? len pre)
                 && Ascii.eqb (char_at buf (newline - 1)) return_char
              then newline - 1 else newline in
    mem_write buf nl [zero] =
      pre ++ (fst ln ++ zero :: (if snd ln then [newline_char] else []))
          ++ post /\
    c_string_at (mem_write buf nl [zero]) (len pre)
    = string_of_list_ascii (fst ln).
Proof.
  intros -> (Hnl & Hz & Hcr) Hend. destruct ln as [text crlf].
  cbn [fst snd] in *. rewrite len_wire_line in *. cbn [fst snd] in *.
  pose proof (len_nonneg text) as Ht. pose proof (len_nonneg pre) as Hp.
  assert (Hstr : forall tail,
    c_string_at (pre ++ (text ++ zero :: tail) ++ post) (len pre)
    = string_of_list_ascii text).
  { intros tail. unfold c_string_at. rewrite drop_app_exact, <- app_assoc.
    cbn [app]. now apply c_string_plain. }
  destruct crlf; unfold wire_line; cbn [fst snd app].
  - (* text, carriage return, newline *)
    exists (len pre + len text + 1). split.
    { replace (pre ++ (text ++ return_char :: [newline_char]) ++ post)
        with (pre ++ (text ++ [return_char]) ++ newline_char :: post)
        by (now rewrite <- !app_assoc).
      rewrite memchr_line.
      - rewrite len_app. f_equal. change (len [return_char]) with 1. lia.
      - intros H. apply in_app_or in H. destruct H as [H|[H|[]]];
          [contradiction | discriminate].
      - rewrite len_app. change (len [return_char]) with 1. lia. }
    split; [lia|]. cbv zeta.
    destruct (Z.gtb_spec (len pre + len text + 1) (len pre)); [|lia].
    replace (len pre + len text + 1 - 1) with (len (pre ++ text))
      by (rewrite len_app; lia).
    assert (Hbuf : pre ++ (text ++ return_char :: [newline_char]) ++ post
                   = (pre ++ text) ++ return_char :: newline_char :: post)
      by (now rewrite <- !app_assoc).
    rewrite Hbuf, char_at_app. cbn [andb Ascii.eqb Bool.eqb return_char].
    rewrite mem_write_at by reflexivity.
    replace ((pre ++ text) ++ zero :: newline_char :: post)
      with (pre ++ (text ++ zero :: [newline_char]) ++ post)
      by (now rewrite <- !app_assoc).
    split; [reflexivity | apply Hstr].
  - (* text, newline *)
    exists (len pre + len text). split.
    { replace (pre ++ (text ++ [newline_char]) ++ post)
        with (pre ++ text ++ newline_char :: post)
        by (now rewrite <- !app_assoc).
      apply memchr_line; [assumption | lia]. }
    split; [lia|]. cbv zeta.
    assert (Hbuf : pre ++ (text ++ [newline_char]) ++ post
                   = (pre ++ text) ++ newline_char :: post)
      by (now rewrite <- !app_assoc).
    assert (Hnocr :
      (len pre + len text >? len pre)
      && Ascii.eqb (char_at (pre ++ (text ++ [newline_char]) ++ post)
                      (len pre + len text - 1)) return_char = false).
    { destruct (Z.gtb_spec (len pre + len text) (len pre)); [|reflexivity].
      cbn [andb]. destruct (exists_last (l := text)) as (text' & x & ->).
      { intros ->. change (len []) with 0 in *. lia. }
      replace (pre ++ ((text' ++ [x]) ++ [newline_char]) ++ post)
        with ((pre ++ text') ++ x :: newline_char :: post)
        by (now rewrite <- !app_assoc).
      replace (len pre + len (text' ++ [x]) - 1) with (len (pre ++ text'))
        by (rewrite !len_app; change (len [x]) with 1; lia).
      rewrite char_at_app.
      destruct (Ascii.eqb_spec x return_char) as [->|]; [|reflexivity].
      exfalso. exact (Hcr eq_refl text' eq_refl). }
    rewrite Hnocr.
    replace (len pre + len text) with (len (pre ++ text))
      by (rewrite len_app; lia).
    rewrite Hbuf, mem_write_at by reflexivity.
    replace ((pre ++ text) ++ zero :: post)
      with (pre ++ (text ++ [zero]) ++ post)
      by (now rewrite <- !app_assoc).
    split; [reflexivity|]. apply (Hstr []).
Qed.
Section LinesOnTheWire.

Variable cap : Z.
Variable list_cap : Z.
Variable command_process : world -> client -> string -> Z * world * client.
Variable command_process_list :
  world -> client -> Z -> list string -> Z * world * client.
Hypothesis command_is_blind : command_blind command_process.
Hypothesis command_list_is_blind : command_list_blind command_process_list.

Local Abbreviation input_loop :=
  (client_input_loop cap list_cap command_process command_process_list).
Local Abbreviation process_lines :=
  (client_process_lines cap list_cap command_process command_process_list).
Local Abbreviation text_of :=
  (fun ln : list ascii * bool => string_of_list_ascii (fst ln)).

(** The loop of [client_input_received] on a buffer that holds, from
    [start] on, the lines [lines] and an unfinished [tail]. *)
Lemma client_input_loop_lines (lines : list (list ascii * bool)) :
  forall fuel w c r0 pre tail junk L P,
  Forall plain_line lines -> (List.length lines < fuel)%nat ->
  ~ In newline_char tail ->
  (r0 =? COMMAND_RETURN_KILL) || (r0 =? COMMAND_RETURN_CLOSE) = false ->
  exists b',
    input_loop fuel w
      (with_input c (pre ++ List.concat (map wire_line lines)
                         ++ tail ++ junk) L P)
      (len pre)
      (len pre + len (List.concat (map wire_line lines)) + len tail) =
    (let '(r, w2, c2) := process_lines r0 w c (map text_of lines) in
     (if (r =? COMMAND_RETURN_KILL) || (r =? COMMAND_RETURN_CLOSE)
      then inl r
      else inr (len pre + len (List.concat (map wire_line lines))),
      w2, with_input c2 b' L P)) /\
    len b' = len (pre ++ List.concat (map wire_line lines) ++ tail ++ junk)
    /\ drop (len pre + len (List.concat (map wire_line lines))) b'
       = tail ++ junk.
Proof.
  induction lines as [|ln rest IH];
    intros fuel w c r0 pre tail junk L P Hplain Hfuel Htail Hr0.
  - cbn [map List.concat client_process_lines app]. rewrite Hr0.
    change (len []) with 0. rewrite !Z.add_0_r.
    exists (pre ++ tail ++ junk). split; [|split].
    + rewrite client_input_loop_done; [reflexivity|].
      cbn [buffer with_input set_bufferPos set_bufferLength set_buffer].
      replace (len pre + len tail - len pre) with (len tail) by lia.
      now apply memchr_none.
    + reflexivity.
    + apply drop_app_exact.
  - inversion Hplain as [|l0 r1 Hln Hrest]; subst l0 r1.
    destruct fuel as [|fuel]; [cbn [List.length] in Hfuel; lia|].
    cbn [map List.concat]. fold (List.concat (map wire_line rest)).
    set (W := List.concat (map wire_line rest)).
    set (bi := pre ++ (wire_line ln ++ W) ++ tail ++ junk).
    set (end_ := len pre + len (wire_line ln ++ W) + len tail).
    assert (Hbi : bi = pre ++ wire_line ln ++ (W ++ tail ++ junk))
      by (unfold bi; now rewrite <- !app_assoc).
    assert (Hend : len pre + len (wire_line ln) <= end_).
    { unfold end_. rewrite len_app.
      pose proof (len_nonneg W). pose proof (len_nonneg tail). lia. }
    destruct (line_in_buffer pre (W ++ tail ++ junk) ln bi end_ Hbi Hln Hend)
      as (newline & Hfind & Hnext & Hwrite & Hstr).
    set (b1 := pre ++ (fst ln ++ zero :: (if snd ln then [newline_char]
                                          else []))
                   ++ W ++ tail ++ junk) in *.
    assert (Hlen1 : len b1 = len bi).
    { rewrite Hbi. unfold b1. rewrite !len_app, len_wire_line.
      destruct (snd ln); unfold len; cbn [List.length]; lia. }
    rewrite (client_input_loop_step cap list_cap command_process
               command_process_list fuel w (with_input c bi L P) (len pre)
               end_ newline Hfind).
    cbv zeta.
    cbn [buffer with_input set_bufferPos set_bufferLength set_buffer]
      in Hwrite, Hstr |- *.
    rewrite Hwrite in Hstr. rewrite Hwrite.
    cbn [buffer set_buffer]. rewrite Hstr.
    change (set_buffer (with_input c bi L P) b1) with (with_input c b1 L P).
    rewrite (client_process_line_blind cap list_cap command_process
               command_process_list command_is_blind command_list_is_blind).
    cbn [client_process_lines].
    destruct (client_process_line cap list_cap command_process
                command_process_list w c (string_of_list_ascii (fst ln)))
      as [[ret w1] c1].
    assert (Hdrop : drop (len pre + len (wire_line ln ++ W)) b1
                    = tail ++ junk).
    { unfold b1.
      replace (pre ++ (fst ln ++ zero :: (if snd ln then [newline_char]
                                          else [])) ++ W ++ tail ++ junk)
        with ((pre ++ (fst ln ++ zero :: (if snd ln then [newline_char]
                                          else [])) ++ W) ++ tail ++ junk)
        by (now rewrite <- !app_assoc).
      replace (len pre + len (wire_line ln ++ W))
        with (len (pre ++ (fst ln ++ zero :: (if snd ln then [newline_char]
                                              else [])) ++ W)).
      - apply drop_app_exact.
      - rewrite !len_app, len_wire_line.
        destruct (snd ln); unfold len; cbn [List.length]; lia. }
    destruct ((ret =? COMMAND_RETURN_KILL) || (ret =? COMMAND_RETURN_CLOSE))
      eqn:Hstop.
    { exists b1. rewrite Hstop. auto. }
    change (client_is_expired (with_input c1 b1 L P))
      with (client_is_expired c1).
    destruct (client_is_expired c1).
    { exists b1. split; [reflexivity | auto]. }
    set (pre' := pre ++ (fst ln ++ zero :: (if snd ln then [newline_char]
                                            else []))).
    assert (Hpre' : len pre' = len pre + len (wire_line ln)).
    { unfold pre'. rewrite !len_app, len_wire_line.
      destruct (snd ln); unfold len; cbn [List.length]; lia. }
    destruct (IH fuel w1 c1 ret pre' tail junk L P Hrest
                ltac:(cbn [List.length] in Hfuel; lia) Htail Hstop)
      as (b' & Hloop & Hlen' & Hdrop').
    fold W in Hloop, Hlen', Hdrop'.
    exists b'.
    replace (newline + 1) with (len pre') by lia.
    replace end_ with (len pre' + len W + len tail)
      by (unfold end_; rewrite len_app; lia).
    replace b1 with (pre' ++ W ++ tail ++ junk)
      by (unfold b1, pre'; now rewrite <- !app_assoc).
    rewrite Hloop.
    destruct (process_lines ret w1 c1 (map text_of rest)) as [[r w2] c2].
    replace (len pre + len (wire_line ln ++ W)) with (len pre' + len W)
      by (rewrite len_app; lia).
    split; [reflexivity|]. split; [|exact Hdrop'].
    rewrite Hlen'.
    replace (pre' ++ W ++ tail ++ junk) with b1
      by (unfold b1, pre'; now rewrite <- !app_assoc).
    exact Hlen1.
Qed.

End LinesOnTheWire.

(** ** The drain of the deferred queue *)

(** The drain keeps the stream and the accounting. *)
Lemma client_write_deferred_stream
    (cap : Z) (w : world) (c : client) :
  output_cap_ok cap -> client_ok cap c -> 0 <= fd c ->
  let '(w', c') := client_write_deferred w c in
  delivered (fd c) w' ++ queued (deferred_send c')
  = delivered (fd c) w ++ queued (deferred_send c) /\
  deferred_bytes c' = accounted (deferred_send c') /\
  deferred_bytes c' <= deferred_bytes c /\
  (deferred_send c' = [] -> deferred_bytes c' = 0) /\
  send_buf c' = send_buf c /\ send_buf_used c' = send_buf_used c /\
  client_ok cap c'.
Proof.
  intros Hcap ((Hsb & Hu & Hch) & Hlt & Hac) Hfd.
  pose proof Hcap as [Hcap0 Hcap1].
  destruct Hac as [[Heq Hle]|[? _]]; [|lia].
  pose proof (accounted_nonneg _ Hch) as Hnn.
  unfold client_write_deferred.
  destruct (client_write_deferred_loop (deferred_send c) 0 w c)
    as [[ret w1] c1] eqn:Hloop.
  apply client_write_deferred_loop_spec in Hloop; auto;
    [|rewrite deferred_overhead_eq in Hcap1;
      unfold sizeof_send_buf in Hcap1; lia].
  destruct Hloop as (Hfd1 & Hss & Hsb1 & Hsu1 & Hnow & Hch1 & Hsent & Hd
                     & Hdle).
  unfold sent in Hsent. rewrite Hfd1 in Hsent.
  assert (Hgoal :
    forall w' c', wire w' = wire w1 ->
      deferred_send c' = deferred_send c1 ->
      deferred_bytes c' = deferred_bytes c1 ->
      send_buf c' = send_buf c1 -> send_buf_used c' = send_buf_used c1 ->
      (fd c' = fd c1 \/ fd c' < 0) ->
      delivered (fd c) w' ++ queued (deferred_send c')
      = delivered (fd c) w ++ queued (deferred_send c) /\
      deferred_bytes c' = accounted (deferred_send c') /\
      deferred_bytes c' <= deferred_bytes c /\
      (deferred_send c' = [] -> deferred_bytes c' = 0) /\
      send_buf c' = send_buf c /\ send_buf_used c' = send_buf_used c /\
      client_ok cap c').
  { intros w' c' Hw' Hq' Hb' Hs' Hu' Hfd'.
    assert (Hacc : deferred_bytes c' = accounted (deferred_send c'))
      by (rewrite Hq', Hb'; lia).
    splits; try congruence; try lia.
    - unfold delivered in *. rewrite Hw', Hq'. exact Hsent.
    - intros Hnil. rewrite Hacc, Hnil. reflexivity.
    - unfold client_ok, buf_ok. rewrite Hs', Hu', Hq', Hsb1, Hsu1.
      splits; auto; try lia.
      left. split; [exact Hacc | lia]. }
  destruct (deferred_send c1) as [|b1 q1] eqn:Hq1.
  - rewrite <- Hq1 in *. apply Hgoal; auto.
  - rewrite <- Hq1 in *.
    destruct ((ret <? 0) && negb (errno_eqb (errno w1) EAGAIN)
              && negb (errno_eqb (errno w1) EINTR)).
    + destruct (client_set_expired w1 c1) as [w2 c2] eqn:Hexp.
      apply client_set_expired_spec in Hexp.
      destruct Hexp as (Hfd2 & _ & Hq2 & Hb2 & Hsb2 & Hsu2 & _
                        & Hw2 & _).
      apply Hgoal; auto.
    + apply Hgoal; auto.
Qed.

(** The drain when the descriptor accepts a part of the head chunk. *)
Lemma client_write_deferred_partial (w : world) (c : client)
    (buf : deferred_buffer) (rest : list deferred_buffer) (n : Z)
    (script : list write_result) :
  0 <= fd c -> deferred_send c = buf :: rest ->
  writes w = WBytes n :: script -> 0 <= n < size buf ->
  client_write_deferred w c =
  (mkWorld script (reads w) (wire w ++ [(fd c, take n (data buf))])
     (closed w) (errno w) (now w),
   set_deferred_send
     (set_deferred_bytes c (size_t (deferred_bytes c - n)))
     (mkDeferred (size_t (size buf - n))
        (mem_write (data buf) 0
           (take (size_t (size buf - n)) (drop n (data buf))))
      :: rest)).
Proof.
  intros Hfd Hq Hw Hn. unfold client_write_deferred. rewrite Hq.
  cbn [client_write_deferred_loop]. unfold sys_write.
  destruct (Z.ltb_spec (fd c) 0); [lia|]. rewrite Hw.
  replace (Z.max 0 (Z.min n (size buf))) with n by lia.
  assert (E0 : (n <? 0) = false) by (apply Z.ltb_ge; lia).
  assert (E1 : (n <? size buf) = true) by (apply Z.ltb_lt; lia).
  rewrite E0, E1. cbn [deferred_send set_deferred_send].
  rewrite E0. reflexivity.
Qed.

(** ** The end of a command *)

(** The end of a command with nothing queued and a peer that accepts
    every write. *)
Lemma command_end_flowing (cap : Z) (ret : Z) (w : world) (c : client) :
  forall w1 c1 w2 c2,
  output_cap_ok cap -> client_ok cap c -> flowing w c ->
  (if ret =? 0 then command_success cap w c else (w, c)) = (w1, c1) ->
  client_write_output cap w1 c1 = (w2, c2) ->
  fd c2 = fd c /\ deferred_send c2 = [] /\ writes w2 = [] /\
  send_buf_used c2 = 0 /\
  delivered (fd c) w2 =
  out_stream w c
    ++ (if ret =? 0 then list_ascii_of_string ("OK" ++ newline_string)
        else []).
Proof.
  intros w1 c1 w2 c2 Hcap Hok Hflow H1 H2.
  assert (Hs1 : client_ok cap c1 /\ flowing w1 c1 /\ fd c1 = fd c /\
                out_stream w1 c1 =
                out_stream w c
                  ++ (if ret =? 0
                      then list_ascii_of_string ("OK" ++ newline_string)
                      else [])).
  { destruct (ret =? 0).
    - unfold command_success, client_puts in H1.
      apply (client_write_flowing cap Hcap) in H1; auto.
      destruct H1 as (Ha & Hb & Hc & _ & Hd). auto.
    - injection H1 as <- <-. rewrite app_nil_r. auto. }
  destruct Hs1 as (Hok1 & Hflow1 & Hfd1 & Hst1).
  apply (client_write_output_flowing cap Hcap) in H2; auto.
  destruct H2 as (_ & (_ & Hq2 & Hw2) & Hfd2 & _ & Hz & Hdel).
  splits; auto; congruence.
Qed.

(** The end of a command expires the client only for a cause. *)
Lemma command_end_caused (cap : Z) (ret : Z) (w : world) (c : client) :
  forall w1 c1 w2 c2,
  output_cap_ok cap -> client_ok cap c ->
  (if ret =? 0 then command_success cap w c else (w, c)) = (w1, c1) ->
  client_write_output cap w1 c1 = (w2, c2) ->
  caused cap w c w2 c2.
Proof.
  intros w1 c1 w2 c2 Hcap Hok H1 H2.
  assert (Hs1 : client_ok cap c1 /\ caused cap w c w1 c1).
  { destruct (ret =? 0).
    - unfold command_success, client_puts in H1. split.
      + apply (client_write_spec cap Hcap) in H1; [apply H1 | exact Hok].
      + now apply (client_write_caused cap Hcap) in H1.
    - injection H1 as <- <-. split; [exact Hok | apply caused_refl]. }
  destruct Hs1 as [Hok1 Hc1].
  eapply caused_trans; [exact Hc1|].
  exact (client_write_output_caused cap Hcap w1 c1 w2 c2 (proj1 Hok1)
           (proj2 (proj2 Hok1)) H2).
Qed.

(** ** Idle events *)

Lemma land_lor_nonzero (a b c : Z) :
  Z.land b c <> 0 -> Z.land (Z.lor a b) c <> 0.
Proof.
  intros H Hz. rewrite Z.land_lor_distr_l in Hz.
  apply Z.lor_eq_0_iff in Hz. tauto.
Qed.

(** One turn of the broadcast on a client that is not waiting. *)
Lemma client_manager_idle_add_busy (cap : Z) (idle_names : list string)
    (w : world) (c : client) (flags : Z) :
  idle_waiting c = false ->
  client_manager_idle_add cap idle_names w [c] flags =
  (w, [if client_is_expired c then c
       else set_idle_flags c (Z.lor (idle_flags c) flags)]).
Proof.
  intros Hw. cbn [client_manager_idle_add].
  destruct (client_is_expired c); [reflexivity|].
  cbn [idle_waiting set_idle_flags]. rewrite Hw. reflexivity.
Qed.

Lemma fresh_client_input_ok : input_ok fresh_client.
Proof.
  unfold input_ok. splits; vm_compute; try reflexivity; discriminate.
Qed.

Lemma sample_manager_ok : manager_ok sample_manager.
Proof.
  unfold manager_ok. split; [reflexivity|].
  split; [vm_compute; split; [discriminate | reflexivity]|].
  change (clients sample_manager) with sample_registry.
  change (client_max_output_buffer_size sample_manager) with default_cap.
  unfold sample_registry.
  repeat (apply Forall_cons;
          [split; [client_ok_by_compute
                  | unfold input_ok; splits; vm_compute;
                    try reflexivity; discriminate]|]).
  apply Forall_nil.
Qed.

(** ** Configuration *)

Lemma int_of_long_range (z : Z) : - 2 ^ 31 <= int_of_long z < 2 ^ 31.
Proof.
  unfold int_of_long, UINT_WIDTH.
  pose proof (Z.mod_pos_bound (z + 2 ^ 31) (2 ^ 32) ltac:(lia)). lia.
Qed.

Lemma uint_range (z : Z) : 0 <= uint z < 2 ^ UINT_WIDTH.
Proof. unfold uint, UINT_WIDTH. apply Z.mod_pos_bound. lia. Qed.

(** The test of a parameter, read as a proposition. *)
Lemma param_test_false (rest : string) (b : bool) :
  negb (is_empty_string rest) || b = false -> rest = EmptyString /\ b = false.
Proof.
  destruct rest; simpl; [auto | discriminate].
Qed.
(** What a return of [client_manager_init] without FATAL tells. *)
Lemma client_manager_init_inl (m : manager)
    (t c l o : option config_param) (m' : manager) :
  client_manager_init m t c l o = inl m' ->
  clients m' = clients m /\ num_clients m' = num_clients m /\
  next_client_num m' = next_client_num m /\
  client_timeout m' =
    match t with
    | Some p => int_of_long (strtol_value p)
    | None => client_timeout m
    end /\
  client_max_connections m' =
    match c with
    | Some p => uint (strtol_value p)
    | None => CLIENT_MAX_CONNECTIONS_DEFAULT
    end /\
  client_max_command_list_size m' =
    match l with
    | Some p => size_t (strtol_value p * 1024)
    | None => client_max_command_list_size m
    end /\
  client_max_output_buffer_size m' =
    match o with
    | Some p => size_t (strtol_value p * 1024)
    | None => client_max_output_buffer_size m
    end /\
  (forall p, t = Some p ->
     strtol_rest p = EmptyString /\ 0 < int_of_long (strtol_value p)) /\
  (forall p, c = Some p ->
     strtol_rest p = EmptyString /\ 0 < uint (strtol_value p)) /\
  (forall p, l = Some p ->
     strtol_rest p = EmptyString /\ 0 < strtol_value p) /\
  (forall p, o = Some p ->
     strtol_rest p = EmptyString /\ 0 < strtol_value p).
Proof.
  intros H. unfold client_manager_init in H.
  destruct t as [pt|], c as [pc|], l as [pl|], o as [po|];
    cbn [client_timeout set_client_timeout client_max_connections
         set_client_max_connections] in H;
    repeat match type of H with
           | context [if ?b then _ else _] =>
               let E := fresh "E" in
               destruct b eqn:E; [discriminate H|];
               apply param_test_false in E; destruct E as [? E];
               apply Z.leb_gt in E
           end;
    injection H as <-; simpl; splits; auto;
    intros p Hp; try discriminate Hp; injection Hp as <-; auto.
Qed.

Lemma lines_length_le (lines : list (list ascii * bool)) :
  Z.of_nat (List.length lines) <= len (List.concat (map wire_line lines)).
Proof.
  induction lines as [|ln rest IH]; [unfold len; simpl; lia|].
  cbn [map List.concat List.length]. rewrite len_app, len_wire_line.
  pose proof (len_nonneg (fst ln)). destruct (snd ln); lia.
Qed.

Lemma mem_write_split (dst src : list ascii) (off : Z) :
  0 <= off ->
  mem_write dst off src = take off dst ++ src ++ drop (off + len src) dst.
Proof.
  intros H. unfold mem_write, take, drop, len. do 3 f_equal. lia.
Qed.

Lemma client_write_loop_empty (cap : Z) (fuel : nat) (w : world)
    (c : client) :
  client_write_loop cap fuel w c [] = (w, c).
Proof. destruct fuel; reflexivity. Qed.

Lemma set_buffer_same (c : client) : set_buffer c (buffer c) = c.
Proof. destruct c; reflexivity. Qed.
(** Against a peer that accepts every write the loop of the drain
    empties the queue. *)
Lemma client_write_deferred_loop_fast (q : list deferred_buffer) :
  forall ret w c ret' w' c',
  writes w = [] -> 0 <= fd c -> Forall chunk_ok q ->
  client_write_deferred_loop q ret w c = (ret', w', c') ->
  deferred_send c' = (match q with [] => deferred_send c | _ => [] end)
  /\ writes w' = [].
Proof.
  induction q as [|buf rest IH]; intros ret w c ret' w' c' Hw Hfd Hq.
  - simpl. intros [= <- <- <-]. auto.
  - inversion Hq as [|b0 q0 [[Hs1 Hs2] Hs3] Hrest]; subst b0 q0.
    cbn [client_write_deferred_loop]. unfold sys_write.
    destruct (Z.ltb_spec (fd c) 0); [lia|]. rewrite Hw.
    destruct (Z.ltb_spec (size buf) 0); [lia|].
    rewrite Z.ltb_irrefl. intros Hloop.
    apply IH in Hloop; auto. destruct Hloop as [Hd Hw'].
    split; [|exact Hw']. rewrite Hd. destruct rest; reflexivity.
Qed.


(** * Beyond the claims: further properties of the code *)

(** ** The output path *)

(** X1: whatever a collaborator or the event loop does with a client
    (write, puts, printf, the drain of the deferred queue, idle wait),
    the bytes go to that client's descriptor only: what any other
    descriptor has accepted is unchanged, an expired client sends
    nothing and stays expired, no input is consumed, and the only
    descriptor that can be closed is the client's own, exactly when the
    operation expires the client. No invariant is needed. *)
Theorem client_op_keeps_to_own_descriptor
    (cap : Z) (idle_names : list string) (op : client_op)
    (w : world) (c : client) :
  let '(w', c') := run_client_op cap idle_names op w c in
  (fd c' = fd c \/ (0 <= fd c /\ fd c' < 0)) /\
  (forall fd0, fd0 <> fd c \/ fd c < 0 ->
     delivered fd0 w' = delivered fd0 w) /\
  closed w' =
    closed w ++ (if (0 <=? fd c) && (fd c' <? 0) then [fd c] else []) /\
  reads w' = reads w /\ now w' = now w.
Proof.
  destruct (run_client_op cap idle_names op w c) as [w' c'] eqn:H.
  apply run_client_op_own in H. exact H.
Qed.

(** X2: [client_write] neither loses, duplicates nor reorders output.
    On a client that satisfies the invariants, the bytes of [buffer]
    are appended, in order, to the client's output stream (what the
    descriptor accepted, then the deferred queue, then the pending part
    of the send buffer), unless the call expires the client; the
    invariants hold afterwards and the session fields are untouched. *)
Theorem client_write_appends_in_order
    (cap : Z) (w : world) (c : client) (buffer : list ascii) :
  output_cap_ok cap -> client_ok cap c ->
  let '(w', c') := client_write cap w c buffer in
  client_ok cap c' /\ same_session c c' /\
  (0 <= fd c' -> fd c' = fd c /\
     out_stream w' c' = out_stream w c ++ buffer).
Proof.
  intros Hcap Hok.
  destruct (client_write cap w c buffer) as [w' c'] eqn:H.
  apply (client_write_spec cap Hcap) in H; [|exact Hok].
  destruct H as (Hss & Hok' & _ & Hfd & Hst).
  splits; auto. intros Hlive. split; [lia | auto].
Qed.

Lemma client_write_appends_in_order_witness :
  output_cap_ok default_cap /\ client_ok default_cap fresh_client /\
  let '(w', c') :=
    client_write default_cap quiet_world fresh_client block_of_a in
  client_ok default_cap c' /\ same_session fresh_client c' /\
  (0 <= fd c' -> fd c' = fd fresh_client /\
     out_stream w' c' = out_stream quiet_world fresh_client ++ block_of_a).
Proof.
  split; [exact default_cap_range|]. split; [exact fresh_client_ok|].
  apply (client_write_appends_in_order default_cap quiet_world fresh_client
           block_of_a).
  - exact default_cap_range.
  - exact fresh_client_ok.
Defined.

(** X3: the drain of the deferred queue sends the queue from its head
    and keeps the rest: what the descriptor has accepted followed by
    what is still queued is the same byte sequence before and after.
    The accounted size never grows, the send buffer is untouched, and
    when the queue is empty afterwards [deferred_bytes] is 0, which is
    what the assertion at the end of the function states. When the
    descriptor accepts only [n] bytes of the head chunk, the drain
    stops after this one write: exactly these [n] bytes are delivered,
    the chunk stays at the head with its remaining bytes,
    [deferred_bytes] drops by [n] and the client stays live. *)
Theorem client_write_deferred_sends_from_head
    (cap : Z) (w : world) (c : client) :
  output_cap_ok cap -> client_ok cap c -> 0 <= fd c ->
  let '(w', c') := client_write_deferred w c in
  delivered (fd c) w' ++ queued (deferred_send c')
  = delivered (fd c) w ++ queued (deferred_send c) /\
  deferred_bytes c' = accounted (deferred_send c') /\
  deferred_bytes c' <= deferred_bytes c /\
  (deferred_send c' = [] -> deferred_bytes c' = 0) /\
  send_buf c' = send_buf c /\ send_buf_used c' = send_buf_used c /\
  client_ok cap c' /\
  (forall buf rest n script,
     deferred_send c = buf :: rest -> writes w = WBytes n :: script ->
     0 <= n < size buf ->
     fd c' = fd c /\ writes w' = script /\
     delivered (fd c) w' = delivered (fd c) w ++ take n (payload buf) /\
     queued (deferred_send c') = drop n (payload buf) ++ queued rest /\
     List.length (deferred_send c') = List.length (deferred_send c) /\
     deferred_bytes c' = deferred_bytes c - n).
Proof.
  intros Hcap Hok Hfd.
  pose proof (client_write_deferred_stream cap w c Hcap Hok Hfd) as Hgen.
  destruct (client_write_deferred w c) as [w' c'] eqn:Hd.
  destruct Hgen as (H1 & H2 & H3 & H4 & H5 & H6 & H7).
  splits; auto.
  intros buf rest n script Hq Hw Hn.
  rewrite (client_write_deferred_partial w c buf rest n script Hfd Hq Hw Hn)
    in Hd.
  injection Hd as <- <-.
  destruct Hok as ((_ & _ & Hch) & _ & Hac).
  rewrite Hq in Hch. inversion Hch as [|b0 q0 Hb Hrest]; subst b0 q0.
  destruct (payload_shrunk buf n Hb Hn) as (Hsz & Hb' & Hp).
  cbv zeta in Hsz, Hb', Hp.
  destruct Hac as [[Heq Hle]|[Hneg _]]; [|lia].
  pose proof (accounted_nonneg _ Hch) as Hnn. rewrite Hq in Heq.
  cbn [accounted fold_right] in Heq, Hnn. fold (accounted rest) in Heq, Hnn.
  pose proof (accounted_nonneg _ Hrest) as Hnr.
  rewrite deferred_overhead_eq in Heq, Hnn.
  destruct Hcap as [Hcap0 Hcap1].
  assert (Htake : take n (data buf) = take n (payload buf)).
  { unfold payload. rewrite take_take by lia. reflexivity. }
  cbn [fd deferred_send deferred_bytes set_deferred_send set_deferred_bytes
       writes].
  splits; auto.
  - unfold delivered. cbn [wire]. rewrite flat_map_app. cbn [flat_map fst snd].
    rewrite Z.eqb_refl, app_nil_r, Htake. reflexivity.
  - cbn [queued flat_map]. fold (queued rest). f_equal.
    assert (Hl : len (take n (data buf)) = n).
    { destruct Hb as [[Hb1 Hb2] Hb3]. rewrite len_take; lia. }
    rewrite <- Hp. symmetry.
    match goal with
    | |- drop n (?pre ++ ?l) = _ =>
        pose proof (drop_app_exact pre l) as Hdrop
    end.
    rewrite Hl in Hdrop. exact Hdrop.
  - rewrite Hq. reflexivity.
  - apply size_t_small. unfold SIZE_WIDTH in *.
    rewrite deferred_overhead_eq in Hcap1. unfold sizeof_send_buf in Hcap1.
    lia.
Qed.

Lemma client_write_deferred_sends_from_head_witness :
  output_cap_ok default_cap /\ client_ok default_cap three_byte_client /\
  0 <= fd three_byte_client /\
  deferred_send three_byte_client
  = [mkDeferred 3 (list_ascii_of_string "abc")] /\
  writes two_byte_world = [WBytes 2] /\
  let '(w', c') := client_write_deferred two_byte_world three_byte_client in
  fd c' = 7 /\ writes w' = [] /\
  delivered 7 w' = list_ascii_of_string "ab" /\
  queued (deferred_send c') = list_ascii_of_string "c" /\
  deferred_bytes c' = 9 /\
  deferred_bytes c' = accounted (deferred_send c') /\
  client_ok default_cap c'.
Proof.
  pose proof three_byte_client_ok as Hok.
  assert (Hfd : 0 <= fd three_byte_client) by (vm_compute; discriminate).
  split; [exact default_cap_range|]. split; [exact Hok|].
  split; [exact Hfd|]. split; [reflexivity|]. split; [reflexivity|].
  pose proof (client_write_deferred_sends_from_head default_cap
                two_byte_world three_byte_client default_cap_range Hok Hfd)
    as H.
  destruct (client_write_deferred two_byte_world three_byte_client)
    as [w' c'].
  destruct H as (_ & Hacc & _ & _ & _ & _ & Hok' & Hpart).
  assert (Hn : 0 <= 2 < size (mkDeferred 3 (list_ascii_of_string "abc")))
    by (vm_compute; split; [discriminate | reflexivity]).
  destruct (Hpart (mkDeferred 3 (list_ascii_of_string "abc")) [] 2 []
              eq_refl eq_refl Hn)
    as (E1 & E2 & E3 & E4 & _ & E6).
  splits; auto.
Defined.

(** X4: what the drain does when [write] fails on the first chunk. With
    EAGAIN or EINTR the client and its queue stay as they are, to be
    retried on the next round; with any other error the client is
    expired and its descriptor closed, the queue still in place. *)
Theorem client_write_deferred_on_error
    (w : world) (c : client) (e : errno_t) (script : list write_result) :
  0 <= fd c -> deferred_send c <> [] -> writes w = WErr e :: script ->
  let w1 := mkWorld script (reads w) (wire w) (closed w) e (now w) in
  client_write_deferred w c =
  if errno_eqb e EAGAIN || errno_eqb e EINTR then (w1, c)
  else (xclose w1 (fd c), set_fd c (-1)).
Proof.
  intros Hfd Hq Hw w1. unfold client_write_deferred.
  destruct (deferred_send c) as [|b rest] eqn:Hqc; [contradiction|].
  cbn [client_write_deferred_loop]. unfold sys_write.
  destruct (Z.ltb_spec (fd c) 0); [lia|]. rewrite Hw.
  change (-1 <? 0) with true. cbv iota. rewrite Hqc.
  fold w1. change (errno w1) with e.
  unfold client_set_expired.
  destruct (Z.leb_spec 0 (fd c)); [|lia].
  destruct e; reflexivity.
Qed.

Lemma client_write_deferred_on_error_witness :
  0 <= fd one_chunk_client /\ deferred_send one_chunk_client <> [] /\
  writes broken_pipe_world = WErr EPIPE :: [] /\
  client_write_deferred broken_pipe_world one_chunk_client =
  (xclose (mkWorld [] [] [] [] EPIPE 1000) (fd one_chunk_client),
   set_fd one_chunk_client (-1)).
Proof.
  assert (Hfd : 0 <= fd one_chunk_client) by (vm_compute; discriminate).
  assert (Hq : deferred_send one_chunk_client <> []) by discriminate.
  split; [exact Hfd|]. split; [exact Hq|]. split; [reflexivity|].
  exact (client_write_deferred_on_error broken_pipe_world one_chunk_client
           EPIPE [] Hfd Hq eq_refl).
Defined.

(** X5: against a peer that accepts every write one drain empties the
    deferred queue. On a live client that satisfies the invariants, the
    descriptor has then accepted all the queued bytes, in order, the
    queue is empty, [deferred_bytes] is 0 and the client is still
    live. *)
Theorem client_write_deferred_empties_queue
    (cap : Z) (w : world) (c : client) :
  output_cap_ok cap -> client_ok cap c -> 0 <= fd c -> writes w = [] ->
  let '(w', c') := client_write_deferred w c in
  fd c' = fd c /\ deferred_send c' = [] /\ deferred_bytes c' = 0 /\
  delivered (fd c) w' = delivered (fd c) w ++ queued (deferred_send c).
Proof.
  intros Hcap Hok Hfd Hw.
  pose proof Hok as ((_ & _ & Hch) & _ & Hac).
  destruct Hac as [[Heq Hle]|[? _]]; [|lia].
  pose proof Hcap as [Hcap0 Hcap1].
  pose proof (accounted_nonneg _ Hch) as Hnn.
  unfold client_write_deferred.
  destruct (client_write_deferred_loop (deferred_send c) 0 w c)
    as [[ret w1] c1] eqn:Hloop.
  pose proof Hloop as Hfast.
  apply client_write_deferred_loop_fast in Hfast; auto.
  destruct Hfast as [Hempty _].
  assert (Hq1 : deferred_send c1 = [])
    by (rewrite Hempty; destruct (deferred_send c); reflexivity).
  apply client_write_deferred_loop_spec in Hloop; auto;
    [|rewrite deferred_overhead_eq in Hcap1;
      unfold sizeof_send_buf in Hcap1; lia].
  destruct Hloop as (Hfd1 & _ & _ & _ & _ & _ & Hsent & Hd & _).
  rewrite Hq1. unfold sent in Hsent. rewrite Hq1, Hfd1 in Hsent.
  simpl in Hsent. rewrite app_nil_r in Hsent.
  rewrite Hq1 in Hd. simpl in Hd.
  splits; auto. lia.
Qed.

Lemma client_write_deferred_empties_queue_witness :
  output_cap_ok default_cap /\ client_ok default_cap one_chunk_client /\
  0 <= fd one_chunk_client /\ writes quiet_world = [] /\
  let '(w', c') := client_write_deferred quiet_world one_chunk_client in
  fd c' = fd one_chunk_client /\ deferred_send c' = [] /\
  deferred_bytes c' = 0 /\
  delivered (fd one_chunk_client) w' =
  delivered (fd one_chunk_client) quiet_world
    ++ queued (deferred_send one_chunk_client).
Proof.
  assert (Hok : client_ok default_cap one_chunk_client).
  { unfold client_ok, buf_ok, acct_ok. splits.
    - vm_compute; reflexivity.
    - vm_compute; discriminate.
    - vm_compute; discriminate.
    - apply Forall_cons; [|apply Forall_nil]. unfold chunk_ok.
      vm_compute. repeat split; discriminate.
    - vm_compute; reflexivity.
    - left. split; [vm_compute; reflexivity | vm_compute; discriminate]. }
  split; [exact default_cap_range|]. split; [exact Hok|].
  split; [vm_compute; discriminate|]. split; [reflexivity|].
  apply (client_write_deferred_empties_queue default_cap quiet_world
           one_chunk_client).
  - exact default_cap_range.
  - exact Hok.
  - vm_compute; discriminate.
  - reflexivity.
Defined.

(** X6: with a peer that accepts every write nothing is ever deferred.
    After [client_write] and a flush on a live client with an empty
    queue, all the bytes (what was pending in the send buffer, then
    [buffer]) have been accepted by the client's descriptor, in order;
    the queue is still empty and the send buffer is empty. *)
Theorem fast_peer_gets_everything
    (cap : Z) (w : world) (c : client) (buffer : list ascii) :
  output_cap_ok cap -> client_ok cap c -> 0 <= fd c ->
  deferred_send c = [] -> writes w = [] ->
  let '(w1, c1) := client_write cap w c buffer in
  let '(w2, c2) := client_write_output cap w1 c1 in
  fd c2 = fd c /\ deferred_send c2 = [] /\ send_buf_used c2 = 0 /\
  delivered (fd c) w2 =
  delivered (fd c) w ++ take (send_buf_used c) (send_buf c) ++ buffer.
Proof.
  intros Hcap Hok Hfd Hq Hw.
  destruct (client_write cap w c buffer) as [w1 c1] eqn:H1.
  destruct (client_write_output cap w1 c1) as [w2 c2] eqn:H2.
  pose proof H1 as Hs1. apply (client_write_spec cap Hcap) in Hs1; auto.
  destruct Hs1 as (_ & Hok1 & _ & _ & Hst1).
  assert (Hf1 : writes w1 = [] /\ fd c1 = fd c /\ deferred_send c1 = []
                /\ deferred_bytes c1 = deferred_bytes c).
  { revert H1. unfold client_write, client_is_expired.
    destruct (Z.ltb_spec (fd c) 0); [lia|].
    apply client_write_loop_fast; auto.
    destruct Hok as ((_ & ? & _) & ? & _). lia. }
  destruct Hf1 as (Hw1 & Hfd1 & Hq1 & _).
  pose proof H2 as Hs2. apply (client_flush_spec cap Hcap) in Hs2; auto.
  destruct Hs2 as ((_ & _ & _ & _ & Hst2) & Hz).
  apply client_write_output_fast in H2; auto; try lia;
    [|destruct Hok1 as ((_ & ? & _) & _); lia].
  destruct H2 as (_ & Hfd2 & Hq2 & _).
  assert (Hlive2 : 0 <= fd c2) by lia.
  specialize (Hst2 Hlive2). rewrite Hst1, app_nil_r in Hst2 by lia.
  unfold out_stream in Hst2. rewrite Hq2, Hq, Hz in Hst2 by lia.
  rewrite take_0, Hfd2, Hfd1 in Hst2. simpl in Hst2.
  rewrite app_nil_r in Hst2.
  splits; auto; try lia. rewrite Hst2, <- app_assoc. reflexivity.
Qed.

Lemma fast_peer_gets_everything_witness :
  output_cap_ok default_cap /\ client_ok default_cap fresh_client /\
  0 <= fd fresh_client /\ deferred_send fresh_client = [] /\
  writes quiet_world = [] /\
  let '(w1, c1) :=
    client_write default_cap quiet_world fresh_client block_of_a in
  let '(w2, c2) := client_write_output default_cap w1 c1 in
  fd c2 = fd fresh_client /\ deferred_send c2 = [] /\
  send_buf_used c2 = 0 /\
  delivered (fd fresh_client) w2 =
  delivered (fd fresh_client) quiet_world
    ++ take (send_buf_used fresh_client) (send_buf fresh_client)
    ++ block_of_a.
Proof.
  split; [exact default_cap_range|]. split; [exact fresh_client_ok|].
  split; [vm_compute; discriminate|]. split; [reflexivity|].
  split; [reflexivity|].
  apply (fast_peer_gets_everything default_cap quiet_world fresh_client
           block_of_a).
  - exact default_cap_range.
  - exact fresh_client_ok.
  - vm_compute; discriminate.
  - reflexivity.
  - reflexivity.
Defined.

(** X7: small writes are collected in the send buffer. A
    [client_write] on a live client whose bytes leave room in the send
    buffer makes no system call: the world is unchanged, the bytes are
    appended to the pending part of the send buffer, and the deferred
    queue is untouched. A write that fills the buffer exactly is
    flushed at once: the send buffer is empty afterwards. *)
Theorem small_writes_are_collected
    (cap : Z) (w : world) (c : client) (buffer : list ascii) :
  0 <= fd c -> len (send_buf c) = sizeof_send_buf ->
  0 <= send_buf_used c ->
  let '(w', c') := client_write cap w c buffer in
  (send_buf_used c + len buffer < sizeof_send_buf ->
   w' = w /\ fd c' = fd c /\
   send_buf_used c' = send_buf_used c + len buffer /\
   take (send_buf_used c') (send_buf c')
   = take (send_buf_used c) (send_buf c) ++ buffer /\
   deferred_send c' = deferred_send c /\
   deferred_bytes c' = deferred_bytes c) /\
  (send_buf_used c + len buffer = sizeof_send_buf -> 0 < len buffer ->
   send_buf_used c' = 0).
Proof.
  intros Hfd Hbuf Hused. unfold client_write, client_is_expired.
  destruct (Z.ltb_spec (fd c) 0); [lia|].
  destruct buffer as [|x rest].
  { rewrite client_write_loop_empty. change (len []) with 0. split.
    - intros _. rewrite app_nil_r. splits; auto; lia.
    - lia. }
  set (buffer := x :: rest).
  assert (Hpos : 0 < len buffer) by (unfold len, buffer; simpl; lia).
  rewrite client_write_loop_unfold. cbv zeta. unfold client_is_expired.
  destruct (Z.ltb_spec 0 (len buffer)); [|lia].
  destruct (Z.ltb_spec (fd c) 0); [lia|]. cbn [andb negb].
  assert (Hfit : send_buf_used c + len buffer <= sizeof_send_buf ->
    (if size_t (sizeof_send_buf - send_buf_used c) >? len buffer
     then len buffer else size_t (sizeof_send_buf - send_buf_used c))
    = len buffer).
  { intros Hle. rewrite size_t_small
      by (unfold sizeof_send_buf, SIZE_WIDTH in *; lia).
    destruct (Z.gtb_spec (sizeof_send_buf - send_buf_used c) (len buffer));
      lia. }
  destruct (Z.le_gt_cases (send_buf_used c + len buffer) sizeof_send_buf)
    as [Hle|Hgt].
  2:{ destruct (let '(w0, c0) := _ in client_write_loop cap _ w0 c0 _).
      split; lia. }
  rewrite (Hfit Hle).
  assert (Hnew : size_t (send_buf_used c + len buffer)
                 = send_buf_used c + len buffer).
  { apply size_t_small. unfold sizeof_send_buf, SIZE_WIDTH in *. lia. }
  cbn [send_buf send_buf_used set_send_buf set_send_buf_used].
  rewrite Hnew.
  assert (Hdrop : drop (len buffer) buffer = []).
  { unfold drop, len. rewrite Nat2Z.id. apply skipn_all. }
  rewrite Hdrop, take_all by lia.
  set (c1 := set_send_buf_used
               (set_send_buf c (mem_write (send_buf c) (send_buf_used c)
                                  buffer))
               (send_buf_used c + len buffer)).
  destruct (Z.geb_spec (send_buf_used c + len buffer) sizeof_send_buf)
    as [Hfull|Hfree].
  - pose proof (client_write_output_resets cap w c1 Hfd) as Hz.
    destruct (client_write_output cap w c1) as [w2 c2].
    rewrite client_write_loop_empty. split; [lia|].
    intros _ _. apply Hz. unfold c1. simpl. lia.
  - rewrite client_write_loop_empty. split; [|lia]. intros _.
    unfold c1. simpl. splits; auto. apply take_mem_write. lia.
Qed.

Lemma small_writes_are_collected_witness :
  0 <= fd fresh_client /\ len (send_buf fresh_client) = sizeof_send_buf /\
  0 <= send_buf_used fresh_client /\
  let '(w', c') :=
    client_write default_cap quiet_world fresh_client
      (list_ascii_of_string "volume: 80") in
  (send_buf_used fresh_client + len (list_ascii_of_string "volume: 80")
   < sizeof_send_buf ->
   w' = quiet_world /\ fd c' = fd fresh_client /\
   send_buf_used c'
   = send_buf_used fresh_client + len (list_ascii_of_string "volume: 80") /\
   take (send_buf_used c') (send_buf c')
   = take (send_buf_used fresh_client) (send_buf fresh_client)
       ++ list_ascii_of_string "volume: 80" /\
   deferred_send c' = deferred_send fresh_client /\
   deferred_bytes c' = deferred_bytes fresh_client) /\
  (send_buf_used fresh_client + len (list_ascii_of_string "volume: 80")
   = sizeof_send_buf ->
   0 < len (list_ascii_of_string "volume: 80") ->
   send_buf_used c' = 0).
Proof.
  split; [vm_compute; discriminate|]. split; [vm_compute; reflexivity|].
  split; [vm_compute; discriminate|].
  apply (small_writes_are_collected default_cap quiet_world fresh_client
           (list_ascii_of_string "volume: 80")).
  - vm_compute; discriminate.
  - vm_compute; reflexivity.
  - vm_compute; discriminate.
Defined.

(** ** Idle events *)

(** X8: events accumulate on clients that are not waiting. Two
    broadcasts over a registry in which no client is idle-waiting leave
    the world as it is and have the effect of one broadcast of the
    union of the two event masks: every live client's pending mask is
    or-ed with both, expired clients are skipped. *)
Theorem idle_events_accumulate
    (cap : Z) (idle_names : list string) (w : world)
    (clients : list client) (f1 f2 : Z) :
  Forall (fun c => idle_waiting c = false) clients ->
  let '(w1, cs1) := client_manager_idle_add cap idle_names w clients f1 in
  client_manager_idle_add cap idle_names w1 cs1 f2
  = client_manager_idle_add cap idle_names w clients (Z.lor f1 f2) /\
  client_manager_idle_add cap idle_names w clients (Z.lor f1 f2)
  = (w, map (fun c => if client_is_expired c then c
                      else set_idle_flags c
                             (Z.lor (idle_flags c) (Z.lor f1 f2)))
          clients).
Proof.
  revert w. induction clients as [|c rest IH]; intros w Hall.
  - simpl. auto.
  - inversion Hall as [|c0 r0 Hc Hrest]; subst c0 r0.
    specialize (IH w Hrest).
    cbn [client_manager_idle_add map].
    destruct (client_manager_idle_add cap idle_names w rest f1)
      as [w1 cs1] eqn:H1.
    destruct IH as [IH1 IH2].
    unfold client_is_expired in *.
    destruct (Z.ltb_spec (fd c) 0) as [Hdead|Hlive].
    + rewrite H1. cbn [client_manager_idle_add].
      unfold client_is_expired.
      destruct (Z.ltb_spec (fd c) 0); [|lia].
      rewrite IH1, IH2. auto.
    + cbn [idle_waiting idle_flags idle_subscriptions set_idle_flags].
      rewrite Hc. cbn [andb]. rewrite H1.
      cbn [client_manager_idle_add]. unfold client_is_expired.
      cbn [fd idle_waiting idle_flags idle_subscriptions set_idle_flags].
      destruct (Z.ltb_spec (fd c) 0); [lia|].
      rewrite Hc. cbn [andb]. rewrite IH1, IH2.
      rewrite <- Z.lor_assoc. auto.
Qed.

Lemma idle_events_accumulate_witness :
  Forall (fun c => idle_waiting c = false) [busy_client; expired_client] /\
  let '(w1, cs1) :=
    client_manager_idle_add default_cap mpd_idle_names quiet_world
      [busy_client; expired_client] 8 in
  client_manager_idle_add default_cap mpd_idle_names w1 cs1 16
  = client_manager_idle_add default_cap mpd_idle_names quiet_world
      [busy_client; expired_client] (Z.lor 8 16) /\
  client_manager_idle_add default_cap mpd_idle_names quiet_world
    [busy_client; expired_client] (Z.lor 8 16)
  = (quiet_world,
     map (fun c => if client_is_expired c then c
                   else set_idle_flags c
                          (Z.lor (idle_flags c) (Z.lor 8 16)))
       [busy_client; expired_client]).
Proof.
  assert (H : Forall (fun c => idle_waiting c = false)
                [busy_client; expired_client])
    by (repeat constructor).
  split; [exact H|].
  apply (idle_events_accumulate default_cap mpd_idle_names quiet_world
           [busy_client; expired_client] 8 16 H).
Defined.

(** X9: an event raised while a client is busy is not lost. After a
    broadcast of [flags] to a live client that is not waiting, the next
    [client_idle_wait] with a subscription that meets [flags] answers
    at once: it returns true, clears the pending mask, and emits the
    changed lines of all events pending by then (the earlier ones and
    [flags]) that are subscribed, and OK; the call is exactly
    [emit_notification] of these events. The client's output stream
    grows by this response unless the writes expire the client; they
    expire it only for a cause (its queue goes over the cap, or a write
    fails for good), and not when nothing is queued and the peer
    accepts every write. *)
Theorem busy_client_gets_event_on_next_idle
    (cap : Z) (idle_names : list string) (w : world) (c : client)
    (flags subs : Z) :
  output_cap_ok cap -> client_ok cap c -> 0 <= fd c ->
  idle_waiting c = false -> Z.land flags subs <> 0 ->
  let '(w1, cs1) := client_manager_idle_add cap idle_names w [c] flags in
  let c1 := hd c cs1 in
  let '(r, w2, c2) := client_idle_wait cap idle_names w1 c1 subs in
  w1 = w /\ cs1 = [c1] /\ r = true /\
  idle_flags c2 = 0 /\ idle_waiting c2 = false /\
  (w2, c2) =
    emit_notification cap idle_names (Z.lor (idle_flags c) flags) w
      (set_idle_subscriptions c subs) /\
  (0 <= fd c2 ->
   out_stream w2 c2 =
   out_stream w c
     ++ idle_response idle_names (Z.lor (idle_flags c) flags) subs) /\
  (fd c2 < 0 -> expiry_cause cap w c w2 c2) /\
  (deferred_send c = [] -> writes w = [] ->
   fd c2 = fd c /\
   out_stream w2 c2 =
   out_stream w c
     ++ idle_response idle_names (Z.lor (idle_flags c) flags) subs).
Proof.
  intros Hcap Hok Hfd Hidle Hmeet.
  rewrite client_manager_idle_add_busy by assumption.
  unfold client_is_expired. destruct (Z.ltb_spec (fd c) 0); [lia|].
  cbn [hd].
  set (c1 := set_idle_flags c (Z.lor (idle_flags c) flags)).
  unfold client_idle_wait.
  cbn [idle_flags idle_subscriptions set_idle_subscriptions
       set_idle_waiting].
  change (idle_flags c1) with (Z.lor (idle_flags c) flags).
  pose proof (land_lor_nonzero (idle_flags c) flags subs Hmeet) as Hnz.
  destruct (Z.eqb_spec (Z.land (Z.lor (idle_flags c) flags) subs) 0);
    [contradiction|].
  cbn [negb].
  set (c0 := set_idle_subscriptions (set_idle_waiting c1 true) subs).
  pose proof (client_idle_notify_emits cap idle_names w c0) as He.
  destruct (client_idle_notify cap idle_names w c0) as [w2 c2] eqn:Hn.
  assert (Hok0 : client_ok cap c0) by exact Hok.
  pose proof Hn as Hgen.
  apply (client_idle_notify_spec cap Hcap) in Hgen; [|exact Hok0].
  destruct Hgen as (Hf & Hw & _ & _ & _ & _ & _ & _ & _ & Hst).
  pose proof (client_idle_notify_caused cap Hcap idle_names w c0 w2 c2
                Hok0 Hn) as (_ & Hcause & _).
  splits; auto.
  intros Hq Hwr.
  assert (Hflow : flowing w c0) by (unfold flowing; auto).
  apply (client_idle_notify_flowing cap idle_names w c0 w2 c2 Hcap Hok0
           Hflow) in Hn.
  destruct Hn as (_ & _ & Hfd2 & Hst2). split; [exact Hfd2 | exact Hst2].
Qed.

Lemma busy_client_gets_event_on_next_idle_witness :
  output_cap_ok default_cap /\ client_ok default_cap fresh_client /\
  0 <= fd fresh_client /\ idle_waiting fresh_client = false /\
  Z.land 8 24 <> 0 /\
  deferred_send fresh_client = [] /\ writes quiet_world = [] /\
  let '(w1, cs1) :=
    client_manager_idle_add default_cap mpd_idle_names quiet_world
      [fresh_client] 8 in
  let c1 := hd fresh_client cs1 in
  let '(r, w2, c2) :=
    client_idle_wait default_cap mpd_idle_names w1 c1 24 in
  r = true /\ idle_flags c2 = 0 /\ idle_waiting c2 = false /\
  fd c2 = fd fresh_client /\
  out_stream w2 c2 =
  out_stream quiet_world fresh_client
    ++ idle_response mpd_idle_names (Z.lor (idle_flags fresh_client) 8) 24.
Proof.
  assert (Hfd : 0 <= fd fresh_client) by (vm_compute; discriminate).
  assert (Hmeet : Z.land 8 24 <> 0) by (vm_compute; discriminate).
  split; [exact default_cap_range|]. split; [exact fresh_client_ok|].
  split; [exact Hfd|]. split; [reflexivity|]. split; [exact Hmeet|].
  split; [reflexivity|]. split; [reflexivity|].
  pose proof (busy_client_gets_event_on_next_idle default_cap
                mpd_idle_names quiet_world fresh_client 8 24
                default_cap_range fresh_client_ok Hfd eq_refl Hmeet) as H.
  destruct (client_manager_idle_add default_cap mpd_idle_names quiet_world
              [fresh_client] 8) as [w1 cs1].
  cbv zeta in H |- *.
  destruct (client_idle_wait default_cap mpd_idle_names w1
              (hd fresh_client cs1) 24) as [[r w2] c2].
  destruct H as (_ & _ & Hr & Hf & Hw & _ & _ & _ & Hflow).
  destruct (Hflow eq_refl eq_refl) as [Hfd2 Hst].
  splits; auto.
Defined.

(** X10: a parked client is notified once per idle command. When a
    broadcast meets the subscription of a live idle-waiting client the
    client leaves idle mode with an empty pending mask, so the next
    broadcast sends it nothing: it leaves the world as it is and only
    records its events as pending (or skips the client if the
    notification expired it). *)
Theorem parked_client_is_notified_once
    (cap : Z) (idle_names : list string) (w : world) (c : client)
    (f1 f2 : Z) :
  0 <= fd c -> idle_waiting c = true ->
  Z.land (Z.lor (idle_flags c) f1) (idle_subscriptions c) <> 0 ->
  let '(w1, cs1) := client_manager_idle_add cap idle_names w [c] f1 in
  let c1 := hd c cs1 in
  cs1 = [c1] /\ idle_waiting c1 = false /\ idle_flags c1 = 0 /\
  client_manager_idle_add cap idle_names w1 cs1 f2 =
  (w1, [if client_is_expired c1 then c1 else set_idle_flags c1 f2]).
Proof.
  intros Hfd Hidle Hmeet. cbn [client_manager_idle_add].
  unfold client_is_expired at 1. destruct (Z.ltb_spec (fd c) 0); [lia|].
  cbn [idle_waiting idle_flags idle_subscriptions set_idle_flags].
  rewrite Hidle.
  destruct (Z.eqb_spec (Z.land (Z.lor (idle_flags c) f1)
                          (idle_subscriptions c)) 0); [contradiction|].
  cbn [andb negb].
  destruct (client_idle_notify cap idle_names w
              (set_idle_flags c (Z.lor (idle_flags c) f1)))
    as [w1 c1] eqn:Hn.
  destruct (client_write_output cap w1 c1) as [w2 c2] eqn:Ho.
  cbn [hd].
  pose proof (client_idle_notify_fields _ _ _ _ _ _ Hn) as (Hf & Hw & _).
  pose proof (client_write_output_frame _ _ _ _ _ Ho)
    as (_ & _ & _ & _ & _ & _ & _ & _ & _ & Hw2 & Hf2 & _).
  assert (Hw' : idle_waiting c2 = false) by congruence.
  assert (Hf' : idle_flags c2 = 0) by congruence.
  splits; auto.
  rewrite client_manager_idle_add_busy by assumption.
  rewrite Hf'. reflexivity.
Qed.

Lemma parked_client_is_notified_once_witness :
  0 <= fd parked_client /\ idle_waiting parked_client = true /\
  Z.land (Z.lor (idle_flags parked_client) 8)
    (idle_subscriptions parked_client) <> 0 /\
  let '(w1, cs1) :=
    client_manager_idle_add default_cap mpd_idle_names quiet_world
      [parked_client] 8 in
  let c1 := hd parked_client cs1 in
  cs1 = [c1] /\ idle_waiting c1 = false /\ idle_flags c1 = 0 /\
  client_manager_idle_add default_cap mpd_idle_names w1 cs1 16 =
  (w1, [if client_is_expired c1 then c1 else set_idle_flags c1 16]).
Proof.
  split; [vm_compute; discriminate|]. split; [reflexivity|].
  split; [vm_compute; discriminate|].
  apply (parked_client_is_notified_once default_cap mpd_idle_names
           quiet_world parked_client 8 16).
  - vm_compute; discriminate.
  - reflexivity.
  - vm_compute; discriminate.
Defined.

(** ** Lines and reads *)

(** X11: the response to a command outside list and idle mode. If the
    command processor returns CLOSE or leaves the client expired, the
    line returns CLOSE and adds nothing. Otherwise the line returns the
    processor's code and the invariants hold; unless the flush expires
    the client, the output is what the processor left followed by the
    line OK exactly when the code is 0, and it has been flushed: the
    send buffer is empty. The flush expires the client only for a cause
    (its queue goes over the cap, or a write fails for good). When the
    processor leaves nothing queued and the peer accepts every write,
    the flush does not expire the client and the descriptor has
    accepted all of this output. *)
Theorem command_response_is_flushed
    (cap list_cap : Z)
    (command_process : world -> client -> string -> Z * world * client)
    (command_process_list :
       world -> client -> Z -> list string -> Z * world * client)
    (w : world) (c : client) (line : string) :
  output_cap_ok cap ->
  idle_waiting c = false -> cmd_list_OK c < 0 ->
  line <> "noidle"%string -> line <> CLIENT_LIST_MODE_BEGIN ->
  line <> CLIENT_LIST_OK_MODE_BEGIN ->
  client_ok cap (snd (command_process w c line)) ->
  let '(ret, w1, c1) := command_process w c line in
  let '(r, w', c') :=
    client_process_line cap list_cap command_process command_process_list
      w c line in
  if (ret =? COMMAND_RETURN_CLOSE) || client_is_expired c1
  then (r, w', c') = (COMMAND_RETURN_CLOSE, w1, c1)
  else
    r = ret /\ client_ok cap c' /\ same_session c1 c' /\
    (0 <= fd c' ->
     send_buf_used c' = 0 /\
     out_stream w' c' =
     out_stream w1 c1
       ++ (if ret =? 0 then list_ascii_of_string ("OK" ++ newline_string)
           else [])) /\
    (fd c' < 0 -> expiry_cause cap w1 c1 w' c') /\
    (deferred_send c1 = [] -> writes w1 = [] ->
     fd c' = fd c1 /\ deferred_send c' = [] /\ send_buf_used c' = 0 /\
     delivered (fd c1) w' =
     out_stream w1 c1
       ++ (if ret =? 0 then list_ascii_of_string ("OK" ++ newline_string)
           else [])).
Proof.
  intros Hcap Hidle Hmode Hn Hb Hob Hok1. unfold client_process_line.
  destruct (String.eqb_spec line "noidle"); [contradiction|].
  rewrite Hidle. destruct (Z.geb_spec (cmd_list_OK c) 0); [lia|].
  destruct (String.eqb_spec line CLIENT_LIST_MODE_BEGIN); [contradiction|].
  destruct (String.eqb_spec line CLIENT_LIST_OK_MODE_BEGIN);
    [contradiction|].
  destruct (command_process w c line) as [[ret w1] c1]. simpl in Hok1.
  destruct ((ret =? COMMAND_RETURN_CLOSE) || client_is_expired c1) eqn:Hend;
    [reflexivity|].
  apply orb_false_iff in Hend. destruct Hend as [_ Hlive].
  unfold client_is_expired in Hlive. apply Z.ltb_ge in Hlive.
  destruct (if ret =? 0 then command_success cap w1 c1 else (w1, c1))
    as [w2 c2] eqn:H1.
  destruct (client_write_output cap w2 c2) as [w3 c3] eqn:H2.
  destruct (command_end_spec cap Hcap ret w1 c1 w2 c2 w3 c3 Hok1 H1 H2)
    as [(Hss & Hok3 & _ & _ & Hst) Hz].
  pose proof (command_end_caused cap ret w1 c1 w2 c2 w3 c3 Hcap Hok1 H1 H2)
    as (_ & Hcause & _).
  splits; auto.
  intros Hq Hwr.
  assert (Hflow : flowing w1 c1) by (unfold flowing; auto).
  destruct (command_end_flowing cap ret w1 c1 w2 c2 w3 c3 Hcap Hok1 Hflow
              H1 H2) as (E1 & E2 & _ & E4 & E5).
  splits; auto.
Qed.

Lemma command_response_is_flushed_witness :
  output_cap_ok default_cap /\
  idle_waiting fresh_client = false /\ cmd_list_OK fresh_client < 0 /\
  "ping"%string <> "noidle"%string /\
  "ping"%string <> CLIENT_LIST_MODE_BEGIN /\
  "ping"%string <> CLIENT_LIST_OK_MODE_BEGIN /\
  client_ok default_cap
    (snd (accept_command quiet_world fresh_client "ping")) /\
  deferred_send fresh_client = [] /\ writes quiet_world = [] /\
  let '(r, w', c') :=
    client_process_line default_cap default_list_cap accept_command
      accept_list quiet_world fresh_client "ping" in
  r = 0 /\ client_ok default_cap c' /\ fd c' = fd fresh_client /\
  deferred_send c' = [] /\ send_buf_used c' = 0 /\
  delivered (fd fresh_client) w' =
  out_stream quiet_world fresh_client
    ++ list_ascii_of_string ("OK" ++ newline_string).
Proof.
  assert (Hmode : cmd_list_OK fresh_client < 0) by (vm_compute; reflexivity).
  assert (H1 : "ping"%string <> "noidle"%string) by discriminate.
  assert (H2 : "ping"%string <> CLIENT_LIST_MODE_BEGIN) by discriminate.
  assert (H3 : "ping"%string <> CLIENT_LIST_OK_MODE_BEGIN) by discriminate.
  split; [exact default_cap_range|]. split; [reflexivity|].
  split; [exact Hmode|]. split; [exact H1|]. split; [exact H2|].
  split; [exact H3|]. split; [exact fresh_client_ok|].
  split; [reflexivity|]. split; [reflexivity|].
  pose proof (command_response_is_flushed default_cap default_list_cap
                accept_command accept_list quiet_world fresh_client "ping"
                default_cap_range eq_refl Hmode H1 H2 H3 fresh_client_ok)
    as H.
  unfold accept_command at 1 in H.
  change ((0 =? COMMAND_RETURN_CLOSE) || client_is_expired fresh_client)
    with false in H.
  change (0 =? 0) with true in H. cbv iota in H.
  destruct (client_process_line default_cap default_list_cap accept_command
              accept_list quiet_world fresh_client "ping") as [[r w'] c'].
  destruct H as (Hr & Hok & _ & _ & _ & Hflow).
  destruct (Hflow eq_refl eq_refl) as (E1 & E2 & E3 & E4).
  splits; auto.
Defined.

(** X12: how a read is cut into lines. Let the unconsumed part of the
    input buffer followed by the bytes of one [read] be a sequence of
    lines, each ended by a newline or by a carriage return and a
    newline, followed by an unfinished tail, and let the buffer not
    fill up. Then [client_read] hands the line processor exactly the
    texts of these lines, in order and without their terminators,
    stopping at the first line that returns KILL or CLOSE or expires
    the client: the code it returns, the world and the client are
    those of [client_process_lines] on the texts, the client up to its
    input buffer. When no line stops the read it returns 0 whatever
    the lines returned, the lines are marked consumed, and the tail
    stays in the buffer for the next read. The command processors are
    assumed not to look at the input buffer. *)
Theorem client_read_dispatches_lines
    (cap list_cap : Z)
    (command_process : world -> client -> string -> Z * world * client)
    (command_process_list :
       world -> client -> Z -> list string -> Z * world * client)
    (w : world) (c : client) (bytes : list ascii) (rest : list read_result)
    (lines : list (list ascii * bool)) (tail : list ascii) :
  command_blind command_process ->
  command_list_blind command_process_list ->
  0 <= fd c -> len (buffer c) = sizeof_buffer ->
  0 <= bufferPos c <= bufferLength c ->
  reads w = RBytes bytes :: rest -> 0 < len bytes ->
  bufferLength c + len bytes < sizeof_buffer ->
  unconsumed c ++ bytes = List.concat (map wire_line lines) ++ tail ->
  Forall plain_line lines -> ~ In newline_char tail ->
  let consumed := len (List.concat (map wire_line lines)) in
  exists b',
    client_read cap list_cap command_process command_process_list w c =
    (let '(r, w', c') :=
       client_process_lines cap list_cap command_process
         command_process_list 0 (after_read w rest) c
         (map (fun ln => string_of_list_ascii (fst ln)) lines) in
     if (r =? COMMAND_RETURN_KILL) || (r =? COMMAND_RETURN_CLOSE)
     then (r, w',
           with_input c' b' (bufferLength c + len bytes) (bufferPos c))
     else (0, w',
           with_input c' b' (bufferLength c + len bytes)
             (bufferPos c + consumed))) /\
    len b' = sizeof_buffer /\
    take (len tail) (drop (bufferPos c + consumed) b') = tail.
Proof.
  intros Hcp Hcpl Hfd Hbuf Hpos Hr Hn Hroom Hsplit Hplain Htail consumed.
  set (L := bufferLength c) in *. set (P := bufferPos c) in *.
  set (W := List.concat (map wire_line lines)) in *.
  set (pre := take P (buffer c)).
  set (junk := drop (L + len bytes) (buffer c)).
  assert (Hpre : len pre = P) by (apply len_take; lia).
  assert (Hun : len (unconsumed c) = L - P).
  { unfold unconsumed. fold L P. rewrite len_take; [reflexivity|].
    rewrite len_drop; lia. }
  assert (Hsum : len W + len tail = L - P + len bytes).
  { rewrite <- Hun, <- !len_app. now rewrite Hsplit. }
  assert (Hbi : mem_write (buffer c) L bytes = pre ++ W ++ tail ++ junk).
  { rewrite mem_write_split by lia. fold junk.
    rewrite (take_split P L) by lia. fold pre.
    change (take (L - P) (drop P (buffer c))) with (unconsumed c).
    rewrite <- app_assoc, (app_assoc (unconsumed c)), Hsplit.
    now rewrite <- !app_assoc. }
  pose proof (lines_length_le lines) as Hlines. fold W in Hlines.
  pose proof (len_nonneg tail) as Ht0.
  destruct (client_input_loop_lines cap list_cap command_process
              command_process_list Hcp Hcpl lines
              (S (Z.to_nat (L + len bytes - P))) (after_read w rest) c 0
              pre tail junk (L + len bytes) P Hplain ltac:(lia) Htail
              eq_refl) as (b' & Hloop & Hlen & Hdrop).
  fold W in Hloop, Hlen, Hdrop. rewrite Hpre in Hloop, Hdrop.
  rewrite <- Hbi in Hloop, Hlen.
  replace (P + len W + len tail) with (L + len bytes) in Hloop by lia.
  exists b'. split; [|split].
  - unfold client_read. fold L.
    assert (Hcount : size_t (sizeof_buffer - L) = sizeof_buffer - L).
    { apply size_t_small. unfold sizeof_buffer, SIZE_WIDTH in *. lia. }
    rewrite Hcount.
    rewrite (sys_read_all w (fd c) bytes rest) by (auto; lia).
    fold (after_read w rest).
    destruct (Z.gtb_spec (len bytes) 0); [|lia].
    unfold client_input_received.
    cbn [bufferPos bufferLength buffer set_buffer set_bufferLength].
    fold L P.
    assert (Hadd : size_t (L + len bytes) = L + len bytes).
    { apply size_t_small. unfold sizeof_buffer, SIZE_WIDTH in *. lia. }
    rewrite Hadd.
    change (set_bufferLength (set_buffer c (mem_write (buffer c) L bytes))
              (L + len bytes))
      with (with_input c (mem_write (buffer c) L bytes) (L + len bytes) P).
    rewrite Hloop.
    destruct (client_process_lines cap list_cap command_process
                command_process_list 0 (after_read w rest) c
                (map (fun ln => string_of_list_ascii (fst ln)) lines))
      as [[r w2] c2].
    destruct ((r =? COMMAND_RETURN_KILL) || (r =? COMMAND_RETURN_CLOSE));
      [reflexivity|].
    cbn [bufferLength bufferPos with_input set_bufferPos set_bufferLength
         set_buffer].
    destruct (Z.eqb_spec (L + len bytes) sizeof_buffer); [lia|].
    reflexivity.
  - rewrite Hlen. rewrite len_mem_write; lia.
  - unfold consumed. rewrite Hdrop. now apply take_app_exact.
Qed.
Lemma client_read_dispatches_lines_witness :
  command_blind accept_command /\ command_list_blind accept_list /\
  0 <= fd fresh_client /\ len (buffer fresh_client) = sizeof_buffer /\
  0 <= bufferPos fresh_client <= bufferLength fresh_client /\
  reads ping_and_more_world = RBytes ping_and_more :: [] /\
  0 < len ping_and_more /\
  bufferLength fresh_client + len ping_and_more < sizeof_buffer /\
  unconsumed fresh_client ++ ping_and_more
  = List.concat (map wire_line [(list_ascii_of_string "ping", true)])
      ++ list_ascii_of_string "sta" /\
  Forall plain_line [(list_ascii_of_string "ping", true)] /\
  ~ In newline_char (list_ascii_of_string "sta") /\
  exists b',
    client_read default_cap default_list_cap accept_command accept_list
      ping_and_more_world fresh_client =
    (let '(r, w', c') :=
       client_process_lines default_cap default_list_cap accept_command
         accept_list 0 (after_read ping_and_more_world []) fresh_client
         (map (fun ln => string_of_list_ascii (fst ln))
            [(list_ascii_of_string "ping", true)]) in
     if (r =? COMMAND_RETURN_KILL) || (r =? COMMAND_RETURN_CLOSE)
     then (r, w',
           with_input c' b'
             (bufferLength fresh_client + len ping_and_more)
             (bufferPos fresh_client))
     else (0, w',
           with_input c' b'
             (bufferLength fresh_client + len ping_and_more)
             (bufferPos fresh_client
              + len (List.concat
                       (map wire_line
                          [(list_ascii_of_string "ping", true)]))))) /\
    len b' = sizeof_buffer /\
    take (len (list_ascii_of_string "sta"))
      (drop (bufferPos fresh_client
             + len (List.concat
                      (map wire_line [(list_ascii_of_string "ping", true)])))
         b')
    = list_ascii_of_string "sta".
Proof.
  assert (Hplain : Forall plain_line [(list_ascii_of_string "ping", true)]).
  { apply Forall_cons; [|apply Forall_nil]. unfold plain_line. simpl.
    repeat split; try discriminate; intuition discriminate. }
  assert (Htail : ~ In newline_char (list_ascii_of_string "sta"))
    by (simpl; intuition discriminate).
  assert (Hpos : 0 <= bufferPos fresh_client <= bufferLength fresh_client)
    by (vm_compute; split; discriminate).
  split; [exact accept_command_blind|]. split; [exact accept_list_blind|].
  split; [vm_compute; discriminate|]. split; [vm_compute; reflexivity|].
  split; [exact Hpos|]. split; [reflexivity|].
  split; [vm_compute; reflexivity|]. split; [vm_compute; reflexivity|].
  split; [vm_compute; reflexivity|]. split; [exact Hplain|].
  split; [exact Htail|].
  apply (client_read_dispatches_lines default_cap default_list_cap
           accept_command accept_list ping_and_more_world fresh_client
           ping_and_more [] [(list_ascii_of_string "ping", true)]
           (list_ascii_of_string "sta")).
  - exact accept_command_blind.
  - exact accept_list_blind.
  - vm_compute; discriminate.
  - vm_compute; reflexivity.
  - exact Hpos.
  - reflexivity.
  - vm_compute; reflexivity.
  - vm_compute; reflexivity.
  - vm_compute; reflexivity.
  - exact Hplain.
  - exact Htail.
Defined.

(** A command that arrives in two segments is answered once, after the
    second. *)
Example client_reads_split_ping :
  let '(ret1, w1, c1) :=
    client_reads default_cap default_list_cap accept_command accept_list
      1 split_ping_world fresh_client in
  let '(ret2, w2, c2) :=
    client_reads default_cap default_list_cap accept_command accept_list
      1 w1 c1 in
  ret1 = 0 /\ delivered 7 w1 = [] /\ bufferPos c1 = 0 /\
  bufferLength c1 = 2 /\
  ret2 = 0 /\
  string_of_list_ascii (delivered 7 w2) = ("OK" ++ newline_string)%string /\
  bufferPos c2 = 5 /\ bufferLength c2 = 5.
Proof. vm_compute. repeat split; reflexivity. Qed.

(** X13: the read path keeps the invariants that [client_read] and
    [client_write] assert. With command processors that reach the client
    through client.h only (they keep the output invariants and leave the
    input buffer alone), one [client_read] on a live client returns 0,
    KILL or CLOSE and nothing else, whatever codes the commands
    returned; the output invariants hold afterwards; and when it returns
    0 the client is still live and the input buffer is in order with
    room for the next read: [bufferPos <= bufferLength < 4096]. *)
Theorem client_read_keeps_invariants
    (cap list_cap : Z)
    (command_process : world -> client -> string -> Z * world * client)
    (command_process_list :
       world -> client -> Z -> list string -> Z * world * client)
    (w : world) (c : client) :
  output_cap_ok cap ->
  command_respects cap command_process ->
  command_list_respects cap command_process_list ->
  client_ok cap c -> input_ok c -> 0 <= fd c ->
  let '(ret, w', c') :=
    client_read cap list_cap command_process command_process_list w c in
  (ret = 0 \/ ret = COMMAND_RETURN_KILL \/ ret = COMMAND_RETURN_CLOSE) /\
  client_ok cap c' /\ len (buffer c') = sizeof_buffer /\
  (ret = 0 -> input_ok c' /\ 0 <= fd c').
Proof.
  intros Hcap Hcp Hcpl Hok Hin Hfd.
  destruct (client_read cap list_cap command_process command_process_list
              w c) as [[ret w'] c'] eqn:H.
  revert H. now apply client_read_inv.
Qed.

Lemma client_read_keeps_invariants_witness :
  output_cap_ok default_cap /\
  command_respects default_cap accept_command /\
  command_list_respects default_cap accept_list /\
  client_ok default_cap fresh_client /\ input_ok fresh_client /\
  0 <= fd fresh_client /\
  let '(ret, w', c') :=
    client_read default_cap default_list_cap accept_command accept_list
      ping_world fresh_client in
  (ret = 0 \/ ret = COMMAND_RETURN_KILL \/ ret = COMMAND_RETURN_CLOSE) /\
  client_ok default_cap c' /\ len (buffer c') = sizeof_buffer /\
  (ret = 0 -> input_ok c' /\ 0 <= fd c').
Proof.
  split; [exact default_cap_range|].
  split; [apply accept_command_respects|].
  split; [apply accept_list_respects|].
  split; [exact fresh_client_ok|]. split; [exact fresh_client_input_ok|].
  split; [vm_compute; discriminate|].
  apply (client_read_keeps_invariants default_cap default_list_cap
           accept_command accept_list ping_world fresh_client).
  - exact default_cap_range.
  - apply accept_command_respects.
  - apply accept_list_respects.
  - exact fresh_client_ok.
  - exact fresh_client_input_ok.
  - vm_compute; discriminate.
Defined.

(** The command is answered and the buffer position moves past it. *)
Example client_read_ping :
  let '(ret, w', c') :=
    client_read default_cap default_list_cap accept_command accept_list
      ping_world fresh_client in
  ret = 0 /\ bufferPos c' = 5 /\ bufferLength c' = 5 /\
  string_of_list_ascii (delivered 7 w')
  = ("OK" ++ newline_string)%string.
Proof. vm_compute. repeat split; reflexivity. Qed.

(** X14: what [client_read] does when no data arrives. At end of file
    (the peer closed the connection) it returns CLOSE; when [read]
    fails it returns 0 if the error is EINTR, so that the read is tried
    again after the next [select], and CLOSE for every other error. In
    all these cases the client is left as it was and no line is
    handed to the line processor. *)
Theorem client_read_without_data
    (cap list_cap : Z)
    (command_process : world -> client -> string -> Z * world * client)
    (command_process_list :
       world -> client -> Z -> list string -> Z * world * client)
    (w : world) (c : client) :
  0 <= fd c ->
  let read :=
    client_read cap list_cap command_process command_process_list w c in
  (reads w = [] -> read = (COMMAND_RETURN_CLOSE, w, c)) /\
  (forall rest, reads w = RBytes [] :: rest ->
     read = (COMMAND_RETURN_CLOSE, after_read w rest, c)) /\
  (forall e rest, reads w = RErr e :: rest ->
     read = (if errno_eqb e EINTR then 0 else COMMAND_RETURN_CLOSE,
             mkWorld (writes w) rest (wire w) (closed w) e (now w), c)).
Proof.
  intros Hfd read. unfold read, client_read, sys_read.
  destruct (Z.ltb_spec (fd c) 0); [lia|].
  split; [|split].
  - intros Hr. rewrite Hr, mem_write_nil, set_buffer_same. reflexivity.
  - intros rest Hr. rewrite Hr. unfold take, drop.
    rewrite firstn_nil, skipn_nil, mem_write_nil, set_buffer_same.
    reflexivity.
  - intros e rest Hr. rewrite Hr, mem_write_nil, set_buffer_same.
    change (-1 >? 0) with false. change (-1 <? 0) with true.
    cbn [andb errno]. destruct (errno_eqb e EINTR); reflexivity.
Qed.

Lemma client_read_without_data_witness :
  0 <= fd fresh_client /\
  (reads quiet_world = [] ->
   client_read default_cap default_list_cap accept_command accept_list
     quiet_world fresh_client
   = (COMMAND_RETURN_CLOSE, quiet_world, fresh_client)).
Proof.
  assert (H : 0 <= fd fresh_client) by (vm_compute; discriminate).
  split; [exact H|].
  exact (proj1 (client_read_without_data default_cap default_list_cap
                  accept_command accept_list quiet_world fresh_client H)).
Defined.

(** ** The registry of clients *)

(** X15: [client_manager_expire] keeps exactly the clients that are not
    expired and are either idle-waiting or were active within the
    timeout, in their order; so an idle-waiting client never times out,
    and no expired client is left in the registry. It closes the
    descriptors of the live clients it removes, in order, and sends
    nothing. *)
Theorem client_manager_expire_keeps_active (w : world) (m : manager) :
  let '(w', m') := client_manager_expire w m in
  clients m' = filter (stays (client_timeout m) (now w)) (clients m) /\
  closed w' =
    closed w
      ++ descriptors
           (filter (fun c => negb (stays (client_timeout m) (now w) c))
              (clients m)) /\
  wire w' = wire w /\ now w' = now w.
Proof.
  unfold client_manager_expire.
  destruct (client_manager_expire_loop (client_timeout m) w (num_clients m)
              (clients m)) as [[w' n'] cs'] eqn:H.
  apply client_manager_expire_loop_spec in H.
  destruct H as (Hcs & Hcl & Hwi & Hnow & _). simpl. auto.
Qed.

(** Two minutes on, the parked client is still there, the busy one has
    timed out and its descriptor 8 is closed, the expired one is gone. *)
Example expire_sample_registry :
  let '(w', m') := client_manager_expire later_world sample_manager in
  clients m' = [parked_client] /\ num_clients m' = 1 /\ closed w' = [8].
Proof. vm_compute. repeat split; reflexivity. Qed.

(** X16: expiring twice is expiring once. A second
    [client_manager_expire] at the same time changes neither the
    registry nor the world. *)
Theorem client_manager_expire_twice (w : world) (m : manager) :
  let '(w1, m1) := client_manager_expire w m in
  client_manager_expire w1 m1 = (w1, m1).
Proof.
  unfold client_manager_expire.
  destruct (client_manager_expire_loop (client_timeout m) w (num_clients m)
              (clients m)) as [[w1 n1] cs1] eqn:H.
  apply client_manager_expire_loop_spec in H.
  destruct H as (Hcs & _ & _ & Hnow & _).
  cbn [clients num_clients client_timeout set_clients set_num_clients].
  rewrite client_manager_expire_loop_fixed; [reflexivity|].
  rewrite Hcs, Hnow. apply Forall_forall. intros c Hin.
  apply filter_In in Hin. apply Hin.
Qed.

(** X17: [client_manager_deinit] closes the descriptor of every client
    that is not expired yet, in the order of the registry, sends
    nothing, and leaves an empty registry with a connection limit of 0,
    under which [client_new] turns every connection away. *)
Theorem client_manager_deinit_closes_all (w : world) (m : manager) :
  let '(w', m') := client_manager_deinit w m in
  clients m' = [] /\ num_clients m' = 0 /\ client_max_connections m' = 0 /\
  closed w' = closed w ++ descriptors (clients m) /\ wire w' = wire w /\
  forall PROTOCOL_VERSION perms w2 sock uid,
    client_new PROTOCOL_VERSION perms w2 m' sock uid = (xclose w2 sock, m').
Proof.
  unfold client_manager_deinit, client_close_all.
  destruct (client_close_all_loop w (num_clients m) (clients m))
    as [w' n'] eqn:H.
  apply client_close_all_loop_spec in H.
  destruct H as (Hcl & Hwi & _). simpl. splits; auto.
Qed.

(** X18: [client_new] accepts a connection only below the limit. With
    [num_clients >= client_max_connections] the socket is closed at
    once, nothing is sent and the registry is unchanged. Otherwise
    nothing is closed, the greeting ["OK MPD <version>"] and a newline
    is what the socket receives, and the new client is the first of the
    registry: live on the socket, with the given uid, the default
    permissions and the next client number, in the normal state with
    empty buffers. *)
Theorem client_new_accepts_below_limit
    (PROTOCOL_VERSION : string) (perms : Z) (w : world) (m : manager)
    (sock uid0 : Z) :
  let '(w', m') := client_new PROTOCOL_VERSION perms w m sock uid0 in
  if num_clients m >=? client_max_connections m
  then m' = m /\ closed w' = closed w ++ [sock] /\ wire w' = wire w
  else
    closed w' = closed w /\
    wire w' =
      wire w
        ++ [(sock, list_ascii_of_string
                     ("OK MPD " ++ PROTOCOL_VERSION ++ newline_string))] /\
    num_clients m' = uint (num_clients m + 1) /\
    next_client_num m' = uint (next_client_num m + 1) /\
    exists c,
      clients m' = c :: clients m /\
      fd c = sock /\ client_get_uid c = uid0 /\
      client_get_permission c = perms /\ num c = next_client_num m /\
      lastTime c = now w /\ client_state c = Normal /\
      cmd_list c = [] /\ cmd_list_size c = 0 /\
      bufferLength c = 0 /\ bufferPos c = 0 /\
      deferred_send c = [] /\ deferred_bytes c = 0 /\ send_buf_used c = 0.
Proof.
  unfold client_new.
  destruct (num_clients m >=? client_max_connections m).
  - simpl. auto.
  - simpl. splits; auto. eexists. split; [reflexivity|].
    simpl. splits; reflexivity.
Qed.

(** The eleventh connection under the default limit of ten. *)
Example client_new_at_limit :
  let m := set_num_clients sample_manager 10 in
  client_new "0.14.0" 31 quiet_world m 9 0 = (xclose quiet_world 9, m).
Proof. reflexivity. Qed.

(** X19: the calls of the main loop keep the registry in order. If the
    counter [num_clients] is the length of the list and within the
    connection limit, and every client satisfies the invariants of the
    output path and of the input buffer, the same holds after
    [client_new], after the loop of [client_manager_io] over the
    clients, after [client_manager_expire] and after
    [client_manager_idle_add]; in particular the registry never holds
    more than [client_max_connections] clients. The I/O loop returns 0
    or KILL and nothing else; the invariants are claimed when it
    returns 0, whatever [FD_ISSET] yields on the descriptor of an
    expired client. The command processors are assumed to reach a
    client through client.h only. *)
Theorem manager_invariants_are_kept
    (invalid : Z -> fd_set -> bool)
    (PROTOCOL_VERSION : string) (perms : Z) (idle_names : list string)
    (command_process : world -> client -> string -> Z * world * client)
    (command_process_list :
       world -> client -> Z -> list string -> Z * world * client)
    (op : manager_op) (w : world) (m : manager) :
  output_cap_ok (client_max_output_buffer_size m) ->
  command_respects (client_max_output_buffer_size m) command_process ->
  command_list_respects (client_max_output_buffer_size m)
    command_process_list ->
  manager_ok m ->
  let '(ret, w', m') :=
    run_manager_op invalid PROTOCOL_VERSION perms idle_names
      command_process command_process_list op w m in
  (ret = 0 \/ ret = COMMAND_RETURN_KILL) /\
  client_max_connections m' = client_max_connections m /\
  client_max_output_buffer_size m' = client_max_output_buffer_size m /\
  (ret = 0 ->
   manager_ok m' /\
   Z.of_nat (List.length (clients m')) <= client_max_connections m).
Proof.
  intros Hcap Hcp Hcpl (Hnum & Hmax & Hall).
  pose proof Hcap as [Hcap0 _].
  assert (Hfin :
    forall m', manager_ok m' ->
      client_max_connections m' = client_max_connections m ->
      manager_ok m' /\
      Z.of_nat (List.length (clients m')) <= client_max_connections m).
  { intros m' Hok' Hsame. split; [exact Hok'|].
    destruct Hok' as (Hn' & Hm' & _). lia. }
  destruct op as [sock uid0|rfds wfds| |flags]; cbn [run_manager_op].
  - (* client_new *)
    unfold client_new.
    destruct (Z.geb_spec (num_clients m) (client_max_connections m))
      as [Hfull|Hroom].
    + splits; auto. intros _. apply Hfin; [|reflexivity].
      unfold manager_ok. auto.
    + pose proof (client_init_ok (client_max_output_buffer_size m)
                    PROTOCOL_VERSION perms w sock (next_client_num m) Hcap0)
        as Hok.
      pose proof (client_init_input_ok PROTOCOL_VERSION perms w sock
                    (next_client_num m)) as Hin.
      cbn [num_clients next_client_num set_num_clients].
      destruct (client_init PROTOCOL_VERSION perms w client_zero sock
                  (next_client_num m)) as [w1 c1].
      cbn [snd] in Hok, Hin.
      splits; auto. intros _. apply Hfin; [|reflexivity].
      unfold manager_ok.
      cbn [clients num_clients client_max_connections
           client_max_output_buffer_size set_clients set_next_client_num
           set_num_clients List.length].
      rewrite uint_small by lia. splits; try lia.
      apply Forall_cons; [|exact Hall]. split; [exact Hok | exact Hin].
  - (* the loop of client_manager_io *)
    destruct (client_manager_io_loop invalid
                (client_max_output_buffer_size m)
                (client_max_command_list_size m) command_process
                command_process_list rfds wfds w (num_clients m)
                (clients m)) as [[[ret w'] n'] cs'] eqn:Hloop.
    apply (client_manager_io_loop_inv (client_max_output_buffer_size m)
             (client_max_command_list_size m) command_process
             command_process_list Hcap Hcp Hcpl invalid) in Hloop;
      [|exact Hall|lia].
    destruct Hloop as [Hret Hz]. splits; auto. intros H0.
    destruct (Hz H0) as (Hall' & Hlen & Hcnt).
    apply Hfin; [|reflexivity]. unfold manager_ok.
    cbn [clients num_clients client_max_connections
         client_max_output_buffer_size set_clients set_num_clients].
    splits; auto; lia.
  - (* client_manager_expire *)
    unfold client_manager_expire.
    destruct (client_manager_expire_loop (client_timeout m) w
                (num_clients m) (clients m)) as [[w' n'] cs'] eqn:Hloop.
    apply client_manager_expire_loop_spec in Hloop.
    destruct Hloop as (Hcs & _ & _ & _ & _ & _ & _ & Hcnt).
    specialize (Hcnt ltac:(lia)).
    assert (Hlen : (List.length cs' <= List.length (clients m))%nat)
      by (rewrite Hcs; apply filter_length_le).
    splits; auto. intros _. apply Hfin; [|reflexivity]. unfold manager_ok.
    cbn [clients num_clients client_max_connections
         client_max_output_buffer_size set_clients set_num_clients].
    splits; try lia.
    rewrite Hcs. apply Forall_forall. intros c Hin.
    apply filter_In in Hin. destruct Hin as [Hin _].
    rewrite Forall_forall in Hall. auto.
  - (* client_manager_idle_add *)
    pose proof (client_manager_idle_add_ok (client_max_output_buffer_size m)
                  idle_names (clients m) Hcap w flags) as Hok.
    pose proof (client_manager_idle_add_input
                  (client_max_output_buffer_size m) idle_names (clients m)
                  w flags) as Hin.
    destruct (client_manager_idle_add (client_max_output_buffer_size m)
                idle_names w (clients m) flags) as [w' cs'].
    cbn [snd] in Hok, Hin.
    apply Forall_and_inv in Hall. destruct Hall as [Hall1 Hall2].
    specialize (Hok Hall1). destruct (Hin Hall2) as [Hin' Hlen].
    splits; auto. intros _. apply Hfin; [|reflexivity]. unfold manager_ok.
    cbn [clients num_clients client_max_connections
         client_max_output_buffer_size set_clients].
    splits; try lia. now apply Forall_and.
Qed.

Lemma manager_invariants_are_kept_witness :
  output_cap_ok (client_max_output_buffer_size sample_manager) /\
  command_respects (client_max_output_buffer_size sample_manager)
    accept_command /\
  command_list_respects (client_max_output_buffer_size sample_manager)
    accept_list /\
  manager_ok sample_manager /\
  let '(ret, w', m') :=
    run_manager_op never_set "0.14.0" 31 mpd_idle_names accept_command
      accept_list op_expire later_world sample_manager in
  (ret = 0 \/ ret = COMMAND_RETURN_KILL) /\
  client_max_connections m' = client_max_connections sample_manager /\
  client_max_output_buffer_size m'
  = client_max_output_buffer_size sample_manager /\
  (ret = 0 ->
   manager_ok m' /\
   Z.of_nat (List.length (clients m'))
   <= client_max_connections sample_manager).
Proof.
  split; [exact default_cap_range|].
  split; [apply accept_command_respects|].
  split; [apply accept_list_respects|].
  split; [exact sample_manager_ok|].
  apply (manager_invariants_are_kept never_set "0.14.0" 31 mpd_idle_names
           accept_command accept_list op_expire later_world sample_manager).
  - exact default_cap_range.
  - apply accept_command_respects.
  - apply accept_list_respects.
  - exact sample_manager_ok.
Defined.

(** X20: a round of I/O leaves alone the clients that [select] did not
    report. When the loop of [client_manager_io] returns 0, a client
    that is not expired is removed only if its descriptor is in the
    read set (its read returned CLOSE), and one whose descriptor is in
    neither set is still there, in its place and unchanged. An expired
    client is never served: it stays as it is, unless [FD_ISSET] on its
    descriptor -1 finds the read set positive, in which case it is
    closed and removed. *)
Theorem client_manager_io_touches_ready_only
    (invalid : Z -> fd_set -> bool) (cap list_cap : Z)
    (command_process : world -> client -> string -> Z * world * client)
    (command_process_list :
       world -> client -> Z -> list string -> Z * world * client)
    (rfds wfds : fd_set) (w : world) (n : Z) (cs : list client) :
  let '(ret, w', n', cs') :=
    client_manager_io_loop invalid cap list_cap command_process
      command_process_list rfds wfds w n cs in
  ret = 0 -> io_round invalid rfds wfds cs cs'.
Proof.
  revert w n. induction cs as [|c rest IH]; intros w n.
  - simpl. intros _. constructor.
  - cbn [client_manager_io_loop]. cbv zeta.
    destruct (FD_ISSET invalid (fd c) rfds) eqn:Hr.
    + pose proof (client_read_expired cap list_cap command_process
                    command_process_list w c) as Hdead.
      apply FD_ISSET_reported in Hr.
      destruct (client_read cap list_cap command_process
                  command_process_list w c) as [[r w1] c1].
      cbn [fst] in Hdead.
      destruct (r =? COMMAND_RETURN_KILL);
        [intros H; vm_compute in H; discriminate H|].
      destruct (Z.eqb_spec r COMMAND_RETURN_CLOSE) as [Hclose|Hopen].
      * destruct (client_close w1 n c1) as [w2 n2].
        specialize (IH w2 n2).
        destruct (client_manager_io_loop invalid cap list_cap
                    command_process command_process_list rfds wfds w2 n2
                    rest) as [[[ret w3] n3] rest'].
        intros H0. apply io_round_closed; auto.
      * destruct (if negb (client_is_expired (set_lastTime c1 (now w1)))
                     && FD_ISSET invalid (fd (set_lastTime c1 (now w1)))
                          wfds
                  then let '(w0, c0) :=
                         client_write_deferred w1
                           (set_lastTime c1 (now w1)) in
                       (w0, set_lastTime c0 (now w0))
                  else (w1, set_lastTime c1 (now w1))) as [w2 c2].
        specialize (IH w2 n).
        destruct (client_manager_io_loop invalid cap list_cap
                    command_process command_process_list rfds wfds w2 n
                    rest) as [[[ret w3] n3] rest'].
        intros H0. apply io_round_kept; auto.
        -- intros He. unfold client_is_expired in He.
           apply Z.ltb_lt in He. specialize (Hdead He). contradiction.
        -- intros Hn. contradiction.
    + apply FD_ISSET_not_reported in Hr.
      destruct (negb (client_is_expired c) && FD_ISSET invalid (fd c) wfds)
        eqn:Hw.
      * apply andb_true_iff in Hw. destruct Hw as [Hlive Hw].
        apply negb_true_iff in Hlive. apply FD_ISSET_reported in Hw.
        destruct (client_write_deferred w c) as [w1 c1].
        specialize (IH w1 n).
        destruct (client_manager_io_loop invalid cap list_cap
                    command_process command_process_list rfds wfds w1 n
                    rest) as [[[ret w3] n3] rest'].
        intros H0. apply io_round_kept; auto.
        -- intros He. congruence.
        -- intros _ Hn. contradiction.
      * specialize (IH w n).
        destruct (client_manager_io_loop invalid cap list_cap
                    command_process command_process_list rfds wfds w n
                    rest) as [[[ret w3] n3] rest'].
        intros H0. apply io_round_kept; auto.
Qed.

Lemma client_manager_io_touches_ready_only_witness :
  let '(ret, w', n', cs') :=
    client_manager_io_loop bit_63 default_cap default_list_cap
      accept_command accept_list [8; 63] [] ping_world 3 sample_registry in
  ret = 0 /\ io_round bit_63 [8; 63] [] sample_registry cs'.
Proof.
  pose proof (client_manager_io_touches_ready_only bit_63 default_cap
                default_list_cap accept_command accept_list [8; 63] []
                ping_world 3 sample_registry) as H.
  assert (H0 : fst (fst (fst (client_manager_io_loop bit_63 default_cap
                                default_list_cap accept_command accept_list
                                [8; 63] [] ping_world 3 sample_registry)))
               = 0) by (vm_compute; reflexivity).
  destruct (client_manager_io_loop bit_63 default_cap default_list_cap
              accept_command accept_list [8; 63] [] ping_world 3
              sample_registry) as [[[ret w'] n'] cs'].
  cbn [fst] in H0. split; [exact H0 | exact (H H0)].
Defined.

(** The busy client on descriptor 8 is read and answered and the parked
    client is as it was. The expired client is as it was under a
    library that finds descriptor -1 never set; under one that reads
    the bit of descriptor 63 for it, it is closed and removed when
    descriptor 63 is readable. *)
Example io_round_sample_registry :
  let '(ret, w', n', cs') :=
    client_manager_io_loop never_set default_cap default_list_cap
      accept_command accept_list [8; 63] [] ping_world 3 sample_registry in
  ret = 0 /\ n' = 3 /\ map fd cs' = [7; 8; -1] /\
  nth_error cs' 0 = Some parked_client /\
  nth_error cs' 2 = Some expired_client /\
  string_of_list_ascii (delivered 8 w') = ("OK" ++ newline_string)%string.
Proof. vm_compute. repeat split; reflexivity. Qed.

Example io_round_expired_client_removed :
  let '(ret, w', n', cs') :=
    client_manager_io_loop bit_63 default_cap default_list_cap
      accept_command accept_list [8; 63] [] ping_world 3 sample_registry in
  ret = 0 /\ n' = 2 /\ map fd cs' = [7; 8] /\
  nth_error cs' 0 = Some parked_client /\
  string_of_list_ascii (delivered 8 w') = ("OK" ++ newline_string)%string.
Proof. vm_compute. repeat split; reflexivity. Qed.

(** X21: which descriptors the manager hands to [select]; [In s fds]
    says that the descriptor [s] is set in [fds]. A descriptor is in
    the write set exactly when it belongs to a client that is not
    expired and has output queued; it is in the read set exactly when
    it is a listening socket or belongs to a client that is not expired
    and has nothing queued. So a client with queued output is not read
    from until its queue is drained, and an expired client is in
    neither set. [fdmax] only grows and bounds the descriptor of every
    live client. For a valid descriptor [FD_ISSET] tells just this
    membership. *)
Theorem register_fd_sets_by_queue
    (addListenSocketsToFdSet : fd_set -> Z -> fd_set * Z)
    (m : manager) (fdmax : Z) :
  let '(rfds, rmax) :=
    client_manager_register_read_fd addListenSocketsToFdSet m fdmax in
  let '(wfds, wmax) := client_manager_register_write_fd m rmax in
  let '(lfds, lmax) := addListenSocketsToFdSet FD_ZERO fdmax in
  (forall s, In s rfds <->
     In s lfds \/
     exists c, In c (clients m) /\ fd c = s /\ 0 <= fd c
               /\ deferred_send c = []) /\
  (forall s, In s wfds <->
     exists c, In c (clients m) /\ fd c = s /\ 0 <= fd c
               /\ deferred_send c <> []) /\
  lmax <= rmax <= wmax /\
  (forall c, In c (clients m) -> 0 <= fd c -> fd c <= wmax) /\
  (forall invalid s fds,
     0 <= s -> (FD_ISSET invalid s fds = true <-> In s fds)).
Proof.
  unfold client_manager_register_read_fd, client_manager_register_write_fd.
  destruct (addListenSocketsToFdSet FD_ZERO fdmax) as [lfds lmax].
  destruct (register_read_loop (clients m) lfds lmax) as [rfds rmax] eqn:Hr.
  destruct (register_write_loop (clients m) FD_ZERO rmax)
    as [wfds wmax] eqn:Hw.
  apply register_read_loop_spec in Hr. destruct Hr as (Hrin & Hrmax & Hrle).
  apply register_write_loop_spec in Hw. destruct Hw as (Hwin & Hwmax & Hwle).
  splits; try lia.
  - exact Hrin.
  - intros s. rewrite Hwin. split; [|auto].
    intros [[]|H]. exact H.
  - intros c Hin Hlive.
    destruct (deferred_send c) as [|b q] eqn:Hq.
    + specialize (Hrle c Hin Hlive Hq). lia.
    + apply Hwle; auto. rewrite Hq. discriminate.
  - intros invalid s fds Hs. unfold FD_ISSET.
    destruct (Z.ltb_spec s 0); [lia|]. apply existsb_eqb_In.
Qed.

(** ** Configuration *)

(** X22: the check of [max_connections] does not reject negative
    numbers. The value [strtol] returns is stored in an [unsigned int]
    before it is compared with 0, so a negative value above [-2^32]
    passes the test that is reported as "not a positive integer" and
    the connection limit becomes [2^32 + value]; the manager is
    otherwise unchanged. *)
Theorem max_connections_check_is_unsigned (m : manager) (v : Z) :
  - 2 ^ UINT_WIDTH < v < 0 ->
  client_manager_init m None (Some (mkParam v "")) None None
  = inl (set_client_max_connections m (2 ^ UINT_WIDTH + v)).
Proof.
  intros Hv. unfold client_manager_init.
  cbn [strtol_value strtol_rest is_empty_string negb orb
       client_max_connections set_client_max_connections].
  assert (Hu : uint v = 2 ^ UINT_WIDTH + v).
  { unfold uint. symmetry. apply (Z.mod_unique v _ (-1)); lia. }
  rewrite Hu. destruct (Z.leb_spec (2 ^ UINT_WIDTH + v) 0); [lia|].
  reflexivity.
Qed.

Lemma max_connections_check_is_unsigned_witness :
  - 2 ^ UINT_WIDTH < -1 < 0 /\
  client_manager_init manager_start None (Some (mkParam (-1) "")) None None
  = inl (set_client_max_connections manager_start (2 ^ UINT_WIDTH + -1)).
Proof.
  assert (H : - 2 ^ UINT_WIDTH < -1 < 0) by (vm_compute; auto).
  split; [exact H|].
  exact (max_connections_check_is_unsigned manager_start (-1) H).
Defined.

(** X23: a configuration that [client_manager_init] accepts gives
    tunables under which the invariants make sense. Starting from the
    variables as the program starts, with values [strtol] can return
    and size parameters whose product by 1024 fits a [long], a return
    without FATAL leaves an empty registry that satisfies the registry
    invariants, a positive timeout and connection limit, a positive
    command list limit, and an output cap that is positive and below
    the bound the accounting needs; a size parameter is taken in
    KiB. *)
Theorem client_manager_init_gives_usable_tunables
    (conn_timeout max_conn max_command_list_size max_output_buffer_size
       : option config_param) (m' : manager) :
  (forall p, In (Some p) [max_command_list_size; max_output_buffer_size] ->
     strtol_value p * 1024 < 2 ^ 63) ->
  client_manager_init manager_start conn_timeout max_conn
    max_command_list_size max_output_buffer_size = inl m' ->
  manager_ok m' /\ clients m' = [] /\
  0 < client_timeout m' < 2 ^ 31 /\
  0 < client_max_connections m' < 2 ^ UINT_WIDTH /\
  0 < client_max_command_list_size m' /\
  0 < client_max_output_buffer_size m' /\
  output_cap_ok (client_max_output_buffer_size m') /\
  (forall p, max_command_list_size = Some p ->
     client_max_command_list_size m' = strtol_value p * 1024) /\
  (forall p, max_output_buffer_size = Some p ->
     client_max_output_buffer_size m' = strtol_value p * 1024).
Proof.
  intros Hmul H. apply client_manager_init_inl in H.
  destruct H as (Hcs & Hn & _ & Ht & Hc & Hl & Ho & Ht' & Hc' & Hl' & Ho').
  simpl in Hcs, Hn.
  assert (Hsize : forall p, strtol_value p * 1024 < 2 ^ 63 ->
            0 < strtol_value p ->
            size_t (strtol_value p * 1024) = strtol_value p * 1024).
  { intros p Hp Hpos. apply size_t_small. unfold SIZE_WIDTH. lia. }
  assert (Htime : 0 < client_timeout m' < 2 ^ 31).
  { rewrite Ht. destruct conn_timeout as [p|].
    - pose proof (int_of_long_range (strtol_value p)).
      destruct (Ht' p eq_refl). lia.
    - vm_compute. auto. }
  assert (Hconn : 0 < client_max_connections m' < 2 ^ UINT_WIDTH).
  { rewrite Hc. destruct max_conn as [p|].
    - pose proof (uint_range (strtol_value p)).
      destruct (Hc' p eq_refl). lia.
    - vm_compute. auto. }
  assert (Hlist : 0 < client_max_command_list_size m' /\
                  forall p, max_command_list_size = Some p ->
                    client_max_command_list_size m' = strtol_value p * 1024).
  { rewrite Hl. destruct max_command_list_size as [p|].
    - destruct (Hl' p eq_refl) as [_ Hpos].
      rewrite Hsize by (auto; apply Hmul; simpl; auto).
      split; [lia|]. now intros p' [= <-].
    - split; [vm_compute; auto | discriminate]. }
  assert (Hout : 0 < client_max_output_buffer_size m' < 2 ^ 63 /\
                 forall p, max_output_buffer_size = Some p ->
                   client_max_output_buffer_size m' = strtol_value p * 1024).
  { rewrite Ho. destruct max_output_buffer_size as [p|].
    - destruct (Ho' p eq_refl) as [_ Hpos].
      assert (Hp : strtol_value p * 1024 < 2 ^ 63)
        by (apply Hmul; simpl; auto).
      rewrite Hsize by auto.
      split; [lia|]. now intros p' [= <-].
    - split; [vm_compute; auto | discriminate]. }
  destruct Hlist as [Hlist1 Hlist2]. destruct Hout as [Hout1 Hout2].
  splits; auto; try lia.
  - unfold manager_ok. rewrite Hcs, Hn. simpl.
    splits; try lia. constructor.
  - unfold output_cap_ok, SIZE_WIDTH. rewrite deferred_overhead_eq.
    unfold sizeof_send_buf. lia.
Qed.

Lemma client_manager_init_gives_usable_tunables_witness :
  (forall p, In (Some p) [Some four_mebibytes; None] ->
     strtol_value p * 1024 < 2 ^ 63) /\
  client_manager_init manager_start (Some two_minutes) None
    (Some four_mebibytes) None = inl configured_manager /\
  manager_ok configured_manager /\ clients configured_manager = [] /\
  0 < client_timeout configured_manager < 2 ^ 31 /\
  0 < client_max_connections configured_manager < 2 ^ UINT_WIDTH /\
  0 < client_max_command_list_size configured_manager /\
  0 < client_max_output_buffer_size configured_manager /\
  output_cap_ok (client_max_output_buffer_size configured_manager) /\
  (forall p, Some four_mebibytes = Some p ->
     client_max_command_list_size configured_manager
     = strtol_value p * 1024) /\
  (forall p, @None config_param = Some p ->
     client_max_output_buffer_size configured_manager
     = strtol_value p * 1024).
Proof.
  assert (Hmul : forall p, In (Some p) [Some four_mebibytes; None] ->
                   strtol_value p * 1024 < 2 ^ 63).
  { intros p [[= <-]|[H|[]]]; [vm_compute; reflexivity | discriminate H]. }
  split; [exact Hmul|]. split; [reflexivity|].
  exact (client_manager_init_gives_usable_tunables (Some two_minutes) None
           (Some four_mebibytes) None configured_manager Hmul eq_refl).
Defined.

(** A value with trailing text and a value of zero end the program, on
    the first parameter that fails. *)
Example client_manager_init_fatal :
  client_manager_init manager_start (Some (mkParam 60 "s")) None None None
  = inr CONF_CONN_TIMEOUT /\
  client_manager_init manager_start (Some two_minutes)
    (Some (mkParam 0 "")) (Some (mkParam (-1) "")) None
  = inr CONF_MAX_CONN /\
  client_manager_init manager_start None None None (Some (mkParam 0 ""))
  = inr CONF_MAX_OUTPUT_BUFFER_SIZE.
Proof. repeat split; reflexivity. Qed.
